(** * llama.cpp: a shallow embedding of the inference core

    The development follows [llama.cpp] component by component: the
    file loader's magic detection, the score-ranked tokenizer, the
    sampler, the quantizer's per-tensor decision and the session API
    (evaluation counters, token lookup, state serialisation), then
    the reading and writing of model files: checked sizes, the shards
    of a tensor, the file loader and saver, the model loader,
    [llama_model_load_internal] and [llama_model_quantize_internal].

    Conventions.
    - C++ [float] is IEEE-754 binary32, modelled by [spec_float] with
      precision 24 and maximal exponent 128 (round to nearest even).
    - [size_t] is 64 bits wide, [int] and [int32_t] are 32 bits wide.
    - An out-of-bounds read, a failed [LLAMA_ASSERT] and a thrown
      exception are explicit outcomes, never silently defaulted. *)

From Stdlib Require Import ZArith List Bool Lia ZifyNat String Ascii.
From Stdlib.Strings Require Import Byte.
From Stdlib Require Import SpecFloat.
From Stdlib Require Import DecimalString.
From stdpp Require Import base option list gmap strings.

Local Open Scope Z_scope.

(* ===================================================================== *)
(** * Part I: the model                                                   *)
(* ===================================================================== *)

(** ** Outcomes of fallible code *)

(** The failure kinds that matter for the modelled paths.  [IoError] is
    a short read, [BadMagic] the exception of [read_magic],
    [UnsupportedType] the exception of the quantizer on an already
    quantized input, [AssertFailed] a violated [LLAMA_ASSERT] and
    [OutOfBounds] an access outside a vector, string or buffer and
    [DivisionByZero] an integer division by zero (both undefined
    behaviour in the source), [AllocFailed] a request for a negative
    number of elements.  [FuelExhausted] belongs to the model
    alone: loops run on a step budget, and the budgets handed out below
    are shown to be enough. *)
Inductive error : Type :=
  | IoError
  | BadMagic
  | UnsupportedType
  | AssertFailed
  | OutOfBounds
  | DivisionByZero
  | AllocFailed
  | FuelExhausted.

Inductive result (A : Type) : Type :=
  | Ok (a : A)
  | Err (e : error).

Arguments Ok {A} a.
Arguments Err {A} e.

Definition rbind {A B : Type} (r : result A) (k : A -> result B) : result B :=
  match r with
  | Ok a => k a
  | Err e => Err e
  end.

Notation "'let*' x ':=' r 'in' k" := (rbind r (fun x => k))
  (at level 10, x pattern, r at level 100, k at level 200).

Definition of_option {A : Type} (e : error) (o : option A) : result A :=
  match o with
  | Some a => Ok a
  | None => Err e
  end.

(** A call that succeeds with the return value [a], whatever state
    it leaves behind. *)
Definition returns {A B : Type} (r : result (A * B)) (a : A) : Prop :=
  exists b, r = Ok (a, b).

Definition LLAMA_ASSERT (b : bool) : result unit :=
  if b then Ok tt else Err AssertFailed.

(** ** Machine integers *)

Definition wrap (bits : Z) (z : Z) : Z := z mod 2 ^ bits.

(** [size_t] arithmetic wraps modulo [2^64]. *)
Definition size_t (z : Z) : Z := wrap 64 z.

(** The conversion of a value to [int]: reduction modulo [2^32] into
    the signed range. *)
Definition to_int (z : Z) : Z :=
  let w := wrap 32 z in if w <? 2 ^ 31 then w else w - 2 ^ 32.

Definition INT_MAX : Z := 2 ^ 31 - 1.
Definition npos : Z := 2 ^ 64 - 1.

(** ** Vectors and arrays *)

(** [v[i]]: an index outside the vector is undefined behaviour. *)
Definition vec_at {A : Type} (v : list A) (i : Z) : result A :=
  if 0 <=? i then of_option OutOfBounds (v !! Z.to_nat i)
  else Err OutOfBounds.

(** [v[i] = f(v[i])]. *)
Definition vec_update {A : Type} (v : list A) (i : Z) (f : A -> A) : result (list A) :=
  let* x := vec_at v i in Ok (<[Z.to_nat i := f x]> v).

(** ** Single-precision floats *)

Module F32.

Definition float : Type := spec_float.

Definition prec : Z := 24.
Definition emax : Z := 128.

Definition mul : float -> float -> float := SFmul prec emax.
Definition div : float -> float -> float := SFdiv prec emax.
Definition ltb : float -> float -> bool := SFltb.
Definition leb : float -> float -> bool := SFleb.
Definition eqb : float -> float -> bool := SFeqb.
Definition gtb (x y : float) : bool := SFltb y x.

(** The binary32 value nearest to an integer. *)
Definition of_Z (z : Z) : float := binary_normalize prec emax z 0 false.

Definition sub : float -> float -> float := SFsub prec emax.

Definition zero : float := S754_zero false.
Definition one : float := of_Z 1.

(** The object representation: sign, biased exponent and fraction
    packed into 32 bits (a NaN is written as the default quiet NaN). *)
Definition to_bits (x : float) : Z :=
  match x with
  | S754_zero s => if s then 2 ^ 31 else 0
  | S754_infinity s => (if s then 2 ^ 31 else 0) + 255 * 2 ^ 23
  | S754_nan => 255 * 2 ^ 23 + 2 ^ 22
  | S754_finite s m e =>
      (if s then 2 ^ 31 else 0)
      + (if Zpos m <? 2 ^ 23 then Zpos m
         else (e + 150) * 2 ^ 23 + (Zpos m - 2 ^ 23))
  end.

Definition of_bits (z : Z) : float :=
  let s := 2 ^ 31 <=? z in
  let bexp := (z / 2 ^ 23) mod 2 ^ 8 in
  let frac := z mod 2 ^ 23 in
  if bexp =? 255 then
    if frac =? 0 then S754_infinity s else S754_nan
  else if bexp =? 0 then
    match frac with
    | Zpos m => S754_finite s m (-149)
    | _ => S754_zero s
    end
  else
    match frac + 2 ^ 23 with
    | Zpos m => S754_finite s m (bexp - 150)
    | _ => S754_nan
    end.

End F32.

(** ** Double precision, as far as the sampler uses it *)

Module F64.

Definition prec : Z := 53.
Definition emax : Z := 1024.

Definition add : spec_float -> spec_float -> spec_float := SFadd prec emax.
Definition div : spec_float -> spec_float -> spec_float := SFdiv prec emax.

(** Conversion of a [float] to [double] (exact). *)
Definition of_f32 (x : spec_float) : spec_float :=
  match x with
  | S754_finite s m e => binary_normalize prec emax (cond_Zopp s (Zpos m)) e s
  | _ => x
  end.

(** Conversion of a [double] to [float] (rounding). *)
Definition to_f32 (x : spec_float) : spec_float :=
  match x with
  | S754_finite s m e =>
      binary_normalize F32.prec F32.emax (cond_Zopp s (Zpos m)) e s
  | _ => x
  end.

Definition zero : spec_float := S754_zero false.
Definition one : spec_float := binary_normalize prec emax 1 0 false.

End F64.

Abbreviation float := F32.float.

(** The outcome of two comparisons in a row, neither of them [Gt]: equal
    when both are, below otherwise. *)
Definition chain (x y : comparison) : comparison :=
  match x, y with
  | Eq, Eq => Eq
  | _, _ => Lt
  end.

(** ** Bytes and strings *)

Definition byte_val (b : byte) : Z := Z.of_N (Byte.to_N b).

(** A [std::string] is a sequence of bytes; a Rocq [string] is the same
    thing, one [ascii] per byte. *)
Definition char_val (c : ascii) : Z := Z.of_N (N_of_ascii c).

Definition byte_of_Z (z : Z) : byte :=
  match Byte.of_N (Z.to_N (z mod 256)) with
  | Some b => b
  | None => x00
  end.

Definition bytes_of_string (s : string) : list byte :=
  map byte_of_ascii (list_ascii_of_string s).

Definition string_of_bytes (bs : list byte) : string :=
  string_of_list_ascii (map ascii_of_byte bs).

(** Little-endian object representations, [k] bytes wide. *)
Fixpoint le_encode (k : nat) (z : Z) : list byte :=
  match k with
  | O => []
  | S k' => byte_of_Z z :: le_encode k' (z / 256)
  end.

Definition le_decode (bs : list byte) : Z :=
  fold_right (fun b acc => byte_val b + 256 * acc) 0 bs.

Definition f32_bytes (x : float) : list byte := le_encode 4 (F32.to_bits x).

Definition floats_bytes (xs : list float) : list byte := flat_map f32_bytes xs.

Fixpoint floats_of_bytes (k : nat) (bs : list byte) : list float :=
  match k with
  | O => []
  | S k' => F32.of_bits (le_decode (take 4 bs)) :: floats_of_bytes k' (drop 4 bs)
  end.

(** ** What the standard library and the tensor library provide *)

(** The C++ standard library, as far as the modelled code calls it. *)
Class StdLib : Type := {
  (** [std::mt19937] *)
  mt19937 : Type;
  (** [stream << rng]: the textual form of the generator state *)
  rng_print : mt19937 -> string;
  (** [stream >> rng]: [None] when the stream's fail bit is set *)
  rng_parse : string -> option mt19937;
  (** [std::discrete_distribution<>(probs)(rng)] *)
  discrete_distribution : list spec_float -> mt19937 -> Z * mt19937;
  expf : float -> float;
  (** [std::partial_sort(first, first + k, last, by first, descending)] *)
  partial_sort : list (float * Z) -> Z -> list (float * Z)
}.

(** What the standard guarantees about the textual form of a
    generator: it fits the 64 KiB the state blob reserves for it, and
    reading it back restores the generator. *)
Class StdLibLaws `{StdLib} : Prop := {
  rng_print_fits : forall r, Z.of_nat (String.length (rng_print r)) <= 64 * 1024;
  rng_parse_print : forall r, rng_parse (rng_print r) = Some r
}.

Inductive ggml_type : Type :=
  | GGML_TYPE_F32
  | GGML_TYPE_F16
  | GGML_TYPE_Q4_0
  | GGML_TYPE_Q4_1.

(** The result of building and running the graph of one evaluation:
    the new contents of the KV buffer, the data of the output tensor
    ([n_vocab * N] floats), the data of the final hidden state
    ([n_embd * N] floats) and the memory the graph context used. *)
Record graph_result : Type := {
  gr_kv_buf : list byte;
  gr_inpL : list float;
  gr_embeddings : list float;
  gr_used_mem : Z
}.

(** The tensor library (ggml). *)
Class Ggml : Type := {
  (** weights of a loaded model *)
  weights : Type;
  (** the forward pass over [tokens] with [n_past] positions cached *)
  ggml_graph_compute : weights -> list byte -> list Z -> Z -> Z -> graph_result;
  ggml_cpu_has_blas : bool;
  ggml_fp16_to_fp32 : list byte -> float;
  (** the quantization kernels: data, element count, row width *)
  ggml_quantize_q4_0 : list float -> Z -> Z -> list byte;
  ggml_quantize_q4_1 : list float -> Z -> Z -> list byte
}.

(** ** The file loader: [llama_file_loader::read_magic] *)

Module Loader.

Inductive llama_file_version : Type :=
  | LLAMA_FILE_VERSION_GGML
  | LLAMA_FILE_VERSION_GGMF_V1
  | LLAMA_FILE_VERSION_GGJT_V1.

(** A file opened for reading: the bytes that are still ahead of the
    read position. *)
Definition llama_file : Type := list byte.

(** Modelled from the spec: [llama_file::read_u32] lives in
    [llama_util.h], which is not part of the sources at hand.  The
    spec fixes the format as little-endian throughout and names
    [IoError] as the failure kind of the wrapper, so a 32-bit read
    takes four bytes, least significant first, and fails on a file
    that is too short. *)
Definition le32 (b0 b1 b2 b3 : byte) : Z :=
  byte_val b0 + 2 ^ 8 * byte_val b1 + 2 ^ 16 * byte_val b2 + 2 ^ 24 * byte_val b3.

Definition read_u32 (f : llama_file) : result (Z * llama_file) :=
  match f with
  | b0 :: b1 :: b2 :: b3 :: rest => Ok (le32 b0 b1 b2 b3, rest)
  | _ => Err IoError
  end.

(** A multi-character literal such as ['ggml'] packs its characters
    most significant first (the value GCC, Clang and MSVC give it). *)
Definition multichar (c3 c2 c1 c0 : byte) : Z :=
  2 ^ 24 * byte_val c3 + 2 ^ 16 * byte_val c2
  + 2 ^ 8 * byte_val c1 + byte_val c0.

Definition magic_ggml : Z := multichar "g" "g" "m" "l".
Definition magic_ggmf : Z := multichar "g" "g" "m" "f".
Definition magic_ggjt : Z := multichar "g" "g" "j" "t".

Definition read_magic (f : llama_file) : result (llama_file_version * llama_file) :=
  let* (magic, f) := read_u32 f in
  let* (version, f) :=
    (if negb (magic =? magic_ggml) then read_u32 f else Ok (0, f)) in
  if (magic =? magic_ggml) && (version =? 0) then
    Ok (LLAMA_FILE_VERSION_GGML, f)
  else if (magic =? magic_ggmf) && (version =? 1) then
    Ok (LLAMA_FILE_VERSION_GGMF_V1, f)
  else if (magic =? magic_ggjt) && (version =? 1) then
    Ok (LLAMA_FILE_VERSION_GGJT_V1, f)
  else
    Err BadMagic.

(** The header prefixes that the loader recognises, as they lie in
    the file: the magic with its least significant character first,
    then (for the versioned formats) the version [1]. *)
Definition header_ggml : list byte := [x6c; x6d; x67; x67]%byte.
Definition header_ggmf_v1 : list byte :=
  [x66; x6d; x67; x67; x01; x00; x00; x00]%byte.
Definition header_ggjt_v1 : list byte :=
  [x74; x6a; x67; x67; x01; x00; x00; x00]%byte.

Fixpoint starts_with (p f : list byte) : bool :=
  match p, f with
  | [], _ => true
  | c :: p', b :: f' => Byte.eqb c b && starts_with p' f'
  | _ :: _, [] => false
  end.

(** The verdict on a file, read off its leading bytes: the statement
    of the magic detection against which [read_magic] is compared. *)
Definition header_verdict (f : llama_file) : result (llama_file_version * llama_file) :=
  if starts_with header_ggml f then
    Ok (LLAMA_FILE_VERSION_GGML, drop 4 f)
  else if starts_with header_ggmf_v1 f then
    Ok (LLAMA_FILE_VERSION_GGMF_V1, drop 8 f)
  else if starts_with header_ggjt_v1 f then
    Ok (LLAMA_FILE_VERSION_GGJT_V1, drop 8 f)
  else if (8 <=? Z.of_nat (length f)) then Err BadMagic
  else Err IoError.

End Loader.

(** ** The tokenizer *)

(** [llama_vocab]: the token table and its inverse. *)
Module llama_vocab.

Record token_score : Type := { tok : string; score : float }.

Record t : Type := {
  token_to_id : gmap string Z;
  id_to_token : list token_score
}.

End llama_vocab.

Module llama_sp_symbol.

(** [text] is the offset of the symbol's first byte in the tokenized
    string (a pointer into it in the source), [n] its length in bytes,
    [prev] and [next] the neighbours in the symbol chain, [-1] at the
    ends. *)
Record t : Type := { prev : Z; next : Z; text : Z; n : Z }.

Definition set_prev (v : Z) (s : t) : t :=
  {| prev := v; next := next s; text := text s; n := n s |}.
Definition set_next (v : Z) (s : t) : t :=
  {| prev := prev s; next := v; text := text s; n := n s |}.
Definition set_n (v : Z) (s : t) : t :=
  {| prev := prev s; next := next s; text := text s; n := v |}.

End llama_sp_symbol.

Module llama_sp_bigram.

Record t : Type := { left : Z; right : Z; score : float; size : Z }.

(** [comparator(l, r)] is the "less than" of the work queue: [l] ranks
    below [r] when its score is smaller, or the scores are equal and
    its left index is larger. *)
Definition comparator (l r : t) : bool :=
  F32.ltb (score l) (score r)
  || (F32.eqb (score l) (score r) && (left l >? left r)).

(** [std::priority_queue<llama_sp_bigram, queue_storage, comparator>]:
    the vector of the pending entries, kept as a binary heap by
    [std::push_heap] and [std::pop_heap].  The C++ standard fixes the
    interface and libstdc++ (bits/stl_heap.h) the algorithm, which is
    the one modelled: the entry at index [i] has its parent at index
    [(i - 1) / 2], and [top] is the entry at index 0. *)
Definition queue : Type := list t.

(** [std::__push_heap(first, holeIndex, topIndex, value, comp)]:
    [while (holeIndex > topIndex && comp(first + parent, value))] the
    parent moves down into the hole; the value lands in the hole that
    is left.  The hole index halves at every turn, so [fuel] of the
    hole index is enough. *)
Fixpoint push_heap (fuel : nat) (first : list t) (holeIndex topIndex : nat)
    (value : t) : list t :=
  let parent := ((holeIndex - 1) / 2)%nat in
  match fuel with
  | O => <[holeIndex := value]> first
  | S fuel' =>
      if (topIndex <? holeIndex)%nat && comparator (nth parent first value) value
      then
        push_heap fuel' (<[holeIndex := nth parent first value]> first)
          parent topIndex value
      else <[holeIndex := value]> first
  end.

(** [push]: [c.push_back(x)] and [std::push_heap(c.begin(), c.end(), comp)]. *)
Definition push (b : t) (q : queue) : queue :=
  push_heap (length q) (q ++ [b]) (length q) 0 b.

(** The first loop of [std::__adjust_heap(first, holeIndex, len, value,
    comp)]: [while (secondChild < (len - 1) / 2)] the larger child of
    the hole (the right one unless it ranks below the left one) moves
    up into the hole.  The result is the vector and the index of the
    hole. *)
Fixpoint adjust_heap_loop (fuel : nat) (first : list t) (secondChild len : nat)
    (value : t) : list t * nat :=
  match fuel with
  | O => (first, secondChild)
  | S fuel' =>
      if (secondChild <? (len - 1) / 2)%nat then
        let holeIndex := secondChild in
        let secondChild := (2 * (secondChild + 1))%nat in
        let secondChild :=
          if comparator (nth secondChild first value)
               (nth (secondChild - 1) first value)
          then (secondChild - 1)%nat else secondChild in
        adjust_heap_loop fuel' (<[holeIndex := nth secondChild first value]> first)
          secondChild len value
      else (first, secondChild)
  end.

(** [std::__adjust_heap(first, 0, len, value, comp)]: the loop, then
    the case of a last node with a left child only, then
    [std::__push_heap] from the hole that was reached. *)
Definition adjust_heap (first : list t) (len : nat) (value : t) : list t :=
  let (first, holeIndex) := adjust_heap_loop len first 0 len value in
  let (first, holeIndex) :=
    if Nat.even len && (holeIndex =? (len - 2) / 2)%nat then
      let secondChild := (2 * (holeIndex + 1))%nat in
      (<[holeIndex := nth (secondChild - 1) first value]> first,
       (secondChild - 1)%nat)
    else (first, holeIndex) in
  push_heap holeIndex first holeIndex 0 value.

(** [top] followed by [pop].  [pop] is [std::pop_heap(c.begin(),
    c.end(), comp)] and [c.pop_back()]: with more than one entry, the
    last entry is taken out, the first moves to the last slot, and
    [std::__adjust_heap] puts the value taken out back into the slots
    before it. *)
Definition pop (q : queue) : option (t * queue) :=
  match q with
  | [] => None
  | top :: _ =>
      let len := (length q - 1)%nat in
      if (1 <? length q)%nat then
        Some (top, adjust_heap (take len q) len (nth len q top))
      else Some (top, [])
  end.

(** The order that [push] and [pop] keep, for the statements about
    the queue: no entry ranks above its parent. *)
Definition is_heap (first : list t) : Prop :=
  forall (i : nat) c p,
    (0 < i)%nat -> first !! i = Some c -> first !! ((i - 1) / 2)%nat = Some p ->
    comparator p c = false.

(** The same while a value is on its way: the order away from the hole,
    the children of the hole against the value, and against the parent
    of the hole. *)
Definition heap_around (first : list t) (holeIndex : nat) : Prop :=
  forall (i : nat) c p,
    (0 < i)%nat -> i <> holeIndex -> ((i - 1) / 2)%nat <> holeIndex ->
    first !! i = Some c -> first !! ((i - 1) / 2)%nat = Some p ->
    comparator p c = false.

Definition heap_below (first : list t) (holeIndex : nat) (value : t) : Prop :=
  forall (i : nat) c,
    (0 < i)%nat -> ((i - 1) / 2)%nat = holeIndex -> first !! i = Some c ->
    comparator value c = false.

Definition heap_above (first : list t) (holeIndex : nat) : Prop :=
  forall (i : nat) c p,
    (0 < holeIndex)%nat -> (0 < i)%nat -> ((i - 1) / 2)%nat = holeIndex ->
    first !! i = Some c -> first !! ((holeIndex - 1) / 2)%nat = Some p ->
    comparator p c = false.

(** Every score is a number. *)
Definition numbers (first : list t) : Prop :=
  Forall (fun b => score b <> S754_nan) first.

End llama_sp_bigram.

Module Tokenizer.

Definition str_size (s : string) : Z := Z.of_nat (String.length s).

Definition str_at (s : string) (i : Z) : result ascii :=
  if 0 <=? i then of_option OutOfBounds (String.get (Z.to_nat i) s)
  else Err OutOfBounds.

(** [std::string(ptr + off, len)] for a pointer into [s]. *)
Definition substr (s : string) (off len : Z) : result string :=
  if (0 <=? off) && (0 <=? len) && (off + len <=? str_size s) then
    Ok (String.substring (Z.to_nat off) (Z.to_nat len) s)
  else Err OutOfBounds.

Definition utf8_len (src : ascii) : Z :=
  let lookup := [1; 1; 1; 1; 1; 1; 1; 1; 1; 1; 1; 1; 2; 2; 3; 4] in
  let highbits := Z.shiftr (char_val src) 4 in
  nth (Z.to_nat highbits) lookup 0.

Section WithVocab.

Variable vocab_ : llama_vocab.t.
Variable text : string.

(** The first loop of [tokenize]: split the string into UTF-8
    characters. *)
Fixpoint split_chars (fuel : nat) (offs index : Z)
    (symbols_ : list llama_sp_symbol.t) : result (list llama_sp_symbol.t) :=
  if offs <? str_size text then
    match fuel with
    | O => Err FuelExhausted
    | S fuel' =>
        let* c := str_at text offs in
        let char_len := Z.min (str_size text - offs) (utf8_len c) in
        let offs' := offs + char_len in
        let sym :=
          {| llama_sp_symbol.text := offs;
             llama_sp_symbol.n := char_len;
             llama_sp_symbol.prev := index - 1;
             llama_sp_symbol.next :=
               if offs' =? str_size text then -1 else index + 1 |} in
        split_chars fuel' offs' (index + 1) (symbols_ ++ [sym])
    end
  else Ok symbols_.

Definition try_add_bigram (symbols_ : list llama_sp_symbol.t)
    (work_queue_ : llama_sp_bigram.queue) (left right : Z)
    : result llama_sp_bigram.queue :=
  if (left =? -1) || (right =? -1) then Ok work_queue_
  else
    let* l := vec_at symbols_ left in
    let* r := vec_at symbols_ right in
    let* t := substr text (llama_sp_symbol.text l)
                (llama_sp_symbol.n l + llama_sp_symbol.n r) in
    match llama_vocab.token_to_id vocab_ !! t with
    | None => Ok work_queue_
    | Some id =>
        if size_t id >=? Z.of_nat (length (llama_vocab.id_to_token vocab_))
        then Ok work_queue_
        else
          let* tok_score := vec_at (llama_vocab.id_to_token vocab_) id in
          Ok (llama_sp_bigram.push
                {| llama_sp_bigram.left := left;
                   llama_sp_bigram.right := right;
                   llama_sp_bigram.score := llama_vocab.score tok_score;
                   llama_sp_bigram.size := str_size t |}
                work_queue_)
    end.

(** The second loop: [for (i = 1; i < symbols_.size(); ++i)
    try_add_bigram(i - 1, i)], with [k] iterations left. *)
Fixpoint seed_queue (k : nat) (i : Z) (symbols_ : list llama_sp_symbol.t)
    (work_queue_ : llama_sp_bigram.queue) : result llama_sp_bigram.queue :=
  match k with
  | O => Ok work_queue_
  | S k' =>
      let* q := try_add_bigram symbols_ work_queue_ (i - 1) i in
      seed_queue k' (i + 1) symbols_ q
  end.

(** The pointer surgery of one merge: the right symbol is folded into
    the left one and unlinked from the chain.  [left_sym] and
    [right_sym] are references into [symbols_], so every read below
    sees the writes before it. *)
Definition merge_symbols (symbols_ : list llama_sp_symbol.t)
    (bigram : llama_sp_bigram.t) : result (list llama_sp_symbol.t) :=
  let l := llama_sp_bigram.left bigram in
  let r := llama_sp_bigram.right bigram in
  (* left_sym.n += right_sym.n *)
  let* right_sym := vec_at symbols_ r in
  let* symbols_ :=
    vec_update symbols_ l
      (fun s => llama_sp_symbol.set_n
                  (llama_sp_symbol.n s + llama_sp_symbol.n right_sym) s) in
  (* right_sym.n = 0 *)
  let* symbols_ := vec_update symbols_ r (llama_sp_symbol.set_n 0) in
  (* left_sym.next = right_sym.next *)
  let* right_sym := vec_at symbols_ r in
  let* symbols_ :=
    vec_update symbols_ l
      (llama_sp_symbol.set_next (llama_sp_symbol.next right_sym)) in
  (* if (right_sym.next >= 0) symbols_[right_sym.next].prev = bigram.left *)
  let* right_sym := vec_at symbols_ r in
  if llama_sp_symbol.next right_sym >=? 0 then
    vec_update symbols_ (llama_sp_symbol.next right_sym)
      (llama_sp_symbol.set_prev l)
  else Ok symbols_.

(** One merge: the body of the third loop after the staleness test. *)
Definition merge (symbols_ : list llama_sp_symbol.t)
    (work_queue_ : llama_sp_bigram.queue) (bigram : llama_sp_bigram.t)
    : result (list llama_sp_symbol.t * llama_sp_bigram.queue) :=
  let l := llama_sp_bigram.left bigram in
  let* symbols_ := merge_symbols symbols_ bigram in
  (* find more substitutions *)
  let* left_sym := vec_at symbols_ l in
  let* q := try_add_bigram symbols_ work_queue_
              (llama_sp_symbol.prev left_sym) l in
  let* left_sym := vec_at symbols_ l in
  let* q := try_add_bigram symbols_ q l (llama_sp_symbol.next left_sym) in
  Ok (symbols_, q).

(** The third loop: [while (!work_queue_.empty())]. *)
Fixpoint merge_loop (fuel : nat) (symbols_ : list llama_sp_symbol.t)
    (work_queue_ : llama_sp_bigram.queue) : result (list llama_sp_symbol.t) :=
  match llama_sp_bigram.pop work_queue_ with
  | None => Ok symbols_
  | Some (bigram, q) =>
      match fuel with
      | O => Err FuelExhausted
      | S fuel' =>
          let* left_sym := vec_at symbols_ (llama_sp_bigram.left bigram) in
          let* right_sym := vec_at symbols_ (llama_sp_bigram.right bigram) in
          if (llama_sp_symbol.n left_sym =? 0)
             || (llama_sp_symbol.n right_sym =? 0)
             || negb (llama_sp_symbol.n left_sym + llama_sp_symbol.n right_sym
                      =? llama_sp_bigram.size bigram)
          then merge_loop fuel' symbols_ q
          else
            let* (symbols', q') := merge symbols_ q bigram in
            merge_loop fuel' symbols' q'
      end
  end.

(** One turn of the third loop on the entry that was taken from the
    queue: the symbols and the queue that the next turn starts from. *)
Definition merge_turn (symbols_ : list llama_sp_symbol.t)
    (q : llama_sp_bigram.queue) (bigram : llama_sp_bigram.t)
    : result (list llama_sp_symbol.t * llama_sp_bigram.queue) :=
  let* left_sym := vec_at symbols_ (llama_sp_bigram.left bigram) in
  let* right_sym := vec_at symbols_ (llama_sp_bigram.right bigram) in
  if (llama_sp_symbol.n left_sym =? 0)
     || (llama_sp_symbol.n right_sym =? 0)
     || negb (llama_sp_symbol.n left_sym + llama_sp_symbol.n right_sym
              =? llama_sp_bigram.size bigram)
  then Ok (symbols_, q)
  else merge symbols_ q bigram.

(** [merge_loop] with a record of its turns, for statements about the
    order of the merges: what the loop returns, and for every turn the
    entry that [top] gave with the queue it was the top of. *)
Fixpoint merge_loop_log (fuel : nat) (symbols_ : list llama_sp_symbol.t)
    (work_queue_ : llama_sp_bigram.queue)
    : result (list llama_sp_symbol.t)
      * list (llama_sp_bigram.t * llama_sp_bigram.queue) :=
  match llama_sp_bigram.pop work_queue_ with
  | None => (Ok symbols_, [])
  | Some (bigram, q) =>
      match fuel with
      | O => (Err FuelExhausted, [])
      | S fuel' =>
          match merge_turn symbols_ q bigram with
          | Err e => (Err e, [(bigram, work_queue_)])
          | Ok (symbols', q') =>
              let (r, log) := merge_loop_log fuel' symbols' q' in
              (r, (bigram, work_queue_) :: log)
          end
      end
  end.

(** What one surviving symbol contributes to the output: its id when
    its bytes are a vocabulary key, otherwise one id per byte. *)
Definition emit_symbol (s : string) : list Z :=
  match llama_vocab.token_to_id vocab_ !! s with
  | None => map (fun c => char_val c + 3) (list_ascii_of_string s)
  | Some id => [id]
  end.

(** The last loop: [for (int i = 0; i != -1; i = symbols_[i].next)]. *)
Fixpoint emit (fuel : nat) (symbols_ : list llama_sp_symbol.t) (i : Z)
    (output : list Z) : result (list Z) :=
  if i =? -1 then Ok output
  else
    match fuel with
    | O => Err FuelExhausted
    | S fuel' =>
        let* symbol := vec_at symbols_ i in
        let* s := substr text (llama_sp_symbol.text symbol)
                    (llama_sp_symbol.n symbol) in
        emit fuel' symbols_ (llama_sp_symbol.next symbol)
          (output ++ emit_symbol s)
    end.

(** [llama_tokenizer::tokenize], on a freshly constructed tokenizer. *)
Definition tokenize (output : list Z) : result (list Z) :=
  let* symbols_ := split_chars (String.length text) 0 0 [] in
  let* work_queue_ := seed_queue (length symbols_ - 1) 1 symbols_ [] in
  let* symbols_ :=
    merge_loop (length work_queue_ + 3 * length symbols_) symbols_ work_queue_ in
  emit (length symbols_) symbols_ 0 output.

(** *** Invariants of the symbol chain and of the work queue *)

(** Every symbol points backwards with [prev] and forwards with
    [next]; a symbol that has not been merged away covers a stretch
    of the text that ends where its successor starts (or where the
    text ends), and its neighbours are alive and point back at it. *)
Definition chain_ok (symbols_ : list llama_sp_symbol.t) : Prop :=
  forall i s,
    vec_at symbols_ i = Ok s ->
    -1 <= llama_sp_symbol.prev s < i
    /\ (llama_sp_symbol.next s = -1
        \/ i < llama_sp_symbol.next s < Z.of_nat (length symbols_))
    /\ 0 <= llama_sp_symbol.n s
    /\ (0 < llama_sp_symbol.n s ->
        0 <= llama_sp_symbol.text s
        /\ llama_sp_symbol.text s + llama_sp_symbol.n s <= str_size text
        /\ (llama_sp_symbol.next s = -1 ->
            llama_sp_symbol.text s + llama_sp_symbol.n s = str_size text)
        /\ (forall t,
              vec_at symbols_ (llama_sp_symbol.next s) = Ok t ->
              0 < llama_sp_symbol.n t
              /\ llama_sp_symbol.prev t = i
              /\ llama_sp_symbol.text t
                 = llama_sp_symbol.text s + llama_sp_symbol.n s)
        /\ (forall t,
              vec_at symbols_ (llama_sp_symbol.prev s) = Ok t ->
              0 < llama_sp_symbol.n t /\ llama_sp_symbol.next t = i)).

(** Every pending entry names two symbols of the vector, and as long
    as both are alive the right one is the successor of the left
    one. *)
Definition entry_ok (symbols_ : list llama_sp_symbol.t)
    (b : llama_sp_bigram.t) : Prop :=
  0 <= llama_sp_bigram.left b < Z.of_nat (length symbols_)
  /\ 0 <= llama_sp_bigram.right b < Z.of_nat (length symbols_)
  /\ forall l r,
       vec_at symbols_ (llama_sp_bigram.left b) = Ok l ->
       vec_at symbols_ (llama_sp_bigram.right b) = Ok r ->
       0 < llama_sp_symbol.n l -> 0 < llama_sp_symbol.n r ->
       llama_sp_symbol.next l = llama_sp_bigram.right b.

Definition queue_ok (symbols_ : list llama_sp_symbol.t)
    (q : llama_sp_bigram.queue) : Prop :=
  Forall (entry_ok symbols_) q.

(** The ids of the vocabulary are [int32_t] values and the token
    table has a size that a [size_t] can hold beside them. *)
Definition vocab_ok : Prop :=
  (forall s id, llama_vocab.token_to_id vocab_ !! s = Some id ->
     - 2 ^ 31 <= id < 2 ^ 31)
  /\ Z.of_nat (length (llama_vocab.id_to_token vocab_)) <= 2 ^ 63.

(** The symbols as the first loop builds them, with [offs] bytes of
    the text consumed: each symbol is alive, follows its predecessor
    in the vector and in the text, and names its successor unless it
    ends the text. *)
Definition init_ok (symbols_ : list llama_sp_symbol.t) (offs : Z) : Prop :=
  0 <= offs <= str_size text
  /\ forall j s,
       vec_at symbols_ j = Ok s ->
       llama_sp_symbol.prev s = j - 1
       /\ 0 < llama_sp_symbol.n s
       /\ 0 <= llama_sp_symbol.text s
       /\ llama_sp_symbol.text s + llama_sp_symbol.n s <= str_size text
       /\ ((llama_sp_symbol.next s = j + 1
            /\ llama_sp_symbol.text s + llama_sp_symbol.n s < str_size text)
           \/ (llama_sp_symbol.next s = -1
               /\ llama_sp_symbol.text s + llama_sp_symbol.n s = str_size text))
       /\ (forall t, vec_at symbols_ (j + 1) = Ok t ->
             llama_sp_symbol.text t
             = llama_sp_symbol.text s + llama_sp_symbol.n s)
       /\ (j + 1 = Z.of_nat (length symbols_) ->
           llama_sp_symbol.text s + llama_sp_symbol.n s = offs).

(** The number of symbols that have not been merged away. *)
Fixpoint live_count (symbols_ : list llama_sp_symbol.t) : nat :=
  match symbols_ with
  | [] => 0
  | s :: rest =>
      ((if (0 <? llama_sp_symbol.n s)%Z then 1 else 0) + live_count rest)%nat
  end.

End WithVocab.

(** The static [llama_tokenize(vocab, text, bos)]. *)
Definition llama_tokenize (vocab : llama_vocab.t) (text : string) (bos : bool)
    : result (list Z) :=
  if str_size text =? 0 then Ok []
  else tokenize vocab text (if bos then [1] else []).

End Tokenizer.

(** ** The sampler *)

Module Sampler.

Section WithStd.
Context `{StdLib}.

(** [logits] is the session's logits vector and [n_logits] the
    vocabulary size; [plogits] points [n_logits] entries before the
    end of the vector. *)
Variable logits : list float.
Variable n_logits : Z.

Definition plogits (i : Z) : result float :=
  vec_at logits (Z.of_nat (length logits) - n_logits + i).

(** [for (int i = 1; i < n_logits; ++i)] of the greedy branch, with
    [k] iterations left. *)
Fixpoint argmax_loop (k : nat) (i : Z) (max_logit : float) (max_id : Z) : result Z :=
  match k with
  | O => Ok max_id
  | S k' =>
      let* x := plogits i in
      if F32.gtb x max_logit then argmax_loop k' (i + 1) x i
      else argmax_loop k' (i + 1) max_logit max_id
  end.

Definition argmax : result Z :=
  let* max_logit := plogits 0 in
  argmax_loop (Z.to_nat (n_logits - 1)) 1 max_logit 0.

(** What "the index of the maximum logit" means on floats: [id] is
    the greedy choice among the last [n_logits] logits when no logit
    exceeds the chosen one and none before it is as large. *)
Definition greedy_choice (id : Z) : Prop :=
  0 <= id < n_logits
  /\ exists x, plogits id = Ok x
     /\ (forall j y, 0 <= j < n_logits -> plogits j = Ok y -> F32.gtb y x = false)
     /\ (forall j y, 0 <= j < id -> plogits j = Ok y -> F32.leb x y = false).

(** "The index of the maximum logit" taken by the word: the logit at
    [id] is at least every one of the last [n_logits] logits and
    larger than every one before it. *)
Definition maximum_index (id : Z) : Prop :=
  0 <= id < n_logits
  /\ exists x, plogits id = Ok x
     /\ (forall j y, 0 <= j < n_logits -> plogits j = Ok y -> F32.leb y x = true)
     /\ (forall j y, 0 <= j < id -> plogits j = Ok y -> F32.ltb y x = true).

(** The entry pushed for id [i] with logit [x]. *)
Definition scaled_logit (last_n_tokens : list Z) (scale repeat_penalty : float)
    (x : float) (i : Z) : float :=
  if existsb (Z.eqb i) last_n_tokens then
    if F32.ltb x F32.zero then F32.mul (F32.mul x scale) repeat_penalty
    else F32.div (F32.mul x scale) repeat_penalty
  else F32.mul x scale.

(** [for (int i = 0; i < n_logits; ++i)] building [logits_id]. *)
Fixpoint build_logits_id (k : nat) (i : Z) (last_n_tokens : list Z)
    (scale repeat_penalty : float) (logits_id : list (float * Z))
    : result (list (float * Z)) :=
  match k with
  | O => Ok logits_id
  | S k' =>
      let* x := plogits i in
      build_logits_id k' (i + 1) last_n_tokens scale repeat_penalty
        (logits_id ++ [(scaled_logit last_n_tokens scale repeat_penalty x i, i)])
  end.

Definition sample_top_k (logits_id : list (float * Z)) (top_k : Z) : list (float * Z) :=
  take (Z.to_nat top_k) (partial_sort logits_id top_k).

(** The first pass over the candidates: [p = expf(kv.first - maxl)],
    [sum += p] in double precision. *)
Fixpoint softmax_probs (maxl : float) (logits_id : list (float * Z))
    (probs : list float) (sum : spec_float) : list float * spec_float :=
  match logits_id with
  | [] => (probs, sum)
  | kv :: rest =>
      let p := expf (F32.sub (fst kv) maxl) in
      softmax_probs maxl rest (probs ++ [p]) (F64.add sum (F64.of_f32 p))
  end.

(** [p /= sum] for a [float] divided by a [double]. *)
Definition normalize (sum : spec_float) (p : float) : float :=
  F64.to_f32 (F64.div (F64.of_f32 p) sum).

(** The nucleus cut: the number of candidates kept. *)
Fixpoint top_p_cut (top_p : float) (probs : list float) (i : nat)
    (cumsum : spec_float) : option nat :=
  match probs with
  | [] => None
  | p :: rest =>
      let cumsum := F64.add cumsum (F64.of_f32 p) in
      if SFleb (F64.of_f32 top_p) cumsum then Some (S i)
      else top_p_cut top_p rest (S i) cumsum
  end.

(** The static [llama_sample_top_p_top_k(lctx, last_n_tokens, ...)];
    the generator state is threaded through. *)
Definition llama_sample_top_p_top_k (rng : mt19937) (last_n_tokens : list Z)
    (top_k : Z) (top_p temp repeat_penalty : float) : result (Z * mt19937) :=
  if F32.leb temp F32.zero then
    let* max_id := argmax in Ok (max_id, rng)
  else
    let scale := F32.div F32.one temp in
    let* logits_id :=
      build_logits_id (Z.to_nat n_logits) 0 last_n_tokens scale repeat_penalty [] in
    let logits_id :=
      sample_top_k logits_id (if top_k >? 0 then Z.min top_k n_logits else n_logits) in
    let* first := vec_at logits_id 0 in
    let maxl := fst first in
    let (probs, sum) := softmax_probs maxl logits_id [] F64.zero in
    let probs := map (normalize sum) probs in
    let keep :=
      if SFltb (F64.of_f32 top_p) F64.one then
        match top_p_cut top_p probs 0 F64.zero with
        | Some k => k
        | None => length probs
        end
      else length probs in
    let probs := take keep probs in
    let logits_id := take keep logits_id in
    let (idx, rng) := discrete_distribution (map F64.of_f32 probs) rng in
    let* chosen := vec_at logits_id idx in
    Ok (snd chosen, rng).

End WithStd.

End Sampler.

(** ** The quantizer's per-tensor step *)

Module llama_load_tensor.

(** A tensor of the input model once its data is loaded: [ne] is the
    shape, [size] the byte size of [data]. *)
Record t : Type := {
  name : string;
  type : ggml_type;
  ne : list Z;
  size : Z;
  data : list byte
}.

End llama_load_tensor.

Module Quantizer.

Definition str_size (s : string) : Z := Z.of_nat (String.length s).

(** [s.rfind(pat)] scanning down from start position [k]. *)
Fixpoint rfind_from (s pat : string) (k : nat) : Z :=
  if String.eqb (String.substring k (String.length pat) s) pat then Z.of_nat k
  else
    match k with
    | O => npos
    | S k' => rfind_from s pat k'
    end.

(** [s.rfind(pat)]: the last position where [pat] occurs in [s], or
    [npos]. *)
Definition rfind (s pat : string) : Z :=
  if (String.length pat <=? String.length s)%nat then
    rfind_from s pat (String.length s - String.length pat)
  else npos.

(** [tensor.name.rfind("weight") == tensor.name.size() - 6], then
    [quantize &= (tensor.ne.size() == 2)]. *)
Definition quantize_flag (tensor : llama_load_tensor.t) : bool :=
  (rfind (llama_load_tensor.name tensor) "weight"
   =? size_t (str_size (llama_load_tensor.name tensor) - 6))
  && (Z.of_nat (length (llama_load_tensor.ne tensor)) =? 2).

(** What is handed to [write_tensor]: the type, the data and the size
    of the tensor in the output. *)
Record output : Type := {
  new_type : ggml_type;
  new_data : list byte;
  new_size : Z
}.

Fixpoint chunks (k : nat) (bs : list byte) : list (list byte) :=
  match k with
  | O => []
  | S k' => take 2 bs :: chunks k' (drop 2 bs)
  end.

Section WithGgml.
Context `{Ggml}.

(** The body of the loop over the tensors of
    [llama_model_quantize_internal], for one tensor. *)
Definition quantize_tensor (quantized_type : ggml_type)
    (tensor : llama_load_tensor.t) : result output :=
  if negb (quantize_flag tensor) then
    Ok {| new_type := llama_load_tensor.type tensor;
          new_data := llama_load_tensor.data tensor;
          new_size := llama_load_tensor.size tensor |}
  else
    let* ne0 := vec_at (llama_load_tensor.ne tensor) 0 in
    let* ne1 := vec_at (llama_load_tensor.ne tensor) 1 in
    let nelements := wrap 32 (ne0 * ne1) in
    let* f32_data :=
      match llama_load_tensor.type tensor with
      | GGML_TYPE_F32 =>
          Ok (floats_of_bytes (Z.to_nat nelements) (llama_load_tensor.data tensor))
      | GGML_TYPE_F16 =>
          Ok (map ggml_fp16_to_fp32
                (chunks (Z.to_nat nelements) (llama_load_tensor.data tensor)))
      | _ => Err UnsupportedType
      end in
    let* out :=
      match quantized_type with
      | GGML_TYPE_Q4_0 => Ok (ggml_quantize_q4_0 f32_data nelements (to_int ne0))
      | GGML_TYPE_Q4_1 => Ok (ggml_quantize_q4_1 f32_data nelements (to_int ne0))
      | _ => Err AssertFailed
      end in
    Ok {| new_type := quantized_type;
          new_data := out;
          new_size := Z.of_nat (length out) |}.

End WithGgml.

(** A name ends with ["weight"]. *)
Definition ends_with_weight (s : string) : bool :=
  (6 <=? String.length s)%nat
  && String.eqb (String.substring (String.length s - 6) 6 s) "weight".

End Quantizer.

(** ** The session *)

(** [std::vector<float>]: the elements and the capacity of the
    allocation. *)
Module vector.

Record t : Type := { data : list float; capacity : Z }.

Definition size (v : t) : Z := Z.of_nat (length (data v)).

Definition empty : t := {| data := []; capacity := 0 |}.

(** [v.reserve(n)] *)
Definition reserve (n : Z) (v : t) : t :=
  if capacity v <? n then {| data := data v; capacity := n |} else v.

(** [v.resize(n)]: new elements are zero; when the allocation has to
    grow, the new capacity is the one libstdc++ chooses. *)
Definition resize (n : Z) (v : t) : result t :=
  if n <? 0 then Err AllocFailed
  else if n <=? size v then
    Ok {| data := take (Z.to_nat n) (data v); capacity := capacity v |}
  else
    Ok {| data := data v ++ replicate (Z.to_nat (n - size v)) F32.zero;
          capacity := if n <=? capacity v then capacity v
                      else size v + Z.max (size v) (n - size v) |}.

(** [memcpy(v.data(), src, sizeof(float) * k)] *)
Definition fill (k : Z) (src : list float) (v : t) : result t :=
  if (0 <=? k) && (k <=? Z.of_nat (length src)) && (k <=? capacity v) then
    Ok {| data := take (length (data v))
                    (take (Z.to_nat k) src ++ drop (Z.to_nat k) (data v));
          capacity := capacity v |}
  else Err OutOfBounds.

End vector.

(** A pointer walking through a byte buffer: the bytes before it and
    the bytes from it onwards. *)
Module cursor.

Record t : Type := { before : list byte; ahead : list byte }.

Definition start (mem : list byte) : t := {| before := []; ahead := mem |}.

(** [p - base] *)
Definition offset (c : t) : Z := Z.of_nat (length (before c)).

Definition memory (c : t) : list byte := before c ++ ahead c.

(** [memcpy(p, bs, len(bs))] *)
Definition poke (bs : list byte) (c : t) : result t :=
  if (length bs <=? length (ahead c))%nat then
    Ok {| before := before c; ahead := bs ++ drop (length bs) (ahead c) |}
  else Err OutOfBounds.

(** [memcpy(&x, p, k)] *)
Definition peek (k : Z) (c : t) : result (list byte) :=
  if (0 <=? k) && (k <=? Z.of_nat (length (ahead c))) then
    Ok (take (Z.to_nat k) (ahead c))
  else Err OutOfBounds.

(** [p += k] *)
Definition advance (k : Z) (c : t) : result t :=
  if (0 <=? k) && (k <=? Z.of_nat (length (ahead c))) then
    Ok {| before := before c ++ take (Z.to_nat k) (ahead c);
          ahead := drop (Z.to_nat k) (ahead c) |}
  else Err OutOfBounds.

(** [memcpy(p, bs, len(bs)); p += len(bs)] *)
Definition write (bs : list byte) (c : t) : result t :=
  let* c := poke bs c in advance (Z.of_nat (length bs)) c.

(** [memcpy(&x, p, k); p += k] *)
Definition read (k : Z) (c : t) : result (list byte * t) :=
  let* bs := peek k c in
  let* c := advance k c in
  Ok (bs, c).

End cursor.

Module llama_hparams.

Record t : Type := {
  n_vocab : Z;
  n_ctx : Z;
  n_embd : Z;
  n_mult : Z;
  n_head : Z;
  n_layer : Z;
  n_rot : Z;
  ftype : Z
}.

End llama_hparams.

Module llama_kv_cache.

(** [ctx] tells whether the cache's tensor context exists, [buf] is
    the storage of the cache and [n] the token counter of the cache
    ("number of tokens currently in the cache").  The tensors [k] and
    [v] are objects of that context, which [kv_cache_init] sets up in
    [buf]: [k] and [v] are the offsets in [buf] at which the [data]
    members of the two tensors are stored. *)
Record t : Type := { k : Z; v : Z; ctx : bool; buf : list byte; n : Z }.

End llama_kv_cache.

Module llama_context.

Section WithLibraries.
Context `{StdLib} `{Ggml}.

(** The fields of [llama_context] (with those of its [llama_model])
    that the modelled functions read or write.  The timing fields are
    left out: they hold wall-clock readings. *)
Record t : Type := {
  rng : mt19937;
  has_evaluated_once : bool;
  n_sample : Z;
  n_eval : Z;
  n_p_eval : Z;
  hparams : llama_hparams.t;
  model_weights : weights;
  kv_self : llama_kv_cache.t;
  vocab : llama_vocab.t;
  mem_per_token : Z;
  logits : vector.t;
  logits_all : bool;
  embedding : vector.t
}.

Definition set_rng (v : mt19937) (c : t) : t :=
  {| rng := v; has_evaluated_once := has_evaluated_once c;
     n_sample := n_sample c; n_eval := n_eval c; n_p_eval := n_p_eval c;
     hparams := hparams c; model_weights := model_weights c;
     kv_self := kv_self c; vocab := vocab c;
     mem_per_token := mem_per_token c; logits := logits c;
     logits_all := logits_all c; embedding := embedding c |}.

Definition set_has_evaluated_once (v : bool) (c : t) : t :=
  {| rng := rng c; has_evaluated_once := v;
     n_sample := n_sample c; n_eval := n_eval c; n_p_eval := n_p_eval c;
     hparams := hparams c; model_weights := model_weights c;
     kv_self := kv_self c; vocab := vocab c;
     mem_per_token := mem_per_token c; logits := logits c;
     logits_all := logits_all c; embedding := embedding c |}.

Definition set_n_sample (v : Z) (c : t) : t :=
  {| rng := rng c; has_evaluated_once := has_evaluated_once c;
     n_sample := v; n_eval := n_eval c; n_p_eval := n_p_eval c;
     hparams := hparams c; model_weights := model_weights c;
     kv_self := kv_self c; vocab := vocab c;
     mem_per_token := mem_per_token c; logits := logits c;
     logits_all := logits_all c; embedding := embedding c |}.

Definition set_n_eval (v : Z) (c : t) : t :=
  {| rng := rng c; has_evaluated_once := has_evaluated_once c;
     n_sample := n_sample c; n_eval := v; n_p_eval := n_p_eval c;
     hparams := hparams c; model_weights := model_weights c;
     kv_self := kv_self c; vocab := vocab c;
     mem_per_token := mem_per_token c; logits := logits c;
     logits_all := logits_all c; embedding := embedding c |}.

Definition set_n_p_eval (v : Z) (c : t) : t :=
  {| rng := rng c; has_evaluated_once := has_evaluated_once c;
     n_sample := n_sample c; n_eval := n_eval c; n_p_eval := v;
     hparams := hparams c; model_weights := model_weights c;
     kv_self := kv_self c; vocab := vocab c;
     mem_per_token := mem_per_token c; logits := logits c;
     logits_all := logits_all c; embedding := embedding c |}.

Definition set_kv_self (v : llama_kv_cache.t) (c : t) : t :=
  {| rng := rng c; has_evaluated_once := has_evaluated_once c;
     n_sample := n_sample c; n_eval := n_eval c; n_p_eval := n_p_eval c;
     hparams := hparams c; model_weights := model_weights c;
     kv_self := v; vocab := vocab c;
     mem_per_token := mem_per_token c; logits := logits c;
     logits_all := logits_all c; embedding := embedding c |}.

Definition set_mem_per_token (v : Z) (c : t) : t :=
  {| rng := rng c; has_evaluated_once := has_evaluated_once c;
     n_sample := n_sample c; n_eval := n_eval c; n_p_eval := n_p_eval c;
     hparams := hparams c; model_weights := model_weights c;
     kv_self := kv_self c; vocab := vocab c;
     mem_per_token := v; logits := logits c;
     logits_all := logits_all c; embedding := embedding c |}.

Definition set_logits (v : vector.t) (c : t) : t :=
  {| rng := rng c; has_evaluated_once := has_evaluated_once c;
     n_sample := n_sample c; n_eval := n_eval c; n_p_eval := n_p_eval c;
     hparams := hparams c; model_weights := model_weights c;
     kv_self := kv_self c; vocab := vocab c;
     mem_per_token := mem_per_token c; logits := v;
     logits_all := logits_all c; embedding := embedding c |}.

Definition set_embedding (v : vector.t) (c : t) : t :=
  {| rng := rng c; has_evaluated_once := has_evaluated_once c;
     n_sample := n_sample c; n_eval := n_eval c; n_p_eval := n_p_eval c;
     hparams := hparams c; model_weights := model_weights c;
     kv_self := kv_self c; vocab := vocab c;
     mem_per_token := mem_per_token c; logits := logits c;
     logits_all := logits_all c; embedding := v |}.

End WithLibraries.

End llama_context.

(** ** The interface functions *)

Module API.

Section WithLibraries.
Context `{StdLib} `{Ggml}.

Definition buf_size (b : list byte) : Z := Z.of_nat (length b).

(** Take [k] floats starting at element [off] of a tensor's data. *)
Definition floats_at (src : list float) (off k : Z) : result (list float) :=
  if (0 <=? off) && (0 <=? k) && (off + k <=? Z.of_nat (length src)) then
    Ok (take (Z.to_nat k) (drop (Z.to_nat off) src))
  else Err OutOfBounds.

Definition llama_eval_internal (lctx : llama_context.t) (tokens : list Z)
    (n_tokens n_past n_threads : Z) : result (bool * llama_context.t) :=
  let N := n_tokens in
  let hparams := llama_context.hparams lctx in
  let kv_self := llama_context.kv_self lctx in
  let* _ := LLAMA_ASSERT (llama_kv_cache.ctx kv_self) in
  let n_embd := to_int (llama_hparams.n_embd hparams) in
  let n_vocab := to_int (llama_hparams.n_vocab hparams) in
  let gf_n_threads := if (N >=? 32) && ggml_cpu_has_blas then 1 else n_threads in
  (* memcpy(embd->data, tokens, N*ggml_element_size(embd)) *)
  let* embd :=
    (if N <? 0 then Err AllocFailed
     else if N <=? Z.of_nat (length tokens) then Ok (take (Z.to_nat N) tokens)
     else Err OutOfBounds) in
  (* the graph: building it and running it *)
  let g := ggml_graph_compute (llama_context.model_weights lctx)
             (llama_kv_cache.buf kv_self) embd n_past gf_n_threads in
  let lctx :=
    llama_context.set_kv_self
      {| llama_kv_cache.k := llama_kv_cache.k kv_self;
         llama_kv_cache.v := llama_kv_cache.v kv_self;
         llama_kv_cache.ctx := llama_kv_cache.ctx kv_self;
         llama_kv_cache.buf := gr_kv_buf g;
         llama_kv_cache.n := llama_kv_cache.n kv_self |} lctx in
  (* extract logits *)
  let* logits_out :=
    (if llama_context.logits_all lctx then
       let* v := vector.resize (to_int (n_vocab * N)) (llama_context.logits lctx) in
       let* src := floats_at (gr_inpL g) 0 (to_int (n_vocab * N)) in
       vector.fill (to_int (n_vocab * N)) src v
     else
       let* v := vector.resize n_vocab (llama_context.logits lctx) in
       let* src := floats_at (gr_inpL g) (to_int (n_vocab * (N - 1))) n_vocab in
       vector.fill n_vocab src v) in
  let lctx := llama_context.set_logits logits_out lctx in
  (* extract embeddings *)
  let* lctx :=
    (if negb (vector.size (llama_context.embedding lctx) =? 0) then
       let* v := vector.resize n_embd (llama_context.embedding lctx) in
       let* src := floats_at (gr_embeddings g) (to_int (n_embd * (N - 1))) n_embd in
       let* v := vector.fill n_embd src v in
       Ok (llama_context.set_embedding v lctx)
     else Ok lctx) in
  let* lctx :=
    (if llama_context.mem_per_token lctx =? 0 then
       if size_t N =? 0 then Err DivisionByZero
       else Ok (llama_context.set_mem_per_token (gr_used_mem g / size_t N) lctx)
     else Ok lctx) in
  (* measure the performance only for the single-token evals *)
  let lctx :=
    if N =? 1 then
      llama_context.set_n_eval (to_int (llama_context.n_eval lctx + 1)) lctx
    else if N >? 1 then
      llama_context.set_n_p_eval (to_int (llama_context.n_p_eval lctx + N)) lctx
    else lctx in
  Ok (true, lctx).

Definition llama_eval (ctx : llama_context.t) (tokens : list Z)
    (n_tokens n_past n_threads : Z) : result (Z * llama_context.t) :=
  let* (ok, ctx) := llama_eval_internal ctx tokens n_tokens n_past n_threads in
  if negb ok then Ok (1, ctx)
  else
    let ctx :=
      if negb (llama_context.has_evaluated_once ctx) then
        llama_context.set_has_evaluated_once true ctx
      else ctx in
    Ok (0, ctx).

(** A caller that evaluates one batch after the other, each time
    passing the number of tokens evaluated so far as [n_past]; the
    return codes are collected. *)
Fixpoint eval_batches (ctx : llama_context.t) (batches : list (list Z))
    (n_past n_threads : Z) : result (list Z * llama_context.t) :=
  match batches with
  | [] => Ok ([], ctx)
  | tokens :: rest =>
      let n_tokens := Z.of_nat (length tokens) in
      let* (ret, ctx) := llama_eval ctx tokens n_tokens n_past n_threads in
      let* (rets, ctx) := eval_batches ctx rest (n_past + n_tokens) n_threads in
      Ok (ret :: rets, ctx)
  end.

Definition llama_get_kv_cache (ctx : llama_context.t) : list byte :=
  llama_kv_cache.buf (llama_context.kv_self ctx).

Definition llama_get_kv_cache_size (ctx : llama_context.t) : Z :=
  buf_size (llama_kv_cache.buf (llama_context.kv_self ctx)).

Definition llama_get_kv_cache_token_count (ctx : llama_context.t) : Z :=
  llama_kv_cache.n (llama_context.kv_self ctx).

Definition sizeof_pointer : Z := 8.

(** [tensor->data] for a tensor whose [data] member is stored at
    offset [at_] of the buffer.  The tensors of the cache lie in its
    buffer; what would lie outside of it is neither read nor
    written. *)
Definition data_pointer (at_ : Z) (buf : list byte) : list byte :=
  take (Z.to_nat sizeof_pointer) (drop (Z.to_nat at_) buf).

(** [tensor->data = value] *)
Definition set_data_pointer (at_ : Z) (value : list byte) (buf : list byte)
    : list byte :=
  take (length buf)
    (take (Z.to_nat at_) buf ++ value
     ++ drop (Z.to_nat at_ + length value) buf).

Definition llama_set_kv_cache (ctx : llama_context.t) (kv_cache : list byte)
    (n_size n_token_count : Z) : result llama_context.t :=
  let kv_self := llama_context.kv_self ctx in
  let* _ := LLAMA_ASSERT (buf_size (llama_kv_cache.buf kv_self) =? n_size) in
  (* remember data pointers, because their value is stored in buf and
     overwritten by memcpy *)
  let k_data := data_pointer (llama_kv_cache.k kv_self) (llama_kv_cache.buf kv_self) in
  let v_data := data_pointer (llama_kv_cache.v kv_self) (llama_kv_cache.buf kv_self) in
  (* memcpy(buf.addr, kv_cache, n_size) *)
  let* bytes := cursor.peek n_size (cursor.start kv_cache) in
  (* restore correct data pointers *)
  let bytes := set_data_pointer (llama_kv_cache.k kv_self) k_data bytes in
  let bytes := set_data_pointer (llama_kv_cache.v kv_self) v_data bytes in
  Ok (llama_context.set_kv_self
        {| llama_kv_cache.k := llama_kv_cache.k kv_self;
           llama_kv_cache.v := llama_kv_cache.v kv_self;
           llama_kv_cache.ctx := llama_kv_cache.ctx kv_self;
           llama_kv_cache.buf := bytes;
           llama_kv_cache.n := n_token_count |} ctx).

(** The conversion of a [const char *] to [std::string]: the bytes
    before the first NUL. *)
Fixpoint c_str (s : string) : string :=
  match s with
  | EmptyString => EmptyString
  | String c s' => if Ascii.eqb c zero then EmptyString else String c (c_str s')
  end.

(** [for (size_t i = 0; i < res.size(); i++) tokens[i] = res[i]] *)
Fixpoint copy_tokens (res : list Z) (i : Z) (tokens : list Z) : result (list Z) :=
  match res with
  | [] => Ok tokens
  | x :: res' =>
      let* tokens := vec_update tokens i (fun _ => x) in
      copy_tokens res' (i + 1) tokens
  end.

(** [llama_tokenize(ctx, text, tokens, n_max_tokens, add_bos)]: the
    return value and the caller's array afterwards. *)
Definition llama_tokenize (ctx : llama_context.t) (text : string)
    (tokens : list Z) (n_max_tokens : Z) (add_bos : bool) : result (Z * list Z) :=
  let* res := Tokenizer.llama_tokenize (llama_context.vocab ctx) (c_str text) add_bos in
  let res_size := Z.of_nat (length res) in
  if n_max_tokens <? to_int res_size then
    Ok (to_int (- to_int res_size), tokens)
  else
    let* tokens := copy_tokens res 0 tokens in
    Ok (to_int res_size, tokens).

Definition llama_n_vocab (ctx : llama_context.t) : Z :=
  to_int (Z.of_nat (length (llama_vocab.id_to_token (llama_context.vocab ctx)))).

(** [llama_token_to_str]: [None] is the null pointer. *)
Definition llama_token_to_str (ctx : llama_context.t) (token : Z)
    : result (option string) :=
  if token >=? llama_n_vocab ctx then Ok None
  else
    let* ts := vec_at (llama_vocab.id_to_token (llama_context.vocab ctx)) token in
    Ok (Some (llama_vocab.tok ts)).

(** The public [llama_sample_top_p_top_k]. *)
Definition llama_sample_top_p_top_k (ctx : llama_context.t)
    (last_n_tokens_data : list Z) (last_n_tokens_size : Z)
    (top_k : Z) (top_p temp repeat_penalty : float)
    : result (Z * llama_context.t) :=
  let* last_n_tokens :=
    (if (0 <=? last_n_tokens_size)
        && (last_n_tokens_size <=? Z.of_nat (length last_n_tokens_data))
     then Ok (take (Z.to_nat last_n_tokens_size) last_n_tokens_data)
     else Err OutOfBounds) in
  let* (result, rng) :=
    Sampler.llama_sample_top_p_top_k
      (vector.data (llama_context.logits ctx))
      (to_int (llama_hparams.n_vocab (llama_context.hparams ctx)))
      (llama_context.rng ctx) last_n_tokens top_k top_p temp repeat_penalty in
  let ctx := llama_context.set_rng rng ctx in
  let ctx := llama_context.set_n_sample (to_int (llama_context.n_sample ctx + 1)) ctx in
  Ok (result, ctx).

(** *** Session state *)

Definition sizeof_size_t : Z := 8.
Definition sizeof_int : Z := 4.
Definition sizeof_float : Z := 4.
Definition s_rng : Z := 64 * 1024.

Definition llama_get_state_size (ctx : llama_context.t) : Z :=
  let s_rng_size := sizeof_size_t in
  let s_logits_capacity := sizeof_size_t in
  let s_logits_size := sizeof_size_t in
  let s_logits := size_t (vector.capacity (llama_context.logits ctx) * sizeof_float) in
  let s_embedding_size := sizeof_size_t in
  let s_embedding := size_t (vector.size (llama_context.embedding ctx) * sizeof_float) in
  let s_kv_size := sizeof_size_t in
  let s_kv_ntok := sizeof_int in
  let s_kv := llama_get_kv_cache_size ctx in
  size_t (s_rng_size + s_rng + s_logits_capacity + s_logits_size + s_logits
          + s_embedding_size + s_embedding + s_kv_size + s_kv_ntok + s_kv).

(** The size of the state blob as the sum of its parts, before any
    reduction modulo [2^64]: [u64] length of the generator text, 64 KiB
    of generator text, [u64] logits capacity, [u64] logits size, one
    [f32] per reserved logit, [u64] embedding size, one [f32] per
    embedding entry, [u64] cache size, [i32] token count, the cache. *)
Definition state_bytes (ctx : llama_context.t) : Z :=
  8 + 64 * 1024 + 8 + 8
  + vector.capacity (llama_context.logits ctx) * 4
  + 8 + vector.size (llama_context.embedding ctx) * 4
  + 8 + 4 + llama_get_kv_cache_size ctx.

(** Two sessions have the same shape when their buffers have the same
    sizes: the logits capacity, the embedding size and capacity, the
    size of the cache. *)
Definition same_shape (c1 c2 : llama_context.t) : Prop :=
  vector.capacity (llama_context.logits c1) = vector.capacity (llama_context.logits c2)
  /\ vector.capacity (llama_context.embedding c1)
     = vector.capacity (llama_context.embedding c2)
  /\ vector.size (llama_context.embedding c1) = vector.size (llama_context.embedding c2)
  /\ llama_get_kv_cache_size c1 = llama_get_kv_cache_size c2.

(** [llama_copy_state_data(ctx, dest)]: the number of bytes written
    and the destination memory afterwards. *)
Definition llama_copy_state_data (ctx : llama_context.t) (dest : list byte)
    : result (Z * list byte) :=
  let rng_str := bytes_of_string (rng_print (llama_context.rng ctx)) in
  let rng_size := buf_size rng_str in
  (* memset(rng_buf, 0, 64*1024); memcpy(rng_buf, str.data(), str.size()) *)
  let* rng_buf := cursor.poke rng_str (cursor.start (replicate (Z.to_nat s_rng) x00)) in
  let rng_buf := cursor.memory rng_buf in
  let logits_capacity := vector.capacity (llama_context.logits ctx) in
  let logits_size := vector.size (llama_context.logits ctx) in
  let embedding_size := vector.size (llama_context.embedding ctx) in
  let kv_size := llama_get_kv_cache_size ctx in
  let kv_ntok := llama_get_kv_cache_token_count ctx in
  let out := cursor.start dest in
  let* out := cursor.write (le_encode 8 rng_size) out in
  let* out := cursor.write rng_buf out in
  let* out := cursor.write (le_encode 8 logits_capacity) out in
  let* out := cursor.write (le_encode 8 logits_size) out in
  let* out :=
    (if negb (logits_size =? 0) then
       cursor.poke (floats_bytes (vector.data (llama_context.logits ctx))) out
     else Ok out) in
  let* out := cursor.advance (size_t (logits_capacity * sizeof_float)) out in
  let* out := cursor.write (le_encode 8 embedding_size) out in
  let* out :=
    (if negb (embedding_size =? 0) then
       cursor.write (floats_bytes (vector.data (llama_context.embedding ctx))) out
     else Ok out) in
  let* out := cursor.write (le_encode 8 kv_size) out in
  let* out := cursor.write (le_encode 4 kv_ntok) out in
  let* out :=
    (if negb (kv_size =? 0) then cursor.write (llama_get_kv_cache ctx) out
     else Ok out) in
  let written := size_t (cursor.offset out) in
  let expected := llama_get_state_size ctx in
  let* _ := LLAMA_ASSERT (written =? expected) in
  Ok (written, cursor.memory out).

(** [llama_set_state_data(ctx, src)]: the number of bytes read and the
    session afterwards. *)
Definition llama_set_state_data (ctx : llama_context.t) (src : list byte)
    : result (Z * llama_context.t) :=
  let inp := cursor.start src in
  let* (b, inp) := cursor.read sizeof_size_t inp in
  let rng_size := le_decode b in
  let* (rng_buf, inp) := cursor.read s_rng inp in
  (* std::string(&rng_buf[0], rng_size) *)
  let* rng_str := cursor.peek rng_size (cursor.start rng_buf) in
  let* rng :=
    of_option AssertFailed (rng_parse (string_of_bytes rng_str)) in
  let ctx := llama_context.set_rng rng ctx in
  let* (b, inp) := cursor.read sizeof_size_t inp in
  let logits_capacity := le_decode b in
  let* (b, inp) := cursor.read sizeof_size_t inp in
  let logits_size := le_decode b in
  let* _ := LLAMA_ASSERT
              (vector.capacity (llama_context.logits ctx) =? logits_capacity) in
  let* ctx :=
    (if negb (logits_size =? 0) then
       let* v := vector.resize logits_size (llama_context.logits ctx) in
       let* raw := cursor.peek (size_t (logits_size * sizeof_float)) inp in
       let* v := vector.fill logits_size
                   (floats_of_bytes (Z.to_nat logits_size) raw) v in
       Ok (llama_context.set_logits v ctx)
     else Ok ctx) in
  let* inp := cursor.advance (size_t (logits_capacity * sizeof_float)) inp in
  let* (b, inp) := cursor.read sizeof_size_t inp in
  let embedding_size := le_decode b in
  let* _ := LLAMA_ASSERT
              (vector.capacity (llama_context.embedding ctx) =? embedding_size) in
  let* (ctx, inp) :=
    (if negb (embedding_size =? 0) then
       let* (raw, inp) := cursor.read (size_t (embedding_size * sizeof_float)) inp in
       let* v := vector.fill embedding_size
                   (floats_of_bytes (Z.to_nat embedding_size) raw)
                   (llama_context.embedding ctx) in
       Ok (llama_context.set_embedding v ctx, inp)
     else Ok (ctx, inp)) in
  let* (b, inp) := cursor.read sizeof_size_t inp in
  let kv_size := le_decode b in
  let* (b, inp) := cursor.read sizeof_int inp in
  let kv_ntok := to_int (le_decode b) in
  let* (ctx, inp) :=
    (if negb (kv_size =? 0) then
       let* _ := LLAMA_ASSERT (llama_get_kv_cache_size ctx =? kv_size) in
       let kv_self := llama_context.kv_self ctx in
       (* remember data pointers *)
       let k_data :=
         data_pointer (llama_kv_cache.k kv_self) (llama_kv_cache.buf kv_self) in
       let v_data :=
         data_pointer (llama_kv_cache.v kv_self) (llama_kv_cache.buf kv_self) in
       (* memcpy(buf.addr, in, kv_size) *)
       let* (raw, inp) := cursor.read kv_size inp in
       (* restore correct data pointers *)
       let raw := set_data_pointer (llama_kv_cache.k kv_self) k_data raw in
       let raw := set_data_pointer (llama_kv_cache.v kv_self) v_data raw in
       Ok (llama_context.set_kv_self
             {| llama_kv_cache.k := llama_kv_cache.k kv_self;
                llama_kv_cache.v := llama_kv_cache.v kv_self;
                llama_kv_cache.ctx := llama_kv_cache.ctx kv_self;
                llama_kv_cache.buf := raw;
                llama_kv_cache.n := llama_kv_cache.n kv_self |}
             ctx, inp)
     else Ok (ctx, inp)) in
  let ctx :=
    llama_context.set_kv_self
      {| llama_kv_cache.k := llama_kv_cache.k (llama_context.kv_self ctx);
         llama_kv_cache.v := llama_kv_cache.v (llama_context.kv_self ctx);
         llama_kv_cache.ctx := llama_kv_cache.ctx (llama_context.kv_self ctx);
         llama_kv_cache.buf := llama_kv_cache.buf (llama_context.kv_self ctx);
         llama_kv_cache.n := kv_ntok |} ctx in
  let nread := size_t (cursor.offset inp) in
  let expected := llama_get_state_size ctx in
  let* _ := LLAMA_ASSERT (nread =? expected) in
  Ok (nread, ctx).

End WithLibraries.

End API.

(** ** Small instances on which the model is run *)

Module Example.

(** A stand-in for the standard library: a generator without state,
    candidates left in their order, the first candidate drawn. *)
Definition toy_std : StdLib :=
  {| mt19937 := unit;
     rng_print := fun _ => EmptyString;
     rng_parse := fun _ => Some tt;
     discrete_distribution := fun _ r => (0, r);
     expf := fun x => x;
     partial_sort := fun l _ => l |}.

(** A stand-in for the tensor library with [n_vocab = n_embd = 2]: the
    cache is left as it is and every output is zero. *)
Definition toy_ggml : Ggml :=
  {| weights := unit;
     ggml_graph_compute := fun _ kv tokens _ _ =>
       {| gr_kv_buf := kv;
          gr_inpL := replicate (2 * length tokens) F32.zero;
          gr_embeddings := replicate (2 * length tokens) F32.zero;
          gr_used_mem := 1024 |};
     ggml_cpu_has_blas := false;
     ggml_fp16_to_fp32 := fun _ => F32.zero;
     ggml_quantize_q4_0 := fun _ n _ => replicate (Z.to_nat (n / 32 * 20)) x00;
     ggml_quantize_q4_1 := fun _ n _ => replicate (Z.to_nat (n / 32 * 24)) x00 |}.

Definition ts (s : string) (x : Z) : llama_vocab.token_score :=
  {| llama_vocab.tok := s; llama_vocab.score := F32.of_Z x |}.

(** The vocabulary ["a"] (id 10, score 0), ["b"] (11, 0), ["ab"]
    (12, 1), ["abc"] (13, 2), ["c"] (14, 0).  The ids index
    [id_to_token], so the ten entries below id 10 are present and
    empty. *)
Definition vocab_abc : llama_vocab.t :=
  {| llama_vocab.token_to_id :=
       list_to_map [("a", 10); ("b", 11); ("ab", 12); ("abc", 13); ("c", 14)]%string;
     llama_vocab.id_to_token :=
       replicate 10 (ts "" 0)
       ++ [ts "a" 0; ts "b" 0; ts "ab" 1; ts "abc" 2; ts "c" 0] |}.

(** The vocabulary ["a"] (10), ["b"] (11), ["c"] (12), ["ab"] (13,
    score 1), ["bc"] (14, score 2). *)
Definition vocab_pairs : llama_vocab.t :=
  {| llama_vocab.token_to_id :=
       list_to_map [("a", 10); ("b", 11); ("c", 12); ("ab", 13); ("bc", 14)]%string;
     llama_vocab.id_to_token :=
       replicate 10 (ts "" 0)
       ++ [ts "a" 0; ts "b" 0; ts "c" 0; ts "ab" 1; ts "bc" 2] |}.

(** The letters ["a"] to ["e"] (10 to 14) and the pairs ["ab"] (15,
    score 1), ["bc"] (16, with the score given), ["cd"] (17, score 2),
    ["de"] (18, score 5). *)
Definition vocab_letters (bc : float) : llama_vocab.t :=
  {| llama_vocab.token_to_id :=
       list_to_map [("a", 10); ("b", 11); ("c", 12); ("d", 13); ("e", 14);
                    ("ab", 15); ("bc", 16); ("cd", 17); ("de", 18)]%string;
     llama_vocab.id_to_token :=
       replicate 10 (ts "" 0)
       ++ [ts "a" 0; ts "b" 0; ts "c" 0; ts "d" 0; ts "e" 0; ts "ab" 1;
           {| llama_vocab.tok := "bc"; llama_vocab.score := bc |};
           ts "cd" 2; ts "de" 5] |}.

(** The symbols and the work queue that [tokenize] starts its merge
    loop from (empty where it stops before). *)
Definition symbols_of (text : string) : list llama_sp_symbol.t :=
  match Tokenizer.split_chars text (String.length text) 0 0 [] with
  | Ok symbols_ => symbols_
  | Err _ => []
  end.

Definition seeds_of (vocab : llama_vocab.t) (text : string) : llama_sp_bigram.queue :=
  match Tokenizer.seed_queue vocab text (length (symbols_of text) - 1) 1
          (symbols_of text) [] with
  | Ok work_queue_ => work_queue_
  | Err _ => []
  end.



(** A session over the stand-in libraries: two vocabulary entries, a
    context of four positions, an empty cache of 16 bytes that holds
    the two data pointers and nothing else. *)
Definition session (kv_n : Z) : @llama_context.t toy_std toy_ggml :=
  {| llama_context.rng := (tt : @mt19937 toy_std);
     llama_context.has_evaluated_once := false;
     llama_context.n_sample := 0;
     llama_context.n_eval := 0;
     llama_context.n_p_eval := 0;
     llama_context.hparams :=
       {| llama_hparams.n_vocab := 2; llama_hparams.n_ctx := 4;
          llama_hparams.n_embd := 2; llama_hparams.n_mult := 1;
          llama_hparams.n_head := 1; llama_hparams.n_layer := 1;
          llama_hparams.n_rot := 2; llama_hparams.ftype := 0 |};
     llama_context.model_weights := (tt : @weights toy_ggml);
     llama_context.kv_self :=
       {| llama_kv_cache.k := 0;
          llama_kv_cache.v := 8;
          llama_kv_cache.ctx := true;
          llama_kv_cache.buf := replicate 16 x00;
          llama_kv_cache.n := kv_n |};
     llama_context.vocab := vocab_abc;
     llama_context.mem_per_token := 0;
     llama_context.logits := vector.reserve 2 vector.empty;
     llama_context.logits_all := false;
     llama_context.embedding := vector.empty |}.

End Example.

(** ** The layout of the cache, for comparison with the code *)

(** The data pointers of the two tensors of a cache lie in its buffer
    and apart from each other. *)
Definition kv_pointers_ok (kv : llama_kv_cache.t) : Prop :=
  let size := Z.of_nat (length (llama_kv_cache.buf kv)) in
  0 <= llama_kv_cache.k kv /\ llama_kv_cache.k kv + 8 <= size
  /\ 0 <= llama_kv_cache.v kv /\ llama_kv_cache.v kv + 8 <= size
  /\ (llama_kv_cache.k kv + 8 <= llama_kv_cache.v kv
      \/ llama_kv_cache.v kv + 8 <= llama_kv_cache.k kv).

(** The buffer [result] of the cache [target] after the bytes
    [source] have been copied into it: as long as [source], with the
    two data pointers that [target] had and the bytes of [source]
    everywhere else. *)
Definition kv_restored (target : llama_kv_cache.t) (source result : list byte) : Prop :=
  length result = length source
  /\ API.data_pointer (llama_kv_cache.k target) result
     = API.data_pointer (llama_kv_cache.k target) (llama_kv_cache.buf target)
  /\ API.data_pointer (llama_kv_cache.v target) result
     = API.data_pointer (llama_kv_cache.v target) (llama_kv_cache.buf target)
  /\ forall i : nat,
       ~ (llama_kv_cache.k target <= Z.of_nat i < llama_kv_cache.k target + 8) ->
       ~ (llama_kv_cache.v target <= Z.of_nat i < llama_kv_cache.v target + 8) ->
       result !! i = source !! i.

(** ** Further instances *)

Module Sample.

(** A session in the middle of a run: two logits and a two-entry
    embedding are in place, five tokens are counted in the cache, whose
    buffer holds the two data pointers and eight bytes of data. *)
Definition running : @llama_context.t Example.toy_std Example.toy_ggml :=
  {| llama_context.rng := (tt : @mt19937 Example.toy_std);
     llama_context.has_evaluated_once := true;
     llama_context.n_sample := 4;
     llama_context.n_eval := 4;
     llama_context.n_p_eval := 1;
     llama_context.hparams :=
       {| llama_hparams.n_vocab := 2; llama_hparams.n_ctx := 8;
          llama_hparams.n_embd := 2; llama_hparams.n_mult := 1;
          llama_hparams.n_head := 1; llama_hparams.n_layer := 1;
          llama_hparams.n_rot := 2; llama_hparams.ftype := 0 |};
     llama_context.model_weights := (tt : @weights Example.toy_ggml);
     llama_context.kv_self :=
       {| llama_kv_cache.k := 0;
          llama_kv_cache.v := 8;
          llama_kv_cache.ctx := true;
          llama_kv_cache.buf := replicate 8 x11 ++ replicate 8 x22 ++ replicate 8 x2a;
          llama_kv_cache.n := 5 |};
     llama_context.vocab := Example.vocab_abc;
     llama_context.mem_per_token := 512;
     llama_context.logits :=
       {| vector.data := [F32.of_Z 1; F32.of_Z (-3)]; vector.capacity := 2 |};
     llama_context.logits_all := false;
     llama_context.embedding :=
       {| vector.data := [F32.of_Z 2; F32.of_Z 7]; vector.capacity := 2 |} |}.

(** A fresh session of the same shape. *)
Definition fresh : @llama_context.t Example.toy_std Example.toy_ggml :=
  {| llama_context.rng := (tt : @mt19937 Example.toy_std);
     llama_context.has_evaluated_once := false;
     llama_context.n_sample := 0;
     llama_context.n_eval := 0;
     llama_context.n_p_eval := 0;
     llama_context.hparams :=
       {| llama_hparams.n_vocab := 2; llama_hparams.n_ctx := 8;
          llama_hparams.n_embd := 2; llama_hparams.n_mult := 1;
          llama_hparams.n_head := 1; llama_hparams.n_layer := 1;
          llama_hparams.n_rot := 2; llama_hparams.ftype := 0 |};
     llama_context.model_weights := (tt : @weights Example.toy_ggml);
     llama_context.kv_self :=
       {| llama_kv_cache.k := 0;
          llama_kv_cache.v := 8;
          llama_kv_cache.ctx := true;
          llama_kv_cache.buf := replicate 8 x33 ++ replicate 8 x44 ++ replicate 8 x00;
          llama_kv_cache.n := 0 |};
     llama_context.vocab := Example.vocab_abc;
     llama_context.mem_per_token := 0;
     llama_context.logits := vector.reserve 2 vector.empty;
     llama_context.logits_all := false;
     llama_context.embedding :=
       {| vector.data := [F32.zero; F32.zero]; vector.capacity := 2 |} |}.

End Sample.

(** ** Reading a tokenization back *)

Module Detok.

(** The concatenation of a sequence of strings. *)
Definition join (segs : list string) : string :=
  fold_right String.append EmptyString segs.

Section WithLibraries.
Context `{StdLib} `{Ggml}.

(** A caller that prints the tokens of a sequence one after the other
    with [llama_token_to_str], as the example programs do; the C
    string it is handed ends at the first NUL, and a null pointer is
    not printable. *)
Fixpoint print_tokens (ctx : llama_context.t) (ids : list Z) : result string :=
  match ids with
  | [] => Ok EmptyString
  | id :: rest =>
      let* p := API.llama_token_to_str ctx id in
      let* s := of_option OutOfBounds p in
      let* out := print_tokens ctx rest in
      Ok (String.append (API.c_str s) out)
  end.

End WithLibraries.

(** A vocabulary whose two tables agree: every key of [token_to_id]
    is the token stored under its id, and the byte tokens sit at
    [byte + 3]. *)
Definition vocab_consistent (vocab : llama_vocab.t) : Prop :=
  (forall s id,
     llama_vocab.token_to_id vocab !! s = Some id ->
     0 <= id
     /\ exists ts, llama_vocab.id_to_token vocab !! Z.to_nat id = Some ts
                   /\ llama_vocab.tok ts = s)
  /\ (forall c : ascii,
        exists ts,
          llama_vocab.id_to_token vocab !! Z.to_nat (char_val c + 3) = Some ts
          /\ llama_vocab.tok ts = String c EmptyString).

End Detok.

Module SampleVocab.

(** A vocabulary with the three reserved entries, the 256 byte tokens
    at [byte + 3] and the merged token ["ab"] with id 259. *)
Definition byte_token (k : nat) : llama_vocab.token_score :=
  {| llama_vocab.tok := String (ascii_of_nat k) EmptyString;
     llama_vocab.score := F32.zero |}.

Definition bytes_ab : llama_vocab.t :=
  {| llama_vocab.token_to_id := {[ "ab"%string := 259 ]};
     llama_vocab.id_to_token :=
       replicate 3 (Example.ts "" 0)
       ++ map byte_token (seq 0 256)
       ++ [Example.ts "ab" 1] |}.

Definition session : @llama_context.t Example.toy_std Example.toy_ggml :=
  {| llama_context.rng := (tt : @mt19937 Example.toy_std);
     llama_context.has_evaluated_once := false;
     llama_context.n_sample := 0;
     llama_context.n_eval := 0;
     llama_context.n_p_eval := 0;
     llama_context.hparams := llama_context.hparams (Example.session 0);
     llama_context.model_weights := (tt : @weights Example.toy_ggml);
     llama_context.kv_self := llama_context.kv_self (Example.session 0);
     llama_context.vocab := bytes_ab;
     llama_context.mem_per_token := 0;
     llama_context.logits := vector.reserve 2 vector.empty;
     llama_context.logits_all := false;
     llama_context.embedding := vector.empty |}.

End SampleVocab.

(** ** The model loader *)

(** What the loading and saving code throws, by the message of the
    exception; [Fault] carries the failures of the code above (a short
    read, a failed assertion, an access outside a vector). *)
Inductive exception : Type :=
  | Overflow                 (* "overflow multiplying %llu * %llu" *)
  | DivisionError            (* "error dividing %zu / %zu" *)
  | OutOfRange               (* [std::out_of_range] from [at] *)
  | InconsistentShardType    (* "inconsistent tensor shard type in '%s'" *)
  | InconsistentShardShape   (* "inconsistent tensor shard shape in '%s'" *)
  | BadDimension             (* "tensor '%s' should not be %u-dimensional" *)
  | UnrecognizedType         (* "unrecognized tensor type %u" *)
  | InconsistentHparams      (* "hparams inconsistent between files" *)
  | MissingTokEmbeddings     (* "missing tok_embeddings.weight" *)
  | MissingTensor            (* "tensor '%s' is missing from model" *)
  | WrongShape               (* "tensor '%s' has wrong shape" *)
  | TooManyTensors           (* "file contained more tensors than expected" *)
  | InvalidOutputType        (* "invalid output file type %d" *)
  | GgmlInitFailed           (* "ggml_init() failed" *)
  | Fault (e : error).

Inductive attempt (A : Type) : Type :=
  | Fine (a : A)
  | Throw (x : exception).

Arguments Fine {A} a.
Arguments Throw {A} x.

Definition abind {A B : Type} (r : attempt A) (k : A -> attempt B) : attempt B :=
  match r with
  | Fine a => k a
  | Throw x => Throw x
  end.

Notation "'let+' x ':=' r 'in' k" := (abind r (fun x => k))
  (at level 10, x pattern, r at level 100, k at level 200).

Definition lift {A : Type} (r : result A) : attempt A :=
  match r with
  | Ok a => Fine a
  | Err e => Throw (Fault e)
  end.

(** [v.at(i)] *)
Definition vec_checked_at {A : Type} (v : list A) (i : Z) : attempt A :=
  match vec_at v i with
  | Ok a => Fine a
  | Err _ => Throw OutOfRange
  end.

Definition UINT32_MAX : Z := 2 ^ 32 - 1.

(** [checked_mul<T>(a, b)] for an unsigned type [T] of [bits] bits. *)
Definition checked_mul (bits : Z) (a b : Z) : attempt Z :=
  let ret := wrap bits (a * b) in
  if negb (a =? 0) && negb (ret / a =? b) then Throw Overflow
  else Fine ret.

Definition checked_div (a b : Z) : attempt Z :=
  if (b =? 0) || negb (a mod b =? 0) then Throw DivisionError
  else Fine (a / b).

(** The tensor library's table of types: the bytes of one block and
    the elements in one block. *)
Class GgmlTypes : Type := {
  ggml_type_size : ggml_type -> Z;
  ggml_blck_size : ggml_type -> Z
}.

Section WithTypes.
Context `{GgmlTypes}.

Fixpoint calc_tensor_size_loop (size : Z) (ne : list Z) : attempt Z :=
  match ne with
  | [] => Fine size
  | dim :: rest =>
      let+ size := checked_mul 64 size dim in
      calc_tensor_size_loop size rest
  end.

Definition llama_calc_tensor_size (ne : list Z) (type : ggml_type) : attempt Z :=
  let+ size := calc_tensor_size_loop (ggml_type_size type) ne in
  if ggml_blck_size type =? 0 then Throw (Fault DivisionByZero)
  else Fine (size / ggml_blck_size type).

End WithTypes.

Module llama_load_tensor_shard.

Record t : Type := {
  ne : list Z;
  size : Z;
  type : ggml_type;
  file_idx : Z;
  file_off : Z
}.

Definition set_size (v : Z) (s : t) : t :=
  {| ne := ne s; size := v; type := type s;
     file_idx := file_idx s; file_off := file_off s |}.

Definition calc_size `{GgmlTypes} (s : t) : attempt t :=
  let+ size := llama_calc_tensor_size (ne s) (type s) in
  Fine (set_size size s).

End llama_load_tensor_shard.

Inductive llama_split_type : Type :=
  | SPLIT_NONE
  | SPLIT_BY_COLUMNS
  | SPLIT_BY_ROWS.

(** [llama_load_tensor] as the loader keeps it: the shards of the
    tensor, one per file, and what [calc_all] derives from them.
    [ggml_tensor] tells whether the tensor has been created in the
    tensor library ([false] is the null pointer). *)
Module LoadTensor.

Record t : Type := {
  shards : list llama_load_tensor_shard.t;
  name : string;
  type : ggml_type;
  split_type : llama_split_type;
  ne : list Z;
  size : Z;
  ggml_tensor : bool
}.

(** [llama_load_tensor(name)] *)
Definition create (name : string) : t :=
  {| shards := []; name := name; type := GGML_TYPE_F32;
     split_type := SPLIT_NONE; ne := []; size := 0; ggml_tensor := false |}.

Definition set_shards (v : list llama_load_tensor_shard.t) (x : t) : t :=
  {| shards := v; name := name x; type := type x; split_type := split_type x;
     ne := ne x; size := size x; ggml_tensor := ggml_tensor x |}.
Definition set_type (v : ggml_type) (x : t) : t :=
  {| shards := shards x; name := name x; type := v; split_type := split_type x;
     ne := ne x; size := size x; ggml_tensor := ggml_tensor x |}.
Definition set_split_type (v : llama_split_type) (x : t) : t :=
  {| shards := shards x; name := name x; type := type x; split_type := v;
     ne := ne x; size := size x; ggml_tensor := ggml_tensor x |}.
Definition set_ne (v : list Z) (x : t) : t :=
  {| shards := shards x; name := name x; type := type x; split_type := split_type x;
     ne := v; size := size x; ggml_tensor := ggml_tensor x |}.
Definition set_size (v : Z) (x : t) : t :=
  {| shards := shards x; name := name x; type := type x; split_type := split_type x;
     ne := ne x; size := v; ggml_tensor := ggml_tensor x |}.
Definition set_ggml_tensor (v : bool) (x : t) : t :=
  {| shards := shards x; name := name x; type := type x; split_type := split_type x;
     ne := ne x; size := size x; ggml_tensor := v |}.

Definition ggml_type_eqb (a b : ggml_type) : bool :=
  match a, b with
  | GGML_TYPE_F32, GGML_TYPE_F32 | GGML_TYPE_F16, GGML_TYPE_F16
  | GGML_TYPE_Q4_0, GGML_TYPE_Q4_0 | GGML_TYPE_Q4_1, GGML_TYPE_Q4_1 => true
  | _, _ => false
  end.

(** [a != b] on shapes *)
Fixpoint ne_eqb (a b : list Z) : bool :=
  match a, b with
  | [], [] => true
  | x :: a', y :: b' => (x =? y) && ne_eqb a' b'
  | _, _ => false
  end.

(** [s.find(pat)]: the first position where [pat] occurs, or [npos]. *)
Definition find (s pat : string) : Z :=
  match String.index 0 pat s with
  | Some k => Z.of_nat k
  | None => npos
  end.

Definition calc_type (x : t) : attempt t :=
  let+ first_shard := vec_checked_at (shards x) 0 in
  if forallb (fun shard =>
                ggml_type_eqb (llama_load_tensor_shard.type shard)
                  (llama_load_tensor_shard.type first_shard)) (shards x)
  then Fine (set_type (llama_load_tensor_shard.type first_shard) x)
  else Throw InconsistentShardType.

Definition calc_split_type (x : t) : attempt t :=
  let+ first_shard := vec_checked_at (shards x) 0 in
  if (Z.of_nat (length (llama_load_tensor_shard.ne first_shard)) =? 1)
     || (Z.of_nat (length (shards x)) =? 1)
  then Fine (set_split_type SPLIT_NONE x)
  else if (find (name x) "tok_embeddings." =? 0)
          || negb (find (name x) ".attention.wo.weight" =? npos)
          || negb (find (name x) ".feed_forward.w2.weight" =? npos)
  then Fine (set_split_type SPLIT_BY_COLUMNS x)
  else Fine (set_split_type SPLIT_BY_ROWS x).

Definition calc_ne (x : t) : attempt t :=
  let+ first_shard := vec_checked_at (shards x) 0 in
  let first_ne := llama_load_tensor_shard.ne first_shard in
  if negb (forallb (fun shard => ne_eqb (llama_load_tensor_shard.ne shard) first_ne)
             (shards x))
  then Throw InconsistentShardShape
  else
    let+ _ := lift (LLAMA_ASSERT (Z.of_nat (length (shards x)) <=? UINT32_MAX)) in
    let n_shards := wrap 32 (Z.of_nat (length (shards x))) in
    match split_type x with
    | SPLIT_NONE => Fine (set_ne first_ne x)
    | SPLIT_BY_COLUMNS =>
        let+ ne0 := lift (vec_at first_ne 0) in
        let+ cols := checked_mul 32 ne0 n_shards in
        let+ ne1 := lift (vec_at first_ne 1) in
        Fine (set_ne [cols; ne1] x)
    | SPLIT_BY_ROWS =>
        let+ ne0 := lift (vec_at first_ne 0) in
        let+ ne1 := lift (vec_at first_ne 1) in
        let+ rows := checked_mul 32 ne1 n_shards in
        Fine (set_ne [ne0; rows] x)
    end.

Definition calc_size `{GgmlTypes} (x : t) : attempt t :=
  let+ size := llama_calc_tensor_size (ne x) (type x) in
  Fine (set_size size x).

Definition calc_all `{GgmlTypes} (x : t) : attempt t :=
  let+ x := calc_type x in
  let+ x := calc_split_type x in
  let+ x := calc_ne x in
  calc_size x.

End LoadTensor.

(** The number of elements of a shape: the product of its
    dimensions. *)
Definition nelements (ne : list Z) : Z := fold_right Z.mul 1 ne.

(** The table of the tensor library for the four types of model
    files: 4 and 2 bytes per element, 20 and 24 bytes per block of 32
    quantized elements. *)
Definition ggml_types : GgmlTypes :=
  {| ggml_type_size := fun t =>
       match t with
       | GGML_TYPE_F32 => 4
       | GGML_TYPE_F16 => 2
       | GGML_TYPE_Q4_0 => 20
       | GGML_TYPE_Q4_1 => 24
       end;
     ggml_blck_size := fun t =>
       match t with
       | GGML_TYPE_F32 | GGML_TYPE_F16 => 1
       | GGML_TYPE_Q4_0 | GGML_TYPE_Q4_1 => 32
       end |}.

Module SampleShards.

Definition shard (ne : list Z) (type : ggml_type) (file_idx : Z)
    : llama_load_tensor_shard.t :=
  {| llama_load_tensor_shard.ne := ne;
     llama_load_tensor_shard.size := 0;
     llama_load_tensor_shard.type := type;
     llama_load_tensor_shard.file_idx := file_idx;
     llama_load_tensor_shard.file_off := 0 |}.

(** A weight matrix found in two files, half of it in each. *)
Definition split_tensor (name : string) : LoadTensor.t :=
  LoadTensor.set_shards
    [shard [64; 32] GGML_TYPE_F16 0; shard [64; 32] GGML_TYPE_F16 1]
    (LoadTensor.create name).

End SampleShards.

(** ** Files *)

(** Modelled from the spec: [llama_file] lives in [llama_util.h],
    which is not part of the sources at hand.  The spec describes it
    as positioned reads and writes of little-endian integers and raw
    byte ranges with [tell], [seek] and a known [size], failing with
    [IoError].  A file is its bytes and a position; a read that would
    pass the end fails, a read of no bytes always succeeds, a seek
    moves the position without looking at the contents, and a write
    replaces or appends bytes at the position, the stretch that a
    seek has skipped past the end being zero. *)
Module llama_file.

Record t : Type := { bytes : list byte; pos : Z }.

Definition open (content : list byte) : t := {| bytes := content; pos := 0 |}.

Definition size (f : t) : Z := Z.of_nat (length (bytes f)).

Definition tell (f : t) : Z := pos f.

Definition seek_cur (offset : Z) (f : t) : t :=
  {| bytes := bytes f; pos := pos f + offset |}.

Definition seek_set (offset : Z) (f : t) : t :=
  {| bytes := bytes f; pos := offset |}.

(** The bytes from the position on. *)
Definition ahead (f : t) : list byte := drop (Z.to_nat (pos f)) (bytes f).

Definition read_raw (n : Z) (f : t) : result (list byte * t) :=
  if n =? 0 then Ok ([], f)
  else if (0 <=? pos f) && (0 <=? n) && (pos f + n <=? size f) then
    Ok (take (Z.to_nat n) (ahead f), seek_cur n f)
  else Err IoError.

Definition read_u32 (f : t) : result (Z * t) :=
  let* (bs, f) := read_raw 4 f in Ok (le_decode bs, f).

Definition read_string (len : Z) (f : t) : result (string * t) :=
  let* (bs, f) := read_raw len f in Ok (string_of_bytes bs, f).

Definition write_raw (bs : list byte) (f : t) : t :=
  match bs with
  | [] => f
  | _ =>
      let p := Z.to_nat (pos f) in
      let old := bytes f ++ replicate (p - length (bytes f)) x00 in
      {| bytes := take p old ++ bs ++ drop (p + length bs) old;
         pos := pos f + Z.of_nat (length bs) |}
  end.

Definition write_u32 (v : Z) (f : t) : t := write_raw (le_encode 4 v) f.

End llama_file.

(** Modelled from the spec: the numbers that stand for the tensor
    types in a model file ([F32=0, F16=1, Q4_0=2, Q4_1=3]); the
    enumeration itself belongs to the tensor library. *)
Definition ggml_type_code (t : ggml_type) : Z :=
  match t with
  | GGML_TYPE_F32 => 0
  | GGML_TYPE_F16 => 1
  | GGML_TYPE_Q4_0 => 2
  | GGML_TYPE_Q4_1 => 3
  end.

Definition ggml_type_of_code (c : Z) : option ggml_type :=
  if c =? 0 then Some GGML_TYPE_F32
  else if c =? 1 then Some GGML_TYPE_F16
  else if c =? 2 then Some GGML_TYPE_Q4_0
  else if c =? 3 then Some GGML_TYPE_Q4_1
  else None.

Module llama_load_tensors_map.

Record t : Type := {
  tensors : list LoadTensor.t;
  name_to_idx : gmap string Z
}.

Definition empty : t := {| tensors := []; name_to_idx := ∅ |}.

End llama_load_tensors_map.

(** ** Reading a model file *)

Module llama_file_loader.

Record t : Type := {
  file : llama_file.t;
  file_version : Loader.llama_file_version;
  hparams : llama_hparams.t;
  vocab : llama_vocab.t
}.

(** The hyperparameters a [llama_hparams] starts with (LLaMA 7B). *)
Definition default_hparams : llama_hparams.t :=
  {| llama_hparams.n_vocab := 32000; llama_hparams.n_ctx := 512;
     llama_hparams.n_embd := 4096; llama_hparams.n_mult := 256;
     llama_hparams.n_head := 32; llama_hparams.n_layer := 32;
     llama_hparams.n_rot := 64; llama_hparams.ftype := 1 |}.

(** [file_version >= v] on the enumeration. *)
Definition version_rank (v : Loader.llama_file_version) : Z :=
  match v with
  | Loader.LLAMA_FILE_VERSION_GGML => 0
  | Loader.LLAMA_FILE_VERSION_GGMF_V1 => 1
  | Loader.LLAMA_FILE_VERSION_GGJT_V1 => 2
  end.

(** [read_magic] on a positioned file: the detection of
    [Loader.read_magic] on the bytes ahead. *)
Definition read_magic (f : llama_file.t)
    : result (Loader.llama_file_version * llama_file.t) :=
  let* (v, rest) := Loader.read_magic (llama_file.ahead f) in
  Ok (v, llama_file.seek_set (llama_file.size f - Z.of_nat (length rest)) f).

Definition read_hparams (hparams : llama_hparams.t) (f : llama_file.t)
    : result (llama_hparams.t * llama_file.t) :=
  let* (n_vocab, f) := llama_file.read_u32 f in
  let* (n_embd, f) := llama_file.read_u32 f in
  let* (n_mult, f) := llama_file.read_u32 f in
  let* (n_head, f) := llama_file.read_u32 f in
  let* (n_layer, f) := llama_file.read_u32 f in
  let* (n_rot, f) := llama_file.read_u32 f in
  let* (ftype, f) := llama_file.read_u32 f in
  Ok ({| llama_hparams.n_vocab := n_vocab;
         llama_hparams.n_ctx := llama_hparams.n_ctx hparams;
         llama_hparams.n_embd := n_embd; llama_hparams.n_mult := n_mult;
         llama_hparams.n_head := n_head; llama_hparams.n_layer := n_layer;
         llama_hparams.n_rot := n_rot; llama_hparams.ftype := ftype |}, f).

(** The loop of [read_vocab] from entry [i] on, [k] entries to go. *)
Fixpoint read_vocab_loop (k : nat) (i : Z) (file_version : Loader.llama_file_version)
    (vocab : llama_vocab.t) (f : llama_file.t)
    : result (llama_vocab.t * llama_file.t) :=
  match k with
  | O => Ok (vocab, f)
  | S k' =>
      let* (len, f) := llama_file.read_u32 f in
      let* (word, f) := llama_file.read_string len f in
      let* (score, f) :=
        (if version_rank file_version >=? version_rank Loader.LLAMA_FILE_VERSION_GGMF_V1
         then
           let* (bs, f) := llama_file.read_raw 4 f in
           Ok (F32.of_bits (le_decode bs), f)
         else Ok (F32.zero, f)) in
      let token_to_id := <[word := to_int i]> (llama_vocab.token_to_id vocab) in
      let* id_to_token :=
        vec_update (llama_vocab.id_to_token vocab) i
          (fun _ => {| llama_vocab.tok := word; llama_vocab.score := score |}) in
      read_vocab_loop k' (i + 1) file_version
        {| llama_vocab.token_to_id := token_to_id;
           llama_vocab.id_to_token := id_to_token |} f
  end.

Definition read_vocab (hparams : llama_hparams.t)
    (file_version : Loader.llama_file_version) (vocab : llama_vocab.t)
    (f : llama_file.t) : result (llama_vocab.t * llama_file.t) :=
  let n_vocab := llama_hparams.n_vocab hparams in
  (* vocab.id_to_token.resize(hparams.n_vocab) *)
  let id_to_token :=
    take (Z.to_nat n_vocab) (llama_vocab.id_to_token vocab)
    ++ replicate (Z.to_nat n_vocab - length (llama_vocab.id_to_token vocab))
         {| llama_vocab.tok := EmptyString; llama_vocab.score := F32.zero |} in
  read_vocab_loop (Z.to_nat n_vocab) 0 file_version
    {| llama_vocab.token_to_id := llama_vocab.token_to_id vocab;
       llama_vocab.id_to_token := id_to_token |} f.

(** [n] values of type [uint32_t] from a block of bytes. *)
Fixpoint u32s_of_bytes (n : nat) (bs : list byte) : list Z :=
  match n with
  | O => []
  | S n' => le_decode (take 4 bs) :: u32s_of_bytes n' (drop 4 bs)
  end.

Section WithTypes.
Context `{GgmlTypes}.

(** One round of the loop of [read_tensor_metadata]. *)
Definition read_tensor_record (file_version : Loader.llama_file_version)
    (file_idx : Z) (f : llama_file.t) (tensors_map : llama_load_tensors_map.t)
    : attempt (llama_file.t * llama_load_tensors_map.t) :=
  let+ (n_dims, f) := lift (llama_file.read_u32 f) in
  let+ (name_len, f) := lift (llama_file.read_u32 f) in
  let+ (type_code, f) := lift (llama_file.read_u32 f) in
  let+ (raw_ne, f) := lift (llama_file.read_raw (size_t (4 * n_dims)) f) in
  let ne := u32s_of_bytes (Z.to_nat n_dims) raw_ne in
  let+ (name, f) := lift (llama_file.read_string name_len f) in
  if (n_dims <? 1) || (n_dims >? 2) then Throw BadDimension
  else
    match ggml_type_of_code type_code with
    | None => Throw UnrecognizedType
    | Some type =>
        let f :=
          if version_rank file_version
             >=? version_rank Loader.LLAMA_FILE_VERSION_GGJT_V1
          then llama_file.seek_cur (Z.land (size_t (- llama_file.tell f)) 31) f
          else f in
        let shard :=
          {| llama_load_tensor_shard.ne := ne;
             llama_load_tensor_shard.size := 0;
             llama_load_tensor_shard.type := type;
             llama_load_tensor_shard.file_idx := file_idx;
             llama_load_tensor_shard.file_off := llama_file.tell f |} in
        let+ shard := llama_load_tensor_shard.calc_size shard in
        let f := llama_file.seek_cur (llama_load_tensor_shard.size shard) f in
        let (tensors_map, idx) :=
          match llama_load_tensors_map.name_to_idx tensors_map !! name with
          | Some idx => (tensors_map, idx)
          | None =>
              let tensors :=
                llama_load_tensors_map.tensors tensors_map ++ [LoadTensor.create name] in
              let idx := size_t (Z.of_nat (length tensors) - 1) in
              ({| llama_load_tensors_map.tensors := tensors;
                  llama_load_tensors_map.name_to_idx :=
                    <[name := idx]> (llama_load_tensors_map.name_to_idx tensors_map) |},
               idx)
          end in
        let+ lt := vec_checked_at (llama_load_tensors_map.tensors tensors_map) idx in
        let lt := LoadTensor.set_shards (LoadTensor.shards lt ++ [shard]) lt in
        Fine (f,
              {| llama_load_tensors_map.tensors :=
                   <[Z.to_nat idx := lt]> (llama_load_tensors_map.tensors tensors_map);
                 llama_load_tensors_map.name_to_idx :=
                   llama_load_tensors_map.name_to_idx tensors_map |})
    end.

(** [while (file.tell() < file.size)] *)
Fixpoint read_tensor_metadata (fuel : nat) (file_version : Loader.llama_file_version)
    (file_idx : Z) (f : llama_file.t) (tensors_map : llama_load_tensors_map.t)
    : attempt (llama_file.t * llama_load_tensors_map.t) :=
  if llama_file.tell f <? llama_file.size f then
    match fuel with
    | O => Throw (Fault FuelExhausted)
    | S fuel' =>
        let+ (f, tensors_map) := read_tensor_record file_version file_idx f tensors_map in
        read_tensor_metadata fuel' file_version file_idx f tensors_map
    end
  else Fine (f, tensors_map).

(** [llama_file_loader(fname, file_idx, tensors_map)] on the contents
    of the file. *)
Definition create (content : list byte) (file_idx : Z)
    (tensors_map : llama_load_tensors_map.t)
    : attempt (t * llama_load_tensors_map.t) :=
  let f := llama_file.open content in
  let+ (file_version, f) := lift (read_magic f) in
  let+ (hparams, f) := lift (read_hparams default_hparams f) in
  let+ (vocab, f) :=
    lift (read_vocab hparams file_version
            {| llama_vocab.token_to_id := ∅; llama_vocab.id_to_token := [] |} f) in
  let+ (f, tensors_map) :=
    read_tensor_metadata (length content) file_version file_idx f tensors_map in
  Fine ({| file := f; file_version := file_version;
           hparams := hparams; vocab := vocab |}, tensors_map).

End WithTypes.

End llama_file_loader.

(** ** Writing a model file *)

Module llama_file_saver.

Definition write_magic (f : llama_file.t) : llama_file.t :=
  let f := llama_file.write_u32 Loader.magic_ggjt f in
  llama_file.write_u32 1 f.

Definition write_hparams (hparams : llama_hparams.t) (new_ftype : Z)
    (f : llama_file.t) : llama_file.t :=
  let f := llama_file.write_u32 (llama_hparams.n_vocab hparams) f in
  let f := llama_file.write_u32 (llama_hparams.n_embd hparams) f in
  let f := llama_file.write_u32 (llama_hparams.n_mult hparams) f in
  let f := llama_file.write_u32 (llama_hparams.n_head hparams) f in
  let f := llama_file.write_u32 (llama_hparams.n_layer hparams) f in
  let f := llama_file.write_u32 (llama_hparams.n_rot hparams) f in
  llama_file.write_u32 new_ftype f.

(** The loop of [write_vocab] from entry [i] on, [k] entries to go. *)
Fixpoint write_vocab_loop (k : nat) (i : Z) (vocab : llama_vocab.t)
    (f : llama_file.t) : attempt llama_file.t :=
  match k with
  | O => Fine f
  | S k' =>
      let+ token_score := vec_checked_at (llama_vocab.id_to_token vocab) i in
      let tok := llama_vocab.tok token_score in
      let f := llama_file.write_u32 (Z.of_nat (String.length tok)) f in
      let f := llama_file.write_raw (bytes_of_string tok) f in
      let f := llama_file.write_raw (f32_bytes (llama_vocab.score token_score)) f in
      write_vocab_loop k' (i + 1) vocab f
  end.

Definition write_vocab (any_file_loader : llama_file_loader.t) (f : llama_file.t)
    : attempt llama_file.t :=
  let n_vocab := llama_hparams.n_vocab (llama_file_loader.hparams any_file_loader) in
  write_vocab_loop (Z.to_nat n_vocab) 0 (llama_file_loader.vocab any_file_loader) f.

(** [llama_file_saver(fname, any_file_loader, new_ftype)]: the output
    file after the header is written. *)
Definition create (any_file_loader : llama_file_loader.t) (new_ftype : Z)
    : attempt llama_file.t :=
  let f := llama_file.open [] in
  let f := write_magic f in
  let f := write_hparams (llama_file_loader.hparams any_file_loader) new_ftype f in
  write_vocab any_file_loader f.

Definition u32s_bytes (ne : list Z) : list byte := flat_map (le_encode 4) ne.

Definition write_tensor `{GgmlTypes} (f : llama_file.t) (tensor : LoadTensor.t)
    (new_type : ggml_type) (new_data : list byte) (new_size : Z)
    : attempt llama_file.t :=
  let f := llama_file.write_u32 (Z.of_nat (length (LoadTensor.ne tensor))) f in
  let f := llama_file.write_u32 (Z.of_nat (String.length (LoadTensor.name tensor))) f in
  let f := llama_file.write_u32 (ggml_type_code new_type) f in
  let f := llama_file.write_raw (u32s_bytes (LoadTensor.ne tensor)) f in
  let f := llama_file.write_raw (bytes_of_string (LoadTensor.name tensor)) f in
  let f := llama_file.seek_cur (Z.land (size_t (- llama_file.tell f)) 31) f in
  let+ expected := llama_calc_tensor_size (LoadTensor.ne tensor) new_type in
  let+ _ := lift (LLAMA_ASSERT (new_size =? expected)) in
  let+ payload := lift (cursor.peek new_size (cursor.start new_data)) in
  Fine (llama_file.write_raw payload f).

End llama_file_saver.

(** ** The layout of a model file, for comparison with the code *)

Module Layout.

(** A file whose position separates the bytes behind it from the
    bytes ahead. *)
Definition at_split (behind ahead : list byte) : llama_file.t :=
  {| llama_file.bytes := behind ++ ahead;
     llama_file.pos := Z.of_nat (length behind) |}.

(** The magic and the version of the format that the saver writes. *)
Definition magic_bytes : list byte :=
  le_encode 4 Loader.magic_ggjt ++ le_encode 4 1.

(** One vocabulary entry of a file with scores: [u32] length, the
    bytes of the token, [f32] score. *)
Definition entry_bytes (ts : llama_vocab.token_score) : list byte :=
  le_encode 4 (Z.of_nat (String.length (llama_vocab.tok ts)))
  ++ bytes_of_string (llama_vocab.tok ts)
  ++ f32_bytes (llama_vocab.score ts).

Definition vocab_bytes (entries : list llama_vocab.token_score) : list byte :=
  flat_map entry_bytes entries.

(** The ids of the tokens of a vocabulary section read from entry
    [i] on: every entry puts the id of its position under its token,
    a later entry replacing an earlier one of the same token. *)
Fixpoint vocab_ids (i : Z) (entries : list llama_vocab.token_score)
    (token_to_id : gmap string Z) : gmap string Z :=
  match entries with
  | [] => token_to_id
  | ts :: rest =>
      vocab_ids (i + 1) rest (<[llama_vocab.tok ts := to_int i]> token_to_id)
  end.

(** The seven [u32] fields of the header. *)
Definition hparams_bytes (hparams : llama_hparams.t) (ftype : Z) : list byte :=
  le_encode 4 (llama_hparams.n_vocab hparams)
  ++ le_encode 4 (llama_hparams.n_embd hparams)
  ++ le_encode 4 (llama_hparams.n_mult hparams)
  ++ le_encode 4 (llama_hparams.n_head hparams)
  ++ le_encode 4 (llama_hparams.n_layer hparams)
  ++ le_encode 4 (llama_hparams.n_rot hparams)
  ++ le_encode 4 ftype.

(** The fields of [llama_hparams] are [uint32_t] values. *)
Definition hparams_u32 (hparams : llama_hparams.t) : Prop :=
  0 <= llama_hparams.n_vocab hparams < 2 ^ 32
  /\ 0 <= llama_hparams.n_embd hparams < 2 ^ 32
  /\ 0 <= llama_hparams.n_mult hparams < 2 ^ 32
  /\ 0 <= llama_hparams.n_head hparams < 2 ^ 32
  /\ 0 <= llama_hparams.n_layer hparams < 2 ^ 32
  /\ 0 <= llama_hparams.n_rot hparams < 2 ^ 32.

(** A vocabulary entry that a file can hold: the token is shorter
    than [2^32] bytes and the score is a binary32 value. *)
Definition entry_storable (ts : llama_vocab.token_score) : Prop :=
  Z.of_nat (String.length (llama_vocab.tok ts)) < 2 ^ 32
  /\ valid_binary F32.prec F32.emax (llama_vocab.score ts) = true.

(** The record that precedes the data of a tensor: the number of
    dimensions, the length of the name, the code of the type, the
    dimensions and the name. *)
Definition record_bytes (ne : list Z) (name : string) (type : ggml_type) : list byte :=
  le_encode 4 (Z.of_nat (length ne))
  ++ le_encode 4 (Z.of_nat (String.length name))
  ++ le_encode 4 (ggml_type_code type)
  ++ llama_file_saver.u32s_bytes ne
  ++ bytes_of_string name.

(** [-tell & 31]: the bytes skipped in front of the data of a
    tensor. *)
Definition padding (tell : Z) : Z := Z.land (size_t (- tell)) 31.

End Layout.

Module SampleFile.

(** A loader state with a vocabulary of three tokens, as input of the
    saver. *)
Definition loaded : llama_file_loader.t :=
  {| llama_file_loader.file := llama_file.open [];
     llama_file_loader.file_version := Loader.LLAMA_FILE_VERSION_GGML;
     llama_file_loader.hparams :=
       {| llama_hparams.n_vocab := 3; llama_hparams.n_ctx := 512;
          llama_hparams.n_embd := 64; llama_hparams.n_mult := 32;
          llama_hparams.n_head := 2; llama_hparams.n_layer := 1;
          llama_hparams.n_rot := 32; llama_hparams.ftype := 1 |};
     llama_file_loader.vocab :=
       {| llama_vocab.token_to_id :=
            list_to_map [("a", 0); ("b", 1); ("ab", 2)]%string;
          llama_vocab.id_to_token :=
            [Example.ts "a" 0; Example.ts "b" 0; Example.ts "ab" 1] |} |}.

(** The bytes of a vocabulary section without scores in which the
    token ["a"] occurs twice. *)
Definition legacy_vocab_bytes : list byte :=
  le_encode 4 1 ++ bytes_of_string "a"
  ++ le_encode 4 2 ++ bytes_of_string "ab"
  ++ le_encode 4 1 ++ bytes_of_string "a".

End SampleFile.

(** ** The model loader *)

(** Where the data of a tensor lie after loading: in a buffer of the
    session, or in the mapping of the first file at an offset. *)
Inductive tensor_data : Type :=
  | InBuffer (bytes : list byte)
  | InMapping (offset : Z).

(** What [ggml_new_tensor_1d] and [ggml_new_tensor_2d] are asked
    for. *)
Record tensor_request : Type := {
  request_type : ggml_type;
  request_ne : list Z
}.

Module llama_model_loader.

(** [mapping] holds the bytes of the mapped file once
    [load_all_data] has mapped it. *)
Record t : Type := {
  file_loaders : list llama_file_loader.t;
  tensors_map : llama_load_tensors_map.t;
  use_mmap : bool;
  num_ggml_tensors_created : Z;
  mapping : option (list byte)
}.

Definition set_file_loaders (v : list llama_file_loader.t) (ml : t) : t :=
  {| file_loaders := v; tensors_map := tensors_map ml; use_mmap := use_mmap ml;
     num_ggml_tensors_created := num_ggml_tensors_created ml; mapping := mapping ml |}.

(** [a != b] on [llama_hparams]: the comparison of the eight fields
    by [memcmp]. *)
Definition hparams_neq (a b : llama_hparams.t) : bool :=
  negb ((llama_hparams.n_vocab a =? llama_hparams.n_vocab b)
        && (llama_hparams.n_ctx a =? llama_hparams.n_ctx b)
        && (llama_hparams.n_embd a =? llama_hparams.n_embd b)
        && (llama_hparams.n_mult a =? llama_hparams.n_mult b)
        && (llama_hparams.n_head a =? llama_hparams.n_head b)
        && (llama_hparams.n_layer a =? llama_hparams.n_layer b)
        && (llama_hparams.n_rot a =? llama_hparams.n_rot b)
        && (llama_hparams.ftype a =? llama_hparams.ftype b)).

Definition alignment_prevents_mmap (tensors_map : llama_load_tensors_map.t) : bool :=
  existsb
    (fun lt =>
       existsb
         (fun shard => negb (Z.land (llama_load_tensor_shard.file_off shard) 3 =? 0))
         (LoadTensor.shards lt))
    (llama_load_tensors_map.tensors tensors_map).

Definition guess_n_parts (file_loaders : list llama_file_loader.t)
    (tensors_map : llama_load_tensors_map.t) : attempt Z :=
  match llama_load_tensors_map.name_to_idx tensors_map !! "tok_embeddings.weight"%string with
  | None => Throw MissingTokEmbeddings
  | Some idx =>
      let+ lt := vec_checked_at (llama_load_tensors_map.tensors tensors_map) idx in
      let+ first_file := vec_checked_at file_loaders 0 in
      let+ shard := vec_checked_at (LoadTensor.shards lt) 0 in
      let+ ne0 := vec_checked_at (llama_load_tensor_shard.ne shard) 0 in
      if ne0 =? 0 then Throw (Fault DivisionByZero)
      else Fine (llama_hparams.n_embd (llama_file_loader.hparams first_file) / ne0)
  end.

(** [std::to_string(i)] *)
Definition to_string (i : Z) : string :=
  NilZero.string_of_uint (N.to_uint (Z.to_N i)).

(** Modelled from the spec: opening a file that is not there fails
    with [IoError].  The files at hand are given by their contents. *)
Definition open_file (files : string -> option (list byte)) (fname : string)
    : attempt (list byte) :=
  match files fname with
  | Some content => Fine content
  | None => Throw (Fault IoError)
  end.

Section WithTypes.
Context `{GgmlTypes}.

(** The loop over the further parts of the model, [k] parts to go. *)
Fixpoint load_parts (files : string -> option (list byte)) (fname_base : string)
    (first_file : llama_file_loader.t) (k : nat) (i : Z)
    (file_loaders : list llama_file_loader.t) (tensors_map : llama_load_tensors_map.t)
    : attempt (list llama_file_loader.t * llama_load_tensors_map.t) :=
  match k with
  | O => Fine (file_loaders, tensors_map)
  | S k' =>
      let fname := (fname_base ++ "." ++ to_string i)%string in
      let+ content := open_file files fname in
      let+ (ith_file, tensors_map) := llama_file_loader.create content i tensors_map in
      let file_loaders := file_loaders ++ [ith_file] in
      if hparams_neq (llama_file_loader.hparams ith_file)
           (llama_file_loader.hparams first_file)
      then Throw InconsistentHparams
      else load_parts files fname_base first_file k' (i + 1) file_loaders tensors_map
  end.

(** [for (llama_load_tensor & lt : tensors_map.tensors) lt.calc_all()] *)
Fixpoint calc_all_tensors (tensors : list LoadTensor.t) : attempt (list LoadTensor.t) :=
  match tensors with
  | [] => Fine []
  | lt :: rest =>
      let+ lt := LoadTensor.calc_all lt in
      let+ rest := calc_all_tensors rest in
      Fine (lt :: rest)
  end.

(** [llama_model_loader(fname_base, use_mmap, vocab_only)];
    [mmap_supported] is [llama_mmap::SUPPORTED]. *)
Definition create (mmap_supported : bool) (files : string -> option (list byte))
    (fname_base : string) (use_mmap vocab_only : bool) : attempt t :=
  let+ content := open_file files fname_base in
  let+ (first_file, tensors_map) :=
    llama_file_loader.create content 0 llama_load_tensors_map.empty in
  let file_loaders := [first_file] in
  let+ n_parts :=
    (if vocab_only then Fine 1 else guess_n_parts file_loaders tensors_map) in
  let+ (file_loaders, tensors_map) :=
    load_parts files fname_base first_file (Z.to_nat (n_parts - 1)) 1
      file_loaders tensors_map in
  let use_mmap := if negb mmap_supported then false else use_mmap in
  let use_mmap :=
    if use_mmap && alignment_prevents_mmap tensors_map then false else use_mmap in
  let+ tensors := calc_all_tensors (llama_load_tensors_map.tensors tensors_map) in
  Fine {| file_loaders := file_loaders;
          tensors_map :=
            {| llama_load_tensors_map.tensors := tensors;
               llama_load_tensors_map.name_to_idx :=
                 llama_load_tensors_map.name_to_idx tensors_map |};
          use_mmap := use_mmap;
          num_ggml_tensors_created := 0;
          mapping := None |}.

End WithTypes.

(** [get_tensor_for]: the tensor is created in the tensor library,
    which is asked for the type and the shape; creating a tensor there
    is taken to succeed. *)
Definition get_tensor_for (ml : t) (idx : Z) (lt : LoadTensor.t)
    : attempt (tensor_request * t) :=
  let+ request :=
    (if (Z.of_nat (length (LoadTensor.ne lt)) =? 2) then
       let+ ne0 := vec_checked_at (LoadTensor.ne lt) 0 in
       let+ ne1 := vec_checked_at (LoadTensor.ne lt) 1 in
       Fine {| request_type := LoadTensor.type lt; request_ne := [ne0; ne1] |}
     else
       let+ _ := lift (LLAMA_ASSERT (Z.of_nat (length (LoadTensor.ne lt)) =? 1)) in
       let+ ne0 := vec_checked_at (LoadTensor.ne lt) 0 in
       Fine {| request_type := LoadTensor.type lt; request_ne := [ne0] |}) in
  let+ _ := lift (LLAMA_ASSERT (negb (LoadTensor.ggml_tensor lt))) in
  let lt := LoadTensor.set_ggml_tensor true lt in
  Fine (request,
        {| file_loaders := file_loaders ml;
           tensors_map :=
             {| llama_load_tensors_map.tensors :=
                  <[Z.to_nat idx := lt]>
                    (llama_load_tensors_map.tensors (tensors_map ml));
                llama_load_tensors_map.name_to_idx :=
                  llama_load_tensors_map.name_to_idx (tensors_map ml) |};
           use_mmap := use_mmap ml;
           num_ggml_tensors_created := size_t (num_ggml_tensors_created ml + 1);
           mapping := mapping ml |}).

Definition get_tensor (ml : t) (name : string) (ne : list Z)
    : attempt (tensor_request * t) :=
  match llama_load_tensors_map.name_to_idx (tensors_map ml) !! name with
  | None => Throw MissingTensor
  | Some idx =>
      let+ lt := vec_checked_at (llama_load_tensors_map.tensors (tensors_map ml)) idx in
      if negb (LoadTensor.ne_eqb (LoadTensor.ne lt) ne) then Throw WrongShape
      else get_tensor_for ml idx lt
  end.

(** [get_tensor(name, ne)] for each name and shape of a list, one call
    after the other, as [llama_model_load_internal] asks for the
    tensors of the model. *)
Fixpoint get_tensors (ml : t) (requests : list (string * list Z))
    : attempt (list tensor_request * t) :=
  match requests with
  | [] => Fine ([], ml)
  | (name, ne) :: rest =>
      let+ (tensor, ml) := get_tensor ml name ne in
      let+ (tensors, ml) := get_tensors ml rest in
      Fine (tensor :: tensors, ml)
  end.

Definition done_getting_tensors (ml : t) : attempt unit :=
  if negb (num_ggml_tensors_created ml
           =? Z.of_nat (length (llama_load_tensors_map.tensors (tensors_map ml))))
  then Throw TooManyTensors
  else Fine tt.

(** [file.seek(off, SEEK_SET); file.read_raw(dest + offset, size)] on
    the file of loader [file_idx]: the bytes go into the buffer
    [data] at [offset], the file is left behind the bytes read. *)
Definition read_into (file_loaders : list llama_file_loader.t) (file_idx file_off : Z)
    (size : Z) (data : list byte) (offset : Z)
    : attempt (list byte * list llama_file_loader.t) :=
  let+ loader := vec_checked_at file_loaders file_idx in
  let file := llama_file.seek_set file_off (llama_file_loader.file loader) in
  let+ (bs, file) := lift (llama_file.read_raw size file) in
  let+ c := lift (cursor.advance offset (cursor.start data)) in
  let+ c := lift (cursor.poke bs c) in
  let loader :=
    {| llama_file_loader.file := file;
       llama_file_loader.file_version := llama_file_loader.file_version loader;
       llama_file_loader.hparams := llama_file_loader.hparams loader;
       llama_file_loader.vocab := llama_file_loader.vocab loader |} in
  Fine (cursor.memory c, <[Z.to_nat file_idx := loader]> file_loaders).

(** The loop of the branch [SPLIT_BY_ROWS]. *)
Fixpoint load_rows (shards : list llama_load_tensor_shard.t)
    (file_loaders : list llama_file_loader.t) (data : list byte) (offset : Z)
    : attempt (list byte * list llama_file_loader.t * Z) :=
  match shards with
  | [] => Fine (data, file_loaders, offset)
  | shard :: rest =>
      let+ (data, file_loaders) :=
        read_into file_loaders (llama_load_tensor_shard.file_idx shard)
          (llama_load_tensor_shard.file_off shard)
          (llama_load_tensor_shard.size shard) data offset in
      load_rows rest file_loaders data
        (size_t (offset + llama_load_tensor_shard.size shard))
  end.

(** The first loop of the branch [SPLIT_BY_COLUMNS]: every shard is
    read into a buffer of its own. *)
Fixpoint load_tmp_bufs (shards : list llama_load_tensor_shard.t)
    (file_loaders : list llama_file_loader.t)
    : attempt (list (list byte) * list llama_file_loader.t) :=
  match shards with
  | [] => Fine ([], file_loaders)
  | shard :: rest =>
      let size := llama_load_tensor_shard.size shard in
      let+ (buf, file_loaders) :=
        read_into file_loaders (llama_load_tensor_shard.file_idx shard)
          (llama_load_tensor_shard.file_off shard) size
          (replicate (Z.to_nat size) x00) 0 in
      let+ (bufs, file_loaders) := load_tmp_bufs rest file_loaders in
      Fine (buf :: bufs, file_loaders)
  end.

(** [memcpy(dest + out_offset, src + src_offset, n)] *)
Definition memcpy_at (data : list byte) (out_offset : Z) (src : list byte)
    (src_offset n : Z) : attempt (list byte) :=
  let+ s := lift (cursor.advance src_offset (cursor.start src)) in
  let+ bs := lift (cursor.peek n s) in
  let+ c := lift (cursor.advance out_offset (cursor.start data)) in
  let+ c := lift (cursor.poke bs c) in
  Fine (cursor.memory c).

(** The inner loop of the reshaping: one row of every buffer. *)
Fixpoint copy_row (tmp_bufs : list (list byte)) (row per_shard_row_size : Z)
    (data : list byte) (out_offset : Z) : attempt (list byte * Z) :=
  match tmp_bufs with
  | [] => Fine (data, out_offset)
  | tmp_buf :: rest =>
      let+ data :=
        memcpy_at data out_offset tmp_buf (size_t (row * per_shard_row_size))
          per_shard_row_size in
      copy_row rest row per_shard_row_size data (size_t (out_offset + per_shard_row_size))
  end.

(** The outer loop of the reshaping, [k] rows to go. *)
Fixpoint copy_rows (k : nat) (row : Z) (tmp_bufs : list (list byte))
    (per_shard_row_size : Z) (data : list byte) (out_offset : Z)
    : attempt (list byte * Z) :=
  match k with
  | O => Fine (data, out_offset)
  | S k' =>
      let+ (data, out_offset) :=
        copy_row tmp_bufs row per_shard_row_size data out_offset in
      copy_rows k' (row + 1) tmp_bufs per_shard_row_size data out_offset
  end.

(** [load_data_for(lt)]; [data] is the buffer that [lt.data] points
    to on entry.  The result tells where the data of the tensor lie
    afterwards. *)
Definition load_data_for (ml : t) (lt : LoadTensor.t) (data : list byte)
    : attempt (tensor_data * t) :=
  if use_mmap ml then
    let+ _ := lift (LLAMA_ASSERT (Z.of_nat (length (LoadTensor.shards lt)) =? 1)) in
    let+ shard := vec_checked_at (LoadTensor.shards lt) 0 in
    Fine (InMapping (llama_load_tensor_shard.file_off shard), ml)
  else
    match LoadTensor.split_type lt with
    | SPLIT_NONE =>
        let+ shard := vec_checked_at (LoadTensor.shards lt) 0 in
        let+ (data, file_loaders) :=
          read_into (file_loaders ml) (llama_load_tensor_shard.file_idx shard)
            (llama_load_tensor_shard.file_off shard) (LoadTensor.size lt) data 0 in
        Fine (InBuffer data, set_file_loaders file_loaders ml)
    | SPLIT_BY_ROWS =>
        let+ (data, file_loaders, offset) :=
          load_rows (LoadTensor.shards lt) (file_loaders ml) data 0 in
        let+ _ := lift (LLAMA_ASSERT (offset =? LoadTensor.size lt)) in
        Fine (InBuffer data, set_file_loaders file_loaders ml)
    | SPLIT_BY_COLUMNS =>
        let+ (tmp_bufs, file_loaders) :=
          load_tmp_bufs (LoadTensor.shards lt) (file_loaders ml) in
        let+ num_rows := vec_checked_at (LoadTensor.ne lt) 1 in
        let+ shard := vec_checked_at (LoadTensor.shards lt) 0 in
        if num_rows =? 0 then Throw (Fault DivisionByZero)
        else
          let per_shard_row_size := llama_load_tensor_shard.size shard / num_rows in
          let+ (data, out_offset) :=
            copy_rows (Z.to_nat num_rows) 0 tmp_bufs per_shard_row_size data 0 in
          let+ _ := lift (LLAMA_ASSERT (out_offset =? LoadTensor.size lt)) in
          Fine (InBuffer data, set_file_loaders file_loaders ml)
    end.

End llama_model_loader.

(** The bytes of the files of a loader, file by file. *)
Definition file_contents (file_loaders : list llama_file_loader.t) : list (list byte) :=
  (fun ld => llama_file.bytes (llama_file_loader.file ld)) <$> file_loaders.

(** File [file_idx] holds the bytes [payload] from offset [file_off]
    on. *)
Definition bytes_at (contents : list (list byte)) (file_idx file_off : Z)
    (payload : list byte) : Prop :=
  0 <= file_idx /\ 0 <= file_off
  /\ exists bytes,
       contents !! Z.to_nat file_idx = Some bytes
       /\ take (length payload) (drop (Z.to_nat file_off) bytes) = payload.

(** The files hold the data [payload] of the shard. *)
Definition shard_holds (contents : list (list byte))
    (shard : llama_load_tensor_shard.t) (payload : list byte) : Prop :=
  bytes_at contents (llama_load_tensor_shard.file_idx shard)
    (llama_load_tensor_shard.file_off shard) payload
  /\ llama_load_tensor_shard.size shard = Z.of_nat (length payload).

(** Row by row, the rows of [per] bytes of every buffer one after the
    other. *)
Definition interleave_rows (num_rows per : nat) (bufs : list (list byte)) : list byte :=
  flat_map (fun row => flat_map (fun buf => take per (drop (row * per) buf)) bufs)
    (seq 0 num_rows).

(** The map finds every tensor under its name: an index of
    [name_to_idx] points at a tensor of that name. *)
Definition names_indexed (tensors_map : llama_load_tensors_map.t) : Prop :=
  forall name idx,
    llama_load_tensors_map.name_to_idx tensors_map !! name = Some idx ->
    0 <= idx
    /\ (LoadTensor.name <$> llama_load_tensors_map.tensors tensors_map) !! Z.to_nat idx
       = Some name.

(** The map [later] has grown out of the map [earlier]: the names
    keep their indices and the tensors keep their shards in front of
    any new ones. *)
Definition map_extends (earlier later : llama_load_tensors_map.t) : Prop :=
  (forall name idx,
     llama_load_tensors_map.name_to_idx earlier !! name = Some idx ->
     llama_load_tensors_map.name_to_idx later !! name = Some idx)
  /\ (forall j lt,
        llama_load_tensors_map.tensors earlier !! j = Some lt ->
        exists lt' more,
          llama_load_tensors_map.tensors later !! j = Some lt'
          /\ LoadTensor.shards lt' = LoadTensor.shards lt ++ more).

(** A property of every shard of every tensor of the map. *)
Definition every_shard (P : llama_load_tensor_shard.t -> Prop)
    (tensors_map : llama_load_tensors_map.t) : Prop :=
  Forall (fun lt => Forall P (LoadTensor.shards lt))
    (llama_load_tensors_map.tensors tensors_map).

Module SampleModel.

Definition norm : LoadTensor.t := LoadTensor.set_ne [3] (LoadTensor.create "norm.weight").

(** A model file as the saver writes it: the header of
    [SampleFile.loaded] and the tensor [norm.weight] of three
    floats. *)
Definition file_bytes : list byte :=
  match llama_file_saver.create SampleFile.loaded 2 with
  | Fine f =>
      match llama_file_saver.write_tensor (H := ggml_types) f norm GGML_TYPE_F32
              (floats_bytes [F32.one; F32.one; F32.one]) 12 with
      | Fine f => llama_file.bytes f
      | Throw _ => []
      end
  | Throw _ => []
  end.

Definition files (fname : string) : option (list byte) :=
  if String.eqb fname "model.bin" then Some file_bytes else None.

(** The loader of this file when the file has been read. *)
Definition first_loader : llama_file_loader.t :=
  {| llama_file_loader.file :=
       {| llama_file.bytes := file_bytes; llama_file.pos := 108 |};
     llama_file_loader.file_version := Loader.LLAMA_FILE_VERSION_GGJT_V1;
     llama_file_loader.hparams :=
       {| llama_hparams.n_vocab := 3; llama_hparams.n_ctx := 512;
          llama_hparams.n_embd := 64; llama_hparams.n_mult := 32;
          llama_hparams.n_head := 2; llama_hparams.n_layer := 1;
          llama_hparams.n_rot := 32; llama_hparams.ftype := 2 |};
     llama_file_loader.vocab :=
       {| llama_vocab.token_to_id :=
            list_to_map [("a", 0); ("b", 1); ("ab", 2)]%string;
          llama_vocab.id_to_token :=
            [Example.ts "a" 0; Example.ts "b" 0; Example.ts "ab" 1] |} |}.

Definition loaded_norm (created : bool) : LoadTensor.t :=
  {| LoadTensor.shards :=
       [{| llama_load_tensor_shard.ne := [3];
           llama_load_tensor_shard.size := 12;
           llama_load_tensor_shard.type := GGML_TYPE_F32;
           llama_load_tensor_shard.file_idx := 0;
           llama_load_tensor_shard.file_off := 96 |}];
     LoadTensor.name := "norm.weight";
     LoadTensor.type := GGML_TYPE_F32;
     LoadTensor.split_type := SPLIT_NONE;
     LoadTensor.ne := [3];
     LoadTensor.size := 12;
     LoadTensor.ggml_tensor := created |}.

(** The model loader of this file, before and after the tensor has
    been asked for. *)
Definition loaded (created : bool) : llama_model_loader.t :=
  {| llama_model_loader.file_loaders := [first_loader];
     llama_model_loader.tensors_map :=
       {| llama_load_tensors_map.tensors := [loaded_norm created];
          llama_load_tensors_map.name_to_idx := {[ "norm.weight"%string := 0 ]} |};
     llama_model_loader.use_mmap := true;
     llama_model_loader.num_ggml_tensors_created := if created then 1 else 0;
     llama_model_loader.mapping := None |}.

(** A loader of two files of four bytes each, and a tensor of two
    rows that has the first half of every row in the first file and
    the second half in the second. *)
Definition part (content : list byte) : llama_file_loader.t :=
  {| llama_file_loader.file := llama_file.open content;
     llama_file_loader.file_version := Loader.LLAMA_FILE_VERSION_GGMF_V1;
     llama_file_loader.hparams := llama_file_loader.default_hparams;
     llama_file_loader.vocab :=
       {| llama_vocab.token_to_id := ∅; llama_vocab.id_to_token := [] |} |}.

Definition two_parts : llama_model_loader.t :=
  {| llama_model_loader.file_loaders :=
       [part [x01; x02; x03; x04]; part [x05; x06; x07; x08]];
     llama_model_loader.tensors_map := llama_load_tensors_map.empty;
     llama_model_loader.use_mmap := false;
     llama_model_loader.num_ggml_tensors_created := 0;
     llama_model_loader.mapping := None |}.

Definition half (file_idx : Z) : llama_load_tensor_shard.t :=
  {| llama_load_tensor_shard.ne := [2; 2];
     llama_load_tensor_shard.size := 4;
     llama_load_tensor_shard.type := GGML_TYPE_Q4_0;
     llama_load_tensor_shard.file_idx := file_idx;
     llama_load_tensor_shard.file_off := 0 |}.

Definition by_columns : LoadTensor.t :=
  {| LoadTensor.shards := [half 0; half 1];
     LoadTensor.name := "tok_embeddings.weight";
     LoadTensor.type := GGML_TYPE_Q4_0;
     LoadTensor.split_type := SPLIT_BY_COLUMNS;
     LoadTensor.ne := [4; 2];
     LoadTensor.size := 8;
     LoadTensor.ggml_tensor := true |}.

End SampleModel.

(** ** Loading a model: [llama_model_load_internal] *)

Inductive e_model : Type :=
  | MODEL_UNKNOWN
  | MODEL_7B
  | MODEL_13B
  | MODEL_30B
  | MODEL_65B.

(** What the tensor library contributes to loading a model. *)
Class GgmlContext : Type := {
  (** [sizeof(struct ggml_tensor) + GGML_OBJECT_SIZE] *)
  ggml_tensor_overhead : Z;
  (** [ggml_init(params)] for a memory of [mem_size] bytes and the
      flag [no_alloc]: whether a context is returned *)
  ggml_init : Z -> bool -> bool;
  (** [tensor->data] of a new tensor of a type and a shape in a
      context that allocates: the buffer as it is before the data are
      loaded *)
  ggml_new_tensor_data : ggml_type -> list Z -> list byte
}.

Module llama_model.

(** [llama_model] after loading: the type, the hyperparameters, the
    tensors in the order of [tensors_by_name], each with what it was
    created from ([None] for the null pointer) and with its data, and
    the bytes of the mapping. *)
Record t : Type := {
  type : e_model;
  hparams : llama_hparams.t;
  tensors_by_name : list (string * option tensor_request * tensor_data);
  mapping : option (list byte)
}.

End llama_model.

Section Loading.
Context `{GgmlTypes} `{GgmlContext}.

(** [llama_model_loader::calc_sizes] *)
Fixpoint calc_sizes_loop (use_mmap : bool) (tensors : list LoadTensor.t)
    (ctx_size mmapped_size : Z) : Z * Z :=
  match tensors with
  | [] => (ctx_size, mmapped_size)
  | lt :: rest =>
      let ctx_size := size_t (ctx_size + ggml_tensor_overhead) in
      if use_mmap then
        calc_sizes_loop use_mmap rest ctx_size (size_t (mmapped_size + LoadTensor.size lt))
      else
        calc_sizes_loop use_mmap rest (size_t (ctx_size + LoadTensor.size lt)) mmapped_size
  end.

Definition calc_sizes (ml : llama_model_loader.t) : Z * Z :=
  calc_sizes_loop (llama_model_loader.use_mmap ml)
    (llama_load_tensors_map.tensors (llama_model_loader.tensors_map ml)) 0 0.

(** The second loop of [load_all_data]; [log] collects the values
    that the progress callback is called with. *)
Fixpoint load_all_loop (ml : llama_model_loader.t) (tensors : list LoadTensor.t)
    (progress_callback : bool) (done_size data_size : Z) (log : list float)
    : attempt (llama_model_loader.t * list tensor_data * list float) :=
  match tensors with
  | [] => Fine (ml, [], log)
  | lt :: rest =>
      let log :=
        if progress_callback
        then log ++ [F32.div (F32.of_Z done_size) (F32.of_Z data_size)]
        else log in
      let+ _ := lift (LLAMA_ASSERT (LoadTensor.ggml_tensor lt)) in
      let data :=
        if llama_model_loader.use_mmap ml then []
        else ggml_new_tensor_data (LoadTensor.type lt) (LoadTensor.ne lt) in
      let+ (data, ml) := llama_model_loader.load_data_for ml lt data in
      let done_size := size_t (done_size + LoadTensor.size lt) in
      let+ (ml, datas, log) :=
        load_all_loop ml rest progress_callback done_size data_size log in
      Fine (ml, data :: datas, log)
  end.

(** [llama_model_loader::load_all_data]; [lmlock] tells whether a
    lock is given.  Pinning the pages of the mapping leaves the data
    as they are and is left out.

    Modelled from the spec: the mapping of a file holds the bytes of
    the whole file. *)
Definition load_all_data (ml : llama_model_loader.t) (progress_callback lmlock : bool)
    : attempt (llama_model_loader.t * list tensor_data * list float) :=
  let tensors := llama_load_tensors_map.tensors (llama_model_loader.tensors_map ml) in
  let data_size :=
    fold_left (fun acc lt => size_t (acc + LoadTensor.size lt)) tensors 0 in
  let+ (ml, progress_callback) :=
    (if llama_model_loader.use_mmap ml then
       let+ first := vec_checked_at (llama_model_loader.file_loaders ml) 0 in
       Fine ({| llama_model_loader.file_loaders := llama_model_loader.file_loaders ml;
                llama_model_loader.tensors_map := llama_model_loader.tensors_map ml;
                llama_model_loader.use_mmap := llama_model_loader.use_mmap ml;
                llama_model_loader.num_ggml_tensors_created :=
                  llama_model_loader.num_ggml_tensors_created ml;
                llama_model_loader.mapping :=
                  Some (llama_file.bytes (llama_file_loader.file first)) |},
             if negb lmlock then false else progress_callback)
     else Fine (ml, progress_callback)) in
  let+ (ml, datas, log) := load_all_loop ml tensors progress_callback 0 data_size [] in
  Fine (ml, datas, if progress_callback then log ++ [F32.one] else log).

(** The feed-forward width
    [((2*(4*n_embd)/3 + n_mult - 1)/n_mult)*n_mult] in [uint32_t]. *)
Definition n_ff_of (hparams : llama_hparams.t) : attempt Z :=
  let n_embd := llama_hparams.n_embd hparams in
  let n_mult := llama_hparams.n_mult hparams in
  if n_mult =? 0 then Throw (Fault DivisionByZero)
  else
    Fine (wrap 32 (wrap 32 (wrap 32 (2 * wrap 32 (4 * n_embd)) / 3 + n_mult - 1)
                   / n_mult * n_mult)).

(** The nine tensors of layer [i], in the order in which they are
    asked for. *)
Definition layer_tensors (n_embd n_ff : Z) (i : Z) : list (string * list Z) :=
  let layers_i := ("layers." ++ llama_model_loader.to_string i)%string in
  [ ((layers_i ++ ".attention_norm.weight")%string, [n_embd]);
    ((layers_i ++ ".attention.wq.weight")%string, [n_embd; n_embd]);
    ((layers_i ++ ".attention.wk.weight")%string, [n_embd; n_embd]);
    ((layers_i ++ ".attention.wv.weight")%string, [n_embd; n_embd]);
    ((layers_i ++ ".attention.wo.weight")%string, [n_embd; n_embd]);
    ((layers_i ++ ".ffn_norm.weight")%string, [n_embd]);
    ((layers_i ++ ".feed_forward.w1.weight")%string, [n_embd; n_ff]);
    ((layers_i ++ ".feed_forward.w2.weight")%string, [n_ff; n_embd]);
    ((layers_i ++ ".feed_forward.w3.weight")%string, [n_embd; n_ff]) ].

(** The tensors that [llama_model_load_internal] asks the loader
    for. *)
Definition model_tensors (hparams : llama_hparams.t) (n_ff : Z)
    : list (string * list Z) :=
  let n_embd := llama_hparams.n_embd hparams in
  let n_vocab := llama_hparams.n_vocab hparams in
  [ ("tok_embeddings.weight"%string, [n_embd; n_vocab]);
    ("norm.weight"%string, [n_embd]);
    ("output.weight"%string, [n_embd; n_vocab]) ]
  ++ flat_map (layer_tensors n_embd n_ff)
       (Z.of_nat <$> seq 0 (Z.to_nat (llama_hparams.n_layer hparams))).

(** The [switch] on [hparams.n_layer]. *)
Definition model_type_of (n_layer : Z) (type : e_model) : e_model :=
  if n_layer =? 32 then MODEL_7B
  else if n_layer =? 40 then MODEL_13B
  else if n_layer =? 60 then MODEL_30B
  else if n_layer =? 80 then MODEL_65B
  else type.

(** [llama_model_type_name] *)
Definition llama_model_type_name (type : e_model) : result string :=
  match type with
  | MODEL_7B => Ok "7B"%string
  | MODEL_13B => Ok "13B"%string
  | MODEL_30B => Ok "30B"%string
  | MODEL_65B => Ok "65B"%string
  | MODEL_UNKNOWN => Err AssertFailed
  end.

(** [llama_model_load_internal]: the vocabulary and the model of the
    context after the call, and the values reported to the progress
    callback.  [type] is [lctx.model.type] on entry, the files are
    given by their contents, and [progress_callback] tells whether a
    callback is given. *)
Definition llama_model_load_internal (mmap_supported : bool)
    (files : string -> option (list byte)) (fname : string) (type : e_model)
    (n_ctx : Z) (use_mmap use_mlock vocab_only progress_callback : bool)
    : attempt (llama_vocab.t * llama_model.t * list float) :=
  let+ ml := llama_model_loader.create mmap_supported files fname use_mmap vocab_only in
  let+ first := vec_checked_at (llama_model_loader.file_loaders ml) 0 in
  let vocab := llama_file_loader.vocab first in
  let hparams := llama_file_loader.hparams first in
  let+ n_ff := n_ff_of hparams in
  let type := model_type_of (llama_hparams.n_layer hparams) type in
  let hparams :=
    {| llama_hparams.n_vocab := llama_hparams.n_vocab hparams;
       llama_hparams.n_ctx := wrap 32 n_ctx;
       llama_hparams.n_embd := llama_hparams.n_embd hparams;
       llama_hparams.n_mult := llama_hparams.n_mult hparams;
       llama_hparams.n_head := llama_hparams.n_head hparams;
       llama_hparams.n_layer := llama_hparams.n_layer hparams;
       llama_hparams.n_rot := llama_hparams.n_rot hparams;
       llama_hparams.ftype := llama_hparams.ftype hparams |} in
  let+ _ := lift (llama_model_type_name type) in
  if vocab_only then
    Fine (vocab,
          {| llama_model.type := type; llama_model.hparams := hparams;
             llama_model.tensors_by_name := []; llama_model.mapping := None |},
          [])
  else
    let (ctx_size, mmapped_size) := calc_sizes ml in
    if negb (ggml_init ctx_size (llama_model_loader.use_mmap ml)) then Throw GgmlInitFailed
    else
      let+ (_, ml) := llama_model_loader.get_tensors ml (model_tensors hparams n_ff) in
      let+ _ := llama_model_loader.done_getting_tensors ml in
      let tensors_by_name :=
        (fun lt =>
           (LoadTensor.name lt,
            if LoadTensor.ggml_tensor lt
            then Some {| request_type := LoadTensor.type lt;
                         request_ne := LoadTensor.ne lt |}
            else None))
        <$> llama_load_tensors_map.tensors (llama_model_loader.tensors_map ml) in
      let+ (ml, datas, log) := load_all_data ml progress_callback use_mlock in
      Fine (vocab,
            {| llama_model.type := type; llama_model.hparams := hparams;
               llama_model.tensors_by_name := zip tensors_by_name datas;
               llama_model.mapping := llama_model_loader.mapping ml |},
            log).

End Loading.

Module SampleLoading.

(** A tensor library whose contexts can always be set up and whose
    new tensors have buffers of zero bytes of the size of the
    tensor. *)
Definition ggml_context : GgmlContext :=
  {| ggml_tensor_overhead := 256;
     ggml_init := fun _ _ => true;
     ggml_new_tensor_data :=
       fun type ne =>
         match llama_calc_tensor_size (H := ggml_types) ne type with
         | Fine size => replicate (Z.to_nat size) x00
         | Throw _ => []
         end |}.

(** The smallest model of 32 layers: one token, embeddings of one
    element. *)
Definition tiny_hparams : llama_hparams.t :=
  {| llama_hparams.n_vocab := 1; llama_hparams.n_ctx := 512;
     llama_hparams.n_embd := 1; llama_hparams.n_mult := 1;
     llama_hparams.n_head := 1; llama_hparams.n_layer := 32;
     llama_hparams.n_rot := 1; llama_hparams.ftype := 0 |}.

Definition tiny_source : llama_file_loader.t :=
  {| llama_file_loader.file := llama_file.open [];
     llama_file_loader.file_version := Loader.LLAMA_FILE_VERSION_GGJT_V1;
     llama_file_loader.hparams := tiny_hparams;
     llama_file_loader.vocab :=
       {| llama_vocab.token_to_id := {[ "a"%string := 0 ]};
          llama_vocab.id_to_token := [Example.ts "a" 0] |} |}.

(** Every tensor of a list written as [F32] with data of zero
    bytes. *)
Fixpoint write_all (f : llama_file.t) (tensors : list (string * list Z))
    : attempt llama_file.t :=
  match tensors with
  | [] => Fine f
  | (name, ne) :: rest =>
      let size := 4 * nelements ne in
      let+ f :=
        llama_file_saver.write_tensor (H := ggml_types) f
          (LoadTensor.set_ne ne (LoadTensor.create name)) GGML_TYPE_F32
          (replicate (Z.to_nat size) x00) size in
      write_all f rest
  end.

Definition tiny_file : list byte :=
  match llama_file_saver.create tiny_source 0 with
  | Fine f =>
      match write_all f (model_tensors tiny_hparams 2) with
      | Fine f => llama_file.bytes f
      | Throw _ => []
      end
  | Throw _ => []
  end.

Definition files (fname : string) : option (list byte) :=
  if String.eqb fname "tiny.bin" then Some tiny_file else None.

End SampleLoading.

(** ** Quantizing a model: [llama_model_quantize_internal] *)

(** Modelled from the spec: the numbers of the file types,
    [ALL_F32=0, MOSTLY_F16=1, MOSTLY_Q4_0=2, MOSTLY_Q4_1=3,
    MOSTLY_Q4_1_SOME_F16=4]. *)
Definition LLAMA_FTYPE_MOSTLY_Q4_0 : Z := 2.
Definition LLAMA_FTYPE_MOSTLY_Q4_1 : Z := 3.

(** The tensor of the loop, as the conversion sees it. *)
Definition as_load_tensor (tensor : LoadTensor.t) (data : list byte)
    : llama_load_tensor.t :=
  {| llama_load_tensor.name := LoadTensor.name tensor;
     llama_load_tensor.type := LoadTensor.type tensor;
     llama_load_tensor.ne := LoadTensor.ne tensor;
     llama_load_tensor.size := LoadTensor.size tensor;
     llama_load_tensor.data := data |}.

Section Quantizing.
Context `{Ggml} `{GgmlTypes}.

(** The body of the loop over the tensors of the input: the data are
    loaded into a new buffer of the size of the tensor, converted and
    written.  The bytes of the buffer before the load are taken to be
    zero. *)
Definition quantize_step (quantized_type : ggml_type) (ml : llama_model_loader.t)
    (file : llama_file.t) (tensor : LoadTensor.t)
    : attempt (llama_model_loader.t * llama_file.t) :=
  let read_data := replicate (Z.to_nat (LoadTensor.size tensor)) x00 in
  let+ (data, ml) := llama_model_loader.load_data_for ml tensor read_data in
  (* [tensor.data], [tensor.size] bytes *)
  let+ data :=
    match data with
    | InBuffer data => Fine data
    | InMapping offset =>
        match llama_model_loader.mapping ml with
        | Some mapped =>
            let+ c := lift (cursor.advance offset (cursor.start mapped)) in
            lift (cursor.peek (LoadTensor.size tensor) c)
        | None => Throw (Fault OutOfBounds)
        end
    end in
  (* [llama_format_tensor_shape(tensor.ne)] starts with [ne.at(0)] *)
  let+ _ := vec_checked_at (LoadTensor.ne tensor) 0 in
  let+ out :=
    lift (Quantizer.quantize_tensor quantized_type (as_load_tensor tensor data)) in
  let+ file :=
    llama_file_saver.write_tensor file tensor (Quantizer.new_type out)
      (Quantizer.new_data out) (Quantizer.new_size out) in
  Fine (ml, file).

Fixpoint quantize_loop (quantized_type : ggml_type) (ml : llama_model_loader.t)
    (file : llama_file.t) (tensors : list LoadTensor.t)
    : attempt (llama_model_loader.t * llama_file.t) :=
  match tensors with
  | [] => Fine (ml, file)
  | tensor :: rest =>
      let+ (ml, file) := quantize_step quantized_type ml file tensor in
      quantize_loop quantized_type ml file rest
  end.

(** [llama_model_quantize_internal(fname_inp, fname_out, ftype)]: the
    bytes of the output file.  The sizes and the histogram that the
    function prints are left out. *)
Definition llama_model_quantize_internal (mmap_supported : bool)
    (files : string -> option (list byte)) (fname_inp : string) (ftype : Z)
    : attempt (list byte) :=
  let+ quantized_type :=
    (if ftype =? LLAMA_FTYPE_MOSTLY_Q4_0 then Fine GGML_TYPE_Q4_0
     else if ftype =? LLAMA_FTYPE_MOSTLY_Q4_1 then Fine GGML_TYPE_Q4_1
     else Throw InvalidOutputType) in
  let+ model_loader :=
    llama_model_loader.create mmap_supported files fname_inp false false in
  let+ first := vec_checked_at (llama_model_loader.file_loaders model_loader) 0 in
  let+ file := llama_file_saver.create first ftype in
  let+ (_, file) :=
    quantize_loop quantized_type model_loader file
      (llama_load_tensors_map.tensors (llama_model_loader.tensors_map model_loader)) in
  Fine (llama_file.bytes file).

End Quantizing.

(** ** A quantized file, for comparison with the code *)

(** [hparams] with another file type. *)
Definition with_ftype (ftype : Z) (hparams : llama_hparams.t) : llama_hparams.t :=
  {| llama_hparams.n_vocab := llama_hparams.n_vocab hparams;
     llama_hparams.n_ctx := llama_hparams.n_ctx hparams;
     llama_hparams.n_embd := llama_hparams.n_embd hparams;
     llama_hparams.n_mult := llama_hparams.n_mult hparams;
     llama_hparams.n_head := llama_hparams.n_head hparams;
     llama_hparams.n_layer := llama_hparams.n_layer hparams;
     llama_hparams.n_rot := llama_hparams.n_rot hparams;
     llama_hparams.ftype := ftype |}.

(** Every tensor of the map is found under its name, and the name
    is shorter than [2^32] bytes. *)
Definition names_listed (tensors_map : llama_load_tensors_map.t) : Prop :=
  forall j name,
    (LoadTensor.name <$> llama_load_tensors_map.tensors tensors_map) !! j = Some name ->
    llama_load_tensors_map.name_to_idx tensors_map !! name = Some (Z.of_nat j)
    /\ Z.of_nat (String.length name) < 2 ^ 32.

(** A shape of one or two dimensions of 32 bits. *)
Definition shape_storable (ne : list Z) : Prop :=
  (1 <= length ne <= 2)%nat /\ Forall (fun d => 0 <= d < 2 ^ 32) ne.

(** The test of the loop for the tensors to convert, written out:
    [rfind("weight") == size() - 6] holds for a name that ends with
    ["weight"] and, by the wrap-around of [size() - 6], for every name
    of exactly five bytes; the tensor must have two dimensions. *)
Definition converted (tensor : LoadTensor.t) : bool :=
  (Quantizer.ends_with_weight (LoadTensor.name tensor)
   || (String.length (LoadTensor.name tensor) =? 5)%nat)
  && (Z.of_nat (length (LoadTensor.ne tensor)) =? 2).

(** The tensor [new], as a loader finds it in a file, is the tensor
    [old] of the input after quantization: the same name, one shard of
    the shape of [old] in the first file at a multiple of 32 bytes,
    of the quantized type when [old] has two dimensions and a name that
    ends with ["weight"] or is five bytes long, and of the type of
    [old] otherwise. *)
Definition quantized_as (quantized_type : ggml_type) (old new : LoadTensor.t) : Prop :=
  LoadTensor.name new = LoadTensor.name old
  /\ exists shard,
       LoadTensor.shards new = [shard]
       /\ llama_load_tensor_shard.ne shard = LoadTensor.ne old
       /\ llama_load_tensor_shard.type shard
          = (if converted old then quantized_type else LoadTensor.type old)
       /\ llama_load_tensor_shard.file_idx shard = 0
       /\ llama_load_tensor_shard.file_off shard mod 32 = 0.

Module SampleQuantize.

(** A model of one token with embeddings of 32 elements. *)
Definition source : llama_file_loader.t :=
  {| llama_file_loader.file := llama_file.open [];
     llama_file_loader.file_version := Loader.LLAMA_FILE_VERSION_GGJT_V1;
     llama_file_loader.hparams :=
       {| llama_hparams.n_vocab := 1; llama_hparams.n_ctx := 512;
          llama_hparams.n_embd := 32; llama_hparams.n_mult := 1;
          llama_hparams.n_head := 1; llama_hparams.n_layer := 1;
          llama_hparams.n_rot := 1; llama_hparams.ftype := 0 |};
     llama_file_loader.vocab :=
       {| llama_vocab.token_to_id := {[ "a"%string := 0 ]};
          llama_vocab.id_to_token := [Example.ts "a" 0] |} |}.

(** Its file with three tensors of zeros: the embeddings, a matrix;
    a vector; and a matrix with a name of five bytes. *)
Definition f32_file : list byte :=
  match llama_file_saver.create source 0 with
  | Fine f =>
      match SampleLoading.write_all f
              [("tok_embeddings.weight"%string, [32; 1]);
               ("norm.weight"%string, [32]);
               ("abcde"%string, [32; 1])] with
      | Fine f => llama_file.bytes f
      | Throw _ => []
      end
  | Throw _ => []
  end.

Definition files (fname : string) : option (list byte) :=
  if String.eqb fname "f32.bin" then Some f32_file else None.

(** The model loader of this file. *)
Definition loaded : llama_model_loader.t :=
  match llama_model_loader.create (H := ggml_types) false files "f32.bin" false false with
  | Fine ml => ml
  | Throw _ => SampleModel.two_parts
  end.

(** The file quantized with the stand-in for the tensor library. *)
Definition q4_0_file : list byte :=
  match llama_model_quantize_internal (H := Example.toy_ggml) (H0 := ggml_types)
          false files "f32.bin" LLAMA_FTYPE_MOSTLY_Q4_0 with
  | Fine out => out
  | Throw _ => []
  end.

End SampleQuantize.

(* ===================================================================== *)
(** * Part II: the properties                                             *)
(* ===================================================================== *)

(** ** The order of single-precision floats *)

Section FloatOrder.

Ltac order_cases :=
  repeat match goal with
  | H : context [Z.compare ?a ?b] |- _ => destruct (Z.compare_spec a b)
  | |- context [Z.compare ?a ?b] => destruct (Z.compare_spec a b)
  | H : context [Pos.compare ?a ?b] |- _ => destruct (Pos.compare_spec a b)
  | |- context [Pos.compare ?a ?b] => destruct (Pos.compare_spec a b)
  end.

(** Comparisons compose: below-or-equal twice is below-or-equal, and
    equal only when both steps are. *)
Lemma SFcompare_trans a b c x y :
  SFcompare a b = Some x -> SFcompare b c = Some y ->
  x <> Gt -> y <> Gt ->
  SFcompare a c = Some (chain x y).
Proof.
  intros Hab Hbc Hx Hy.
  destruct a as [sa|sa| |sa ma ea], b as [sb|sb| |sb mb eb], c as [sc|sc| |sc mc ec];
    try destruct sa; try destruct sb; try destruct sc;
    cbn in Hab, Hbc |- *;
    change (Pos.compare_cont Eq) with Pos.compare in *;
    try discriminate;
    try (injection Hab as <-; injection Hbc as <-; cbn; first [reflexivity | congruence]).
  all: injection Hab as <-; injection Hbc as <-.
  all: order_cases; cbn in *; try congruence; try lia; subst; try lia.
Qed.

Lemma SFcompare_refl a c : SFcompare a a = Some c -> c = Eq.
Proof.
  destruct a as [s|s| |s m e]; try destruct s; cbn;
    change (Pos.compare_cont Eq) with Pos.compare;
    rewrite ?Z.compare_refl, ?Pos.compare_refl; cbn; congruence.
Qed.

Lemma ltb_irrefl a : F32.ltb a a = false.
Proof.
  unfold F32.ltb, SFltb. destruct (SFcompare a a) as [c|] eqn:E; [|reflexivity].
  apply SFcompare_refl in E. subst. reflexivity.
Qed.

Lemma ltb_trans a b c :
  F32.ltb a b = true -> F32.ltb b c = true -> F32.ltb a c = true.
Proof.
  unfold F32.ltb, SFltb. intros H1 H2.
  destruct (SFcompare a b) as [[]|] eqn:E1; try discriminate.
  destruct (SFcompare b c) as [[]|] eqn:E2; try discriminate.
  rewrite (SFcompare_trans _ _ _ _ _ E1 E2); [reflexivity | discriminate | discriminate].
Qed.

Lemma ltb_eqb_trans a b c :
  F32.ltb a b = true -> F32.eqb b c = true -> F32.ltb a c = true.
Proof.
  unfold F32.ltb, F32.eqb, SFltb, SFeqb. intros H1 H2.
  destruct (SFcompare a b) as [[]|] eqn:E1; try discriminate.
  destruct (SFcompare b c) as [[]|] eqn:E2; try discriminate.
  rewrite (SFcompare_trans _ _ _ _ _ E1 E2); [reflexivity | discriminate | discriminate].
Qed.

Lemma eqb_ltb_trans a b c :
  F32.eqb a b = true -> F32.ltb b c = true -> F32.ltb a c = true.
Proof.
  unfold F32.ltb, F32.eqb, SFltb, SFeqb. intros H1 H2.
  destruct (SFcompare a b) as [[]|] eqn:E1; try discriminate.
  destruct (SFcompare b c) as [[]|] eqn:E2; try discriminate.
  rewrite (SFcompare_trans _ _ _ _ _ E1 E2); [reflexivity | discriminate | discriminate].
Qed.

Lemma eqb_trans a b c :
  F32.eqb a b = true -> F32.eqb b c = true -> F32.eqb a c = true.
Proof.
  unfold F32.eqb, SFeqb. intros H1 H2.
  destruct (SFcompare a b) as [[]|] eqn:E1; try discriminate.
  destruct (SFcompare b c) as [[]|] eqn:E2; try discriminate.
  rewrite (SFcompare_trans _ _ _ _ _ E1 E2); [reflexivity | discriminate | discriminate].
Qed.

(** When [y] does not exceed [m] and [x] does, [x] is not below or
    equal to [y]. *)
Lemma gtb_displaced m x y :
  F32.gtb y m = false -> F32.gtb x m = true -> F32.leb x y = false.
Proof.
  unfold F32.gtb, F32.leb, SFltb, SFleb. intros Hy Hx.
  destruct (SFcompare m x) as [[]|] eqn:E1; try discriminate.
  destruct (SFcompare x y) as [[]|] eqn:E2; try reflexivity.
  - rewrite (SFcompare_trans _ _ _ _ _ E1 E2) in Hy; [discriminate Hy | discriminate | discriminate].
  - rewrite (SFcompare_trans _ _ _ _ _ E1 E2) in Hy; [discriminate Hy | discriminate | discriminate].
Qed.

Lemma leb_false_ltb x y : F32.leb x y = false -> F32.ltb x y = false.
Proof.
  unfold F32.leb, F32.ltb, SFleb, SFltb.
  destruct (SFcompare x y) as [[]|]; congruence.
Qed.

Lemma SFcompare_total a b :
  a <> S754_nan -> b <> S754_nan -> exists c, SFcompare a b = Some c.
Proof.
  intros Ha Hb. destruct a, b; try congruence; cbn; eauto.
Qed.

Lemma SFcompare_flip a b c :
  SFcompare a b = Some c -> SFcompare b a = Some (CompOpp c).
Proof.
  destruct a as [sa|sa| |sa ma ea], b as [sb|sb| |sb mb eb]; cbn;
    try discriminate; intros [= <-];
    try (destruct sa; reflexivity); try (destruct sb; reflexivity);
    try (destruct sa, sb; reflexivity).
  destruct sa, sb; try reflexivity;
    rewrite (Z.compare_antisym ea eb);
    destruct (ea ?= eb); cbn; try reflexivity;
    rewrite (Pos.compare_cont_antisym ma mb Eq); cbn;
    rewrite ?CompOpp_involutive; reflexivity.
Qed.

(** Numbers are totally ordered: what is not below is at least, and
    what is not at most is above. *)
Lemma ltb_false_leb x y :
  x <> S754_nan -> y <> S754_nan -> F32.ltb x y = false -> F32.leb y x = true.
Proof.
  intros Hx Hy. destruct (SFcompare_total _ _ Hx Hy) as [c Hc].
  pose proof (SFcompare_flip _ _ _ Hc) as Hc'.
  unfold F32.ltb, F32.leb, SFltb, SFleb. rewrite Hc, Hc'.
  destruct c; cbn; congruence.
Qed.

Lemma leb_false_gtb x y :
  x <> S754_nan -> y <> S754_nan -> F32.leb x y = false -> F32.ltb y x = true.
Proof.
  intros Hx Hy. destruct (SFcompare_total _ _ Hx Hy) as [c Hc].
  pose proof (SFcompare_flip _ _ _ Hc) as Hc'.
  unfold F32.ltb, F32.leb, SFltb, SFleb. rewrite Hc, Hc'.
  destruct c; cbn; congruence.
Qed.

End FloatOrder.

(** ** Magic detection *)

Section LoaderFacts.
Import Loader.

Lemma byte_val_range b : 0 <= byte_val b < 256.
Proof.
  unfold byte_val. pose proof (Byte.to_N_bounded b) as H.
  split; [lia|]. apply N2Z.inj_le in H. simpl in H. lia.
Qed.

Lemma byte_val_inj b1 b2 : byte_val b1 = byte_val b2 -> b1 = b2.
Proof.
  unfold byte_val. intros H. apply N2Z.inj in H.
  assert (Some b1 = Some b2) as E
    by (rewrite <- (Byte.of_to_N b1), <- (Byte.of_to_N b2); congruence).
  congruence.
Qed.

Lemma le32_inj b0 b1 b2 b3 c0 c1 c2 c3 :
  le32 b0 b1 b2 b3 = le32 c0 c1 c2 c3 ->
  b0 = c0 /\ b1 = c1 /\ b2 = c2 /\ b3 = c3.
Proof.
  unfold le32. intros H.
  pose proof (byte_val_range b0). pose proof (byte_val_range b1).
  pose proof (byte_val_range b2). pose proof (byte_val_range b3).
  pose proof (byte_val_range c0). pose proof (byte_val_range c1).
  pose proof (byte_val_range c2). pose proof (byte_val_range c3).
  repeat split; apply byte_val_inj; lia.
Qed.

Lemma byte_eqb_eq (c b : byte) : Byte.eqb c b = true <-> c = b.
Proof.
  split; [apply Byte.byte_dec_bl | apply Byte.byte_dec_lb].
Qed.

Lemma le32_eqb b0 b1 b2 b3 c0 c1 c2 c3 :
  (le32 b0 b1 b2 b3 =? le32 c0 c1 c2 c3)
  = starts_with [c0; c1; c2; c3] [b0; b1; b2; b3].
Proof.
  apply eq_true_iff_eq. cbn [starts_with].
  rewrite Z.eqb_eq, !andb_true_iff, !byte_eqb_eq.
  split.
  - intros H. apply le32_inj in H. intuition congruence.
  - intros (-> & -> & -> & -> & _). reflexivity.
Qed.

Lemma read_magic_unfold b0 b1 b2 b3 f :
  read_magic (b0 :: b1 :: b2 :: b3 :: f) =
  if starts_with header_ggml [b0; b1; b2; b3] then
    Ok (LLAMA_FILE_VERSION_GGML, f)
  else
    match f with
    | b4 :: b5 :: b6 :: b7 :: f' =>
        if starts_with [x66; x6d; x67; x67]%byte [b0; b1; b2; b3]
           && starts_with [x01; x00; x00; x00]%byte [b4; b5; b6; b7]
        then Ok (LLAMA_FILE_VERSION_GGMF_V1, f')
        else if starts_with [x74; x6a; x67; x67]%byte [b0; b1; b2; b3]
                && starts_with [x01; x00; x00; x00]%byte [b4; b5; b6; b7]
        then Ok (LLAMA_FILE_VERSION_GGJT_V1, f')
        else Err BadMagic
    | _ => Err IoError
    end.
Proof.
  unfold read_magic, read_u32 at 1. cbn [rbind].
  change magic_ggml with (le32 x6c x6d x67 x67).
  change magic_ggmf with (le32 x66 x6d x67 x67).
  change magic_ggjt with (le32 x74 x6a x67 x67).
  rewrite !le32_eqb. unfold header_ggml.
  destruct (starts_with [x6c; x6d; x67; x67]%byte [b0; b1; b2; b3]) eqn:E.
  - reflexivity.
  - cbn [negb]. destruct f as [|b4 [|b5 [|b6 [|b7 f']]]]; try reflexivity.
    unfold read_u32. cbn [rbind andb].
    change 1 with (le32 x01 x00 x00 x00).
    rewrite !le32_eqb. reflexivity.
Qed.

(** C2 (as the code has it).  The loader reads the magic as a
    little-endian 32-bit value and compares it with the packed literal,
    so the accepted files begin with the magic's characters in reverse:
    6C 6D 67 67 is legacy version 0, 66 6D 67 67 01 00 00 00 is GGMF
    v1 and 74 6A 67 67 01 00 00 00 is GGJT v1.  Every other file is
    rejected: with the bad-magic failure when both words could be
    read, with an I/O failure when the file ends before them. *)
Theorem read_magic_little_endian_headers :
  (forall rest, read_magic (header_ggml ++ rest) = Ok (LLAMA_FILE_VERSION_GGML, rest))
  /\ (forall rest,
        read_magic (header_ggmf_v1 ++ rest) = Ok (LLAMA_FILE_VERSION_GGMF_V1, rest))
  /\ (forall rest,
        read_magic (header_ggjt_v1 ++ rest) = Ok (LLAMA_FILE_VERSION_GGJT_V1, rest))
  /\ (forall f, read_magic f = header_verdict f).
Proof.
  repeat split; try (intros rest; reflexivity).
  intros f. unfold header_verdict, header_ggml, header_ggmf_v1, header_ggjt_v1.
  destruct f as [|b0 [|b1 [|b2 [|b3 f]]]]; try reflexivity.
  - cbn [starts_with]. rewrite !andb_false_r. reflexivity.
  - cbn [starts_with]. rewrite !andb_false_r. reflexivity.
  - cbn [starts_with]. rewrite !andb_false_r. reflexivity.
  - rewrite read_magic_unfold. unfold header_ggml.
    destruct (starts_with [x6c; x6d; x67; x67]%byte [b0; b1; b2; b3]) eqn:E0.
    + cbn [starts_with] in *. rewrite !andb_true_r in *. rewrite E0. reflexivity.
    + assert (starts_with [x6c; x6d; x67; x67]%byte (b0 :: b1 :: b2 :: b3 :: f) = false) as ->.
      { cbn [starts_with] in *. rewrite !andb_true_r in *. exact E0. }
      destruct f as [|b4 [|b5 [|b6 [|b7 f]]]];
        cbn [starts_with length drop]; rewrite ?andb_false_r; try reflexivity.
      rewrite !andb_true_r.
      replace (8 <=? Z.of_nat (S (S (S (S (S (S (S (S (length f)))))))))) with true
        by (symmetry; apply Z.leb_le; lia).
      repeat match goal with
             | |- context [Byte.eqb ?a ?b] => destruct (Byte.eqb a b)
             end; cbn [andb]; try reflexivity.
Qed.

(** C2 (counterexample).  Files that begin with the magic in reading
    order, as the claim spells it, are rejected. *)
Lemma read_magic_rejects_ascii_order :
  read_magic [x67; x67; x6d; x6c; x00; x00; x00; x00]%byte = Err BadMagic
  /\ read_magic [x67; x67; x6d; x66; x01; x00; x00; x00]%byte = Err BadMagic
  /\ read_magic [x67; x67; x6a; x74; x01; x00; x00; x00]%byte = Err BadMagic.
Proof. repeat split; vm_compute; reflexivity. Qed.

End LoaderFacts.


(** ** The sampler *)

Section SamplerFacts.
Context `{StdLib}.

Variable logits : list float.
Variable n_logits : Z.
Hypothesis n_logits_range : 0 < n_logits <= Z.of_nat (length logits).

Lemma plogits_defined i :
  0 <= i < n_logits -> exists x, Sampler.plogits logits n_logits i = Ok x.
Proof.
  intros Hi. unfold Sampler.plogits, vec_at.
  replace (0 <=? Z.of_nat (length logits) - n_logits + i) with true
    by (symmetry; apply Z.leb_le; lia).
  destruct (logits !! Z.to_nat (Z.of_nat (length logits) - n_logits + i)) as [x|] eqn:E.
  - exists x. reflexivity.
  - apply lookup_ge_None in E. lia.
Qed.

Lemma argmax_loop_greedy k i max_logit max_id :
  0 <= max_id < i ->
  i + Z.of_nat k = n_logits ->
  Sampler.plogits logits n_logits max_id = Ok max_logit ->
  (forall j y, 0 <= j < i ->
     Sampler.plogits logits n_logits j = Ok y -> F32.gtb y max_logit = false) ->
  (forall j y, 0 <= j < max_id ->
     Sampler.plogits logits n_logits j = Ok y -> F32.leb max_logit y = false) ->
  exists id,
    Sampler.argmax_loop logits n_logits k i max_logit max_id = Ok id
    /\ Sampler.greedy_choice logits n_logits id.
Proof.
  revert i max_logit max_id.
  induction k as [|k IH]; intros i max_logit max_id Hid Hk Hmax Hseen Hfirst.
  - exists max_id. split; [reflexivity|].
    split; [lia|]. exists max_logit. repeat split; try assumption.
    intros j y Hj. apply Hseen. lia.
  - cbn [Sampler.argmax_loop].
    destruct (plogits_defined i) as [x Hx]; [lia|].
    rewrite Hx. cbn [rbind].
    destruct (F32.gtb x max_logit) eqn:Hgt.
    + apply IH; try assumption; try lia.
      * intros j y Hj Hy.
        destruct (Z.eq_dec j i) as [->|Hne].
        -- rewrite Hx in Hy. injection Hy as <-. apply ltb_irrefl.
        -- apply leb_false_ltb. apply gtb_displaced with (m := max_logit); [|exact Hgt].
           apply (Hseen j); [lia | exact Hy].
      * intros j y Hj Hy.
        apply gtb_displaced with (m := max_logit); [|exact Hgt].
        apply (Hseen j); [lia | exact Hy].
    + apply IH; try assumption; try lia.
      intros j y Hj Hy.
      destruct (Z.eq_dec j i) as [->|Hne].
      * rewrite Hx in Hy. injection Hy as <-. exact Hgt.
      * apply (Hseen j); [lia | exact Hy].
Qed.

Lemma argmax_greedy :
  exists id, Sampler.argmax logits n_logits = Ok id /\ Sampler.greedy_choice logits n_logits id.
Proof.
  unfold Sampler.argmax.
  destruct (plogits_defined 0) as [x Hx]; [lia|].
  rewrite Hx. cbn [rbind].
  apply argmax_loop_greedy; try assumption; try lia.
  intros j y Hj Hy. assert (j = 0) as -> by lia.
  rewrite Hx in Hy. injection Hy as <-. apply ltb_irrefl.
Qed.

Lemma greedy_branch
    (rng : mt19937) (last_n_tokens : list Z) (top_k : Z)
    (top_p temp repeat_penalty : float) :
  F32.leb temp F32.zero = true ->
  exists id,
    Sampler.greedy_choice logits n_logits id
    /\ Sampler.llama_sample_top_p_top_k logits n_logits
         rng last_n_tokens top_k top_p temp repeat_penalty = Ok (id, rng)
    /\ forall rng' last_n_tokens' top_k' top_p' repeat_penalty',
         Sampler.llama_sample_top_p_top_k logits n_logits
           rng' last_n_tokens' top_k' top_p' temp repeat_penalty' = Ok (id, rng').
Proof.
  intros Htemp.
  destruct argmax_greedy as (id & Hid & Hg).
  exists id. split; [exact Hg|].
  unfold Sampler.llama_sample_top_p_top_k. rewrite Htemp, Hid.
  split; [reflexivity | intros; reflexivity].
Qed.

(** On logits that are numbers the greedy choice is the first index
    of the maximum. *)
Lemma greedy_choice_maximum id :
  (forall j y, 0 <= j < n_logits ->
     Sampler.plogits logits n_logits j = Ok y -> y <> S754_nan) ->
  Sampler.greedy_choice logits n_logits id ->
  Sampler.maximum_index logits n_logits id.
Proof.
  intros Hnum (Hid & x & Hx & Hmax & Hfirst).
  split; [exact Hid|]. exists x. split; [exact Hx|].
  pose proof (Hnum id x Hid Hx) as Hxn.
  split.
  - intros j y Hj Hy. apply ltb_false_leb; [exact Hxn | exact (Hnum j y Hj Hy)|].
    exact (Hmax j y Hj Hy).
  - intros j y Hj Hy. apply leb_false_gtb; [exact Hxn | apply (Hnum j y); [lia | exact Hy]|].
    exact (Hfirst j y Hj Hy).
Qed.

(** The penalty loop produces one entry per id, in order. *)
Lemma build_logits_id_spec last_n_tokens scale repeat_penalty k i acc :
  0 <= i -> i + Z.of_nat k <= n_logits ->
  exists l,
    Sampler.build_logits_id logits n_logits k i last_n_tokens scale repeat_penalty acc
    = Ok (acc ++ l)
    /\ length l = k
    /\ forall j x, i <= j < i + Z.of_nat k ->
         Sampler.plogits logits n_logits j = Ok x ->
         l !! Z.to_nat (j - i)
         = Some (Sampler.scaled_logit last_n_tokens scale repeat_penalty x j, j).
Proof.
  revert i acc. induction k as [|k IH]; intros i acc Hi Hk.
  - exists []. rewrite app_nil_r.
    split; [reflexivity|]. split; [reflexivity|]. intros j x Hj. lia.
  - cbn [Sampler.build_logits_id].
    destruct (plogits_defined i) as [x Hx]; [lia|].
    rewrite Hx. cbn [rbind].
    destruct (IH (i + 1)
                (acc ++ [(Sampler.scaled_logit last_n_tokens scale repeat_penalty x i, i)]))
      as (l & Hl & Hlen & Hall); [lia | lia |].
    exists ((Sampler.scaled_logit last_n_tokens scale repeat_penalty x i, i) :: l).
    split; [rewrite Hl, <- app_assoc; reflexivity|].
    split; [cbn; lia|].
    intros j y Hj Hy.
    destruct (Z.eq_dec j i) as [->|Hne].
    + rewrite Z.sub_diag. cbn. rewrite Hx in Hy. injection Hy as <-. reflexivity.
    + replace (Z.to_nat (j - i)) with (S (Z.to_nat (j - (i + 1)))) by lia.
      cbn. apply Hall; [lia | exact Hy].
Qed.

End SamplerFacts.

(** C4 (as the code has it).  With [temp <= 0] and logits that are
    numbers the sampler returns the index of the maximum logit, the
    first one when the maximum occurs more than once, and hands the
    generator back untouched.  The result does not depend on the
    generator state, on the window of recent tokens or on any other
    sampling parameter, so no penalty is applied, nothing is drawn, and
    repeating the call gives the same token. *)
Theorem greedy_sampling_is_argmax `{StdLib}
    (logits : list float) (n_logits : Z)
    (rng : mt19937) (last_n_tokens : list Z) (top_k : Z)
    (top_p temp repeat_penalty : float) :
  0 < n_logits <= Z.of_nat (length logits) ->
  (forall j y, 0 <= j < n_logits ->
     Sampler.plogits logits n_logits j = Ok y -> y <> S754_nan) ->
  F32.leb temp F32.zero = true ->
  exists id,
    Sampler.maximum_index logits n_logits id
    /\ Sampler.llama_sample_top_p_top_k logits n_logits
         rng last_n_tokens top_k top_p temp repeat_penalty = Ok (id, rng)
    /\ forall rng' last_n_tokens' top_k' top_p' repeat_penalty',
         Sampler.llama_sample_top_p_top_k logits n_logits
           rng' last_n_tokens' top_k' top_p' temp repeat_penalty' = Ok (id, rng').
Proof.
  intros Hn Hnum Htemp.
  destruct (greedy_branch logits n_logits Hn rng last_n_tokens top_k top_p temp
              repeat_penalty Htemp) as (id & Hg & Hs & Hall).
  exists id. split; [|split; assumption].
  apply greedy_choice_maximum; assumption.
Qed.

Lemma greedy_sampling_is_argmax_witness :
  let logits := [F32.of_Z 1; F32.of_Z 3; F32.of_Z 3] in
  exists id,
    Sampler.maximum_index logits 3 id
    /\ @Sampler.llama_sample_top_p_top_k Example.toy_std logits 3
         tt [1] 40 (F32.of_Z 1) F32.zero (F32.of_Z 2) = Ok (id, tt)
    /\ forall rng' last_n_tokens' top_k' top_p' repeat_penalty',
         @Sampler.llama_sample_top_p_top_k Example.toy_std logits 3
           rng' last_n_tokens' top_k' top_p' F32.zero repeat_penalty'
         = Ok (id, rng').
Proof.
  intros logits.
  assert (0 < 3 <= Z.of_nat (length logits)) as Hn by (cbn; lia).
  assert (forall j y, 0 <= j < 3 ->
            Sampler.plogits logits 3 j = Ok y -> y <> S754_nan) as Hnum.
  { intros j y Hj Hy.
    assert (j = 0 \/ j = 1 \/ j = 2) as [-> | [-> | ->]] by lia;
      vm_compute in Hy; injection Hy as <-; discriminate. }
  assert (F32.leb F32.zero F32.zero = true) as Ht by reflexivity.
  exact (@greedy_sampling_is_argmax Example.toy_std logits 3
           tt [1] 40 (F32.of_Z 1) F32.zero (F32.of_Z 2) Hn Hnum Ht).
Defined.

(** C4 (counterexample).  A logit that is not a number hides the
    maximum: on the logits [NaN, 1, 3] the sampler with [temp = 0]
    returns the index 0, although the logit 3 at index 2 is larger
    than the logit 1 and the logit at index 0 is not at least 3; on
    [1, NaN, 3] it returns 2. *)
Lemma greedy_sampling_misses_maximum :
  let logits := [S754_nan; F32.of_Z 1; F32.of_Z 3] in
  @Sampler.llama_sample_top_p_top_k Example.toy_std logits 3
    tt [] 40 (F32.of_Z 1) F32.zero (F32.of_Z 1) = Ok (0, tt)
  /\ F32.ltb (F32.of_Z 1) (F32.of_Z 3) = true
  /\ F32.leb (F32.of_Z 3) S754_nan = false
  /\ ~ Sampler.maximum_index logits 3 0
  /\ @Sampler.llama_sample_top_p_top_k Example.toy_std
       [F32.of_Z 1; S754_nan; F32.of_Z 3] 3
       tt [] 40 (F32.of_Z 1) F32.zero (F32.of_Z 1) = Ok (2, tt).
Proof.
  intros logits.
  split; [vm_compute; reflexivity|]. split; [vm_compute; reflexivity|].
  split; [vm_compute; reflexivity|]. split; [|vm_compute; reflexivity].
  intros (_ & x & Hx & Hmax & _).
  vm_compute in Hx. injection Hx as <-.
  specialize (Hmax 2 (F32.of_Z 3) ltac:(lia) ltac:(vm_compute; reflexivity)).
  vm_compute in Hmax. discriminate Hmax.
Qed.

(** C5 (as the code has it).  In the sampling branch every id [i] gets
    one entry, computed in single precision from the reciprocal
    [1.0f / temp]: for an id in [last_n_tokens] the logit times the
    reciprocal, times [repeat_penalty] when the logit is negative and
    divided by [repeat_penalty] otherwise; for any other id the logit
    times the reciprocal.  With logits [-2, 2], window [0], [temp = 1]
    and [repeat_penalty = 2] the entries are [-4] for id 0 and [2] for
    id 1. *)
Theorem repetition_penalty_scaling
    (logits : list float) (n_logits : Z) (last_n_tokens : list Z)
    (temp repeat_penalty : float) :
  0 < n_logits <= Z.of_nat (length logits) ->
  let scale := F32.div F32.one temp in
  (exists logits_id,
     Sampler.build_logits_id logits n_logits (Z.to_nat n_logits) 0
       last_n_tokens scale repeat_penalty [] = Ok logits_id
     /\ Z.of_nat (length logits_id) = n_logits
     /\ forall i x, 0 <= i < n_logits ->
          Sampler.plogits logits n_logits i = Ok x ->
          exists v,
            logits_id !! Z.to_nat i = Some (v, i)
            /\ (In i last_n_tokens -> F32.ltb x F32.zero = true ->
                 v = F32.mul (F32.mul x scale) repeat_penalty)
            /\ (In i last_n_tokens -> F32.ltb x F32.zero = false ->
                 v = F32.div (F32.mul x scale) repeat_penalty)
            /\ (~ In i last_n_tokens -> v = F32.mul x scale))
  /\ Sampler.build_logits_id [F32.of_Z (-2); F32.of_Z 2] 2 2 0
       [0] (F32.div F32.one (F32.of_Z 1)) (F32.of_Z 2) []
     = Ok [(F32.of_Z (-4), 0); (F32.of_Z 2, 1)].
Proof.
  intros Hn scale. split; [|vm_compute; reflexivity].
  destruct (build_logits_id_spec logits n_logits Hn last_n_tokens scale
              repeat_penalty (Z.to_nat n_logits) 0 [])
    as (l & Hl & Hlen & Hall); [lia | lia |].
  exists l. split; [exact Hl|]. split; [lia|].
  intros i x Hi Hx.
  specialize (Hall i x ltac:(lia) Hx). rewrite Z.sub_0_r in Hall.
  eexists. split; [exact Hall|].
  unfold Sampler.scaled_logit.
  destruct (existsb (Z.eqb i) last_n_tokens) eqn:E.
  - repeat split.
    + intros _ ->. reflexivity.
    + intros _ ->. reflexivity.
    + intros Hnot. exfalso. apply Hnot.
      apply existsb_exists in E. destruct E as (j & Hj & Heq).
      apply Z.eqb_eq in Heq. subst. exact Hj.
  - assert (~ In i last_n_tokens) as Hnot.
    { intros Hin.
      assert (existsb (Z.eqb i) last_n_tokens = true) as E'
        by (apply existsb_exists; exists i; split; [exact Hin | apply Z.eqb_refl]).
      congruence. }
    repeat split; intros; try reflexivity; contradiction.
Qed.

Lemma repetition_penalty_scaling_witness :
  0 < 2 <= Z.of_nat (length [F32.of_Z (-2); F32.of_Z 2])
  /\ Sampler.build_logits_id [F32.of_Z (-2); F32.of_Z 2] 2 2 0
       [0] (F32.div F32.one (F32.of_Z 1)) (F32.of_Z 2) []
     = Ok [(F32.of_Z (-4), 0); (F32.of_Z 2, 1)].
Proof.
  assert (0 < 2 <= Z.of_nat (length [F32.of_Z (-2); F32.of_Z 2])) as Hn
    by (cbn; lia).
  split; [exact Hn|].
  exact (proj2 (repetition_penalty_scaling [F32.of_Z (-2); F32.of_Z 2] 2 [0]
                  (F32.of_Z 1) (F32.of_Z 2) Hn)).
Defined.

(** C5 (counterexample).  Dividing by [temp] is not what the code
    computes: for the logit [-5], [temp = 3] and [repeat_penalty = 1]
    the entry of a penalised id is [-13981014 * 2^-23], the product
    with the rounded reciprocal, and not [-5 / 3], which rounds to
    [-13981013 * 2^-23]. *)
Lemma repetition_penalty_not_a_quotient :
  let claimed := F32.mul (F32.div (F32.of_Z (-5)) (F32.of_Z 3)) F32.one in
  exists v,
    Sampler.build_logits_id [F32.of_Z (-5)] 1 1 0
      [0] (F32.div F32.one (F32.of_Z 3)) F32.one [] = Ok [(v, 0)]
    /\ v = S754_finite true 13981014 (-23)
    /\ claimed = S754_finite true 13981013 (-23)
    /\ v <> claimed.
Proof.
  exists (S754_finite true 13981014 (-23)).
  split; [vm_compute; reflexivity|]. split; [reflexivity|].
  split; [vm_compute; reflexivity|]. vm_compute. discriminate.
Qed.

(** ** The tokenizer *)

Section TokenizerFacts.

Lemma comparator_irrefl b : llama_sp_bigram.comparator b b = false.
Proof.
  unfold llama_sp_bigram.comparator.
  rewrite ltb_irrefl. cbn.
  apply andb_false_iff. right. rewrite Z.gtb_ltb. apply Z.ltb_irrefl.
Qed.

Lemma comparator_trans a b c :
  llama_sp_bigram.comparator a b = true ->
  llama_sp_bigram.comparator b c = true ->
  llama_sp_bigram.comparator a c = true.
Proof.
  unfold llama_sp_bigram.comparator.
  rewrite !orb_true_iff, !andb_true_iff.
  intros [Hab | [Eab Lab]] [Hbc | [Ebc Lbc]].
  - left. eapply ltb_trans; eassumption.
  - left. eapply ltb_eqb_trans; eassumption.
  - left. eapply eqb_ltb_trans; eassumption.
  - right. split; [eapply eqb_trans; eassumption|].
    apply Z.gtb_lt in Lab, Lbc. apply Z.gtb_lt. lia.
Qed.

Lemma comparator_asym a b :
  llama_sp_bigram.comparator a b = true -> llama_sp_bigram.comparator b a = false.
Proof.
  intros Hab. destruct (llama_sp_bigram.comparator b a) eqn:Hba; [|reflexivity].
  pose proof (comparator_trans _ _ _ Hab Hba) as H.
  rewrite comparator_irrefl in H. discriminate.
Qed.

(** *** The work queue *)

Lemma comparator_numbers_trans a b c :
  llama_sp_bigram.score a <> S754_nan ->
  llama_sp_bigram.score b <> S754_nan ->
  llama_sp_bigram.score c <> S754_nan ->
  llama_sp_bigram.comparator a b = false ->
  llama_sp_bigram.comparator b c = false ->
  llama_sp_bigram.comparator a c = false.
Proof.
  intros Ha Hb Hc.
  destruct (SFcompare_total _ _ Hc Hb) as [x Hx].
  destruct (SFcompare_total _ _ Hb Ha) as [y Hy].
  pose proof (SFcompare_flip _ _ _ Hx) as Hx'.
  pose proof (SFcompare_flip _ _ _ Hy) as Hy'.
  unfold llama_sp_bigram.comparator, F32.ltb, F32.eqb, SFltb, SFeqb.
  rewrite Hx', Hy'.
  destruct x, y; cbn; try discriminate;
    intros H1 H2;
    (rewrite (SFcompare_flip _ _ _ (SFcompare_trans _ _ _ _ _ Hx Hy
                ltac:(discriminate) ltac:(discriminate))); cbn);
    try reflexivity.
  rewrite Z.gtb_ltb in *. apply Z.ltb_ge in H1, H2. apply Z.ltb_ge. lia.
Qed.

Lemma insert_replace_perm {A} (l : list A) : forall i x y,
  l !! i = Some x -> Permutation (x :: <[i := y]> l) (y :: l).
Proof.
  induction l as [|a l IH]; intros [|i] x y H; cbn in *; try discriminate.
  - injection H as ->. apply perm_swap.
  - etransitivity; [apply perm_swap|].
    etransitivity; [apply perm_skip, (IH _ _ _ H)|]. apply perm_swap.
Qed.

Lemma insert_swap_perm {A} (l : list A) i j a b :
  l !! i = Some a -> l !! j = Some b -> i <> j ->
  Permutation (<[j := a]> (<[i := b]> l)) l.
Proof.
  intros Hi Hj Hne.
  apply (Permutation_cons_inv (a := b)).
  etransitivity.
  - apply insert_replace_perm. rewrite list_lookup_insert_ne by exact Hne. exact Hj.
  - apply insert_replace_perm. exact Hi.
Qed.

(** Moving the entry at [j] into the hole at [i] leaves the hole at [j]. *)
Lemma move_hole_perm {A} (l : list A) i j c x :
  i <> j -> (i < length l)%nat -> l !! j = Some c ->
  Permutation (<[j := x]> (<[i := c]> l)) (<[i := x]> l).
Proof.
  intros Hne Hi Hj.
  rewrite <- (list_insert_insert_eq l i c x).
  apply insert_swap_perm.
  - apply list_lookup_insert_eq. exact Hi.
  - rewrite list_lookup_insert_ne by exact Hne. exact Hj.
  - exact Hne.
Qed.

Lemma push_heap_perm fuel : forall first holeIndex topIndex value,
  (holeIndex < length first)%nat ->
  Permutation (llama_sp_bigram.push_heap fuel first holeIndex topIndex value)
    (<[holeIndex := value]> first).
Proof.
  induction fuel as [|fuel IH]; intros first h top value Hh;
    cbn [llama_sp_bigram.push_heap]; [reflexivity|].
  destruct (Nat.ltb_spec top h) as [Hlt|]; cbn [andb]; [|reflexivity].
  destruct (llama_sp_bigram.comparator _ value); [|reflexivity].
  assert ((h - 1) / 2 < h)%nat as Hp by lia.
  destruct (lookup_lt_is_Some_2 first ((h - 1) / 2)%nat ltac:(lia)) as [p Ep].
  rewrite (nth_lookup_Some _ _ _ _ Ep).
  rewrite IH by (rewrite length_insert; lia).
  apply move_hole_perm; [lia | exact Hh | exact Ep].
Qed.

Lemma push_perm b (q : llama_sp_bigram.queue) :
  Permutation (llama_sp_bigram.push b q) (b :: q).
Proof.
  unfold llama_sp_bigram.push.
  rewrite push_heap_perm by (rewrite length_app; cbn; lia).
  rewrite insert_app_r_alt by lia. rewrite Nat.sub_diag. cbn.
  symmetry. apply Permutation_cons_append.
Qed.

Lemma adjust_heap_loop_perm fuel : forall first h len value first' h',
  (len <= length first)%nat -> (h < length first)%nat ->
  llama_sp_bigram.adjust_heap_loop fuel first h len value = (first', h') ->
  length first' = length first /\ (h' < length first)%nat
  /\ forall x, Permutation (<[h' := x]> first') (<[h := x]> first).
Proof.
  induction fuel as [|fuel IH]; intros first h len value first' h' Hlen Hh;
    cbn [llama_sp_bigram.adjust_heap_loop].
  - intros [= <- <-]. auto.
  - destruct (Nat.ltb_spec h ((len - 1) / 2)) as [Hlt|]; [|intros [= <- <-]; auto].
    set (child := if llama_sp_bigram.comparator _ _ then _ else _).
    assert (child = (2 * h + 1)%nat \/ child = (2 * h + 2)%nat) as Hchild
      by (subst child; destruct (llama_sp_bigram.comparator _ _); lia).
    assert (child < len)%nat as Hc by lia.
    destruct (lookup_lt_is_Some_2 first child ltac:(lia)) as [c Ec].
    rewrite (nth_lookup_Some _ _ _ _ Ec).
    intros Hrec. apply IH in Hrec; rewrite ?length_insert; try lia.
    rewrite length_insert in Hrec.
    destruct Hrec as (Hl & Hh' & Hperm). repeat split; [exact Hl | exact Hh' |].
    intros x. rewrite Hperm. apply move_hole_perm; [lia | exact Hh | exact Ec].
Qed.

Lemma adjust_heap_perm first len value :
  (0 < len)%nat -> (len <= length first)%nat ->
  Permutation (llama_sp_bigram.adjust_heap first len value) (<[0%nat := value]> first).
Proof.
  intros Hpos Hlen. unfold llama_sp_bigram.adjust_heap.
  destruct (llama_sp_bigram.adjust_heap_loop len first 0 len value) as [v1 h1] eqn:E1.
  apply adjust_heap_loop_perm in E1; [|lia|lia].
  destruct E1 as (Hl1 & Hh1 & Hperm1).
  destruct (Nat.even len && (h1 =? (len - 2) / 2)%nat) eqn:Elast.
  - apply andb_true_iff in Elast. destruct Elast as [Heven Hlast].
    apply Nat.eqb_eq in Hlast. apply Nat.even_spec in Heven. destruct Heven as [m ->].
    assert (2 * (h1 + 1) - 1 < length v1)%nat as Hc by lia.
    destruct (lookup_lt_is_Some_2 v1 _ Hc) as [c Ec].
    rewrite (nth_lookup_Some _ _ _ _ Ec).
    rewrite push_heap_perm by (rewrite length_insert; lia).
    rewrite move_hole_perm; [apply Hperm1 | lia | lia | exact Ec].
  - rewrite push_heap_perm by lia. apply Hperm1.
Qed.

Lemma pop_spec (q : llama_sp_bigram.queue) b q' :
  llama_sp_bigram.pop q = Some (b, q') -> Permutation q (b :: q').
Proof.
  destruct q as [|top rest]; [discriminate|]. unfold llama_sp_bigram.pop.
  destruct (Nat.ltb_spec 1 (length (top :: rest))) as [Hlt | Hle].
  - intros [= <- <-].
    destruct (exists_last (l := rest)) as (init & value & ->);
      [intros ->; cbn in Hlt; lia|].
    assert ((length (init ++ [value]) - 0)%nat = S (length init)) as Hlen
      by (rewrite length_app; cbn [length]; lia).
    rewrite Hlen.
    change (take (S (length init)) (top :: init ++ [value]))
      with (top :: take (length init) (init ++ [value])).
    rewrite take_app_length.
    rewrite adjust_heap_perm; [| lia | cbn [length]; lia].
    cbn [insert list_insert].
    change (nth (S (length init)) (top :: init ++ [value]) top)
      with (nth (length init) (init ++ [value]) top).
    rewrite app_nth2 by lia. rewrite Nat.sub_diag. cbn [nth].
    apply perm_skip. symmetry. apply Permutation_cons_append.
  - intros [= <- <-]. destruct rest; [reflexivity | cbn in Hle; lia].
Qed.

(** **** The order of the heap *)

Lemma numbers_insert first i x :
  llama_sp_bigram.numbers first -> llama_sp_bigram.score x <> S754_nan ->
  llama_sp_bigram.numbers (<[i := x]> first).
Proof. intros Hn Hx. apply Forall_insert; assumption. Qed.

Lemma numbers_lookup first i x :
  llama_sp_bigram.numbers first -> first !! i = Some x ->
  llama_sp_bigram.score x <> S754_nan.
Proof. intros Hn Hi. exact (proj1 (Forall_lookup _ _) Hn _ _ Hi). Qed.

(** The value put into the hole closes the heap. *)
Lemma fill_is_heap first h x :
  (h < length first)%nat ->
  llama_sp_bigram.heap_around first h ->
  llama_sp_bigram.heap_below first h x ->
  (forall p, (0 < h)%nat -> first !! ((h - 1) / 2)%nat = Some p ->
             llama_sp_bigram.comparator p x = false) ->
  llama_sp_bigram.is_heap (<[h := x]> first).
Proof.
  intros Hh Haround Hbelow Hparent i c p Hi Hc Hp.
  destruct (decide (i = h)) as [-> | Hih].
  - rewrite list_lookup_insert_eq in Hc by exact Hh. injection Hc as <-.
    rewrite list_lookup_insert_ne in Hp by lia.
    apply Hparent; [exact Hi | exact Hp].
  - rewrite list_lookup_insert_ne in Hc by congruence.
    destruct (decide (((i - 1) / 2)%nat = h)) as [Hpi | Hpi].
    + rewrite Hpi in Hp. rewrite list_lookup_insert_eq in Hp by exact Hh.
      injection Hp as <-. eapply Hbelow; eassumption.
    + rewrite list_lookup_insert_ne in Hp by congruence.
      eapply Haround; eassumption.
Qed.

Lemma push_heap_is_heap fuel : forall first h x,
  (h <= fuel)%nat -> (h < length first)%nat ->
  llama_sp_bigram.numbers first -> llama_sp_bigram.score x <> S754_nan ->
  llama_sp_bigram.heap_around first h ->
  llama_sp_bigram.heap_below first h x ->
  llama_sp_bigram.heap_above first h ->
  llama_sp_bigram.is_heap (llama_sp_bigram.push_heap fuel first h 0 x).
Proof.
  induction fuel as [|fuel IH]; intros first h x Hfuel Hh Hn Hx Haround Hbelow Habove;
    cbn [llama_sp_bigram.push_heap].
  - apply fill_is_heap; auto. intros p Hpos. lia.
  - destruct (Nat.ltb_spec 0 h) as [Hpos | Hzero]; cbn [andb];
      [|apply fill_is_heap; auto; intros p Hpos; lia].
    assert ((h - 1) / 2 < h)%nat as Hp by lia.
    destruct (lookup_lt_is_Some_2 first ((h - 1) / 2)%nat ltac:(lia)) as [p Ep].
    rewrite (nth_lookup_Some _ _ _ _ Ep).
    destruct (llama_sp_bigram.comparator p x) eqn:Hpx.
    + pose proof (numbers_lookup _ _ _ Hn Ep) as Hpn.
      apply IH.
      * lia.
      * rewrite length_insert. lia.
      * apply numbers_insert; assumption.
      * exact Hx.
      * (* away from the new hole *)
        intros i c g Hi Hne1 Hne2 Hc Hg.
        assert (i <> h) as Hih by congruence.
        rewrite list_lookup_insert_ne in Hc by congruence.
        destruct (decide (((i - 1) / 2)%nat = h)) as [Hpi | Hpi].
        -- rewrite Hpi in Hg. rewrite list_lookup_insert_eq in Hg by exact Hh.
           injection Hg as <-. eapply Habove; eassumption.
        -- rewrite list_lookup_insert_ne in Hg by congruence.
           eapply Haround; eassumption.
      * (* the children of the new hole *)
        intros i c Hi Hpi Hc.
        destruct (decide (i = h)) as [-> | Hih].
        -- rewrite list_lookup_insert_eq in Hc by exact Hh. injection Hc as <-.
           apply comparator_asym. exact Hpx.
        -- rewrite list_lookup_insert_ne in Hc by congruence.
           assert (llama_sp_bigram.comparator p c = false) as Hpc.
           { apply (Haround i c p); try assumption; try lia.
             rewrite Hpi. exact Ep. }
           destruct (llama_sp_bigram.comparator x c) eqn:Hxc; [|reflexivity].
           rewrite (comparator_trans _ _ _ Hpx Hxc) in Hpc. discriminate.
      * (* the children of the new hole against its parent *)
        intros i c g Hpos' Hi Hpi Hc Hg.
        rewrite list_lookup_insert_ne in Hg by lia.
        assert (llama_sp_bigram.comparator g p = false) as Hgp.
        { apply (Haround ((h - 1) / 2)%nat p g); try assumption; lia. }
        destruct (decide (i = h)) as [-> | Hih].
        -- rewrite list_lookup_insert_eq in Hc by exact Hh. injection Hc as <-.
           exact Hgp.
        -- rewrite list_lookup_insert_ne in Hc by congruence.
           apply (comparator_numbers_trans g p c);
             eauto using numbers_lookup.
           apply (Haround i c p); try assumption; try lia.
           rewrite Hpi. exact Ep.
    + apply fill_is_heap; auto.
      intros p' _ Ep'. rewrite Ep in Ep'. injection Ep' as <-. exact Hpx.
Qed.

Lemma push_is_heap b (q : llama_sp_bigram.queue) :
  llama_sp_bigram.is_heap q -> llama_sp_bigram.numbers q ->
  llama_sp_bigram.score b <> S754_nan ->
  llama_sp_bigram.is_heap (llama_sp_bigram.push b q).
Proof.
  intros Hheap Hn Hb. unfold llama_sp_bigram.push.
  apply push_heap_is_heap.
  - lia.
  - rewrite length_app. cbn. lia.
  - apply Forall_app. split; [exact Hn|]. constructor; [exact Hb | constructor].
  - exact Hb.
  - intros i c p Hi Hne1 Hne2 Hc Hp.
    assert (i < length q)%nat as Hlt.
    { apply lookup_lt_Some in Hc. rewrite length_app in Hc. cbn in Hc. lia. }
    rewrite lookup_app_l in Hc by lia. rewrite lookup_app_l in Hp by lia.
    eapply Hheap; eassumption.
  - intros i c Hi Hpi Hc. apply lookup_lt_Some in Hc.
    rewrite length_app in Hc. cbn in Hc. lia.
  - intros i c p _ Hi Hpi Hc _. apply lookup_lt_Some in Hc.
    rewrite length_app in Hc. cbn in Hc. lia.
Qed.

Lemma adjust_heap_loop_is_heap fuel : forall first h value first' h',
  (length first <= fuel + h)%nat -> (h < length first)%nat ->
  llama_sp_bigram.numbers first ->
  llama_sp_bigram.heap_around first h ->
  llama_sp_bigram.heap_above first h ->
  llama_sp_bigram.adjust_heap_loop fuel first h (length first) value = (first', h') ->
  length first' = length first /\ (h' < length first)%nat
  /\ ~ (h' < (length first - 1) / 2)%nat
  /\ llama_sp_bigram.numbers first'
  /\ llama_sp_bigram.heap_around first' h'
  /\ llama_sp_bigram.heap_above first' h'.
Proof.
  induction fuel as [|fuel IH]; intros first h value first' h' Hfuel Hh Hn Haround Habove;
    cbn [llama_sp_bigram.adjust_heap_loop].
  - intros [= <- <-]. repeat split; auto. lia.
  - destruct (Nat.ltb_spec h ((length first - 1) / 2)) as [Hlt|];
      [|intros [= <- <-]; repeat split; auto; lia].
    destruct (lookup_lt_is_Some_2 first (2 * (h + 1))%nat ltac:(lia)) as [r Er].
    destruct (lookup_lt_is_Some_2 first (2 * (h + 1) - 1)%nat ltac:(lia)) as [l El].
    rewrite (nth_lookup_Some _ _ _ _ Er), (nth_lookup_Some _ _ _ _ El).
    set (child := if llama_sp_bigram.comparator r l then _ else _).
    assert (exists c other o,
              first !! child = Some c /\ first !! other = Some o
              /\ llama_sp_bigram.comparator c o = false
              /\ (child < length first)%nat
              /\ ((child - 1) / 2)%nat = h /\ (0 < child)%nat /\ child <> h
              /\ forall i, (0 < i)%nat -> ((i - 1) / 2)%nat = h -> i <> child -> i = other)
      as (c & other & o & Ec & Eo & Hco & Hclt & Hcp & Hcpos & Hch & Hother).
    { subst child. destruct (llama_sp_bigram.comparator r l) eqn:Hrl.
      - exists l, (2 * (h + 1))%nat, r. repeat split; auto; try lia.
        apply comparator_asym. exact Hrl.
      - exists r, (2 * (h + 1) - 1)%nat, l. repeat split; auto; lia. }
    rewrite (nth_lookup_Some _ _ _ _ Ec).
    intros Hrec.
    replace (length first) with (length (<[h := c]> first)) in Hrec
      by apply length_insert.
    apply IH in Hrec; rewrite ?length_insert in *; try lia.
    + exact Hrec.
    + apply numbers_insert; eauto using numbers_lookup.
    + (* away from the new hole *)
      intros i x p Hi Hne1 Hne2 Hx Hp.
      destruct (decide (i = h)) as [-> | Hih].
      * rewrite list_lookup_insert_eq in Hx by exact Hh. injection Hx as <-.
        rewrite list_lookup_insert_ne in Hp by lia.
        apply (Habove child c p); auto.
      * rewrite list_lookup_insert_ne in Hx by congruence.
        destruct (decide (((i - 1) / 2)%nat = h)) as [Hpi | Hpi].
        -- rewrite Hpi in Hp. rewrite list_lookup_insert_eq in Hp by exact Hh.
           injection Hp as <-.
           rewrite (Hother i Hi Hpi Hne1) in Hx. rewrite Eo in Hx.
           injection Hx as <-. exact Hco.
        -- rewrite list_lookup_insert_ne in Hp by congruence.
           eapply Haround; eassumption.
    + (* the children of the new hole against its parent *)
      intros i x p _ Hi Hpi Hx Hp.
      rewrite Hcp in Hp. rewrite list_lookup_insert_eq in Hp by exact Hh.
      injection Hp as <-.
      rewrite list_lookup_insert_ne in Hx by lia.
      apply (Haround i x c); try assumption; try lia.
      rewrite Hpi. exact Ec.
Qed.

Lemma adjust_heap_is_heap first value :
  (0 < length first)%nat ->
  llama_sp_bigram.numbers first -> llama_sp_bigram.score value <> S754_nan ->
  llama_sp_bigram.heap_around first 0 ->
  llama_sp_bigram.is_heap (llama_sp_bigram.adjust_heap first (length first) value).
Proof.
  intros Hpos Hn Hv Haround. unfold llama_sp_bigram.adjust_heap.
  destruct (llama_sp_bigram.adjust_heap_loop _ first 0 _ value) as [v1 h1] eqn:E1.
  apply adjust_heap_loop_is_heap in E1; auto; try lia;
    [|intros i c p Hlt; lia].
  destruct E1 as (Hl1 & Hh1 & Hleaf & Hn1 & Haround1 & Habove1).
  destruct (Nat.even (length first) && (h1 =? (length first - 2) / 2)%nat) eqn:Elast.
  - apply andb_true_iff in Elast. destruct Elast as [Heven Hlast].
    apply Nat.eqb_eq in Hlast. apply Nat.even_spec in Heven. destruct Heven as [m Hm].
    assert (2 * (h1 + 1) - 1 < length v1)%nat as Hc by lia.
    destruct (lookup_lt_is_Some_2 v1 _ Hc) as [c Ec].
    rewrite (nth_lookup_Some _ _ _ _ Ec).
    apply push_heap_is_heap.
    + lia.
    + rewrite length_insert. lia.
    + apply numbers_insert; eauto using numbers_lookup.
    + exact Hv.
    + intros i x p Hi Hne1 Hne2 Hx Hp.
      destruct (decide (i = h1)) as [-> | Hih].
      * rewrite list_lookup_insert_eq in Hx by lia. injection Hx as <-.
        rewrite list_lookup_insert_ne in Hp by lia.
        apply (Habove1 (2 * (h1 + 1) - 1)%nat c p); auto; lia.
      * rewrite list_lookup_insert_ne in Hx by congruence.
        destruct (decide (((i - 1) / 2)%nat = h1)) as [Hpi | Hpi].
        -- apply lookup_lt_Some in Hx. lia.
        -- rewrite list_lookup_insert_ne in Hp by congruence.
           eapply Haround1; eassumption.
    + intros i x Hi Hpi Hx. apply lookup_lt_Some in Hx.
      rewrite length_insert in Hx. lia.
    + intros i x p _ Hi Hpi Hx _. apply lookup_lt_Some in Hx.
      rewrite length_insert in Hx. lia.
  - assert (forall i, (0 < i)%nat -> ((i - 1) / 2)%nat = h1 -> (length v1 <= i)%nat)
      as Hnone.
    { intros i Hi Hpi. rewrite Hl1.
      apply andb_false_iff in Elast. destruct Elast as [Hodd | Hne].
      - apply (f_equal negb) in Hodd. rewrite Nat.negb_even in Hodd. cbn in Hodd.
        apply Nat.odd_spec in Hodd. destruct Hodd as [m Hm]. lia.
      - apply Nat.eqb_neq in Hne. lia. }
    apply push_heap_is_heap; auto; try lia.
    intros i x Hi Hpi Hx. apply lookup_lt_Some in Hx.
    specialize (Hnone i Hi Hpi). lia.
Qed.

Lemma pop_is_heap (q : llama_sp_bigram.queue) b q' :
  llama_sp_bigram.is_heap q -> llama_sp_bigram.numbers q ->
  llama_sp_bigram.pop q = Some (b, q') ->
  llama_sp_bigram.is_heap q'.
Proof.
  intros Hheap Hn.
  destruct q as [|top rest]; [discriminate|]. unfold llama_sp_bigram.pop.
  destruct (Nat.ltb_spec 1 (length (top :: rest))) as [Hlt | Hle].
  - intros [= <- <-].
    pose (len := (length (top :: rest) - 1)%nat).
    change (llama_sp_bigram.is_heap
              (llama_sp_bigram.adjust_heap (take len (top :: rest)) len
                 (nth len (top :: rest) top))).
    assert (length (take len (top :: rest)) = len) as Hlen
      by (rewrite length_take; subst len; lia).
    rewrite <- Hlen at 2.
    destruct (lookup_lt_is_Some_2 (top :: rest) len ltac:(subst len; lia)) as [value Ev].
    rewrite (nth_lookup_Some _ _ _ _ Ev).
    apply adjust_heap_is_heap.
    + rewrite Hlen. subst len. cbn [length] in *. lia.
    + apply Forall_take. exact Hn.
    + eapply numbers_lookup; eassumption.
    + intros i c p Hi _ Hne Hc Hp.
      apply lookup_take_Some in Hc. apply lookup_take_Some in Hp.
      eapply Hheap; [exact Hi | apply Hc | apply Hp].
  - intros [= <- <-]. intros i c p _ Hc. destruct i; discriminate.
Qed.

(** In a heap of numbers nothing ranks above the top. *)
Lemma heap_top (q : llama_sp_bigram.queue) top :
  llama_sp_bigram.is_heap q -> llama_sp_bigram.numbers q ->
  q !! 0%nat = Some top ->
  forall i x, q !! i = Some x -> llama_sp_bigram.comparator top x = false.
Proof.
  intros Hheap Hn Htop i.
  induction i as [i IH] using lt_wf_ind. intros x Hx.
  destruct (decide (i = 0%nat)) as [-> | Hi].
  - rewrite Htop in Hx. injection Hx as <-. apply comparator_irrefl.
  - destruct (lookup_lt_is_Some_2 q ((i - 1) / 2)%nat) as [p Ep];
      [apply lookup_lt_Some in Hx; lia|].
    apply (comparator_numbers_trans top p x); eauto using numbers_lookup.
    + apply (IH ((i - 1) / 2)%nat); [lia | exact Ep].
    + apply (Hheap i x p); [lia | exact Hx | exact Ep].
Qed.

Lemma pop_top (q : llama_sp_bigram.queue) b q' :
  llama_sp_bigram.pop q = Some (b, q') -> q !! 0%nat = Some b.
Proof.
  destruct q as [|top rest]; cbn [llama_sp_bigram.pop]; [discriminate|].
  destruct (1 <? length (top :: rest))%nat; intros [= <- <-]; reflexivity.
Qed.

Lemma comparator_false_iff b x :
  llama_sp_bigram.comparator b x = false <->
  F32.ltb (llama_sp_bigram.score b) (llama_sp_bigram.score x) = false
  /\ (F32.eqb (llama_sp_bigram.score b) (llama_sp_bigram.score x) = true ->
      llama_sp_bigram.left b <= llama_sp_bigram.left x).
Proof.
  unfold llama_sp_bigram.comparator.
  rewrite orb_false_iff, andb_false_iff. split.
  - intros [Hlt [He | Hl]]; split; try assumption.
    + intros He'. congruence.
    + intros _. rewrite Z.gtb_ltb in Hl. apply Z.ltb_ge in Hl. exact Hl.
  - intros [Hlt Himp]. split; [exact Hlt|].
    destruct (F32.eqb (llama_sp_bigram.score b) (llama_sp_bigram.score x));
      [right | left; reflexivity].
    rewrite Z.gtb_ltb. apply Z.ltb_ge. auto.
Qed.

(** The output buffer is only ever appended to. *)
Lemma emit_app vocab text fuel symbols : forall i out,
  Tokenizer.emit vocab text fuel symbols i out
  = let* ids := Tokenizer.emit vocab text fuel symbols i [] in Ok (out ++ ids).
Proof.
  induction fuel as [|fuel IH]; intros i out; cbn [Tokenizer.emit].
  - destruct (i =? -1); cbn; [rewrite app_nil_r|]; reflexivity.
  - destruct (i =? -1); cbn [rbind]; [rewrite app_nil_r; reflexivity|].
    destruct (vec_at symbols i) as [symbol|e]; cbn [rbind]; [|reflexivity].
    destruct (Tokenizer.substr text _ _) as [str|e]; cbn [rbind]; [|reflexivity].
    rewrite IH. rewrite (IH _ ([] ++ _)).
    destruct (Tokenizer.emit vocab text fuel symbols _ []) as [ids|e];
      cbn [rbind]; [|reflexivity].
    rewrite app_nil_l, app_assoc. reflexivity.
Qed.

Lemma tokenize_app vocab text out :
  Tokenizer.tokenize vocab text out
  = let* ids := Tokenizer.tokenize vocab text [] in Ok (out ++ ids).
Proof.
  unfold Tokenizer.tokenize.
  destruct (Tokenizer.split_chars text _ _ _ _) as [symbols|e]; cbn [rbind]; [|reflexivity].
  destruct (Tokenizer.seed_queue vocab text _ _ _ _) as [q|e]; cbn [rbind]; [|reflexivity].
  destruct (Tokenizer.merge_loop vocab text _ _ _) as [symbols'|e]; cbn [rbind]; [|reflexivity].
  apply emit_app.
Qed.

Lemma copy_tokens_spec res : forall i tokens,
  0 <= i -> i + Z.of_nat (length res) <= Z.of_nat (length tokens) ->
  API.copy_tokens res i tokens
  = Ok (take (Z.to_nat i) tokens ++ res ++ drop (Z.to_nat i + length res) tokens).
Proof.
  induction res as [|x res IH]; intros i tokens Hi Hlen; cbn [API.copy_tokens].
  - cbn. rewrite Nat.add_0_r, take_drop. reflexivity.
  - cbn [length] in Hlen.
    unfold vec_update, vec_at.
    replace (0 <=? i) with true by (symmetry; apply Z.leb_le; lia).
    destruct (tokens !! Z.to_nat i) as [y|] eqn:E;
      [|apply lookup_ge_None in E; lia].
    cbn [of_option rbind].
    rewrite IH; [|lia|rewrite length_insert; lia].
    f_equal.
    replace (Z.to_nat (i + 1)) with (S (Z.to_nat i)) by lia.
    rewrite (take_S_r _ _ x)
      by (apply list_lookup_insert_eq; apply lookup_lt_Some in E; exact E).
    rewrite take_insert_ge by lia.
    rewrite drop_insert_lt by lia.
    rewrite <- app_assoc. cbn [app].
    replace (S (Z.to_nat i) + length res)%nat with (Z.to_nat i + S (length res))%nat by lia.
    reflexivity.
Qed.

Section QueueOrder.

Variable vocab : llama_vocab.t.
Variable text : string.

Hypothesis vocab_numbers :
  Forall (fun ts => llama_vocab.score ts <> S754_nan) (llama_vocab.id_to_token vocab).

Lemma try_add_bigram_is_heap symbols_ q l r q' :
  llama_sp_bigram.is_heap q -> llama_sp_bigram.numbers q ->
  Tokenizer.try_add_bigram vocab text symbols_ q l r = Ok q' ->
  llama_sp_bigram.is_heap q' /\ llama_sp_bigram.numbers q'.
Proof.
  intros Hheap Hn. unfold Tokenizer.try_add_bigram.
  destruct ((l =? -1) || (r =? -1)); [intros [= <-]; auto|].
  destruct (vec_at symbols_ l) as [sl|]; cbn [rbind]; [|discriminate].
  destruct (vec_at symbols_ r) as [sr|]; cbn [rbind]; [|discriminate].
  destruct (Tokenizer.substr text _ _) as [t|]; cbn [rbind]; [|discriminate].
  destruct (llama_vocab.token_to_id vocab !! t) as [id|]; [|intros [= <-]; auto].
  destruct (size_t id >=? _); [intros [= <-]; auto|].
  destruct (vec_at (llama_vocab.id_to_token vocab) id) as [tok_score|] eqn:Etok;
    cbn [rbind]; [|discriminate].
  intros [= <-].
  assert (llama_vocab.score tok_score <> S754_nan) as Hscore.
  { unfold vec_at in Etok. destruct (0 <=? id); [|discriminate].
    destruct (llama_vocab.id_to_token vocab !! Z.to_nat id) as [x|] eqn:Ex;
      [|discriminate].
    injection Etok as <-.
    exact (proj1 (Forall_lookup _ _) vocab_numbers _ _ Ex). }
  split.
  - apply push_is_heap; assumption.
  - eapply Permutation_Forall; [symmetry; apply push_perm|].
    constructor; assumption.
Qed.

Lemma seed_queue_is_heap symbols_ k : forall i q q',
  llama_sp_bigram.is_heap q -> llama_sp_bigram.numbers q ->
  Tokenizer.seed_queue vocab text k i symbols_ q = Ok q' ->
  llama_sp_bigram.is_heap q' /\ llama_sp_bigram.numbers q'.
Proof.
  induction k as [|k IH]; intros i q q' Hheap Hn; cbn [Tokenizer.seed_queue].
  - intros [= <-]. auto.
  - destruct (Tokenizer.try_add_bigram vocab text symbols_ q (i - 1) i) as [q1|] eqn:E1;
      cbn [rbind]; [|discriminate].
    destruct (try_add_bigram_is_heap _ _ _ _ _ Hheap Hn E1) as [Hheap1 Hn1].
    apply IH; assumption.
Qed.

Lemma merge_turn_is_heap symbols_ q b symbols' q' :
  llama_sp_bigram.is_heap q -> llama_sp_bigram.numbers q ->
  Tokenizer.merge_turn vocab text symbols_ q b = Ok (symbols', q') ->
  llama_sp_bigram.is_heap q' /\ llama_sp_bigram.numbers q'.
Proof.
  intros Hheap Hn. unfold Tokenizer.merge_turn.
  destruct (vec_at symbols_ (llama_sp_bigram.left b)) as [sl|]; cbn [rbind]; [|discriminate].
  destruct (vec_at symbols_ (llama_sp_bigram.right b)) as [sr|]; cbn [rbind]; [|discriminate].
  destruct (_ || _); [intros [= <- <-]; auto|].
  unfold Tokenizer.merge.
  destruct (Tokenizer.merge_symbols symbols_ b) as [s1|]; cbn [rbind]; [|discriminate].
  destruct (vec_at s1 (llama_sp_bigram.left b)) as [left_sym|]; cbn [rbind]; [|discriminate].
  destruct (Tokenizer.try_add_bigram vocab text s1 q _ _) as [q1|] eqn:E1;
    cbn [rbind]; [|discriminate].
  destruct (Tokenizer.try_add_bigram vocab text s1 q1 _ _) as [q2|] eqn:E2;
    cbn [rbind]; [|discriminate].
  intros [= <- <-].
  destruct (try_add_bigram_is_heap _ _ _ _ _ Hheap Hn E1) as [Hheap1 Hn1].
  exact (try_add_bigram_is_heap _ _ _ _ _ Hheap1 Hn1 E2).
Qed.

(** Every turn of the merge loop takes the top of a heap of numbers. *)
Lemma merge_loop_log_heap fuel : forall symbols_ q,
  llama_sp_bigram.is_heap q -> llama_sp_bigram.numbers q ->
  Forall (fun turn => llama_sp_bigram.is_heap (snd turn)
                      /\ llama_sp_bigram.numbers (snd turn)
                      /\ exists rest, llama_sp_bigram.pop (snd turn) = Some (fst turn, rest))
    (snd (Tokenizer.merge_loop_log vocab text fuel symbols_ q)).
Proof.
  induction fuel as [|fuel IH]; intros symbols_ q Hheap Hn;
    cbn [Tokenizer.merge_loop_log];
    destruct (llama_sp_bigram.pop q) as [[b q1]|] eqn:Epop; try (constructor; fail).
  assert (llama_sp_bigram.is_heap q1 /\ llama_sp_bigram.numbers q1) as [Hheap1 Hn1].
  { split; [eapply pop_is_heap; eassumption|].
    pose proof (pop_spec _ _ _ Epop) as Hperm.
    unfold llama_sp_bigram.numbers in *.
    eapply Permutation_Forall in Hn; [|exact Hperm].
    inversion Hn; assumption. }
  destruct (Tokenizer.merge_turn vocab text symbols_ q1 b) as [[symbols' q']|] eqn:Eturn.
  - destruct (merge_turn_is_heap _ _ _ _ _ Hheap1 Hn1 Eturn) as [Hheap' Hn'].
    specialize (IH symbols' q' Hheap' Hn').
    destruct (Tokenizer.merge_loop_log vocab text fuel symbols' q') as [r log].
    cbn [snd] in *. constructor; [|exact IH]. cbn [fst snd]. eauto.
  - cbn [snd]. constructor; [|constructor]. cbn [fst snd]. eauto.
Qed.

End QueueOrder.

Lemma merge_loop_log_result vocab text fuel : forall symbols_ q,
  fst (Tokenizer.merge_loop_log vocab text fuel symbols_ q)
  = Tokenizer.merge_loop vocab text fuel symbols_ q.
Proof.
  induction fuel as [|fuel IH]; intros symbols_ q;
    cbn [Tokenizer.merge_loop_log Tokenizer.merge_loop];
    destruct (llama_sp_bigram.pop q) as [[b q1]|]; try reflexivity.
  unfold Tokenizer.merge_turn.
  destruct (vec_at symbols_ (llama_sp_bigram.left b)) as [sl|]; cbn [rbind]; [|reflexivity].
  destruct (vec_at symbols_ (llama_sp_bigram.right b)) as [sr|]; cbn [rbind]; [|reflexivity].
  destruct (_ || _).
  - rewrite <- IH. destruct (Tokenizer.merge_loop_log vocab text fuel symbols_ q1).
    reflexivity.
  - destruct (Tokenizer.merge vocab text symbols_ q1 b) as [[symbols' q']|];
      cbn [rbind]; [|reflexivity].
    rewrite <- IH. destruct (Tokenizer.merge_loop_log vocab text fuel symbols' q').
    reflexivity.
Qed.

End TokenizerFacts.

(** C6 (as the code has it).  Over the vocabulary of the scenario,
    ["abc"] is tokenized to the single id 13.  When every score of the
    vocabulary is a number, every turn of the merge loop takes from the
    work queue one of its pending entries, the others stay pending, and
    no pending entry has a higher score or, at an equal score, a
    smaller left index.  The turns are those of [merge_loop_log], which
    returns what [merge_loop] returns. *)
Theorem tokenizer_merge_order
    (vocab : llama_vocab.t) (text : string)
    (symbols_ : list llama_sp_symbol.t) (work_queue_ : llama_sp_bigram.queue)
    (fuel : nat) :
  Forall (fun ts => llama_vocab.score ts <> S754_nan)
    (llama_vocab.id_to_token vocab) ->
  Tokenizer.seed_queue vocab text (length symbols_ - 1) 1 symbols_ [] = Ok work_queue_ ->
  Tokenizer.llama_tokenize Example.vocab_abc "abc" false = Ok [13]
  /\ fst (Tokenizer.merge_loop_log vocab text fuel symbols_ work_queue_)
     = Tokenizer.merge_loop vocab text fuel symbols_ work_queue_
  /\ Forall
       (fun turn =>
          let b := fst turn in
          let pending := snd turn in
          In b pending
          /\ (exists rest,
                llama_sp_bigram.pop pending = Some (b, rest)
                /\ Permutation pending (b :: rest))
          /\ Forall
               (fun x =>
                  F32.leb (llama_sp_bigram.score x) (llama_sp_bigram.score b) = true
                  /\ (F32.eqb (llama_sp_bigram.score b) (llama_sp_bigram.score x) = true ->
                      llama_sp_bigram.left b <= llama_sp_bigram.left x))
               pending)
       (snd (Tokenizer.merge_loop_log vocab text fuel symbols_ work_queue_)).
Proof.
  intros Hvocab Hseed.
  split; [vm_compute; reflexivity|].
  split; [apply merge_loop_log_result|].
  assert (llama_sp_bigram.is_heap work_queue_ /\ llama_sp_bigram.numbers work_queue_)
    as [Hheap Hn].
  { eapply seed_queue_is_heap; [exact Hvocab | | | exact Hseed].
    - intros i c p _ Hc. destruct i; discriminate.
    - constructor. }
  eapply Forall_impl; [apply (merge_loop_log_heap vocab text Hvocab); assumption|].
  intros [b pending]. cbn [fst snd]. intros (Hh & Hnum & rest & Hpop).
  pose proof (pop_spec _ _ _ Hpop) as Hperm.
  pose proof (pop_top _ _ _ Hpop) as Htop.
  split.
  { eapply Permutation_in; [symmetry; exact Hperm | left; reflexivity]. }
  split; [exists rest; auto|].
  apply Forall_lookup. intros i x Hx.
  pose proof (heap_top _ _ Hh Hnum Htop i x Hx) as Hbx.
  apply comparator_false_iff in Hbx. destruct Hbx as [Hlt Hleft].
  split; [|exact Hleft].
  apply ltb_false_leb; [| |exact Hlt]; eapply numbers_lookup; eassumption.
Qed.

(** The vocabulary ["a"], ["b"], ["c"], ["ab"] (score 1), ["bc"]
    (score 2) on ["abc"]: both pairs are pending at the first turn,
    which takes ["bc"]; the entry for ["ab"], taken at the second turn,
    is stale by then. *)
Lemma tokenizer_merge_order_witness :
  Forall
    (fun turn =>
       let b := fst turn in
       let pending := snd turn in
       In b pending
       /\ (exists rest,
             llama_sp_bigram.pop pending = Some (b, rest)
             /\ Permutation pending (b :: rest))
       /\ Forall
            (fun x =>
               F32.leb (llama_sp_bigram.score x) (llama_sp_bigram.score b) = true
               /\ (F32.eqb (llama_sp_bigram.score b) (llama_sp_bigram.score x) = true ->
                   llama_sp_bigram.left b <= llama_sp_bigram.left x))
            pending)
    (snd (Tokenizer.merge_loop_log Example.vocab_pairs "abc" 8
            (Example.symbols_of "abc") (Example.seeds_of Example.vocab_pairs "abc")))
  /\ map (fun turn => (llama_sp_bigram.left (fst turn), length (snd turn)))
       (snd (Tokenizer.merge_loop_log Example.vocab_pairs "abc" 8
               (Example.symbols_of "abc") (Example.seeds_of Example.vocab_pairs "abc")))
     = [(1, 2%nat); (0, 1%nat)]
  /\ Tokenizer.llama_tokenize Example.vocab_pairs "abc" false = Ok [10; 14].
Proof.
  split; [|split; vm_compute; reflexivity].
  apply (tokenizer_merge_order Example.vocab_pairs "abc"
           (Example.symbols_of "abc") (Example.seeds_of Example.vocab_pairs "abc") 8).
  - repeat constructor; discriminate.
  - vm_compute. reflexivity.
Defined.

(** C6 (counterexample).  With a score that is not a number the merge
    loop takes an entry although one with a higher score is pending.
    The letters ["a"] to ["e"] with the pairs ["ab"] (score 1), ["bc"]
    (NaN), ["cd"] (score 2) and ["de"] (score 5) on ["abcde"]: the first
    turn takes ["cd"] while ["de"] is pending, and the text comes out as
    ["ab"], ["cd"], ["e"].  With the score 0 for ["bc"] it comes out as
    ["ab"], ["c"], ["de"]. *)
Lemma tokenizer_merge_skips_highest :
  let vocab := Example.vocab_letters S754_nan in
  let symbols_ := Example.symbols_of "abcde" in
  let work_queue_ := Example.seeds_of vocab "abcde" in
  let first := {| llama_sp_bigram.left := 2; llama_sp_bigram.right := 3;
                  llama_sp_bigram.score := F32.of_Z 2; llama_sp_bigram.size := 2 |} in
  let higher := {| llama_sp_bigram.left := 3; llama_sp_bigram.right := 4;
                   llama_sp_bigram.score := F32.of_Z 5; llama_sp_bigram.size := 2 |} in
  Tokenizer.split_chars "abcde" 5 0 0 [] = Ok symbols_
  /\ Tokenizer.seed_queue vocab "abcde" (length symbols_ - 1) 1 symbols_ [] = Ok work_queue_
  /\ hd_error (snd (Tokenizer.merge_loop_log vocab "abcde" 19 symbols_ work_queue_))
     = Some (first, work_queue_)
  /\ In higher work_queue_
  /\ F32.ltb (llama_sp_bigram.score first) (llama_sp_bigram.score higher) = true
  /\ F32.leb (llama_sp_bigram.score higher) (llama_sp_bigram.score first) = false
  /\ Tokenizer.llama_tokenize vocab "abcde" false = Ok [15; 17; 14]
  /\ Tokenizer.llama_tokenize (Example.vocab_letters (F32.of_Z 0)) "abcde" false
     = Ok [15; 12; 18].
Proof.
  cbv zeta.
  split; [vm_compute; reflexivity|].
  split; [vm_compute; reflexivity|].
  split; [vm_compute; reflexivity|].
  split; [vm_compute; auto 10|].
  repeat split; vm_compute; reflexivity.
Qed.



(** ** The interface functions *)

Lemma to_int_small z : - 2 ^ 31 <= z < 2 ^ 31 -> to_int z = z.
Proof.
  intros Hz. unfold to_int, wrap.
  destruct (Z.leb_spec 0 z) as [Hpos | Hneg].
  - rewrite Z.mod_small by lia.
    replace (z <? 2 ^ 31) with true by (symmetry; apply Z.ltb_lt; lia).
    reflexivity.
  - replace (z mod 2 ^ 32) with (z + 2 ^ 32)
      by (apply Z.mod_unique with (q := -1); lia).
    replace (z + 2 ^ 32 <? 2 ^ 31) with false by (symmetry; apply Z.ltb_ge; lia).
    lia.
Qed.

Lemma to_int_le z : 0 <= z -> to_int z <= z.
Proof.
  intros Hz. unfold to_int, wrap.
  pose proof (Z.mod_le z (2 ^ 32) Hz ltac:(lia)).
  destruct (z mod 2 ^ 32 <? 2 ^ 31); lia.
Qed.

(** C10.  [llama_token_to_str] returns the null pointer for every id
    at or above [llama_n_vocab], and the stored bytes of the token for
    every id from 0 up to it. *)
Theorem llama_token_to_str_bounds `{StdLib} `{Ggml}
    (ctx : llama_context.t) (token : Z) :
  (API.llama_n_vocab ctx <= token ->
   API.llama_token_to_str ctx token = Ok None)
  /\ (0 <= token < API.llama_n_vocab ctx ->
      exists ts,
        llama_vocab.id_to_token (llama_context.vocab ctx) !! Z.to_nat token = Some ts
        /\ API.llama_token_to_str ctx token = Ok (Some (llama_vocab.tok ts))).
Proof.
  unfold API.llama_token_to_str. split.
  - intros Hge.
    replace (token >=? API.llama_n_vocab ctx) with true
      by (symmetry; apply Z.geb_le; exact Hge).
    reflexivity.
  - intros [Hnn Hlt].
    replace (token >=? API.llama_n_vocab ctx) with false
      by (symmetry; rewrite Z.geb_leb; apply Z.leb_gt; exact Hlt).
    unfold API.llama_n_vocab in Hlt.
    pose proof (to_int_le
                  (Z.of_nat (length (llama_vocab.id_to_token (llama_context.vocab ctx))))
                  ltac:(lia)) as Hle.
    unfold vec_at.
    replace (0 <=? token) with true by (symmetry; apply Z.leb_le; exact Hnn).
    destruct (llama_vocab.id_to_token (llama_context.vocab ctx) !! Z.to_nat token)
      as [ts|] eqn:E; [|apply lookup_ge_None in E; lia].
    exists ts. split; reflexivity.
Qed.

Lemma llama_token_to_str_bounds_witness :
  let ctx := Example.session 0 in
  API.llama_token_to_str ctx 15 = Ok None
  /\ exists ts,
       llama_vocab.id_to_token (llama_context.vocab ctx) !! Z.to_nat 13 = Some ts
       /\ API.llama_token_to_str ctx 13 = Ok (Some (llama_vocab.tok ts)).
Proof.
  intros ctx.
  assert (API.llama_n_vocab ctx <= 15) as Hge by (vm_compute; discriminate).
  assert (0 <= 13 < API.llama_n_vocab ctx) as Hin by (vm_compute; split; [discriminate | reflexivity]).
  split.
  - exact (proj1 (llama_token_to_str_bounds ctx 15) Hge).
  - exact (proj2 (llama_token_to_str_bounds ctx 13) Hin).
Defined.

(** ** Evaluation and the token counter of the cache *)

Ltac bind_inv H :=
  repeat match type of H with
  | rbind ?r _ = Ok _ =>
      let E := fresh "E" in
      destruct r eqn:E; cbn [rbind] in H; [|discriminate H]
  | (let (_, _) := ?p in _) = Ok _ => destruct p
  end.

Section EvalFacts.
Context `{StdLib} `{Ggml}.

Lemma llama_eval_internal_kv_n (lctx : llama_context.t) tokens n_tokens n_past n_threads ok lctx' :
  API.llama_eval_internal lctx tokens n_tokens n_past n_threads = Ok (ok, lctx') ->
  ok = true
  /\ llama_kv_cache.n (llama_context.kv_self lctx')
     = llama_kv_cache.n (llama_context.kv_self lctx).
Proof.
  unfold API.llama_eval_internal. intros Heval.
  bind_inv Heval.
  match type of E2 with
  | (if ?b then _ else _) = _ =>
      assert (llama_kv_cache.n (llama_context.kv_self a2)
              = llama_kv_cache.n (llama_context.kv_self lctx)) as K2
        by (destruct b; [bind_inv E2|]; injection E2 as <-; reflexivity)
  end.
  match type of E3 with
  | (if ?b then _ else _) = _ =>
      assert (llama_kv_cache.n (llama_context.kv_self a3)
              = llama_kv_cache.n (llama_context.kv_self a2)) as K3
        by (destruct b; [destruct (size_t n_tokens =? 0); [discriminate E3|]|];
            injection E3 as <-; reflexivity)
  end.
  injection Heval as <- <-. split; [reflexivity|].
  destruct (n_tokens =? 1); [|destruct (n_tokens >? 1)]; cbn; congruence.
Qed.

Lemma llama_eval_kv_n (ctx : llama_context.t) tokens n_tokens n_past n_threads ret ctx' :
  API.llama_eval ctx tokens n_tokens n_past n_threads = Ok (ret, ctx') ->
  ret = 0
  /\ API.llama_get_kv_cache_token_count ctx' = API.llama_get_kv_cache_token_count ctx.
Proof.
  unfold API.llama_eval, API.llama_get_kv_cache_token_count. intros Heval.
  destruct (API.llama_eval_internal ctx tokens n_tokens n_past n_threads)
    as [[ok c]|e] eqn:E; cbn [rbind] in Heval; [|discriminate].
  apply llama_eval_internal_kv_n in E. destruct E as [-> K].
  cbn [negb] in Heval.
  destruct (negb (llama_context.has_evaluated_once c));
    injection Heval as <- <-; split; try reflexivity; exact K.
Qed.

End EvalFacts.

(** C1 (what the code does).  Evaluation never writes the token
    counter of the cache: after any run of successful [llama_eval]
    calls, each passing the number of tokens evaluated so far as
    [n_past], [llama_get_kv_cache_token_count] still returns what it
    returned before the first call, whatever the batch lengths. *)
Theorem llama_eval_leaves_token_count `{StdLib} `{Ggml}
    (batches : list (list Z)) (ctx : llama_context.t) (n_past n_threads : Z)
    (rets : list Z) (ctx' : llama_context.t) :
  API.eval_batches ctx batches n_past n_threads = Ok (rets, ctx') ->
  Forall (fun ret => ret = 0) rets
  /\ API.llama_get_kv_cache_token_count ctx' = API.llama_get_kv_cache_token_count ctx.
Proof.
  revert ctx n_past rets ctx'.
  induction batches as [|tokens rest IH]; intros ctx n_past rets ctx' Hrun;
    cbn [API.eval_batches] in Hrun.
  - injection Hrun as <- <-. split; [constructor | reflexivity].
  - destruct (API.llama_eval ctx tokens (Z.of_nat (length tokens)) n_past n_threads)
      as [[ret c]|e] eqn:E; cbn [rbind] in Hrun; [|discriminate].
    destruct (API.eval_batches c rest (n_past + Z.of_nat (length tokens)) n_threads)
      as [[rets' c']|e] eqn:E'; cbn [rbind] in Hrun; [|discriminate].
    injection Hrun as <- <-.
    apply llama_eval_kv_n in E. destruct E as [-> K].
    apply IH in E'. destruct E' as [Hall K'].
    split; [constructor; [reflexivity | exact Hall] | congruence].
Qed.

Lemma llama_eval_leaves_token_count_witness :
  exists ctx',
    API.eval_batches (Example.session 0) [[10; 11]; [12]] 0 1 = Ok ([0; 0], ctx')
    /\ API.llama_get_kv_cache_token_count ctx' = 0.
Proof.
  destruct (API.eval_batches (Example.session 0) [[10; 11]; [12]] 0 1)
    as [[rets ctx']|e] eqn:E; [|vm_compute in E; discriminate E].
  assert (rets = [0; 0]) as -> by (vm_compute in E; congruence).
  exists ctx'. split; [reflexivity|].
  exact (proj2 (llama_eval_leaves_token_count [[10; 11]; [12]] (Example.session 0)
                  0 1 [0; 0] ctx' E)).
Defined.

(** ** The quantizer's choice of tensors *)

Section QuantizerFacts.

Lemma rfind_from_hit s pat k :
  String.eqb (String.substring k (String.length pat) s) pat = true ->
  Quantizer.rfind_from s pat k = Z.of_nat k.
Proof.
  intros Hm. destruct k; cbn [Quantizer.rfind_from]; rewrite Hm; reflexivity.
Qed.

Lemma rfind_from_bound s pat k :
  Quantizer.rfind_from s pat k = npos
  \/ 0 <= Quantizer.rfind_from s pat k <= Z.of_nat k.
Proof.
  induction k as [|k IH]; cbn [Quantizer.rfind_from].
  - destruct (String.eqb _ pat); [right; lia | left; reflexivity].
  - destruct (String.eqb _ pat); [right; lia|].
    destruct IH as [IH | IH]; [left; exact IH | right; lia].
Qed.

Lemma rfind_from_miss s pat k :
  Z.of_nat k < npos ->
  String.eqb (String.substring k (String.length pat) s) pat = false ->
  Quantizer.rfind_from s pat k <> Z.of_nat k.
Proof.
  intros Hk Hm. destruct k; cbn [Quantizer.rfind_from]; rewrite Hm.
  - unfold npos. cbn. lia.
  - destruct (rfind_from_bound s pat k) as [-> | Hb]; lia.
Qed.

Lemma quantize_name_test (name : string) :
  Quantizer.str_size name < npos ->
  (Quantizer.rfind name "weight" =? size_t (Quantizer.str_size name - 6))
  = Quantizer.ends_with_weight name || (String.length name =? 5)%nat.
Proof.
  unfold Quantizer.str_size, Quantizer.rfind, Quantizer.ends_with_weight,
    size_t, wrap, npos.
  intros Hlen. change (String.length "weight") with 6%nat.
  destruct (Nat.leb_spec 6 (String.length name)) as [Hge | Hlt].
  - cbn [andb].
    replace (String.length name =? 5)%nat with false
      by (symmetry; apply Nat.eqb_neq; lia).
    rewrite orb_false_r.
    rewrite Z.mod_small by lia.
    replace (Z.of_nat (String.length name) - 6)
      with (Z.of_nat (String.length name - 6)) by lia.
    destruct (String.eqb (String.substring (String.length name - 6) 6 name) "weight")
      eqn:Hm.
    + rewrite (rfind_from_hit name "weight" _ Hm). apply Z.eqb_refl.
    + apply Z.eqb_neq. apply rfind_from_miss; [unfold npos; lia | exact Hm].
  - cbn [andb orb].
    replace ((Z.of_nat (String.length name) - 6) mod 2 ^ 64)
      with (Z.of_nat (String.length name) - 6 + 2 ^ 64)
      by (apply Z.mod_unique with (q := -1); lia).
    destruct (Nat.eqb_spec (String.length name) 5) as [E | E].
    + apply Z.eqb_eq. lia.
    + apply Z.eqb_neq. lia.
Qed.

End QuantizerFacts.

(** C8 (what the code does).  The name test is an unsigned
    comparison of [rfind("weight")] with [size() - 6], which also
    holds for every name of exactly five bytes: there [rfind] fails
    with [npos] and [size() - 6] wraps around to the same value.  So a
    tensor is handed to the quantization kernel exactly when it is
    2-dimensional and its name ends with ["weight"] or is five bytes
    long; every other tensor goes out with its own type, data and
    size. *)
Theorem quantize_choice `{Ggml}
    (quantized_type : ggml_type) (tensor : llama_load_tensor.t) :
  Quantizer.str_size (llama_load_tensor.name tensor) < npos ->
  Quantizer.quantize_flag tensor
  = (Quantizer.ends_with_weight (llama_load_tensor.name tensor)
     || (String.length (llama_load_tensor.name tensor) =? 5)%nat)
    && (Z.of_nat (length (llama_load_tensor.ne tensor)) =? 2)
  /\ (Quantizer.quantize_flag tensor = false ->
      Quantizer.quantize_tensor quantized_type tensor
      = Ok {| Quantizer.new_type := llama_load_tensor.type tensor;
              Quantizer.new_data := llama_load_tensor.data tensor;
              Quantizer.new_size := llama_load_tensor.size tensor |})
  /\ (Quantizer.quantize_flag tensor = true ->
      forall out,
        Quantizer.quantize_tensor quantized_type tensor = Ok out ->
        Quantizer.new_type out = quantized_type).
Proof.
  intros Hlen. split; [|split].
  - unfold Quantizer.quantize_flag. rewrite quantize_name_test by exact Hlen.
    reflexivity.
  - intros Hf. unfold Quantizer.quantize_tensor. rewrite Hf. reflexivity.
  - intros Hf out. unfold Quantizer.quantize_tensor. rewrite Hf. cbn [negb].
    intros Hq. bind_inv Hq. injection Hq as <-. reflexivity.
Qed.

(** C8 (failing input).  A 2-dimensional F32 tensor named ["abcde"],
    a name that does not end with ["weight"], is quantized. *)
Lemma quantize_choice_witness :
  let tensor :=
    {| llama_load_tensor.name := "abcde";
       llama_load_tensor.type := GGML_TYPE_F32;
       llama_load_tensor.ne := [32; 1];
       llama_load_tensor.size := 128;
       llama_load_tensor.data := replicate 128 x00 |} in
  Quantizer.ends_with_weight "abcde" = false
  /\ Quantizer.quantize_flag tensor = true
  /\ exists out,
       @Quantizer.quantize_tensor Example.toy_ggml GGML_TYPE_Q4_0 tensor = Ok out
       /\ Quantizer.new_type out = GGML_TYPE_Q4_0.
Proof.
  intros tensor.
  assert (Quantizer.str_size (llama_load_tensor.name tensor) < npos) as Hlen
    by (vm_compute; reflexivity).
  pose proof (@quantize_choice Example.toy_ggml GGML_TYPE_Q4_0 tensor Hlen)
    as (Hflag & _ & Hq).
  assert (Quantizer.quantize_flag tensor = true) as Ht
    by (rewrite Hflag; reflexivity).
  split; [reflexivity|]. split; [exact Ht|].
  destruct (@Quantizer.quantize_tensor Example.toy_ggml GGML_TYPE_Q4_0 tensor)
    as [out|e] eqn:E; [|vm_compute in E; discriminate E].
  exists out. split; [reflexivity|]. exact (Hq Ht out eq_refl).
Defined.

(** ** The session state blob *)

Section ByteFacts.

Lemma byte_val_of_Z z : byte_val (byte_of_Z z) = z mod 256.
Proof.
  unfold byte_val, byte_of_Z.
  pose proof (Z.mod_pos_bound z 256 ltac:(lia)) as Hm.
  destruct (Byte.of_N (Z.to_N (z mod 256))) as [b|] eqn:E.
  - apply Byte.to_of_N in E. rewrite E. lia.
  - apply Byte.of_N_None_iff in E. lia.
Qed.

Lemma le_decode_encode k z : le_decode (le_encode k z) = z mod 256 ^ Z.of_nat k.
Proof.
  revert z. induction k as [|k IH]; intros z.
  - cbn. rewrite Z.mod_1_r. reflexivity.
  - cbn [le_encode]. unfold le_decode in *. cbn [fold_right].
    rewrite IH, byte_val_of_Z.
    rewrite Nat2Z.inj_succ, Z.pow_succ_r by lia.
    rewrite Z.rem_mul_r by lia. reflexivity.
Qed.

Lemma length_le_encode k z : length (le_encode k z) = k.
Proof. revert z. induction k as [|k IH]; intros z; cbn; [|rewrite IH]; reflexivity. Qed.

Lemma length_floats_bytes xs : length (floats_bytes xs) = (4 * length xs)%nat.
Proof.
  unfold floats_bytes. induction xs as [|x xs IH]; [reflexivity|].
  cbn [flat_map]. rewrite length_app, IH.
  unfold f32_bytes. rewrite length_le_encode. cbn [length]. lia.
Qed.

Lemma length_floats_of_bytes k bs : length (floats_of_bytes k bs) = k.
Proof. revert bs. induction k as [|k IH]; intros bs; cbn; [|rewrite IH]; reflexivity. Qed.

Lemma string_of_bytes_of_string s : string_of_bytes (bytes_of_string s) = s.
Proof.
  unfold string_of_bytes, bytes_of_string.
  rewrite map_map.
  rewrite (map_ext _ (fun c => c)) by (intros c; apply ascii_of_byte_of_ascii).
  rewrite map_id. apply string_of_list_ascii_of_string.
Qed.

Lemma length_bytes_of_string s : length (bytes_of_string s) = String.length s.
Proof.
  unfold bytes_of_string. rewrite length_map.
  induction s as [|c s IH]; cbn; [|rewrite IH]; reflexivity.
Qed.

End ByteFacts.

Section CursorFacts.

Lemma poke_ok bs b a :
  (length bs <= length a)%nat ->
  cursor.poke bs {| cursor.before := b; cursor.ahead := a |}
  = Ok {| cursor.before := b; cursor.ahead := bs ++ drop (length bs) a |}.
Proof.
  intros Hl. unfold cursor.poke. cbn [cursor.ahead cursor.before].
  replace (length bs <=? length a)%nat with true
    by (symmetry; apply Nat.leb_le; exact Hl).
  reflexivity.
Qed.

Lemma advance_app k bs b r :
  k = Z.of_nat (length bs) ->
  cursor.advance k {| cursor.before := b; cursor.ahead := bs ++ r |}
  = Ok {| cursor.before := b ++ bs; cursor.ahead := r |}.
Proof.
  intros ->. unfold cursor.advance. cbn [cursor.ahead cursor.before].
  rewrite length_app.
  replace ((0 <=? Z.of_nat (length bs))
           && (Z.of_nat (length bs) <=? Z.of_nat (length bs + length r)))
    with true by (symmetry; apply andb_true_iff; split; apply Z.leb_le; lia).
  rewrite Nat2Z.id, take_app_length, drop_app_length. reflexivity.
Qed.

Lemma peek_app k bs b r :
  k = Z.of_nat (length bs) ->
  cursor.peek k {| cursor.before := b; cursor.ahead := bs ++ r |} = Ok bs.
Proof.
  intros ->. unfold cursor.peek. cbn [cursor.ahead].
  rewrite length_app.
  replace ((0 <=? Z.of_nat (length bs))
           && (Z.of_nat (length bs) <=? Z.of_nat (length bs + length r)))
    with true by (symmetry; apply andb_true_iff; split; apply Z.leb_le; lia).
  rewrite Nat2Z.id, take_app_length. reflexivity.
Qed.

Lemma read_app k bs b r :
  k = Z.of_nat (length bs) ->
  cursor.read k {| cursor.before := b; cursor.ahead := bs ++ r |}
  = Ok (bs, {| cursor.before := b ++ bs; cursor.ahead := r |}).
Proof.
  intros Hk. unfold cursor.read.
  rewrite (peek_app k bs b r Hk). cbn [rbind].
  rewrite (advance_app k bs b r Hk). reflexivity.
Qed.

Lemma write_ok bs b a :
  (length bs <= length a)%nat ->
  cursor.write bs {| cursor.before := b; cursor.ahead := a |}
  = Ok {| cursor.before := b ++ bs; cursor.ahead := drop (length bs) a |}.
Proof.
  intros Hl. unfold cursor.write.
  rewrite poke_ok by exact Hl. cbn [rbind].
  apply advance_app. reflexivity.
Qed.

End CursorFacts.

Section StateFacts.
Context `{StdLib} `{Ggml} `{!StdLibLaws}.

Lemma state_size_exact (ctx : llama_context.t) :
  0 <= vector.capacity (llama_context.logits ctx) ->
  API.state_bytes ctx < 2 ^ 64 ->
  API.llama_get_state_size ctx = API.state_bytes ctx.
Proof.
  intros Hcap Hfit.
  unfold API.llama_get_state_size, API.state_bytes, API.sizeof_size_t,
    API.sizeof_int, API.sizeof_float, API.s_rng, size_t, wrap in *.
  unfold API.llama_get_kv_cache_size, API.buf_size, vector.size in *.
  rewrite (Z.mod_small (vector.capacity _ * 4)) by lia.
  rewrite (Z.mod_small (Z.of_nat _ * 4)) by lia.
  rewrite Z.mod_small by lia. lia.
Qed.

Ltac len_simpl :=
  repeat first
    [ rewrite length_drop | rewrite length_app | rewrite length_le_encode
    | rewrite length_floats_bytes | rewrite length_bytes_of_string
    | rewrite length_replicate | rewrite length_take ].

Lemma write_if (x : Z) bs b a :
  (x = 0 -> length bs = 0%nat) ->
  (length bs <= length a)%nat ->
  (if negb (x =? 0) then
     cursor.write bs {| cursor.before := b; cursor.ahead := a |}
   else Ok {| cursor.before := b; cursor.ahead := a |})
  = Ok {| cursor.before := b ++ bs; cursor.ahead := drop (length bs) a |}.
Proof.
  intros Hx Hl. destruct (x =? 0) eqn:E; cbn [negb].
  - apply Z.eqb_eq in E. specialize (Hx E).
    destruct bs; [|discriminate Hx].
    cbn. rewrite app_nil_r. reflexivity.
  - apply write_ok. exact Hl.
Qed.

Lemma poke_if_advance {A : Type} (K : cursor.t -> result A) (x k : Z) bs b a :
  Z.of_nat (length bs) = x * 4 ->
  Z.of_nat (length bs) <= k <= Z.of_nat (length a) ->
  (let* out :=
     (if negb (x =? 0) then
        cursor.poke bs {| cursor.before := b; cursor.ahead := a |}
      else Ok {| cursor.before := b; cursor.ahead := a |}) in
   let* out := cursor.advance k out in K out)
  = K {| cursor.before := b ++ take (Z.to_nat k) (bs ++ drop (length bs) a);
         cursor.ahead := drop (Z.to_nat k) a |}.
Proof.
  intros Hx Hk.
  assert (cursor.advance k
            {| cursor.before := b; cursor.ahead := bs ++ drop (length bs) a |}
          = Ok {| cursor.before := b ++ take (Z.to_nat k) (bs ++ drop (length bs) a);
                  cursor.ahead := drop (Z.to_nat k) a |}) as Hadv.
  { unfold cursor.advance. cbn [cursor.before cursor.ahead].
    rewrite length_app, length_drop.
    replace ((0 <=? k) && (k <=? Z.of_nat (length bs + (length a - length bs))))
      with true by (symmetry; apply andb_true_iff; split; apply Z.leb_le; lia).
    rewrite drop_app_ge by lia. rewrite drop_drop.
    replace (length bs + (Z.to_nat k - length bs))%nat with (Z.to_nat k) by lia.
    reflexivity. }
  destruct (x =? 0) eqn:E; cbn [negb].
  - apply Z.eqb_eq in E. destruct bs; [|cbn in Hx; lia].
    cbn [rbind]. cbn [app length] in Hadv |- *. rewrite drop_0 in Hadv |- *.
    rewrite Hadv. reflexivity.
  - rewrite poke_ok by lia. cbn [rbind]. rewrite Hadv. reflexivity.
Qed.

Lemma copy_state_layout (ctx : llama_context.t) (dest : list byte) :
  vector.size (llama_context.logits ctx) <= vector.capacity (llama_context.logits ctx) ->
  API.state_bytes ctx < 2 ^ 64 ->
  API.state_bytes ctx <= Z.of_nat (length dest) ->
  exists pad region tail,
    Z.of_nat (length pad)
    = 64 * 1024 - Z.of_nat (String.length (rng_print (llama_context.rng ctx)))
    /\ Z.of_nat (length region) = vector.capacity (llama_context.logits ctx) * 4
    /\ API.llama_copy_state_data ctx dest
       = Ok (API.state_bytes ctx,
             le_encode 8 (Z.of_nat (String.length (rng_print (llama_context.rng ctx))))
             ++ (bytes_of_string (rng_print (llama_context.rng ctx)) ++ pad)
             ++ le_encode 8 (vector.capacity (llama_context.logits ctx))
             ++ le_encode 8 (vector.size (llama_context.logits ctx))
             ++ region
             ++ le_encode 8 (vector.size (llama_context.embedding ctx))
             ++ floats_bytes (vector.data (llama_context.embedding ctx))
             ++ le_encode 8 (API.llama_get_kv_cache_size ctx)
             ++ le_encode 4 (API.llama_get_kv_cache_token_count ctx)
             ++ API.llama_get_kv_cache ctx
             ++ tail).
Proof.
  intros Hsize Hfit Hdest.
  pose proof (rng_print_fits (llama_context.rng ctx)) as Hrng.
  assert (0 <= vector.capacity (llama_context.logits ctx)) as Hcap
    by (unfold vector.size in Hsize; lia).
  unfold API.llama_copy_state_data.
  rewrite (state_size_exact ctx Hcap Hfit).
  unfold API.state_bytes, API.llama_get_kv_cache_size, API.buf_size,
    API.llama_get_kv_cache, API.llama_get_kv_cache_token_count,
    vector.size, API.s_rng, API.sizeof_float in *.
  rewrite <- (length_bytes_of_string (rng_print (llama_context.rng ctx))) in *.
  set (rs := bytes_of_string (rng_print (llama_context.rng ctx))) in *.
  set (lg := vector.data (llama_context.logits ctx)) in *.
  set (cap := vector.capacity (llama_context.logits ctx)) in *.
  set (emb := vector.data (llama_context.embedding ctx)) in *.
  set (kv := llama_kv_cache.buf (llama_context.kv_self ctx)) in *.
  set (ntok := llama_kv_cache.n (llama_context.kv_self ctx)) in *.
  clearbody rs lg cap emb kv ntok.
  unfold cursor.start.
  rewrite poke_ok by (len_simpl; lia).
  cbn [rbind cursor.memory cursor.before cursor.ahead app].
  set (pad := drop (length rs) (replicate (Z.to_nat (64 * 1024)) x00)).
  assert (Z.of_nat (length pad) = 64 * 1024 - Z.of_nat (length rs)) as Hpad
    by (subst pad; len_simpl; lia).
  clearbody pad.
  rewrite write_ok by (len_simpl; lia). cbn [rbind]. len_simpl.
  rewrite write_ok by (len_simpl; lia). cbn [rbind]. len_simpl. rewrite ?drop_drop.
  rewrite write_ok by (len_simpl; lia). cbn [rbind]. len_simpl. rewrite ?drop_drop.
  rewrite write_ok by (len_simpl; lia). cbn [rbind]. len_simpl. rewrite ?drop_drop.
  unfold size_t, wrap. rewrite (Z.mod_small (cap * 4)) by lia.
  rewrite poke_if_advance by (len_simpl; lia).
  rewrite ?drop_drop.
  match goal with
  | |- context [take (Z.to_nat (cap * 4)) ?l] =>
      set (region := take (Z.to_nat (cap * 4)) l);
      assert (Z.of_nat (length region) = cap * 4) as Hregion
        by (subst region; len_simpl; lia);
      clearbody region
  end.
  rewrite write_ok by (len_simpl; lia). cbn [rbind]. len_simpl. rewrite ?drop_drop.
  rewrite write_if by (len_simpl; lia). cbn [rbind]. len_simpl. rewrite ?drop_drop.
  rewrite write_ok by (len_simpl; lia). cbn [rbind]. len_simpl. rewrite ?drop_drop.
  rewrite write_ok by (len_simpl; lia). cbn [rbind]. len_simpl. rewrite ?drop_drop.
  rewrite write_if by (len_simpl; lia). cbn [rbind]. len_simpl. rewrite ?drop_drop.
  unfold cursor.offset, cursor.memory. cbn [cursor.before cursor.ahead].
  len_simpl. change (length (@nil byte)) with 0%nat.
  match goal with
  | |- context [LLAMA_ASSERT (?a mod 2 ^ 64 =? ?b)] =>
      replace (a mod 2 ^ 64) with b by (rewrite Z.mod_small; lia)
  end.
  rewrite Z.eqb_refl. cbn [LLAMA_ASSERT rbind].
  eexists pad, region, _. split; [exact Hpad|]. split; [exact Hregion|].
  rewrite app_nil_l, <- !app_assoc. reflexivity.
Qed.

Lemma same_shape_size (c1 c2 : llama_context.t) :
  API.same_shape c1 c2 -> API.llama_get_state_size c1 = API.llama_get_state_size c2.
Proof.
  intros (H1' & H2' & H3' & H4'). unfold API.llama_get_state_size.
  rewrite H1', H3', H4'. reflexivity.
Qed.

Lemma same_shape_trans (c1 c2 c3 : llama_context.t) :
  API.same_shape c1 c2 -> API.same_shape c2 c3 -> API.same_shape c1 c3.
Proof.
  unfold API.same_shape. intros (? & ? & ? & ?) (? & ? & ? & ?).
  repeat split; congruence.
Qed.

Lemma fill_ok k src v :
  0 <= k -> k <= Z.of_nat (length src) -> k <= vector.capacity v ->
  exists v',
    vector.fill k src v = Ok v'
    /\ vector.capacity v' = vector.capacity v
    /\ vector.size v' = vector.size v.
Proof.
  intros H0' H1' H2'. unfold vector.fill.
  replace ((0 <=? k) && (k <=? Z.of_nat (length src)) && (k <=? vector.capacity v))
    with true
    by (symmetry; rewrite !andb_true_iff; repeat split; apply Z.leb_le; lia).
  eexists. split; [reflexivity|]. split; [reflexivity|].
  unfold vector.size. cbn [vector.data].
  rewrite length_take, length_app, length_take, length_drop. lia.
Qed.

Lemma resize_ok n v :
  0 <= n <= vector.capacity v ->
  exists v',
    vector.resize n v = Ok v' /\ vector.capacity v' = vector.capacity v.
Proof.
  intros Hn. unfold vector.resize.
  replace (n <? 0) with false by (symmetry; apply Z.ltb_ge; lia).
  destruct (n <=? vector.size v); [eexists; split; reflexivity|].
  replace (n <=? vector.capacity v) with true by (symmetry; apply Z.leb_le; lia).
  eexists; split; reflexivity.
Qed.

(** Restoring the logits. *)
Lemma restore_logits (ctx : llama_context.t) (logits_size : Z) region b r :
  0 <= logits_size <= vector.capacity (llama_context.logits ctx) ->
  Z.of_nat (length region) = vector.capacity (llama_context.logits ctx) * 4 ->
  vector.capacity (llama_context.logits ctx) * 4 < 2 ^ 64 ->
  exists ctx',
    (if negb (logits_size =? 0) then
       let* v := vector.resize logits_size (llama_context.logits ctx) in
       let* raw := cursor.peek (size_t (logits_size * API.sizeof_float))
                     {| cursor.before := b; cursor.ahead := region ++ r |} in
       let* v := vector.fill logits_size
                   (floats_of_bytes (Z.to_nat logits_size) raw) v in
       Ok (llama_context.set_logits v ctx)
     else Ok ctx) = Ok ctx'
    /\ API.same_shape ctx' ctx.
Proof.
  intros Hsz Hreg Hfit.
  destruct (logits_size =? 0); cbn [negb].
  - exists ctx. split; [reflexivity|]. unfold API.same_shape. repeat split.
  - destruct (resize_ok logits_size (llama_context.logits ctx) Hsz) as (v & -> & Hv).
    cbn [rbind].
    unfold cursor.peek, size_t, wrap, API.sizeof_float. cbn [cursor.ahead].
    rewrite Z.mod_small by lia. rewrite length_app.
    replace ((0 <=? logits_size * 4)
             && (logits_size * 4 <=? Z.of_nat (length region + length r)))
      with true by (symmetry; apply andb_true_iff; split; apply Z.leb_le; lia).
    cbn [rbind].
    destruct (fill_ok logits_size
                (floats_of_bytes (Z.to_nat logits_size)
                   (take (Z.to_nat (logits_size * 4)) (region ++ r))) v)
      as (v' & -> & Hc & _); [lia | rewrite length_floats_of_bytes; lia | lia |].
    cbn [rbind]. eexists. split; [reflexivity|].
    unfold API.same_shape, API.llama_get_kv_cache_size. cbn. 
    repeat split; congruence.
Qed.

(** Restoring the embedding. *)
Lemma restore_embedding (ctx : llama_context.t) (embedding_size : Z) bytes b r :
  embedding_size = vector.capacity (llama_context.embedding ctx) ->
  Z.of_nat (length bytes) = embedding_size * 4 ->
  embedding_size * 4 < 2 ^ 64 ->
  exists ctx',
    (if negb (embedding_size =? 0) then
       let* (raw, inp) :=
         cursor.read (size_t (embedding_size * API.sizeof_float))
           {| cursor.before := b; cursor.ahead := bytes ++ r |} in
       let* v := vector.fill embedding_size
                   (floats_of_bytes (Z.to_nat embedding_size) raw)
                   (llama_context.embedding ctx) in
       Ok (llama_context.set_embedding v ctx, inp)
     else Ok (ctx, {| cursor.before := b; cursor.ahead := bytes ++ r |}))
    = Ok (ctx', {| cursor.before := b ++ bytes; cursor.ahead := r |})
    /\ API.same_shape ctx' ctx.
Proof.
  intros Hcap Hlen Hfit.
  destruct (embedding_size =? 0) eqn:E; cbn [negb].
  - apply Z.eqb_eq in E. subst embedding_size.
    destruct bytes; [|cbn in Hlen; lia].
    cbn [app]. rewrite app_nil_r.
    exists ctx. split; [reflexivity|]. unfold API.same_shape. repeat split.
  - unfold size_t, wrap, API.sizeof_float. rewrite Z.mod_small by lia.
    rewrite read_app by lia. cbn [rbind].
    destruct (fill_ok embedding_size
                (floats_of_bytes (Z.to_nat embedding_size) bytes)
                (llama_context.embedding ctx))
      as (v' & -> & Hc & Hs); [lia | rewrite length_floats_of_bytes; lia | lia |].
    cbn [rbind]. eexists. split; [reflexivity|].
    unfold API.same_shape, API.llama_get_kv_cache_size. cbn.
    repeat split; congruence.
Qed.

(** Storing a data pointer leaves the size of the buffer alone. *)
Lemma length_set_data_pointer at_ value buf :
  length (API.set_data_pointer at_ value buf) = length buf.
Proof.
  unfold API.set_data_pointer.
  rewrite length_take, !length_app, length_take, length_drop. lia.
Qed.

(** Restoring the cache. *)
Lemma restore_kv (ctx : llama_context.t) (kv_size : Z) kv b r :
  kv_size = API.llama_get_kv_cache_size ctx ->
  Z.of_nat (length kv) = kv_size ->
  exists ctx',
    (if negb (kv_size =? 0) then
       let* _ := LLAMA_ASSERT (API.llama_get_kv_cache_size ctx =? kv_size) in
       let kv_self := llama_context.kv_self ctx in
       let k_data :=
         API.data_pointer (llama_kv_cache.k kv_self) (llama_kv_cache.buf kv_self) in
       let v_data :=
         API.data_pointer (llama_kv_cache.v kv_self) (llama_kv_cache.buf kv_self) in
       let* (raw, inp) :=
         cursor.read kv_size {| cursor.before := b; cursor.ahead := kv ++ r |} in
       let raw := API.set_data_pointer (llama_kv_cache.k kv_self) k_data raw in
       let raw := API.set_data_pointer (llama_kv_cache.v kv_self) v_data raw in
       Ok (llama_context.set_kv_self
             {| llama_kv_cache.k := llama_kv_cache.k kv_self;
                llama_kv_cache.v := llama_kv_cache.v kv_self;
                llama_kv_cache.ctx := llama_kv_cache.ctx kv_self;
                llama_kv_cache.buf := raw;
                llama_kv_cache.n := llama_kv_cache.n kv_self |}
             ctx, inp)
     else Ok (ctx, {| cursor.before := b; cursor.ahead := kv ++ r |}))
    = Ok (ctx', {| cursor.before := b ++ kv; cursor.ahead := r |})
    /\ API.same_shape ctx' ctx.
Proof.
  intros Hsz Hlen.
  destruct (kv_size =? 0) eqn:E; cbn [negb].
  - apply Z.eqb_eq in E. subst kv_size.
    destruct kv; [|cbn in Hlen; lia].
    cbn [app]. rewrite app_nil_r.
    exists ctx. split; [reflexivity|]. unfold API.same_shape. repeat split.
  - rewrite <- Hsz, Z.eqb_refl. cbn [LLAMA_ASSERT rbind].
    cbv zeta. rewrite read_app by lia. cbn [rbind].
    eexists. split; [reflexivity|].
    unfold API.same_shape, API.llama_get_kv_cache_size, API.buf_size in *. cbn.
    repeat split. rewrite !length_set_data_pointer. lia.
Qed.

Lemma state_round (ctx ctx2 : llama_context.t) (dest : list byte) :
  vector.size (llama_context.logits ctx) <= vector.capacity (llama_context.logits ctx) ->
  vector.capacity (llama_context.embedding ctx) = vector.size (llama_context.embedding ctx) ->
  API.state_bytes ctx < 2 ^ 64 ->
  API.state_bytes ctx <= Z.of_nat (length dest) ->
  API.same_shape ctx2 ctx ->
  exists blob,
    API.llama_copy_state_data ctx dest = Ok (API.llama_get_state_size ctx, blob)
    /\ returns (API.llama_set_state_data ctx2 blob) (API.llama_get_state_size ctx).
Proof.
  intros Hsize Hemb Hfit Hdest Hshape.
  assert (0 <= vector.capacity (llama_context.logits ctx)) as Hcap
    by (unfold vector.size in Hsize; lia).
  destruct (copy_state_layout ctx dest Hsize Hfit Hdest)
    as (pad & region & tail & Hpad & Hregion & Hcopy).
  rewrite (state_size_exact ctx Hcap Hfit).
  eexists. split; [exact Hcopy|].
  pose proof (rng_print_fits (llama_context.rng ctx)) as Hrng.
  pose proof (rng_parse_print (llama_context.rng ctx)) as Hparse.
  pose proof (same_shape_size _ _ Hshape) as Hss.
  rewrite (state_size_exact ctx Hcap Hfit) in Hss.
  destruct Hshape as (Hs1 & Hs2 & Hs3 & Hs4).
  unfold API.state_bytes, API.llama_get_kv_cache_size, API.buf_size,
    API.llama_get_kv_cache, API.llama_get_kv_cache_token_count in *.
  unfold API.llama_set_state_data, API.sizeof_size_t, API.sizeof_int, API.s_rng,
    cursor.start.
  rewrite read_app by (len_simpl; lia). cbn [rbind].
  rewrite read_app by (len_simpl; lia). cbn [rbind].
  rewrite le_decode_encode, Z.mod_small by lia.
  rewrite peek_app by (len_simpl; lia). cbn [rbind].
  rewrite string_of_bytes_of_string, Hparse. cbn [of_option rbind].
  rewrite read_app by (len_simpl; lia). cbn [rbind].
  rewrite read_app by (len_simpl; lia). cbn [rbind].
  rewrite !le_decode_encode. change (256 ^ Z.of_nat 8) with (2 ^ 64).
  unfold vector.size in Hsize, Hemb, Hfit, Hdest, Hs3 |- *.
  rewrite (Z.mod_small (vector.capacity (llama_context.logits ctx))) by lia.
  rewrite (Z.mod_small (Z.of_nat (length (vector.data (llama_context.logits ctx)))))
    by lia.
  set (c0 := llama_context.set_rng (llama_context.rng ctx) ctx2).
  assert (API.same_shape c0 ctx2) as Hc0 by (unfold API.same_shape; repeat split).
  change (llama_context.logits c0) with (llama_context.logits ctx2).
  rewrite Hs1, Z.eqb_refl. cbn [LLAMA_ASSERT rbind].
  match goal with
  | |- context [cursor.peek _ {| cursor.before := ?b; cursor.ahead := region ++ ?r |}] =>
      destruct (restore_logits c0
                  (Z.of_nat (length (vector.data (llama_context.logits ctx))))
                  region b r)
        as (c1 & Hr1 & Hc1)
  end.
  { change (llama_context.logits c0) with (llama_context.logits ctx2). lia. }
  { change (llama_context.logits c0) with (llama_context.logits ctx2). lia. }
  { change (llama_context.logits c0) with (llama_context.logits ctx2). lia. }
  change (llama_context.logits c0) with (llama_context.logits ctx2) in Hr1.
  rewrite Hr1. cbn [rbind].
  unfold size_t at 1. unfold wrap, API.sizeof_float.
  rewrite (Z.mod_small (vector.capacity (llama_context.logits ctx) * 4)) by lia.
  rewrite advance_app by lia. cbn [rbind].
  rewrite read_app by (len_simpl; lia). cbn [rbind].
  rewrite le_decode_encode. change (256 ^ Z.of_nat 8) with (2 ^ 64).
  rewrite (Z.mod_small (Z.of_nat (length (vector.data (llama_context.embedding ctx)))))
    by lia.
  pose proof (same_shape_trans _ _ _ Hc1 Hc0) as Hc1'.
  destruct Hc1' as (Ha1 & Ha2 & Ha3 & Ha4).
  unfold vector.size in Ha3.
  replace (vector.capacity (llama_context.embedding c1)
           =? Z.of_nat (length (vector.data (llama_context.embedding ctx))))
    with true by (symmetry; apply Z.eqb_eq; lia).
  cbn [LLAMA_ASSERT rbind].
  match goal with
  | |- context [cursor.read _ {| cursor.before := ?b;
                                 cursor.ahead := floats_bytes ?e ++ ?r |}] =>
      destruct (restore_embedding c1 (Z.of_nat (length e)) (floats_bytes e) b r)
        as (c2 & Hr2 & Hc2)
  end.
  { lia. }
  { len_simpl. lia. }
  { lia. }
  unfold API.sizeof_float in Hr2. rewrite Hr2. cbn [rbind].
  rewrite read_app by (len_simpl; lia). cbn [rbind].
  rewrite read_app by (len_simpl; lia). cbn [rbind].
  rewrite le_decode_encode. change (256 ^ Z.of_nat 8) with (2 ^ 64).
  rewrite (Z.mod_small
             (Z.of_nat (length (llama_kv_cache.buf (llama_context.kv_self ctx)))))
    by lia.
  pose proof (same_shape_trans _ _ _ Hc2 (same_shape_trans _ _ _ Hc1 Hc0)) as Hc2'.
  match goal with
  | |- context [cursor.read _ {| cursor.before := ?b;
                                 cursor.ahead := llama_kv_cache.buf ?k ++ ?r |}] =>
      destruct (restore_kv c2 (Z.of_nat (length (llama_kv_cache.buf k)))
                  (llama_kv_cache.buf k) b r)
        as (c3 & Hr3 & Hc3)
  end.
  { destruct Hc2' as (_ & _ & _ & Hkv).
    unfold API.llama_get_kv_cache_size, API.buf_size in *. lia. }
  { reflexivity. }
  cbv zeta in Hr3. rewrite Hr3. cbn [rbind].
  match goal with
  | |- context [API.llama_get_state_size ?c] =>
      assert (API.llama_get_state_size c = API.llama_get_state_size ctx2) as Hfinal
  end.
  { apply same_shape_size.
    apply same_shape_trans with (c2 := c3);
      [|exact (same_shape_trans _ _ _ Hc3 Hc2')].
    unfold API.same_shape, API.llama_get_kv_cache_size. repeat split. }
  rewrite Hfinal, Hss.
  unfold cursor.offset, vector.size. cbn [cursor.before]. len_simpl.
  change (length (@nil byte)) with 0%nat.
  match goal with
  | |- context [LLAMA_ASSERT (size_t ?a =? ?b)] =>
      replace (size_t a) with b
        by (unfold size_t, wrap; rewrite Z.mod_small; lia)
  end.
  rewrite Z.eqb_refl. cbn [LLAMA_ASSERT rbind].
  eexists. reflexivity.
Qed.

End StateFacts.

Lemma toy_std_laws : @StdLibLaws Example.toy_std.
Proof.
  split.
  - intros r. cbn. lia.
  - intros []. reflexivity.
Qed.

(** The buffers as [llama_init_from_file] sets them up: [reserve] on
    the empty logits vector, [resize] on the empty embedding vector. *)
Lemma init_buffers_shape n :
  0 <= n ->
  vector.size (vector.reserve n vector.empty)
  <= vector.capacity (vector.reserve n vector.empty)
  /\ exists v, vector.resize n vector.empty = Ok v
       /\ vector.capacity v = vector.size v.
Proof.
  intros Hn. split.
  - unfold vector.reserve, vector.empty, vector.size. cbn [vector.capacity vector.data].
    destruct (0 <? n) eqn:E; cbn; lia.
  - unfold vector.resize, vector.empty, vector.size. cbn [vector.capacity vector.data length].
    replace (n <? 0) with false by (symmetry; apply Z.ltb_ge; lia).
    destruct (Z.leb_spec n (Z.of_nat 0)) as [Hle | Hgt].
    + assert (n = 0) as -> by lia. eexists. split; [reflexivity|]. reflexivity.
    + eexists. split; [reflexivity|].
      cbn [vector.capacity vector.data].
      rewrite app_nil_l, length_replicate.
      destruct (n <=? 0) eqn:E; [apply Z.leb_le in E; lia | lia].
Qed.

(** C3.  For a session whose buffers are as initialisation leaves
    them (the logits fit their reservation, the embedding fills its
    allocation) and whose state fits the address space,
    [llama_get_state_size] is the sum of the parts of the blob;
    [llama_copy_state_data] into a large enough destination returns
    exactly that number; and [llama_set_state_data], reading the blob
    back into the session or into any session of the same shape,
    returns that number again. *)
Theorem state_size_agreement `{StdLib} `{Ggml} `{!StdLibLaws}
    (ctx : llama_context.t) (dest : list byte) :
  vector.size (llama_context.logits ctx) <= vector.capacity (llama_context.logits ctx) ->
  vector.capacity (llama_context.embedding ctx) = vector.size (llama_context.embedding ctx) ->
  API.state_bytes ctx < 2 ^ 64 ->
  API.state_bytes ctx <= Z.of_nat (length dest) ->
  API.llama_get_state_size ctx = API.state_bytes ctx
  /\ exists blob,
       API.llama_copy_state_data ctx dest = Ok (API.llama_get_state_size ctx, blob)
       /\ returns (API.llama_set_state_data ctx blob) (API.llama_get_state_size ctx)
       /\ forall ctx2,
            API.same_shape ctx2 ctx ->
            returns (API.llama_set_state_data ctx2 blob) (API.llama_get_state_size ctx).
Proof.
  intros Hsize Hemb Hfit Hdest.
  split.
  - apply state_size_exact; [unfold vector.size in Hsize; lia | exact Hfit].
  - destruct (state_round ctx ctx dest Hsize Hemb Hfit Hdest) as (blob & Hcopy & Hset);
      [unfold API.same_shape; repeat split|].
    exists blob. split; [exact Hcopy|]. split; [exact Hset|].
    intros ctx2 Hshape.
    destruct (state_round ctx ctx2 dest Hsize Hemb Hfit Hdest Hshape)
      as (blob' & Hcopy' & Hset').
    rewrite Hcopy in Hcopy'. injection Hcopy' as <-. exact Hset'.
Qed.

Lemma state_size_agreement_witness :
  let ctx := Example.session 3 in
  let dest := replicate (Z.to_nat 65604) x00 in
  API.llama_get_state_size ctx = 65604
  /\ exists blob,
       API.llama_copy_state_data ctx dest = Ok (65604, blob)
       /\ returns (API.llama_set_state_data ctx blob) 65604.
Proof.
  intros ctx dest.
  assert (vector.size (llama_context.logits ctx)
          <= vector.capacity (llama_context.logits ctx)) as H1
    by (vm_compute; discriminate).
  assert (vector.capacity (llama_context.embedding ctx)
          = vector.size (llama_context.embedding ctx)) as H2 by reflexivity.
  assert (API.state_bytes ctx = 65604) as Hb by reflexivity.
  assert (API.state_bytes ctx < 2 ^ 64) as H3 by (rewrite Hb; lia).
  assert (API.state_bytes ctx <= Z.of_nat (length dest)) as H4
    by (rewrite Hb; unfold dest; rewrite length_replicate; lia).
  destruct (@state_size_agreement Example.toy_std Example.toy_ggml toy_std_laws
              ctx dest H1 H2 H3 H4) as (Hs & blob & Hcopy & Hset & _).
  rewrite Hb in Hs. rewrite Hs in Hcopy, Hset.
  split; [exact Hs|]. exists blob. split; [exact Hcopy | exact Hset].
Defined.

(** ** The tokenizer always returns *)

Section VecFacts.
Context {A : Type}.
Implicit Types (v : list A) (i j : Z).

Lemma vec_at_Ok v i x :
  vec_at v i = Ok x <-> 0 <= i /\ v !! Z.to_nat i = Some x.
Proof.
  unfold vec_at. destruct (Z.leb_spec 0 i) as [Hi | Hi].
  - destruct (v !! Z.to_nat i) as [y|]; cbn; split.
    + intros [= ->]. auto.
    + intros [_ [= ->]]. reflexivity.
    + discriminate.
    + intros [_ [=]].
  - split; [discriminate | lia].
Qed.

Lemma vec_at_range v i x : vec_at v i = Ok x -> 0 <= i < Z.of_nat (length v).
Proof.
  intros Hv. apply vec_at_Ok in Hv. destruct Hv as [Hi Hl].
  apply lookup_lt_Some in Hl. lia.
Qed.

Lemma vec_at_defined v i :
  0 <= i < Z.of_nat (length v) -> exists x, vec_at v i = Ok x.
Proof.
  intros Hi. destruct (v !! Z.to_nat i) as [x|] eqn:E.
  - exists x. apply vec_at_Ok. split; [lia | exact E].
  - apply lookup_ge_None in E. lia.
Qed.

Lemma vec_update_Ok v i f x :
  vec_at v i = Ok x -> vec_update v i f = Ok (<[Z.to_nat i := f x]> v).
Proof. intros Hv. unfold vec_update. rewrite Hv. reflexivity. Qed.

Lemma vec_at_insert_eq v i x y :
  vec_at v i = Ok x -> vec_at (<[Z.to_nat i := y]> v) i = Ok y.
Proof.
  intros Hv. apply vec_at_Ok in Hv. destruct Hv as [Hi Hl].
  apply vec_at_Ok. split; [exact Hi|].
  apply list_lookup_insert_eq. apply lookup_lt_Some in Hl. exact Hl.
Qed.

Lemma vec_at_insert_ne v i j y :
  0 <= i -> i <> j -> vec_at (<[Z.to_nat i := y]> v) j = vec_at v j.
Proof.
  intros Hi Hne. unfold vec_at. destruct (0 <=? j) eqn:E; [|reflexivity].
  apply Z.leb_le in E. rewrite list_lookup_insert_ne by lia. reflexivity.
Qed.

End VecFacts.

Section MergeFacts.

Lemma merge_symbols_spec (S : list llama_sp_symbol.t) (b : llama_sp_bigram.t) l r :
  let L := llama_sp_bigram.left b in
  let R := llama_sp_bigram.right b in
  vec_at S L = Ok l ->
  vec_at S R = Ok r ->
  L <> R ->
  (llama_sp_symbol.next r = -1
   \/ (0 <= llama_sp_symbol.next r < Z.of_nat (length S)
       /\ llama_sp_symbol.next r <> L /\ llama_sp_symbol.next r <> R)) ->
  exists S',
    Tokenizer.merge_symbols S b = Ok S'
    /\ length S' = length S
    /\ vec_at S' L
       = Ok {| llama_sp_symbol.prev := llama_sp_symbol.prev l;
               llama_sp_symbol.next := llama_sp_symbol.next r;
               llama_sp_symbol.text := llama_sp_symbol.text l;
               llama_sp_symbol.n := llama_sp_symbol.n l + llama_sp_symbol.n r |}
    /\ vec_at S' R
       = Ok {| llama_sp_symbol.prev := llama_sp_symbol.prev r;
               llama_sp_symbol.next := llama_sp_symbol.next r;
               llama_sp_symbol.text := llama_sp_symbol.text r;
               llama_sp_symbol.n := 0 |}
    /\ (forall x, vec_at S (llama_sp_symbol.next r) = Ok x ->
          vec_at S' (llama_sp_symbol.next r) = Ok (llama_sp_symbol.set_prev L x))
    /\ (forall j, j <> L -> j <> R -> j <> llama_sp_symbol.next r ->
          vec_at S' j = vec_at S j).
Proof.
  intros L R HL HR Hne Hnext.
  pose proof (vec_at_range _ _ _ HL) as HLr.
  pose proof (vec_at_range _ _ _ HR) as HRr.
  unfold Tokenizer.merge_symbols. fold L R.
  rewrite HR. cbn [rbind].
  rewrite (vec_update_Ok _ _ _ _ HL). cbn [rbind].
  set (S1 := <[Z.to_nat L := _]> S).
  assert (vec_at S1 L = Ok (llama_sp_symbol.set_n
            (llama_sp_symbol.n l + llama_sp_symbol.n r) l)) as H1L
    by (apply (vec_at_insert_eq _ _ _ _ HL)).
  assert (forall j, j <> L -> vec_at S1 j = vec_at S j) as H1o
    by (intros j Hj; apply vec_at_insert_ne; lia).
  assert (vec_at S1 R = Ok r) as H1R by (rewrite H1o; auto).
  rewrite (vec_update_Ok _ _ _ _ H1R). cbn [rbind].
  set (S2 := <[Z.to_nat R := _]> S1).
  assert (vec_at S2 R = Ok (llama_sp_symbol.set_n 0 r)) as H2R
    by (apply (vec_at_insert_eq _ _ _ _ H1R)).
  assert (forall j, j <> R -> vec_at S2 j = vec_at S1 j) as H2o
    by (intros j Hj; apply vec_at_insert_ne; lia).
  assert (vec_at S2 L = Ok (llama_sp_symbol.set_n
            (llama_sp_symbol.n l + llama_sp_symbol.n r) l)) as H2L
    by (rewrite H2o; auto).
  rewrite H2R. cbn [rbind].
  rewrite (vec_update_Ok _ _ _ _ H2L). cbn [rbind].
  set (S3 := <[Z.to_nat L := _]> S2).
  assert (vec_at S3 L = Ok (llama_sp_symbol.set_next (llama_sp_symbol.next r)
            (llama_sp_symbol.set_n (llama_sp_symbol.n l + llama_sp_symbol.n r) l)))
    as H3L by (apply (vec_at_insert_eq _ _ _ _ H2L)).
  assert (forall j, j <> L -> vec_at S3 j = vec_at S2 j) as H3o
    by (intros j Hj; apply vec_at_insert_ne; lia).
  assert (vec_at S3 R = Ok (llama_sp_symbol.set_n 0 r)) as H3R
    by (rewrite H3o; auto).
  rewrite H3R. cbn [rbind].
  assert (length S3 = length S) as Hlen
    by (subst S3 S2 S1; rewrite !length_insert; reflexivity).
  cbn [llama_sp_symbol.set_n llama_sp_symbol.next].
  destruct (Z.geb_spec (llama_sp_symbol.next r) 0) as [Hge | Hlt].
  - destruct Hnext as [Hm1 | (Hr & HnL & HnR)]; [lia|].
    assert (vec_at S3 (llama_sp_symbol.next r) = vec_at S (llama_sp_symbol.next r)) as H3X
      by (rewrite H3o, H2o, H1o; auto).
    destruct (vec_at_defined S (llama_sp_symbol.next r) Hr) as [x Hx].
    rewrite Hx in H3X.
    rewrite (vec_update_Ok _ _ _ _ H3X).
    eexists. split; [reflexivity|].
    split; [rewrite length_insert; exact Hlen|].
    split; [rewrite vec_at_insert_ne by lia; exact H3L|].
    split; [rewrite vec_at_insert_ne by lia; exact H3R|].
    split.
    + intros x' Hx'. rewrite Hx in Hx'. injection Hx' as <-.
      apply (vec_at_insert_eq _ _ _ _ H3X).
    + intros j HjL HjR HjX.
      rewrite vec_at_insert_ne by lia. rewrite H3o, H2o, H1o; auto.
  - exists S3. split; [reflexivity|]. split; [exact Hlen|].
    split; [exact H3L|]. split; [exact H3R|].
    split.
    + intros x Hx. apply vec_at_range in Hx. lia.
    + intros j HjL HjR HjX. rewrite H3o, H2o, H1o; auto.
Qed.

Local Abbreviation sprev := llama_sp_symbol.prev.
Local Abbreviation snext := llama_sp_symbol.next.
Local Abbreviation stext := llama_sp_symbol.text.
Local Abbreviation sn := llama_sp_symbol.n.

Variable text : string.

(** What one merge does to the chain: it stays well formed, the right
    symbol dies, every other symbol keeps its state of life, and only
    the left symbol changes its successor. *)
Lemma merge_symbols_chain (S : list llama_sp_symbol.t) (b : llama_sp_bigram.t) l r :
  let L := llama_sp_bigram.left b in
  let R := llama_sp_bigram.right b in
  Tokenizer.chain_ok text S ->
  vec_at S L = Ok l -> vec_at S R = Ok r ->
  0 < sn l -> 0 < sn r -> snext l = R ->
  exists S',
  Tokenizer.merge_symbols S b = Ok S'
  /\ Tokenizer.chain_ok text S'
  /\ length S' = length S
  /\ 0 <= L < R
  /\ (exists l', vec_at S' L = Ok l' /\ 0 < sn l' /\ snext l' = snext r
                 /\ sprev l' = sprev l)
  /\ (exists r', vec_at S' R = Ok r' /\ sn r' = 0)
  /\ (forall j s', j <> L -> j <> R -> vec_at S' j = Ok s' ->
        exists s, vec_at S j = Ok s /\ sn s = sn s' /\ snext s = snext s').
Proof.
  intros L R Hc HL HR Hl Hr HnextL.
  destruct (Hc L l HL) as (HLp & HLn & _ & HLlive).
  destruct (HLlive Hl) as (HLt & HLs & HLe & HLnext & HLprev). clear HLlive.
  rewrite HnextL in HLn, HLe, HLnext.
  destruct (HLnext r HR) as (_ & HRp & HRt).
  destruct (Hc R r HR) as (_ & HRn & _ & HRlive).
  destruct (HRlive Hr) as (_ & HRs & HRe & HRnext & _). clear HRlive.
  pose proof (vec_at_range _ _ _ HL) as HLr.
  pose proof (vec_at_range _ _ _ HR) as HRr.
  assert (L < R) as HLR by (destruct HLn; lia).
  destruct (merge_symbols_spec S b l r HL HR) as (S' & Hm & Hlen & HL' & HR' & HX' & Ho);
    [fold L R; lia | fold L R; lia |].
  fold L R in HL', HR', HX', Ho.
  exists S'. split; [exact Hm|].
  split; [|split; [exact Hlen|]; split; [lia|]; split; [|split]].
  - (* the chain *)
    intros i s Hi. rewrite Hlen.
    destruct (Z.eq_dec i L) as [-> | HiL].
    { rewrite HL' in Hi. injection Hi as <-. cbn.
      split; [lia|]. split; [lia|]. split; [lia|]. intros _.
      split; [lia|]. split; [lia|]. split; [intros E; specialize (HRe E); lia|].
      split.
      - intros t Ht.
        pose proof (vec_at_range _ _ _ Ht) as Htr. rewrite Hlen in Htr.
        destruct (vec_at_defined S (snext r) Htr) as [x Hx].
        rewrite (HX' x Hx) in Ht. injection Ht as <-. cbn.
        destruct (HRnext x Hx) as (Hxn & _ & Hxt). lia.
      - intros t Ht.
        pose proof (vec_at_range _ _ _ Ht) as Htr.
        rewrite Ho in Ht by lia. exact (HLprev t Ht). }
    destruct (Z.eq_dec i R) as [-> | HiR].
    { rewrite HR' in Hi. injection Hi as <-. cbn.
      split; [lia|]. split; [lia|]. split; [lia|]. intros Hf; lia. }
    destruct (Z.eq_dec i (snext r)) as [-> | HiX].
    { pose proof (vec_at_range _ _ _ Hi) as Hir. rewrite Hlen in Hir.
      destruct (vec_at_defined S (snext r) Hir) as [x Hx].
      rewrite (HX' x Hx) in Hi. injection Hi as <-. cbn.
      destruct (HRnext x Hx) as (Hxn & Hxp & Hxt).
      destruct (Hc _ x Hx) as (Hxp' & Hxn' & Hxn0 & Hxlive).
      destruct (Hxlive Hxn) as (Hxt0 & Hxs & Hxe & Hxnext & Hxprev).
      split; [lia|]. split; [exact Hxn'|]. split; [exact Hxn0|]. intros _.
      split; [exact Hxt0|]. split; [exact Hxs|]. split; [exact Hxe|].
      split.
      - intros t Ht.
        pose proof (vec_at_range _ _ _ Ht) as Htr.
        rewrite Ho in Ht by lia. exact (Hxnext t Ht).
      - intros t Ht. rewrite HL' in Ht. injection Ht as <-. cbn. lia. }
    rewrite Ho in Hi by assumption.
    destruct (Hc i s Hi) as (Hsp & Hsn & Hsn0 & Hslive).
    split; [exact Hsp|]. split; [exact Hsn|]. split; [exact Hsn0|]. intros Hs.
    destruct (Hslive Hs) as (Hst & Hss & Hse & Hsnext & Hsprev).
    split; [exact Hst|]. split; [exact Hss|]. split; [exact Hse|].
    split.
    + intros t Ht.
      destruct (Z.eq_dec (snext s) L) as [E | NL].
      { rewrite E in Ht, Hsnext. rewrite HL' in Ht. injection Ht as <-. cbn.
        destruct (Hsnext l HL) as (_ & Hp & Htx). lia. }
      destruct (Z.eq_dec (snext s) R) as [E | NR].
      { rewrite E in Hsnext. destruct (Hsnext r HR) as (_ & Hp & _). lia. }
      destruct (Z.eq_dec (snext s) (snext r)) as [E | NX].
      { pose proof (vec_at_range _ _ _ Ht) as Htr. rewrite Hlen in Htr.
        destruct (vec_at_defined S (snext s) Htr) as [x Hx].
        destruct (Hsnext x Hx) as (_ & Hp & _).
        rewrite E in Hx. destruct (HRnext x Hx) as (_ & Hp' & _). lia. }
      rewrite Ho in Ht by assumption. exact (Hsnext t Ht).
    + intros t Ht.
      destruct (Z.eq_dec (sprev s) L) as [E | NL].
      { rewrite E in Hsprev. destruct (Hsprev l HL) as (_ & Hn). lia. }
      destruct (Z.eq_dec (sprev s) R) as [E | NR].
      { rewrite E in Hsprev. destruct (Hsprev r HR) as (_ & Hn). lia. }
      destruct (Z.eq_dec (sprev s) (snext r)) as [E | NX].
      { pose proof (vec_at_range _ _ _ Ht) as Htr. rewrite Hlen in Htr.
        destruct (vec_at_defined S (sprev s) Htr) as [x Hx].
        destruct (Hsprev x Hx) as (Hxn & Hxnext).
        rewrite E in Ht, Hx. rewrite (HX' x Hx) in Ht. injection Ht as <-. cbn.
        split; assumption. }
      rewrite Ho in Ht by assumption. exact (Hsprev t Ht).
  - eexists. split; [exact HL'|]. cbn. repeat split; lia.
  - eexists. split; [exact HR'|]. reflexivity.
  - intros j s' HjL HjR Hj.
    destruct (Z.eq_dec j (snext r)) as [-> | HjX].
    + pose proof (vec_at_range _ _ _ Hj) as Hjr. rewrite Hlen in Hjr.
      destruct (vec_at_defined S (snext r) Hjr) as [x Hx].
      rewrite (HX' x Hx) in Hj. injection Hj as <-.
      exists x. split; [exact Hx|]. split; reflexivity.
    + rewrite Ho in Hj by assumption. exists s'. split; [exact Hj|]. split; reflexivity.
Qed.

Lemma vec_at_nat {A : Type} (v : list A) (j : nat) x :
  vec_at v (Z.of_nat j) = Ok x <-> v !! j = Some x.
Proof.
  rewrite vec_at_Ok, Nat2Z.id. split; [intros [_ Hx]; exact Hx | intros Hx; split; [lia | exact Hx]].
Qed.

Lemma live_count_le (S : list llama_sp_symbol.t) :
  (Tokenizer.live_count S <= length S)%nat.
Proof.
  induction S as [|s S IH]; cbn; [lia|].
  destruct (0 <? sn s); lia.
Qed.

Lemma live_count_same (S : list llama_sp_symbol.t) : forall S',
  length S' = length S ->
  (forall j s s', S !! j = Some s -> S' !! j = Some s' ->
     (0 <? sn s) = (0 <? sn s')) ->
  Tokenizer.live_count S = Tokenizer.live_count S'.
Proof.
  induction S as [|s S IH]; intros [|s' S'] Hlen Hpt; try discriminate; [reflexivity|].
  cbn. rewrite (Hpt 0%nat s s' eq_refl eq_refl).
  f_equal. apply IH; [cbn in Hlen; lia|].
  intros j x x' Hx Hx'. exact (Hpt (Datatypes.S j) x x' Hx Hx').
Qed.

Lemma live_count_kill (S : list llama_sp_symbol.t) : forall S' (R : nat) r r',
  length S' = length S ->
  (forall j s s', j <> R -> S !! j = Some s -> S' !! j = Some s' ->
     (0 <? sn s) = (0 <? sn s')) ->
  S !! R = Some r -> S' !! R = Some r' -> 0 < sn r -> sn r' = 0 ->
  Tokenizer.live_count S = Datatypes.S (Tokenizer.live_count S').
Proof.
  induction S as [|s S IH]; intros [|s' S'] R r r' Hlen Hpt HR HR' Hr Hr';
    try discriminate.
  destruct R as [|R]; cbn in HR, HR'.
  - injection HR as ->. injection HR' as ->. cbn.
    replace (0 <? sn r) with true by (symmetry; apply Z.ltb_lt; lia).
    replace (0 <? sn r') with false by (symmetry; apply Z.ltb_ge; lia).
    cbn. f_equal. apply live_count_same; [cbn in Hlen; lia|].
    intros j x x' Hx Hx'. apply (Hpt (Datatypes.S j) x x'); [lia | exact Hx | exact Hx'].
  - cbn. rewrite (Hpt 0%nat s s' ltac:(lia) eq_refl eq_refl).
    rewrite (IH S' R r r'); try assumption; [lia | cbn in Hlen; lia |].
    intros j x x' Hj Hx Hx'. apply (Hpt (Datatypes.S j) x x'); [lia | exact Hx | exact Hx'].
Qed.

(** A merge takes one symbol out of the living. *)
Lemma merge_symbols_live_count (S S' : list llama_sp_symbol.t) (L R : Z) l :
  length S' = length S ->
  0 <= L < R ->
  vec_at S L = Ok l -> 0 < sn l ->
  (exists l', vec_at S' L = Ok l' /\ 0 < sn l' /\ True) ->
  (exists r, vec_at S R = Ok r /\ 0 < sn r) ->
  (exists r', vec_at S' R = Ok r' /\ sn r' = 0) ->
  (forall j s', j <> L -> j <> R -> vec_at S' j = Ok s' ->
     exists s, vec_at S j = Ok s /\ sn s = sn s') ->
  Tokenizer.live_count S = Datatypes.S (Tokenizer.live_count S').
Proof.
  intros Hlen HLR HL Hl (l' & HL' & Hl' & _) (r & HR & Hr) (r' & HR' & Hr') Ho.
  apply vec_at_Ok in HR, HR'. destruct HR as [_ HR]. destruct HR' as [_ HR'].
  apply (live_count_kill S S' (Z.to_nat R) r r'); try assumption.
  intros j s s' Hj Hs Hs'.
  apply vec_at_nat in Hs, Hs'.
  destruct (Z.eq_dec (Z.of_nat j) L) as [E | NE].
  - rewrite E in Hs, Hs'. rewrite HL in Hs. rewrite HL' in Hs'.
    injection Hs as <-. injection Hs' as <-.
    transitivity true; [apply Z.ltb_lt | symmetry; apply Z.ltb_lt]; assumption.
  - destruct (Ho (Z.of_nat j) s' NE ltac:(lia) Hs') as (s0 & Hs0 & Hn).
    rewrite Hs in Hs0. injection Hs0 as <-. rewrite Hn. reflexivity.
Qed.

(** Pending entries stay in order across a merge. *)
Lemma queue_ok_merge (S S' : list llama_sp_symbol.t) (L R : Z) l q :
  length S' = length S ->
  L <> R ->
  vec_at S L = Ok l -> 0 < sn l -> snext l = R ->
  (exists r', vec_at S' R = Ok r' /\ sn r' = 0) ->
  (forall j s', j <> L -> j <> R -> vec_at S' j = Ok s' ->
     exists s, vec_at S j = Ok s /\ sn s = sn s' /\ snext s = snext s') ->
  Tokenizer.queue_ok S q -> Tokenizer.queue_ok S' q.
Proof.
  intros Hlen HLR HL Hl Hnext (r' & HR' & Hr') Ho Hq.
  unfold Tokenizer.queue_ok in *. eapply Forall_impl; [exact Hq|].
  intros e (Hel & Her & Hadj). unfold Tokenizer.entry_ok. rewrite Hlen.
  split; [exact Hel|]. split; [exact Her|].
  intros l0 r0 Hl0 Hr0 Hl0n Hr0n.
  destruct (Z.eq_dec (llama_sp_bigram.left e) R) as [E | NlR];
    [rewrite E, HR' in Hl0; injection Hl0 as <-; lia|].
  destruct (Z.eq_dec (llama_sp_bigram.right e) R) as [E | NrR];
    [rewrite E, HR' in Hr0; injection Hr0 as <-; lia|].
  assert (exists r1, vec_at S (llama_sp_bigram.right e) = Ok r1 /\ 0 < sn r1) as (r1 & Hr1 & Hr1n).
  { destruct (Z.eq_dec (llama_sp_bigram.right e) L) as [E | NrL].
    - exists l. rewrite E. split; assumption.
    - destruct (Ho _ r0 NrL NrR Hr0) as (s & Hs & Hn & _).
      exists s. split; [exact Hs | lia]. }
  destruct (Z.eq_dec (llama_sp_bigram.left e) L) as [E | NlL].
  - rewrite E in Hadj. specialize (Hadj l r1 HL Hr1 Hl Hr1n). congruence.
  - destruct (Ho _ l0 NlL NlR Hl0) as (s & Hs & Hn & Hnx).
    rewrite <- Hnx. apply (Hadj s r1 Hs Hr1); lia.
Qed.

Variable vocab : llama_vocab.t.
Hypothesis vocab_wf : Tokenizer.vocab_ok vocab.

(** [try_add_bigram] on two neighbours of the chain, or with [-1] for
    a missing neighbour: it returns, the queue stays in order and
    grows by one entry at most. *)
Lemma try_add_bigram_ok (S : list llama_sp_symbol.t) q left right :
  Tokenizer.chain_ok text S ->
  Tokenizer.queue_ok S q ->
  (left = -1 \/ right = -1
   \/ exists l, vec_at S left = Ok l /\ 0 < sn l /\ snext l = right) ->
  exists q',
    Tokenizer.try_add_bigram vocab text S q left right = Ok q'
    /\ Tokenizer.queue_ok S q'
    /\ (length q' <= Datatypes.S (length q))%nat.
Proof.
  intros Hc Hq Hpre. unfold Tokenizer.try_add_bigram.
  destruct (Z.eqb_spec left (-1)) as [-> | Hl1]; cbn [orb];
    [exists q; repeat split; [exact Hq | lia]|].
  destruct (Z.eqb_spec right (-1)) as [-> | Hr1]; cbn [orb];
    [exists q; repeat split; [exact Hq | lia]|].
  destruct Hpre as [? | [? | (l & HL & Hl & Hnext)]]; try contradiction.
  destruct (Hc left l HL) as (_ & Hln & _ & Hlive).
  destruct (Hlive Hl) as (Hlt & _ & _ & Hlnext & _).
  rewrite Hnext in Hln, Hlnext.
  destruct Hln as [? | Hrr]; [contradiction|].
  destruct (vec_at_defined S right ltac:(pose proof (vec_at_range _ _ _ HL); lia))
    as [r HR].
  destruct (Hlnext r HR) as (Hr & _ & Hrt).
  destruct (Hc right r HR) as (_ & _ & _ & Hrlive).
  destruct (Hrlive Hr) as (_ & Hrs & _).
  rewrite HL, HR. cbn [rbind].
  unfold Tokenizer.substr.
  replace ((0 <=? stext l) && (0 <=? sn l + sn r)
           && (stext l + (sn l + sn r) <=? Tokenizer.str_size text))
    with true
    by (symmetry; rewrite !andb_true_iff; repeat split; apply Z.leb_le; lia).
  cbn [rbind].
  destruct (llama_vocab.token_to_id vocab !! _) as [id|] eqn:Eid;
    [|exists q; repeat split; [exact Hq | lia]].
  destruct (Z.geb_spec (size_t id)
              (Z.of_nat (length (llama_vocab.id_to_token vocab)))) as [Hge | Hlt'];
    [exists q; repeat split; [exact Hq | lia]|].
  destruct vocab_wf as [Hids Hsize].
  specialize (Hids _ _ Eid).
  assert (0 <= id) as Hid0.
  { destruct (Z.le_gt_cases 0 id) as [? | Hneg]; [assumption|].
    unfold size_t, wrap in Hlt'.
    replace (id mod 2 ^ 64) with (id + 2 ^ 64) in Hlt'
      by (apply Z.mod_unique with (q := -1); lia).
    lia. }
  assert (size_t id = id) as Hsz by (unfold size_t, wrap; apply Z.mod_small; lia).
  rewrite Hsz in Hlt'.
  destruct (vec_at_defined (llama_vocab.id_to_token vocab) id ltac:(lia)) as [ts Hts].
  rewrite Hts. cbn [rbind].
  eexists. split; [reflexivity|]. split.
  - unfold Tokenizer.queue_ok.
    eapply Permutation_Forall; [symmetry; apply push_perm|].
    constructor; [|exact Hq].
    unfold Tokenizer.entry_ok. cbn.
    pose proof (vec_at_range _ _ _ HL). pose proof (vec_at_range _ _ _ HR).
    split; [lia|]. split; [lia|].
    intros l0 r0 Hl0 _ _ _. rewrite HL in Hl0. injection Hl0 as <-. exact Hnext.
  - rewrite (Permutation_length (push_perm _ _)). cbn. lia.
Qed.

(** One full merge step. *)
Lemma merge_ok (S : list llama_sp_symbol.t) q b l r :
  Tokenizer.chain_ok text S ->
  Tokenizer.queue_ok S q ->
  Tokenizer.entry_ok S b ->
  vec_at S (llama_sp_bigram.left b) = Ok l ->
  vec_at S (llama_sp_bigram.right b) = Ok r ->
  0 < sn l -> 0 < sn r ->
  exists S' q',
    Tokenizer.merge vocab text S q b = Ok (S', q')
    /\ Tokenizer.chain_ok text S'
    /\ Tokenizer.queue_ok S' q'
    /\ length S' = length S
    /\ Tokenizer.live_count S = Datatypes.S (Tokenizer.live_count S')
    /\ (length q' <= 2 + length q)%nat
    /\ (forall s, vec_at S 0 = Ok s -> 0 < sn s ->
          exists s', vec_at S' 0 = Ok s' /\ 0 < sn s').
Proof.
  intros Hc Hq (_ & _ & Hadj) HL HR Hl Hr.
  pose proof (Hadj l r HL HR Hl Hr) as Hnext.
  destruct (merge_symbols_chain S b l r Hc HL HR Hl Hr Hnext)
    as (S' & Hm & Hc' & Hlen & HLR & (l' & HL' & Hl' & Hl'n & Hl'p)
        & (r' & HR' & Hr') & Ho).
  assert (Tokenizer.queue_ok S' q) as Hq'.
  { apply (queue_ok_merge S S' (llama_sp_bigram.left b) (llama_sp_bigram.right b)
             l q Hlen ltac:(lia) HL Hl Hnext); eauto. }
  assert (Tokenizer.live_count S = Datatypes.S (Tokenizer.live_count S')) as Hlive.
  { apply (merge_symbols_live_count S S' (llama_sp_bigram.left b)
             (llama_sp_bigram.right b) l Hlen HLR HL Hl); eauto.
    intros j s' HjL HjR Hj. destruct (Ho j s' HjL HjR Hj) as (s & Hs & Hn & _). eauto. }
  unfold Tokenizer.merge. rewrite Hm. cbn [rbind]. rewrite HL'. cbn [rbind].
  destruct (Hc' _ l' HL') as (Hl'pr & _ & _ & Hl'live).
  destruct (Hl'live Hl') as (_ & _ & _ & _ & Hl'prev).
  destruct (try_add_bigram_ok S' q (sprev l') (llama_sp_bigram.left b) Hc' Hq')
    as (q1 & Hq1 & Hq1ok & Hq1len).
  { destruct (Z.eq_dec (sprev l') (-1)) as [E | NE]; [left; exact E|].
    right. right.
    destruct (vec_at_defined S' (sprev l')
                ltac:(pose proof (vec_at_range _ _ _ HL'); lia)) as [p Hp].
    exists p. split; [exact Hp|]. exact (Hl'prev p Hp). }
  rewrite Hq1. cbn [rbind].
  destruct (try_add_bigram_ok S' q1 (llama_sp_bigram.left b) (snext l') Hc' Hq1ok)
    as (q2 & Hq2 & Hq2ok & Hq2len).
  { right. right. exists l'. repeat split; assumption. }
  rewrite Hq2. cbn [rbind].
  exists S', q2. split; [reflexivity|].
  split; [exact Hc'|]. split; [exact Hq2ok|]. split; [exact Hlen|].
  split; [exact Hlive|]. split; [lia|].
  intros s Hs Hsn.
  destruct (Z.eq_dec 0 (llama_sp_bigram.left b)) as [E | NE].
  - exists l'. split; [rewrite E; exact HL' | exact Hl'].
  - destruct (vec_at_defined S' 0) as [s' Hs'];
      [rewrite Hlen; apply (vec_at_range _ _ _ Hs)|].
    destruct (Ho 0 s' ltac:(lia) ltac:(lia) Hs') as (s0 & Hs0 & Hn & _).
    rewrite Hs in Hs0. injection Hs0 as <-.
    exists s'. split; [exact Hs' | lia].
Qed.

(** The merge loop returns within its budget. *)
Lemma merge_loop_ok (fuel : nat) : forall (S : list llama_sp_symbol.t) q,
  Tokenizer.chain_ok text S ->
  Tokenizer.queue_ok S q ->
  (length q + 3 * Tokenizer.live_count S <= fuel)%nat ->
  exists S',
    Tokenizer.merge_loop vocab text fuel S q = Ok S'
    /\ Tokenizer.chain_ok text S'
    /\ length S' = length S
    /\ (forall s, vec_at S 0 = Ok s -> 0 < sn s ->
          exists s', vec_at S' 0 = Ok s' /\ 0 < sn s').
Proof.
  induction fuel as [|fuel IH]; intros S q Hc Hq Hfuel.
  - destruct q as [|x q]; [|cbn in Hfuel; lia].
    exists S. cbn. split; [reflexivity|]. split; [exact Hc|].
    split; [reflexivity | eauto].
  - cbn [Tokenizer.merge_loop].
    destruct (llama_sp_bigram.pop q) as [[b q']|] eqn:Hpop;
      [|exists S; split; [reflexivity|]; split; [exact Hc|];
        split; [reflexivity | eauto]].
    pose proof (pop_spec _ _ _ Hpop) as Hperm.
    assert (length q = Datatypes.S (length q')) as Hqlen
      by (rewrite (Permutation_length Hperm); reflexivity).
    assert (Tokenizer.entry_ok S b /\ Tokenizer.queue_ok S q') as [Hb Hq'].
    { unfold Tokenizer.queue_ok in *. rewrite Hperm in Hq.
      apply Forall_cons in Hq. exact Hq. }
    destruct Hb as (Hbl & Hbr & Hadj).
    destruct (vec_at_defined S _ Hbl) as [l HL].
    destruct (vec_at_defined S _ Hbr) as [r HR].
    rewrite HL, HR. cbn [rbind].
    destruct (Hc _ l HL) as (_ & _ & Hln & _).
    destruct (Hc _ r HR) as (_ & _ & Hrn & _).
    destruct ((sn l =? 0) || (sn r =? 0)
              || negb (sn l + sn r =? llama_sp_bigram.size b)) eqn:Estale.
    + apply IH; [exact Hc | exact Hq' | lia].
    + apply orb_false_iff in Estale. destruct Estale as [Estale _].
      apply orb_false_iff in Estale. destruct Estale as [El Er].
      apply Z.eqb_neq in El, Er.
      destruct (merge_ok S q' b l r Hc Hq' (conj Hbl (conj Hbr Hadj)) HL HR)
        as (S1 & q1 & Hm & Hc1 & Hq1 & Hlen1 & Hlive1 & Hq1len & Hzero1);
        [lia | lia |].
      rewrite Hm. cbn [rbind].
      destruct (IH S1 q1 Hc1 Hq1 ltac:(lia)) as (S' & Hloop & Hc' & Hlen' & Hzero').
      exists S'. split; [exact Hloop|]. split; [exact Hc'|].
      split; [congruence|].
      intros s Hs Hsn. destruct (Hzero1 s Hs Hsn) as (s1 & Hs1 & Hs1n).
      exact (Hzero' s1 Hs1 Hs1n).
Qed.

(** The emit walk returns within its budget. *)
Lemma emit_ok (fuel : nat) (S : list llama_sp_symbol.t) : forall i s out,
  Tokenizer.chain_ok text S ->
  vec_at S i = Ok s -> 0 < sn s ->
  Z.of_nat (length S) - i <= Z.of_nat fuel ->
  exists out', Tokenizer.emit vocab text fuel S i out = Ok out'.
Proof.
  induction fuel as [|fuel IH]; intros i s out Hc Hs Hsn Hfuel;
    pose proof (vec_at_range _ _ _ Hs) as Hir; [lia|].
  cbn [Tokenizer.emit].
  replace (i =? -1) with false by (symmetry; apply Z.eqb_neq; lia).
  rewrite Hs. cbn [rbind].
  destruct (Hc i s Hs) as (_ & Hnext & _ & Hlive).
  destruct (Hlive Hsn) as (Ht & Hsz & _ & Hnx & _).
  unfold Tokenizer.substr.
  replace ((0 <=? stext s) && (0 <=? sn s)
           && (stext s + sn s <=? Tokenizer.str_size text))
    with true
    by (symmetry; rewrite !andb_true_iff; repeat split; apply Z.leb_le; lia).
  cbn [rbind].
  destruct Hnext as [E | Hrange].
  - rewrite E. destruct fuel; cbn; eexists; reflexivity.
  - destruct (vec_at_defined S (snext s) ltac:(lia)) as [t Ht'].
    destruct (Hnx t Ht') as (Htn & _).
    apply (IH _ t _ Hc Ht' Htn). lia.
Qed.

Lemma utf8_len_range c : 1 <= Tokenizer.utf8_len c <= 4.
Proof.
  destruct c as [b0 b1 b2 b3 b4 b5 b6 b7].
  destruct b0, b1, b2, b3, b4, b5, b6, b7; vm_compute; split; discriminate.
Qed.

Lemma str_at_defined i :
  0 <= i < Tokenizer.str_size text -> exists c, Tokenizer.str_at text i = Ok c.
Proof.
  unfold Tokenizer.str_at, Tokenizer.str_size. intros Hi.
  replace (0 <=? i) with true by (symmetry; apply Z.leb_le; lia).
  assert (Z.to_nat i < String.length text)%nat as Hn by lia.
  clear Hi. revert Hn. generalize (Z.to_nat i) as k. generalize text as t.
  induction t as [|c t IH]; intros k Hk; cbn in *; [lia|].
  destruct k as [|k]; [exists c; reflexivity|].
  apply IH. lia.
Qed.

Lemma vec_at_app_l {A : Type} (v : list A) x j :
  j < Z.of_nat (length v) -> vec_at (v ++ [x]) j = vec_at v j.
Proof.
  intros Hj. unfold vec_at. destruct (0 <=? j) eqn:E; [|reflexivity].
  apply Z.leb_le in E. rewrite lookup_app_l by lia. reflexivity.
Qed.

Lemma vec_at_app_last {A : Type} (v : list A) x :
  vec_at (v ++ [x]) (Z.of_nat (length v)) = Ok x.
Proof.
  apply vec_at_Ok. split; [lia|]. rewrite Nat2Z.id.
  rewrite lookup_app_r by lia. rewrite Nat.sub_diag. reflexivity.
Qed.

(** The splitting loop returns within its budget and leaves a chain of
    living symbols. *)
Lemma split_chars_ok (fuel : nat) : forall offs (S : list llama_sp_symbol.t),
  Tokenizer.init_ok text S offs ->
  Tokenizer.str_size text - offs <= Z.of_nat fuel ->
  exists S',
    Tokenizer.split_chars text fuel offs (Z.of_nat (length S)) S = Ok S'
    /\ Tokenizer.init_ok text S' (Tokenizer.str_size text)
    /\ (offs < Tokenizer.str_size text -> (length S < length S')%nat).
Proof.
  induction fuel as [|fuel IH]; intros offs S (Hoffs & Hinit) Hfuel.
  - cbn [Tokenizer.split_chars].
    replace (offs <? Tokenizer.str_size text) with false
      by (symmetry; apply Z.ltb_ge; lia).
    assert (offs = Tokenizer.str_size text) as -> by lia.
    exists S. split; [reflexivity|]. split; [split; assumption | lia].
  - cbn [Tokenizer.split_chars].
    destruct (Z.ltb_spec offs (Tokenizer.str_size text)) as [Hlt | Hge].
    + destruct (str_at_defined offs ltac:(lia)) as [c Hc].
      rewrite Hc. cbn [rbind].
      pose proof (utf8_len_range c) as Hu.
      set (char_len := Z.min (Tokenizer.str_size text - offs) (Tokenizer.utf8_len c)).
      assert (1 <= char_len <= Tokenizer.str_size text - offs) as Hcl
        by (subst char_len; lia).
      clearbody char_len.
      set (sym := {| llama_sp_symbol.prev := _ |}).
      destruct (IH (offs + char_len) (S ++ [sym])) as (S' & HS' & Hinit' & Hgrow).
      { split; [lia|]. intros j s Hs.
        pose proof (vec_at_range _ _ _ Hs) as Hjr.
        rewrite length_app in Hjr |- *. cbn [length] in Hjr |- *.
        destruct (Z.eq_dec j (Z.of_nat (length S))) as [-> | Hne].
        - rewrite vec_at_app_last in Hs. injection Hs as <-. subst sym. cbn.
          split; [lia|]. split; [lia|]. split; [lia|]. split; [lia|].
          split.
          { destruct (Z.eqb_spec (offs + char_len) (Tokenizer.str_size text));
              [right | left]; lia. }
          split; [|lia].
          intros t Ht. apply vec_at_range in Ht.
          rewrite length_app in Ht. cbn [length] in Ht. lia.
        - rewrite vec_at_app_l in Hs by lia.
          destruct (Hinit j s Hs) as (Hp & Hn & Ht & Hsz & Hnx & Hsucc & Hlast).
          split; [exact Hp|]. split; [exact Hn|]. split; [exact Ht|].
          split; [exact Hsz|]. split; [exact Hnx|].
          split; [|lia].
          intros t Ht'.
          destruct (Z.eq_dec (j + 1) (Z.of_nat (length S))) as [E | NE].
          + rewrite E, vec_at_app_last in Ht'. injection Ht' as <-.
            subst sym. cbn. rewrite (Hlast E). reflexivity.
          + rewrite vec_at_app_l in Ht' by lia. exact (Hsucc t Ht'). }
      { lia. }
      replace (Z.of_nat (length S) + 1) with (Z.of_nat (length (S ++ [sym])))
        by (rewrite length_app; cbn [length]; lia).
      exists S'. split; [exact HS'|]. split; [exact Hinit'|].
      intros _.
      assert (length (S ++ [sym]) <= length S')%nat; [|rewrite length_app in *; cbn in *; lia].
      destruct (Z.ltb_spec (offs + char_len) (Tokenizer.str_size text)) as [Hlt' | Hge'].
      * specialize (Hgrow Hlt'). lia.
      * destruct fuel; cbn [Tokenizer.split_chars] in HS';
          replace (offs + char_len <? Tokenizer.str_size text) with false in HS'
            by (symmetry; apply Z.ltb_ge; lia);
          injection HS' as <-; lia.
    + assert (offs = Tokenizer.str_size text) as -> by lia.
      exists S. split; [reflexivity|]. split; [split; assumption | lia].
Qed.

Lemma init_chain (S : list llama_sp_symbol.t) :
  Tokenizer.init_ok text S (Tokenizer.str_size text) ->
  Tokenizer.chain_ok text S
  /\ (forall j s, vec_at S j = Ok s ->
        0 < sn s /\ (j + 1 < Z.of_nat (length S) -> snext s = j + 1)).
Proof.
  intros (Hsize & Hinit).
  assert (forall j s, vec_at S j = Ok s ->
            j + 1 < Z.of_nat (length S) -> snext s = j + 1) as Hadj.
  { intros j s Hs Hj.
    destruct (Hinit j s Hs) as (_ & _ & _ & _ & Hnx & Hsucc & _).
    destruct Hnx as [[E _] | [_ E]]; [exact E|].
    destruct (vec_at_defined S (j + 1)
                ltac:(pose proof (vec_at_range _ _ _ Hs); lia)) as [t Ht].
    pose proof (Hsucc t Ht) as Htt.
    destruct (Hinit _ t Ht) as (_ & Htn & _ & Htsz & _). lia. }
  split.
  - intros i s Hs.
    pose proof (vec_at_range _ _ _ Hs) as Hir.
    destruct (Hinit i s Hs) as (Hp & Hn & Ht & Hsz & Hnx & Hsucc & Hlast).
    split; [lia|]. split.
    { destruct Hnx as [[E Hlt] | [E _]]; [right | left; exact E].
      destruct (Z.eq_dec (i + 1) (Z.of_nat (length S))) as [El | NE];
        [specialize (Hlast El); lia | lia]. }
    split; [lia|]. intros _.
    split; [exact Ht|]. split; [exact Hsz|].
    split; [intros E; destruct Hnx as [[E' _] | [_ E']]; [lia | exact E']|].
    split.
    + intros t Ht'.
      pose proof (vec_at_range _ _ _ Ht') as Htr.
      destruct Hnx as [[E _] | [E _]]; [|lia].
      rewrite E in Ht'.
      destruct (Hinit _ t Ht') as (Htp & Htn & _).
      split; [exact Htn|]. split; [lia | exact (Hsucc t Ht')].
    + intros t Ht'.
      pose proof (vec_at_range _ _ _ Ht') as Htr.
      rewrite Hp in Ht'.
      destruct (Hinit _ t Ht') as (_ & Htn & _).
      split; [exact Htn|].
      rewrite (Hadj _ t Ht') by lia. lia.
  - intros j s Hs. split; [|exact (Hadj j s Hs)].
    destruct (Hinit j s Hs) as (_ & Hn & _). exact Hn.
Qed.

(** Seeding the queue returns, and the queue comes out in order. *)
Lemma seed_queue_ok (S : list llama_sp_symbol.t) (k : nat) : forall i q,
  Tokenizer.chain_ok text S ->
  (forall j s, vec_at S j = Ok s ->
     0 < sn s /\ (j + 1 < Z.of_nat (length S) -> snext s = j + 1)) ->
  1 <= i -> i + Z.of_nat k <= Z.of_nat (length S) ->
  Tokenizer.queue_ok S q ->
  exists q',
    Tokenizer.seed_queue vocab text k i S q = Ok q'
    /\ Tokenizer.queue_ok S q'
    /\ (length q' <= length q + k)%nat.
Proof.
  induction k as [|k IH]; intros i q Hc Hlive Hi Hk Hq.
  - exists q. split; [reflexivity|]. split; [exact Hq | lia].
  - cbn [Tokenizer.seed_queue].
    destruct (vec_at_defined S (i - 1) ltac:(lia)) as [l HL].
    destruct (Hlive _ l HL) as (Hl & Hnext).
    destruct (try_add_bigram_ok S q (i - 1) i Hc Hq) as (q1 & Hq1 & Hq1ok & Hq1len).
    { right. right. exists l. split; [exact HL|]. split; [exact Hl|].
      rewrite Hnext by lia. lia. }
    rewrite Hq1. cbn [rbind].
    destruct (IH (i + 1) q1 Hc Hlive ltac:(lia) ltac:(lia) Hq1ok)
      as (q' & Hq' & Hq'ok & Hq'len).
    exists q'. split; [exact Hq'|]. split; [exact Hq'ok | lia].
Qed.

(** [tokenize] returns on every text that is not empty. *)
Lemma tokenize_ok out :
  0 < Tokenizer.str_size text ->
  exists ids, Tokenizer.tokenize vocab text out = Ok ids.
Proof.
  intros Hne. unfold Tokenizer.tokenize.
  destruct (split_chars_ok (String.length text) 0 [])
    as (S & HS & Hinit & Hgrow).
  { split; [lia|]. intros j s Hs. apply vec_at_range in Hs. cbn in Hs. lia. }
  { unfold Tokenizer.str_size. lia. }
  cbn [length] in HS. change (Z.of_nat 0) with 0 in HS.
  rewrite HS. cbn [rbind].
  specialize (Hgrow Hne). cbn [length] in Hgrow.
  destruct (init_chain S Hinit) as (Hc & Hlive).
  destruct (seed_queue_ok S (length S - 1) 1 [] Hc Hlive ltac:(lia) ltac:(lia))
    as (q & Hq & Hqok & Hqlen); [constructor|].
  rewrite Hq. cbn [rbind].
  pose proof (live_count_le S) as Hlc.
  destruct (merge_loop_ok (length q + 3 * length S) S q Hc Hqok ltac:(lia))
    as (S' & Hloop & Hc' & Hlen' & Hzero).
  rewrite Hloop. cbn [rbind].
  destruct (vec_at_defined S 0 ltac:(lia)) as [s0 Hs0].
  destruct (Hlive _ s0 Hs0) as (Hs0n & _).
  destruct (Hzero s0 Hs0 Hs0n) as (s0' & Hs0' & Hs0'n).
  apply (emit_ok (length S') S' 0 s0' out Hc' Hs0' Hs0'n). lia.
Qed.

End MergeFacts.

(** The static [llama_tokenize] returns on every text. *)
Lemma llama_tokenize_ok (vocab : llama_vocab.t) (text : string) (bos : bool) :
  Tokenizer.vocab_ok vocab ->
  exists ids, Tokenizer.llama_tokenize vocab text bos = Ok ids.
Proof.
  intros Hv. unfold Tokenizer.llama_tokenize.
  destruct (Z.eqb_spec (Tokenizer.str_size text) 0) as [E | NE].
  - exists []. reflexivity.
  - apply tokenize_ok; [exact Hv|]. unfold Tokenizer.str_size in *. lia.
Qed.

Lemma vocab_abc_ok : Tokenizer.vocab_ok Example.vocab_abc.
Proof.
  split; [|cbn; lia].
  intros s id Hs. unfold Example.vocab_abc in Hs. cbn [llama_vocab.token_to_id] in Hs.
  apply elem_of_list_to_map_2 in Hs.
  repeat (apply elem_of_cons in Hs; destruct Hs as [[= -> ->] | Hs]; [lia|]).
  apply elem_of_nil in Hs. contradiction.
Qed.

(** C9.  Tokenization always returns.  Let [ids] be the tokenization
    of the text proper and [res] the full tokenization: [ids] with id
    1 in front when [add_bos] is set and the text is not empty (an
    empty text gives no tokens at all).  With [L] the length of [res],
    [llama_tokenize] returns [-L] and leaves the array alone when [L]
    exceeds [n_max_tokens]; otherwise it writes the [L] ids to the
    front of the array and returns [L]. *)
Theorem llama_tokenize_count `{StdLib} `{Ggml}
    (ctx : llama_context.t) (text : string) (tokens : list Z)
    (n_max_tokens : Z) (add_bos : bool) :
  Tokenizer.vocab_ok (llama_context.vocab ctx) ->
  n_max_tokens <= Z.of_nat (length tokens) ->
  exists ids,
    Tokenizer.llama_tokenize (llama_context.vocab ctx) (API.c_str text) false = Ok ids
    /\ (Tokenizer.str_size (API.c_str text) = 0 -> ids = [])
    /\ let res :=
         if add_bos && negb (Tokenizer.str_size (API.c_str text) =? 0)
         then 1 :: ids else ids in
       let L := Z.of_nat (length res) in
       Tokenizer.llama_tokenize (llama_context.vocab ctx) (API.c_str text) add_bos
       = Ok res
       /\ (L <= INT_MAX ->
           API.llama_tokenize ctx text tokens n_max_tokens add_bos
           = if n_max_tokens <? L then Ok (- L, tokens)
             else Ok (L, res ++ drop (length res) tokens)).
Proof.
  intros Hv Hmax.
  destruct (llama_tokenize_ok (llama_context.vocab ctx) (API.c_str text) false Hv)
    as (ids & Hids).
  exists ids. split; [exact Hids|].
  split.
  { intros E. unfold Tokenizer.llama_tokenize in Hids. rewrite E in Hids.
    cbn in Hids. congruence. }
  intros res L.
  assert (Tokenizer.llama_tokenize (llama_context.vocab ctx) (API.c_str text) add_bos
          = Ok res) as Hres.
  { unfold Tokenizer.llama_tokenize in *. subst res.
    destruct (Tokenizer.str_size (API.c_str text) =? 0) eqn:E.
    - rewrite andb_false_r. exact Hids.
    - rewrite andb_true_r. destruct add_bos; [|exact Hids].
      rewrite tokenize_app, Hids. reflexivity. }
  split; [exact Hres|]. intros HL.
  unfold API.llama_tokenize. rewrite Hres. cbn [rbind].
  fold L. unfold INT_MAX in HL.
  rewrite (to_int_small L) by lia.
  rewrite (to_int_small (- L)) by lia.
  destruct (n_max_tokens <? L) eqn:E; [reflexivity|].
  apply Z.ltb_ge in E.
  rewrite copy_tokens_spec by lia.
  cbn [rbind]. rewrite take_0. reflexivity.
Qed.

Lemma llama_tokenize_count_witness :
  let ctx := Example.session 0 in
  API.llama_tokenize ctx "abcab" [0; 0; 0; 0] 4 true = Ok (3, [1; 13; 12; 0])
  /\ API.llama_tokenize ctx "abcab" [0; 0] 2 true = Ok (-3, [0; 0]).
Proof.
  intros ctx.
  assert (Tokenizer.vocab_ok (llama_context.vocab ctx)) as Hv by exact vocab_abc_ok.
  assert (Tokenizer.llama_tokenize (llama_context.vocab ctx) (API.c_str "abcab") false
          = Ok [13; 12]) as Hc by (vm_compute; reflexivity).
  assert (3 <= INT_MAX) as HL by (unfold INT_MAX; lia).
  split.
  - assert (4 <= Z.of_nat (length [0; 0; 0; 0])) as Hmax by (cbn; lia).
    destruct (llama_tokenize_count ctx "abcab" [0; 0; 0; 0] 4 true Hv Hmax)
      as (ids & Hids & _ & _ & Hapi).
    rewrite Hc in Hids. injection Hids as <-.
    exact (Hapi HL).
  - assert (2 <= Z.of_nat (length [0; 0])) as Hmax by (cbn; lia).
    destruct (llama_tokenize_count ctx "abcab" [0; 0] 2 true Hv Hmax)
      as (ids & Hids & _ & _ & Hapi).
    rewrite Hc in Hids. injection Hids as <-.
    exact (Hapi HL).
Defined.

(** ** The sampler: bounds *)

Section SamplerBounds.
Context `{StdLib}.

Variable logits : list float.
Variable n_logits : Z.

Lemma plogits_Ok i x :
  Sampler.plogits logits n_logits i = Ok x ->
  n_logits - Z.of_nat (length logits) <= i < n_logits.
Proof.
  unfold Sampler.plogits. intros Hx. apply vec_at_range in Hx. lia.
Qed.

Lemma argmax_loop_range k : forall i max_logit max_id id,
  Sampler.argmax_loop logits n_logits k i max_logit max_id = Ok id ->
  id = max_id \/ i <= id < i + Z.of_nat k.
Proof.
  induction k as [|k IH]; intros i max_logit max_id id Hid.
  - cbn in Hid. injection Hid as <-. now left.
  - cbn [Sampler.argmax_loop] in Hid.
    destruct (Sampler.plogits logits n_logits i) as [x|e] eqn:Hx; [|discriminate].
    cbn [rbind] in Hid.
    destruct (F32.gtb x max_logit); apply IH in Hid; lia.
Qed.

Lemma build_logits_id_ids k : forall i last_n_tokens scale repeat_penalty acc l,
  Sampler.build_logits_id logits n_logits k i last_n_tokens scale repeat_penalty acc
  = Ok l ->
  exists l', l = acc ++ l'
    /\ Forall (fun e => i <= snd e < i + Z.of_nat k) l'.
Proof.
  induction k as [|k IH]; intros i last_n_tokens scale repeat_penalty acc l Hl.
  - cbn in Hl. injection Hl as <-. exists []. rewrite app_nil_r. split; [reflexivity | constructor].
  - cbn [Sampler.build_logits_id] in Hl.
    destruct (Sampler.plogits logits n_logits i) as [x|e] eqn:Hx; [|discriminate].
    cbn [rbind] in Hl. apply IH in Hl. destruct Hl as (l' & -> & Hall).
    eexists. split; [rewrite <- app_assoc; reflexivity|].
    constructor; [cbn; lia|].
    eapply Forall_impl; [exact Hall|]. cbn. intros e He. lia.
Qed.

End SamplerBounds.

(** X1.  Whatever the sampling parameters, a token returned by the
    sampler is an index into the vocabulary: it lies in
    [0, n_logits), and the logits vector held at least [n_logits]
    entries.  The only fact used about [std::partial_sort] is that it
    rearranges its input. *)
Theorem sampled_id_in_vocabulary `{StdLib}
    (logits : list float) (n_logits : Z) (rng rng' : mt19937)
    (last_n_tokens : list Z) (top_k : Z) (top_p temp repeat_penalty : float)
    (id : Z) :
  (forall l k, partial_sort l k ≡ₚ l) ->
  Sampler.llama_sample_top_p_top_k logits n_logits rng last_n_tokens
    top_k top_p temp repeat_penalty = Ok (id, rng') ->
  0 <= id < n_logits /\ n_logits <= Z.of_nat (length logits).
Proof.
  intros Hperm. unfold Sampler.llama_sample_top_p_top_k.
  destruct (F32.leb temp F32.zero).
  - unfold Sampler.argmax.
    destruct (Sampler.plogits logits n_logits 0) as [x|e] eqn:Hx; [|discriminate].
    cbn [rbind].
    destruct (Sampler.argmax_loop logits n_logits (Z.to_nat (n_logits - 1)) 1 x 0)
      as [m|e] eqn:Hm; [|discriminate].
    cbn [rbind]. intros [= <- <-].
    apply plogits_Ok in Hx. apply argmax_loop_range in Hm. lia.
  - destruct (Sampler.build_logits_id logits n_logits (Z.to_nat n_logits) 0
                last_n_tokens (F32.div F32.one temp) repeat_penalty [])
      as [l|e] eqn:Hl; [|discriminate].
    cbn [rbind].
    set (k := if top_k >? 0 then Z.min top_k n_logits else n_logits).
    destruct (vec_at (Sampler.sample_top_k l k) 0) as [first|e] eqn:Hfirst; [|discriminate].
    cbn [rbind].
    destruct (Sampler.softmax_probs (fst first) (Sampler.sample_top_k l k) [] F64.zero)
      as [probs sum].
    set (keep := if SFltb (F64.of_f32 top_p) F64.one then _ else _).
    destruct (discrete_distribution _ rng) as [idx rng2].
    destruct (vec_at (take keep (Sampler.sample_top_k l k)) idx) as [chosen|e] eqn:Hc;
      [|discriminate].
    cbn [rbind]. intros [= <- <-].
    pose proof (build_logits_id_ids _ _ _ _ _ _ _ _ _ Hl) as (l' & -> & Hall).
    cbn [app] in *.
    assert (Hin : chosen ∈ l').
    { apply vec_at_Ok in Hc. destruct Hc as [_ Hc].
      apply list_elem_of_lookup_2 in Hc.
      apply elem_of_take in Hc. destruct Hc as (i & Hc & _).
      apply list_elem_of_lookup_2 in Hc.
      unfold Sampler.sample_top_k in Hc.
      apply elem_of_take in Hc. destruct Hc as (j & Hc & _).
      apply list_elem_of_lookup_2 in Hc.
      rewrite (Hperm l' k) in Hc. exact Hc. }
    rewrite Forall_forall in Hall. apply Hall in Hin.
    assert (0 < n_logits) by lia.
    destruct (Z.to_nat n_logits) as [|n] eqn:En; [lia|].
    cbn [Sampler.build_logits_id] in Hl.
    destruct (Sampler.plogits logits n_logits 0) as [x|e] eqn:Hx; [|discriminate].
    apply plogits_Ok in Hx. lia.
Qed.

Lemma sampled_id_in_vocabulary_witness :
  let logits := [F32.of_Z 1; F32.of_Z 3; F32.of_Z 2] in
  @Sampler.llama_sample_top_p_top_k Example.toy_std logits 3 tt [1] 2
    (F32.of_Z 1) (F32.of_Z 1) (F32.of_Z 2) = Ok (0, tt)
  /\ 0 <= 0 < 3 /\ 3 <= Z.of_nat (length logits).
Proof.
  assert (Hrun : @Sampler.llama_sample_top_p_top_k Example.toy_std
            [F32.of_Z 1; F32.of_Z 3; F32.of_Z 2] 3 tt [1] 2
            (F32.of_Z 1) (F32.of_Z 1) (F32.of_Z 2) = Ok (0, tt))
    by (vm_compute; reflexivity).
  split; [exact Hrun|].
  apply (@sampled_id_in_vocabulary Example.toy_std _ _ _ _ _ _ _ _ _ _
           (fun l k => reflexivity l) Hrun).
Defined.

(** X2.  Sampling from a session whose logits vector holds fewer than
    [n_vocab] entries (as it does before the first evaluation), or
    whose vocabulary is empty, reads outside the vector: the sampler
    has no check of its own, whatever the temperature. *)
Theorem sampling_needs_full_logits `{StdLib} `{Ggml}
    (ctx : llama_context.t) (last_n_tokens_data : list Z) (last_n_tokens_size : Z)
    (top_k : Z) (top_p temp repeat_penalty : float) :
  let n_vocab := to_int (llama_hparams.n_vocab (llama_context.hparams ctx)) in
  0 <= n_vocab ->
  vector.size (llama_context.logits ctx) < n_vocab \/ n_vocab = 0 ->
  API.llama_sample_top_p_top_k ctx last_n_tokens_data last_n_tokens_size
    top_k top_p temp repeat_penalty = Err OutOfBounds.
Proof.
  intros n_vocab Hn Hshort. unfold API.llama_sample_top_p_top_k.
  destruct ((0 <=? last_n_tokens_size)
            && (last_n_tokens_size <=? Z.of_nat (length last_n_tokens_data)));
    [|reflexivity].
  cbn [rbind]. fold n_vocab.
  set (logits := vector.data (llama_context.logits ctx)).
  assert (Hp0 : Sampler.plogits logits n_vocab 0 = Err OutOfBounds).
  { unfold Sampler.plogits, vec_at.
    destruct (0 <=? Z.of_nat (length logits) - n_vocab + 0) eqn:E; [|reflexivity].
    apply Z.leb_le in E.
    assert (Hz : n_vocab = 0) by (unfold vector.size in Hshort; fold logits in Hshort; lia).
    rewrite Hz.
    replace (Z.to_nat (Z.of_nat (length logits) - 0 + 0)) with (length logits) by lia.
    rewrite lookup_ge_None_2 by lia. reflexivity. }
  unfold Sampler.llama_sample_top_p_top_k.
  destruct (F32.leb temp F32.zero).
  - unfold Sampler.argmax. rewrite Hp0. reflexivity.
  - destruct (Z.to_nat n_vocab) as [|k] eqn:Ek.
    + assert (Hz : n_vocab = 0) by lia.
      cbn [Sampler.build_logits_id rbind]. unfold Sampler.sample_top_k.
      replace (Z.to_nat (if top_k >? 0 then Z.min top_k n_vocab else n_vocab)) with 0%nat
        by (destruct (top_k >? 0); lia).
      rewrite take_0. reflexivity.
    + cbn [Sampler.build_logits_id]. rewrite Hp0. reflexivity.
Qed.

Lemma sampling_needs_full_logits_witness :
  API.llama_sample_top_p_top_k (Example.session 0) [] 0 40
    (F32.of_Z 1) (F32.of_Z 1) (F32.of_Z 1) = Err OutOfBounds.
Proof.
  apply (@sampling_needs_full_logits Example.toy_std Example.toy_ggml (Example.session 0)).
  - vm_compute. discriminate.
  - left. vm_compute. reflexivity.
Defined.

(** ** Evaluation: what it writes and what it leaves alone *)

Section VectorFacts.

Lemma resize_size n v v' : vector.resize n v = Ok v' -> vector.size v' = n.
Proof.
  unfold vector.resize, vector.size.
  destruct (n <? 0) eqn:E0; [discriminate|]. apply Z.ltb_ge in E0.
  destruct (n <=? Z.of_nat (length (vector.data v))) eqn:E1.
  - apply Z.leb_le in E1. intros [= <-]. cbn. rewrite length_take. lia.
  - apply Z.leb_gt in E1. intros [= <-]. cbn.
    rewrite length_app, length_replicate. lia.
Qed.

Lemma fill_size k src v v' : vector.fill k src v = Ok v' -> vector.size v' = vector.size v.
Proof.
  unfold vector.fill, vector.size.
  destruct ((0 <=? k) && (k <=? Z.of_nat (length src)) && (k <=? vector.capacity v)) eqn:E;
    [|discriminate].
  apply andb_true_iff in E. destruct E as [E _].
  apply andb_true_iff in E. destruct E as [E0 E1].
  apply Z.leb_le in E0, E1.
  intros [= <-]. cbn.
  rewrite length_take, length_app, length_take, length_drop. lia.
Qed.

End VectorFacts.

Section EvalEffects.
Context `{StdLib} `{Ggml}.

Lemma llama_eval_internal_effects (lctx : llama_context.t) tokens N n_past n_threads
    ok lctx' :
  API.llama_eval_internal lctx tokens N n_past n_threads = Ok (ok, lctx') ->
  let n_vocab := to_int (llama_hparams.n_vocab (llama_context.hparams lctx)) in
  0 <= N <= Z.of_nat (length tokens)
  /\ vector.size (llama_context.logits lctx')
     = (if llama_context.logits_all lctx then to_int (n_vocab * N) else n_vocab)
  /\ llama_context.rng lctx' = llama_context.rng lctx
  /\ llama_context.vocab lctx' = llama_context.vocab lctx
  /\ llama_context.hparams lctx' = llama_context.hparams lctx
  /\ llama_context.n_sample lctx' = llama_context.n_sample lctx
  /\ llama_context.logits_all lctx' = llama_context.logits_all lctx
  /\ llama_context.has_evaluated_once lctx' = llama_context.has_evaluated_once lctx
  /\ llama_context.n_eval lctx'
     = (if N =? 1 then to_int (llama_context.n_eval lctx + 1)
        else llama_context.n_eval lctx)
  /\ llama_context.n_p_eval lctx'
     = (if N >? 1 then to_int (llama_context.n_p_eval lctx + N)
        else llama_context.n_p_eval lctx)
  /\ (llama_context.mem_per_token lctx <> 0 ->
      llama_context.mem_per_token lctx' = llama_context.mem_per_token lctx).
Proof.
  intros Heval n_vocab. unfold API.llama_eval_internal in Heval.
  bind_inv Heval.
  assert (HN : 0 <= N <= Z.of_nat (length tokens)).
  { destruct (N <? 0) eqn:E0'; [discriminate|]. apply Z.ltb_ge in E0'.
    destruct (N <=? Z.of_nat (length tokens)) eqn:E1'; [|discriminate].
    apply Z.leb_le in E1'. lia. }
  cbn [llama_context.logits_all llama_context.set_kv_self llama_context.logits] in E1.
  assert (Hlog : vector.size a1
     = (if llama_context.logits_all lctx then to_int (n_vocab * N) else n_vocab)).
  { fold n_vocab in E1. destruct (llama_context.logits_all lctx); bind_inv E1;
      apply fill_size in E1;
      match goal with
      | Hr : vector.resize _ _ = Ok _ |- _ => apply resize_size in Hr
      end; congruence. }
  set (c1 := llama_context.set_logits a1 _) in *.
  assert (F2 : llama_context.logits a2 = a1
               /\ llama_context.rng a2 = llama_context.rng lctx
               /\ llama_context.vocab a2 = llama_context.vocab lctx
               /\ llama_context.hparams a2 = llama_context.hparams lctx
               /\ llama_context.n_sample a2 = llama_context.n_sample lctx
               /\ llama_context.logits_all a2 = llama_context.logits_all lctx
               /\ llama_context.has_evaluated_once a2
                  = llama_context.has_evaluated_once lctx
               /\ llama_context.n_eval a2 = llama_context.n_eval lctx
               /\ llama_context.n_p_eval a2 = llama_context.n_p_eval lctx
               /\ llama_context.mem_per_token a2 = llama_context.mem_per_token lctx).
  { match type of E2 with
    | (if ?b then _ else _) = _ => destruct b; [bind_inv E2|]
    end; injection E2 as <-; cbn; repeat split; reflexivity. }
  destruct F2 as (L2 & R2 & V2 & P2 & S2 & A2 & O2 & NE2 & NP2 & M2).
  assert (F3 : llama_context.logits a3 = a1
               /\ llama_context.rng a3 = llama_context.rng lctx
               /\ llama_context.vocab a3 = llama_context.vocab lctx
               /\ llama_context.hparams a3 = llama_context.hparams lctx
               /\ llama_context.n_sample a3 = llama_context.n_sample lctx
               /\ llama_context.logits_all a3 = llama_context.logits_all lctx
               /\ llama_context.has_evaluated_once a3
                  = llama_context.has_evaluated_once lctx
               /\ llama_context.n_eval a3 = llama_context.n_eval lctx
               /\ llama_context.n_p_eval a3 = llama_context.n_p_eval lctx
               /\ (llama_context.mem_per_token lctx <> 0 ->
                   llama_context.mem_per_token a3 = llama_context.mem_per_token lctx)).
  { destruct (llama_context.mem_per_token a2 =? 0) eqn:Em.
    - apply Z.eqb_eq in Em.
      destruct (size_t N =? 0); [discriminate E3|].
      injection E3 as <-. cbn. repeat split; try assumption. intros Hne. congruence.
    - injection E3 as <-. repeat split; try assumption. intros _. exact M2. }
  destruct F3 as (L3 & R3 & V3 & P3 & S3 & A3 & O3 & NE3 & NP3 & M3).
  injection Heval as <- <-.
  split; [exact HN|].
  destruct (N =? 1) eqn:E1N.
  - apply Z.eqb_eq in E1N. subst N. change (1 >? 1) with false.
    cbn. rewrite L3, NE3. repeat split; assumption.
  - destruct (N >? 1); cbn; rewrite ?L3, ?NP3; repeat split; assumption.
Qed.

End EvalEffects.

Lemma llama_eval_effects `{StdLib} `{Ggml}
    (ctx : llama_context.t) (tokens : list Z) (N n_past n_threads : Z)
    (ret : Z) (ctx' : llama_context.t) :
  API.llama_eval ctx tokens N n_past n_threads = Ok (ret, ctx') ->
  let n_vocab := to_int (llama_hparams.n_vocab (llama_context.hparams ctx)) in
  ret = 0
  /\ llama_context.has_evaluated_once ctx' = true
  /\ 0 <= N <= Z.of_nat (length tokens)
  /\ vector.size (llama_context.logits ctx')
     = (if llama_context.logits_all ctx then to_int (n_vocab * N) else n_vocab)
  /\ llama_context.n_eval ctx'
     = (if N =? 1 then to_int (llama_context.n_eval ctx + 1)
        else llama_context.n_eval ctx)
  /\ llama_context.n_p_eval ctx'
     = (if N >? 1 then to_int (llama_context.n_p_eval ctx + N)
        else llama_context.n_p_eval ctx)
  /\ (llama_context.mem_per_token ctx <> 0 ->
      llama_context.mem_per_token ctx' = llama_context.mem_per_token ctx)
  /\ llama_context.rng ctx' = llama_context.rng ctx
  /\ llama_context.vocab ctx' = llama_context.vocab ctx
  /\ llama_context.hparams ctx' = llama_context.hparams ctx
  /\ llama_context.n_sample ctx' = llama_context.n_sample ctx.
Proof.
  intros Heval n_vocab. unfold API.llama_eval in Heval.
  destruct (API.llama_eval_internal ctx tokens N n_past n_threads)
    as [[ok c]|e] eqn:E; cbn [rbind] in Heval; [|discriminate].
  pose proof (llama_eval_internal_kv_n _ _ _ _ _ _ _ E) as [-> _].
  apply llama_eval_internal_effects in E.
  destruct E as (HN & Hlog & Hrng & Hvoc & Hhp & Hns & _ & Hev & Hne & Hnp & Hmem).
  cbn [negb] in Heval.
  destruct (llama_context.has_evaluated_once c) eqn:Eo; cbn [negb] in Heval;
    injection Heval as <- <-; cbn; repeat split; try assumption; try lia.
Qed.


(** X3.  What a successful [llama_eval] does to the session's
    bookkeeping: it returns 0 and marks the session as evaluated; a
    single-token call is counted in [n_eval], a longer batch adds its
    length to [n_p_eval]; the logits vector ends with [n_vocab]
    entries ([n_vocab * N] with [logits_all]); the memory estimate per
    token is set by the first evaluation only; the generator, the
    vocabulary, the hyperparameters and the sample counter are not
    touched. *)
Theorem llama_eval_bookkeeping `{StdLib} `{Ggml}
    (ctx : llama_context.t) (tokens : list Z) (N n_past n_threads : Z)
    (ret : Z) (ctx' : llama_context.t) :
  API.llama_eval ctx tokens N n_past n_threads = Ok (ret, ctx') ->
  let n_vocab := to_int (llama_hparams.n_vocab (llama_context.hparams ctx)) in
  ret = 0
  /\ llama_context.has_evaluated_once ctx' = true
  /\ 0 <= N <= Z.of_nat (length tokens)
  /\ vector.size (llama_context.logits ctx')
     = (if llama_context.logits_all ctx then to_int (n_vocab * N) else n_vocab)
  /\ llama_context.n_eval ctx'
     = (if N =? 1 then to_int (llama_context.n_eval ctx + 1)
        else llama_context.n_eval ctx)
  /\ llama_context.n_p_eval ctx'
     = (if N >? 1 then to_int (llama_context.n_p_eval ctx + N)
        else llama_context.n_p_eval ctx)
  /\ (llama_context.mem_per_token ctx <> 0 ->
      llama_context.mem_per_token ctx' = llama_context.mem_per_token ctx)
  /\ llama_context.rng ctx' = llama_context.rng ctx
  /\ llama_context.vocab ctx' = llama_context.vocab ctx
  /\ llama_context.hparams ctx' = llama_context.hparams ctx
  /\ llama_context.n_sample ctx' = llama_context.n_sample ctx.
Proof.
  apply llama_eval_effects.
Qed.

Lemma llama_eval_bookkeeping_witness :
  exists ctx',
    API.llama_eval (Example.session 0) [10; 11] 2 0 1 = Ok (0, ctx')
    /\ llama_context.has_evaluated_once ctx' = true
    /\ vector.size (llama_context.logits ctx') = 2
    /\ llama_context.n_eval ctx' = 0
    /\ llama_context.n_p_eval ctx' = 2.
Proof.
  destruct (API.llama_eval (Example.session 0) [10; 11] 2 0 1) as [[ret ctx']|e] eqn:E;
    [|vm_compute in E; discriminate].
  pose proof (@llama_eval_bookkeeping Example.toy_std Example.toy_ggml _ _ _ _ _ _ _ E)
    as (-> & Ho & _ & Hl & Hne & Hnp & _).
  exists ctx'. repeat split; assumption.
Defined.

(** X4.  Evaluation and greedy sampling compose: after a successful
    [llama_eval] on a session with a non-empty vocabulary, a call of
    [llama_sample_top_p_top_k] with [temp <= 0] succeeds, returns the
    greedy choice among the last [n_vocab] logits, an id in
    [0, n_vocab), counts one sample and leaves the generator as it
    was.  With [logits_all] the batch must be non-empty and
    [n_vocab * N] must fit an [int]. *)
Theorem greedy_sampling_after_eval `{StdLib} `{Ggml}
    (ctx : llama_context.t) (tokens : list Z) (N n_past n_threads : Z)
    (ret : Z) (ctx' : llama_context.t)
    (last_n_tokens_data : list Z) (last_n_tokens_size : Z)
    (top_k : Z) (top_p temp repeat_penalty : float) :
  let n_vocab := to_int (llama_hparams.n_vocab (llama_context.hparams ctx)) in
  API.llama_eval ctx tokens N n_past n_threads = Ok (ret, ctx') ->
  0 < n_vocab ->
  (llama_context.logits_all ctx = true -> 1 <= N /\ n_vocab * N <= INT_MAX) ->
  0 <= last_n_tokens_size <= Z.of_nat (length last_n_tokens_data) ->
  F32.leb temp F32.zero = true ->
  exists id ctx'',
    API.llama_sample_top_p_top_k ctx' last_n_tokens_data last_n_tokens_size
      top_k top_p temp repeat_penalty = Ok (id, ctx'')
    /\ 0 <= id < n_vocab
    /\ Sampler.greedy_choice (vector.data (llama_context.logits ctx')) n_vocab id
    /\ llama_context.n_sample ctx'' = to_int (llama_context.n_sample ctx + 1)
    /\ llama_context.rng ctx'' = llama_context.rng ctx.
Proof.
  intros n_vocab Heval Hpos Hall Hsize Htemp.
  apply llama_eval_effects in Heval. fold n_vocab in Heval.
  destruct Heval as (_ & _ & HN & Hlog & _ & _ & _ & Hrng & _ & Hhp & Hns).
  assert (Hrange : 0 < n_vocab <= Z.of_nat (length (vector.data (llama_context.logits ctx')))).
  { unfold vector.size in Hlog. rewrite Hlog.
    destruct (llama_context.logits_all ctx).
    - destruct (Hall eq_refl) as [H1 H2]. unfold INT_MAX in H2.
      rewrite to_int_small by nia. nia.
    - lia. }
  destruct (greedy_branch _ _ Hrange (llama_context.rng ctx')
              (take (Z.to_nat last_n_tokens_size) last_n_tokens_data)
              top_k top_p temp repeat_penalty Htemp) as (id & Hg & Hs & _).
  exists id. eexists.
  unfold API.llama_sample_top_p_top_k.
  replace ((0 <=? last_n_tokens_size)
           && (last_n_tokens_size <=? Z.of_nat (length last_n_tokens_data))) with true
    by (symmetry; apply andb_true_iff; split; apply Z.leb_le; lia).
  cbn [rbind]. rewrite Hhp. fold n_vocab. rewrite Hs. cbn [rbind].
  split; [reflexivity|].
  split; [destruct Hg as [Hg _]; exact Hg|].
  split; [exact Hg|].
  cbn. rewrite Hns, Hrng. split; reflexivity.
Qed.

Lemma greedy_sampling_after_eval_witness :
  exists ctx' id ctx'',
    API.llama_eval (Example.session 0) [10; 11] 2 0 1 = Ok (0, ctx')
    /\ API.llama_sample_top_p_top_k ctx' [10] 1 40 (F32.of_Z 1) F32.zero (F32.of_Z 1)
       = Ok (id, ctx'')
    /\ 0 <= id < 2.
Proof.
  destruct (API.llama_eval (Example.session 0) [10; 11] 2 0 1) as [[ret ctx']|e] eqn:E;
    [|vm_compute in E; discriminate].
  assert (Hret : ret = 0) by (vm_compute in E; congruence).
  destruct (@greedy_sampling_after_eval Example.toy_std Example.toy_ggml
              _ _ _ _ _ _ _ [10] 1 40 (F32.of_Z 1) F32.zero (F32.of_Z 1) E)
    as (id & ctx'' & Hs & Hid & _).
  - vm_compute. reflexivity.
  - cbn. discriminate.
  - cbn. lia.
  - vm_compute. reflexivity.
  - exists ctx', id, ctx''. subst ret. repeat split; try assumption; apply Hid.
Defined.

(** ** The cache getters and [llama_set_kv_cache] *)

Section DataPointers.

Lemma set_data_pointer_in at_ (value buf : list byte) :
  0 <= at_ -> at_ + Z.of_nat (length value) <= Z.of_nat (length buf) ->
  API.set_data_pointer at_ value buf
  = take (Z.to_nat at_) buf ++ value ++ drop (Z.to_nat at_ + length value) buf.
Proof.
  intros H0 Hin. unfold API.set_data_pointer. apply take_ge.
  rewrite !length_app, length_take, length_drop. lia.
Qed.

Lemma set_data_pointer_lookup at_ (value buf : list byte) (i : nat) :
  0 <= at_ -> at_ + Z.of_nat (length value) <= Z.of_nat (length buf) ->
  API.set_data_pointer at_ value buf !! i
  = if decide (at_ <= Z.of_nat i < at_ + Z.of_nat (length value))
    then value !! (i - Z.to_nat at_)%nat else buf !! i.
Proof.
  intros H0 Hin. rewrite set_data_pointer_in by assumption.
  destruct (decide (at_ <= Z.of_nat i < at_ + Z.of_nat (length value))) as [Hi|Hi].
  - rewrite lookup_app_r by (rewrite length_take; lia).
    rewrite length_take, Nat.min_l by lia.
    rewrite lookup_app_l by lia. reflexivity.
  - destruct (decide (Z.of_nat i < at_)) as [Hlt|Hge].
    + rewrite lookup_app_l by (rewrite length_take; lia).
      apply lookup_take_lt. lia.
    + rewrite lookup_app_r by (rewrite length_take; lia).
      rewrite length_take, Nat.min_l by lia.
      rewrite lookup_app_r by lia.
      rewrite lookup_drop. f_equal. lia.
Qed.

Lemma data_pointer_lookup at_ (buf : list byte) (j : nat) :
  0 <= at_ ->
  API.data_pointer at_ buf !! j
  = if decide (j < 8)%nat then buf !! (Z.to_nat at_ + j)%nat else None.
Proof.
  intros H0. unfold API.data_pointer, API.sizeof_pointer.
  change (Z.to_nat 8) with 8%nat.
  destruct (decide (j < 8)%nat) as [Hj|Hj].
  - rewrite lookup_take_lt by exact Hj. apply lookup_drop.
  - apply lookup_take_ge. lia.
Qed.

Lemma length_data_pointer at_ (buf : list byte) :
  0 <= at_ -> at_ + 8 <= Z.of_nat (length buf) ->
  length (API.data_pointer at_ buf) = 8%nat.
Proof.
  intros H0 Hin. unfold API.data_pointer, API.sizeof_pointer.
  rewrite length_take, length_drop. lia.
Qed.

(** A pointer that is stored is the pointer that is read. *)
Lemma data_pointer_set_same at_ (value buf : list byte) :
  0 <= at_ -> length value = 8%nat -> at_ + 8 <= Z.of_nat (length buf) ->
  API.data_pointer at_ (API.set_data_pointer at_ value buf) = value.
Proof.
  intros H0 Hv Hin. apply list_eq. intros j.
  rewrite data_pointer_lookup by exact H0.
  destruct (decide (j < 8)%nat) as [Hj|Hj].
  - rewrite set_data_pointer_lookup by lia.
    rewrite decide_True by lia. f_equal. lia.
  - symmetry. apply lookup_ge_None. lia.
Qed.

(** Storing a pointer leaves a pointer apart from it alone. *)
Lemma data_pointer_set_other at_ other (value buf : list byte) :
  0 <= at_ -> 0 <= other -> at_ + Z.of_nat (length value) <= Z.of_nat (length buf) ->
  (at_ + Z.of_nat (length value) <= other \/ other + 8 <= at_) ->
  API.data_pointer other (API.set_data_pointer at_ value buf)
  = API.data_pointer other buf.
Proof.
  intros H0 H1 Hin Hapart. apply list_eq. intros j.
  rewrite !data_pointer_lookup by exact H1.
  destruct (decide (j < 8)%nat) as [Hj|Hj]; [|reflexivity].
  rewrite set_data_pointer_lookup by lia.
  rewrite decide_False by lia. reflexivity.
Qed.

(** Storing the pointer that is there changes nothing. *)
Lemma set_data_pointer_same at_ (buf : list byte) :
  0 <= at_ -> at_ + 8 <= Z.of_nat (length buf) ->
  API.set_data_pointer at_ (API.data_pointer at_ buf) buf = buf.
Proof.
  intros H0 Hin. apply list_eq. intros i.
  pose proof (length_data_pointer at_ buf H0 Hin) as Hl.
  rewrite set_data_pointer_lookup by lia. rewrite Hl.
  destruct (decide (at_ <= Z.of_nat i < at_ + Z.of_nat 8)) as [Hi|Hi]; [|reflexivity].
  rewrite data_pointer_lookup by exact H0.
  rewrite decide_True by lia. f_equal. lia.
Qed.

Context `{StdLib} `{Ggml}.

(** The bytes that the two cache functions leave in the buffer. *)
Lemma restore_data_pointers (kv : llama_kv_cache.t) (bytes : list byte) :
  kv_pointers_ok kv ->
  length bytes = length (llama_kv_cache.buf kv) ->
  kv_restored kv bytes
    (API.set_data_pointer (llama_kv_cache.v kv)
       (API.data_pointer (llama_kv_cache.v kv) (llama_kv_cache.buf kv))
       (API.set_data_pointer (llama_kv_cache.k kv)
          (API.data_pointer (llama_kv_cache.k kv) (llama_kv_cache.buf kv)) bytes)).
Proof.
  intros (Hk0 & Hk1 & Hv0 & Hv1 & Hapart) Hlen.
  pose proof (length_data_pointer _ _ Hk0 Hk1) as Hlk.
  pose proof (length_data_pointer _ _ Hv0 Hv1) as Hlv.
  unfold kv_restored. rewrite !length_set_data_pointer.
  split; [reflexivity|]. split; [|split].
  - rewrite data_pointer_set_other
      by (rewrite ?length_set_data_pointer, ?Hlv; lia).
    apply data_pointer_set_same; [exact Hk0 | exact Hlk | lia].
  - apply data_pointer_set_same;
      [exact Hv0 | exact Hlv | rewrite length_set_data_pointer; lia].
  - intros i Hik Hiv.
    rewrite set_data_pointer_lookup
      by (rewrite ?length_set_data_pointer, ?Hlv; lia).
    rewrite Hlv, decide_False by lia.
    rewrite set_data_pointer_lookup by (rewrite ?Hlk; lia).
    rewrite Hlk, decide_False by lia. reflexivity.
Qed.

End DataPointers.

(** X5.  [llama_set_kv_cache] insists on the size of the session's own
    cache: any other [n_size] fails its assertion.  With the right
    size it stores the token count and copies [n_size] bytes into the
    buffer, in which the data pointers of the two tensors of the cache
    keep the values they had.  So the getters read back the size, the
    token count and, outside the two pointers, the bytes that were
    set; this holds in particular for a cache saved from another
    session whose cache has the same size, and a cache saved from the
    session itself is read back byte for byte. *)
Theorem kv_cache_set_then_get `{StdLib} `{Ggml}
    (ctx : llama_context.t) (kv_cache : list byte) (n_size n_token_count : Z) :
  kv_pointers_ok (llama_context.kv_self ctx) ->
  (n_size <> API.llama_get_kv_cache_size ctx ->
   API.llama_set_kv_cache ctx kv_cache n_size n_token_count = Err AssertFailed)
  /\ (n_size = API.llama_get_kv_cache_size ctx ->
      n_size <= Z.of_nat (length kv_cache) ->
      exists ctx',
        API.llama_set_kv_cache ctx kv_cache n_size n_token_count = Ok ctx'
        /\ kv_restored (llama_context.kv_self ctx) (take (Z.to_nat n_size) kv_cache)
             (API.llama_get_kv_cache ctx')
        /\ API.llama_get_kv_cache_size ctx' = n_size
        /\ API.llama_get_kv_cache_token_count ctx' = n_token_count
        /\ kv_pointers_ok (llama_context.kv_self ctx'))
  /\ (forall src : llama_context.t,
        API.llama_get_kv_cache_size src = API.llama_get_kv_cache_size ctx ->
        exists ctx',
          API.llama_set_kv_cache ctx (API.llama_get_kv_cache src)
            (API.llama_get_kv_cache_size src)
            (API.llama_get_kv_cache_token_count src) = Ok ctx'
          /\ kv_restored (llama_context.kv_self ctx) (API.llama_get_kv_cache src)
               (API.llama_get_kv_cache ctx')
          /\ API.llama_get_kv_cache_token_count ctx'
             = API.llama_get_kv_cache_token_count src)
  /\ (exists ctx',
        API.llama_set_kv_cache ctx (API.llama_get_kv_cache ctx)
          (API.llama_get_kv_cache_size ctx) n_token_count = Ok ctx'
        /\ API.llama_get_kv_cache ctx' = API.llama_get_kv_cache ctx
        /\ API.llama_get_kv_cache_token_count ctx' = n_token_count).
Proof.
  intros Hok.
  assert (Hset : forall kv n cnt,
            n = API.llama_get_kv_cache_size ctx -> n <= Z.of_nat (length kv) ->
            exists ctx',
              API.llama_set_kv_cache ctx kv n cnt = Ok ctx'
              /\ API.llama_get_kv_cache ctx'
                 = API.set_data_pointer (llama_kv_cache.v (llama_context.kv_self ctx))
                     (API.data_pointer (llama_kv_cache.v (llama_context.kv_self ctx))
                        (llama_kv_cache.buf (llama_context.kv_self ctx)))
                     (API.set_data_pointer (llama_kv_cache.k (llama_context.kv_self ctx))
                        (API.data_pointer (llama_kv_cache.k (llama_context.kv_self ctx))
                           (llama_kv_cache.buf (llama_context.kv_self ctx)))
                        (take (Z.to_nat n) kv))
              /\ llama_kv_cache.k (llama_context.kv_self ctx')
                 = llama_kv_cache.k (llama_context.kv_self ctx)
              /\ llama_kv_cache.v (llama_context.kv_self ctx')
                 = llama_kv_cache.v (llama_context.kv_self ctx)
              /\ API.llama_get_kv_cache_size ctx' = n
              /\ API.llama_get_kv_cache_token_count ctx' = cnt).
  { intros kv n cnt Hn Hlen. unfold API.llama_set_kv_cache.
    unfold API.llama_get_kv_cache_size in Hn. rewrite <- Hn, Z.eqb_refl.
    cbn [LLAMA_ASSERT rbind]. unfold cursor.peek, cursor.start. cbn [cursor.ahead].
    assert (0 <= n) by (unfold API.buf_size in Hn; lia).
    replace ((0 <=? n) && (n <=? Z.of_nat (length kv))) with true
      by (symmetry; apply andb_true_iff; split; apply Z.leb_le; lia).
    cbn [rbind]. eexists. split; [reflexivity|].
    unfold API.llama_get_kv_cache, API.llama_get_kv_cache_size,
      API.llama_get_kv_cache_token_count, API.buf_size. cbn.
    repeat split. rewrite !length_set_data_pointer, length_take. lia. }
  assert (Hsize : forall (kv : list byte) n,
            n = API.llama_get_kv_cache_size ctx -> n <= Z.of_nat (length kv) ->
            length (take (Z.to_nat n) kv)
            = length (llama_kv_cache.buf (llama_context.kv_self ctx))).
  { intros kv n Hn Hlen. rewrite length_take.
    unfold API.llama_get_kv_cache_size, API.buf_size in Hn. lia. }
  split; [|split; [|split]].
  - intros Hne. unfold API.llama_set_kv_cache.
    unfold API.llama_get_kv_cache_size in Hne.
    replace (API.buf_size (llama_kv_cache.buf (llama_context.kv_self ctx)) =? n_size)
      with false by (symmetry; apply Z.eqb_neq; congruence).
    reflexivity.
  - intros Hn Hlen.
    destruct (Hset kv_cache n_size n_token_count Hn Hlen)
      as (ctx' & Hs & Hg & Hk & Hv & Hsz & Hc).
    exists ctx'. split; [exact Hs|]. split; [|split; [exact Hsz|split; [exact Hc|]]].
    + rewrite Hg. apply restore_data_pointers; [exact Hok|]. apply Hsize; assumption.
    + unfold kv_pointers_ok. rewrite Hk, Hv.
      unfold API.llama_get_kv_cache_size, API.buf_size in Hsz, Hn.
      rewrite Hsz, Hn. exact Hok.
  - intros src Hsame.
    assert (Hlen : API.llama_get_kv_cache_size src
                   <= Z.of_nat (length (API.llama_get_kv_cache src)))
      by (unfold API.llama_get_kv_cache_size, API.llama_get_kv_cache, API.buf_size; lia).
    destruct (Hset (API.llama_get_kv_cache src) (API.llama_get_kv_cache_size src)
                (API.llama_get_kv_cache_token_count src) Hsame Hlen)
      as (ctx' & Hs & Hg & _ & _ & _ & Hc).
    exists ctx'. split; [exact Hs|]. split; [|exact Hc].
    rewrite Hg.
    assert (Hall : take (Z.to_nat (API.llama_get_kv_cache_size src))
                     (API.llama_get_kv_cache src)
                   = API.llama_get_kv_cache src).
    { apply take_ge.
      unfold API.llama_get_kv_cache_size, API.llama_get_kv_cache, API.buf_size. lia. }
    rewrite Hall. apply restore_data_pointers; [exact Hok|].
    rewrite <- Hall. apply Hsize; assumption.
  - assert (Hlen : API.llama_get_kv_cache_size ctx
                   <= Z.of_nat (length (API.llama_get_kv_cache ctx)))
      by (unfold API.llama_get_kv_cache_size, API.llama_get_kv_cache, API.buf_size; lia).
    destruct (Hset (API.llama_get_kv_cache ctx) (API.llama_get_kv_cache_size ctx)
                n_token_count eq_refl Hlen)
      as (ctx' & Hs & Hg & _ & _ & _ & Hc).
    exists ctx'. split; [exact Hs|]. split; [|exact Hc].
    rewrite Hg.
    destruct Hok as (Hk0 & Hk1 & Hv0 & Hv1 & _).
    unfold API.llama_get_kv_cache_size, API.llama_get_kv_cache, API.buf_size.
    rewrite Nat2Z.id, take_ge by lia.
    rewrite set_data_pointer_same by assumption.
    apply set_data_pointer_same; assumption.
Qed.

Lemma kv_cache_set_then_get_witness :
  API.llama_set_kv_cache Sample.fresh (replicate 24 xff) 23 3 = Err AssertFailed
  /\ exists ctx',
       API.llama_set_kv_cache Sample.fresh (replicate 30 xff) 24 3 = Ok ctx'
       /\ kv_restored (llama_context.kv_self Sample.fresh)
            (take (Z.to_nat 24) (replicate 30 xff)) (API.llama_get_kv_cache ctx')
       /\ API.llama_get_kv_cache_size ctx' = 24
       /\ API.llama_get_kv_cache_token_count ctx' = 3
       /\ kv_pointers_ok (llama_context.kv_self ctx').
Proof.
  assert (Hok : kv_pointers_ok (llama_context.kv_self Sample.fresh))
    by (vm_compute; repeat split; try discriminate; left; discriminate).
  pose proof (@kv_cache_set_then_get Example.toy_std Example.toy_ggml
                Sample.fresh) as Hkv.
  split.
  - apply (Hkv (replicate 24 xff) 23 3 Hok). vm_compute. discriminate.
  - apply (Hkv (replicate 30 xff) 24 3 Hok); vm_compute; [reflexivity | discriminate].
Defined.

(** ** The work queue's comparator as an ordering *)

Section ComparatorOrder.

Lemma comparator_equiv_iff a b :
  llama_sp_bigram.score a <> S754_nan ->
  llama_sp_bigram.score b <> S754_nan ->
  (llama_sp_bigram.comparator a b = false /\ llama_sp_bigram.comparator b a = false)
  <-> (SFcompare (llama_sp_bigram.score a) (llama_sp_bigram.score b) = Some Eq
       /\ llama_sp_bigram.left a = llama_sp_bigram.left b).
Proof.
  intros Ha Hb.
  destruct (SFcompare_total _ _ Ha Hb) as [c Hc].
  pose proof (SFcompare_flip _ _ _ Hc) as Hc'.
  unfold llama_sp_bigram.comparator, F32.ltb, F32.eqb, SFltb, SFeqb.
  rewrite Hc, Hc'.
  destruct c; cbn; split.
  - intros [H1 H2]. split; [reflexivity|].
    rewrite Z.gtb_ltb in H1, H2. apply Z.ltb_ge in H1, H2. lia.
  - intros [_ ->]. rewrite Z.gtb_ltb, Z.ltb_irrefl. split; reflexivity.
  - intros [H1 _]. discriminate.
  - intros [H1 _]. discriminate.
  - intros [_ H2]. discriminate.
  - intros [H1 _]. discriminate.
Qed.

End ComparatorOrder.

(** X6.  [llama_sp_bigram::comparator] is irreflexive and transitive
    for all scores.  On entries whose scores are numbers it is a
    strict weak ordering, as [std::priority_queue] requires: two
    entries that it does not order have equal scores and the same left
    index, and being unordered is transitive.  A NaN score breaks the
    requirement: it is unordered with every entry, also with two that
    the comparator does order. *)
Theorem comparator_strict_weak_ordering :
  (forall a, llama_sp_bigram.comparator a a = false)
  /\ (forall a b c,
        llama_sp_bigram.comparator a b = true ->
        llama_sp_bigram.comparator b c = true ->
        llama_sp_bigram.comparator a c = true)
  /\ (forall a b c,
        llama_sp_bigram.score a <> S754_nan ->
        llama_sp_bigram.score b <> S754_nan ->
        llama_sp_bigram.score c <> S754_nan ->
        llama_sp_bigram.comparator a b = false ->
        llama_sp_bigram.comparator b a = false ->
        llama_sp_bigram.comparator b c = false ->
        llama_sp_bigram.comparator c b = false ->
        llama_sp_bigram.comparator a c = false
        /\ llama_sp_bigram.comparator c a = false
        /\ llama_sp_bigram.left a = llama_sp_bigram.left b
        /\ F32.eqb (llama_sp_bigram.score a) (llama_sp_bigram.score b) = true)
  /\ (exists a b c,
        llama_sp_bigram.score b = S754_nan
        /\ llama_sp_bigram.comparator a b = false
        /\ llama_sp_bigram.comparator b a = false
        /\ llama_sp_bigram.comparator b c = false
        /\ llama_sp_bigram.comparator c b = false
        /\ llama_sp_bigram.comparator a c = true).
Proof.
  split; [exact comparator_irrefl|].
  split; [exact comparator_trans|].
  split.
  - intros a b c Ha Hb Hc Hab Hba Hbc Hcb.
    destruct (proj1 (comparator_equiv_iff a b Ha Hb) (conj Hab Hba)) as [E1 L1].
    destruct (proj1 (comparator_equiv_iff b c Hb Hc) (conj Hbc Hcb)) as [E2 L2].
    pose proof (SFcompare_trans _ _ _ _ _ E1 E2) as E3.
    assert (Hac : SFcompare (llama_sp_bigram.score a) (llama_sp_bigram.score c) = Some Eq)
      by (apply E3; discriminate).
    destruct (proj2 (comparator_equiv_iff a c Ha Hc)) as [R1 R2];
      [split; [exact Hac | congruence]|].
    repeat split; try assumption.
    unfold F32.eqb, SFeqb. rewrite E1. reflexivity.
  - exists {| llama_sp_bigram.left := 0; llama_sp_bigram.right := 1;
              llama_sp_bigram.score := F32.of_Z 1; llama_sp_bigram.size := 2 |},
           {| llama_sp_bigram.left := 1; llama_sp_bigram.right := 2;
              llama_sp_bigram.score := S754_nan; llama_sp_bigram.size := 2 |},
           {| llama_sp_bigram.left := 2; llama_sp_bigram.right := 3;
              llama_sp_bigram.score := F32.of_Z 2; llama_sp_bigram.size := 2 |}.
    vm_compute. repeat split.
Qed.

Lemma comparator_strict_weak_ordering_witness :
  let e (l : Z) (s : Z) :=
    {| llama_sp_bigram.left := l; llama_sp_bigram.right := l + 1;
       llama_sp_bigram.score := F32.of_Z s; llama_sp_bigram.size := 2 |} in
  llama_sp_bigram.comparator (e 0 1) (e 1 2) = true
  /\ llama_sp_bigram.comparator (e 1 2) (e 2 3) = true
  /\ llama_sp_bigram.comparator (e 0 1) (e 2 3) = true.
Proof.
  intros e.
  assert (H1 : llama_sp_bigram.comparator (e 0 1) (e 1 2) = true) by (vm_compute; reflexivity).
  assert (H2 : llama_sp_bigram.comparator (e 1 2) (e 2 3) = true) by (vm_compute; reflexivity).
  split; [exact H1|]. split; [exact H2|].
  exact (proj1 (proj2 comparator_strict_weak_ordering) _ _ _ H1 H2).
Defined.

(** ** The object representation of floats *)

Section FloatBits.

Lemma digits2_pos_bounds m :
  2 ^ (Z.pos (digits2_pos m) - 1) <= Z.pos m < 2 ^ Z.pos (digits2_pos m).
Proof.
  induction m as [p IH|p IH|]; cbn [digits2_pos].
  - rewrite Pos2Z.inj_succ.
    replace (Z.succ (Z.pos (digits2_pos p)) - 1) with (Z.succ (Z.pos (digits2_pos p) - 1)) by lia.
    rewrite !Z.pow_succ_r by lia. lia.
  - rewrite Pos2Z.inj_succ.
    replace (Z.succ (Z.pos (digits2_pos p)) - 1) with (Z.succ (Z.pos (digits2_pos p) - 1)) by lia.
    rewrite !Z.pow_succ_r by lia. lia.
  - cbn. lia.
Qed.

Lemma valid_finite_cases s m e :
  valid_binary F32.prec F32.emax (S754_finite s m e) = true ->
  (Z.pos m < 2 ^ 23 /\ e = -149)
  \/ (2 ^ 23 <= Z.pos m < 2 ^ 24 /\ -149 <= e <= 104).
Proof.
  cbn [valid_binary]. unfold bounded, canonical_mantissa, fexp, emin, F32.prec, F32.emax.
  intros Hb. apply andb_true_iff in Hb. destruct Hb as [Hc He].
  apply Z.eqb_eq in Hc. apply Z.leb_le in He.
  pose proof (digits2_pos_bounds m) as Hd.
  set (d := Z.pos (digits2_pos m)) in *.
  assert (0 < d) by (subst d; lia).
  destruct (Z.lt_trichotomy d 24) as [Hlt|[Heq|Hgt]].
  - left. split; [|lia].
    assert (2 ^ d <= 2 ^ 23) by (apply Z.pow_le_mono_r; lia). lia.
  - right. rewrite Heq in Hd. change (24 - 1) with 23 in Hd. lia.
  - exfalso. lia.
Qed.

Lemma to_bits_range x :
  valid_binary F32.prec F32.emax x = true -> 0 <= F32.to_bits x < 2 ^ 32.
Proof.
  destruct x as [s|s| |s m e]; intros Hv; cbn [F32.to_bits].
  - destruct s; lia.
  - destruct s; lia.
  - lia.
  - destruct (valid_finite_cases _ _ _ Hv) as [[Hm He]|[Hm He]].
    + replace (Z.pos m <? 2 ^ 23) with true by (symmetry; apply Z.ltb_lt; lia).
      destruct s; lia.
    + replace (Z.pos m <? 2 ^ 23) with false by (symmetry; apply Z.ltb_ge; lia).
      destruct s; lia.
Qed.

Lemma of_bits_to_bits x :
  valid_binary F32.prec F32.emax x = true -> F32.of_bits (F32.to_bits x) = x.
Proof.
  destruct x as [s|s| |s m e]; intros Hv.
  - destruct s; reflexivity.
  - destruct s; reflexivity.
  - reflexivity.
  - cbn [F32.to_bits].
    destruct (valid_finite_cases _ _ _ Hv) as [[Hm He]|[Hm He]].
    + replace (Z.pos m <? 2 ^ 23) with true by (symmetry; apply Z.ltb_lt; lia).
      subst e. unfold F32.of_bits.
      set (z := (if s then 2 ^ 31 else 0) + Z.pos m).
      assert (Hs : (2 ^ 31 <=? z) = s).
      { subst z. destruct s; [apply Z.leb_le | apply Z.leb_gt]; lia. }
      assert (Hb : (z / 2 ^ 23) mod 2 ^ 8 = 0).
      { subst z. destruct s.
        - replace (2 ^ 31 + Z.pos m) with (Z.pos m + 256 * 2 ^ 23) by lia.
          rewrite Z.div_add by lia. rewrite Z.div_small by lia. reflexivity.
        - rewrite Z.add_0_l, Z.div_small by lia. reflexivity. }
      assert (Hf : z mod 2 ^ 23 = Z.pos m).
      { subst z. destruct s.
        - replace (2 ^ 31 + Z.pos m) with (Z.pos m + 256 * 2 ^ 23) by lia.
          rewrite Z.mod_add by lia. apply Z.mod_small. lia.
        - rewrite Z.add_0_l. apply Z.mod_small. lia. }
      rewrite Hs, Hb, Hf. reflexivity.
    + replace (Z.pos m <? 2 ^ 23) with false by (symmetry; apply Z.ltb_ge; lia).
      unfold F32.of_bits.
      set (z := (if s then 2 ^ 31 else 0) + ((e + 150) * 2 ^ 23 + (Z.pos m - 2 ^ 23))).
      assert (Hs : (2 ^ 31 <=? z) = s).
      { subst z. destruct s; [apply Z.leb_le | apply Z.leb_gt]; lia. }
      assert (Hz : z = (Z.pos m - 2 ^ 23) + ((if s then 256 else 0) + (e + 150)) * 2 ^ 23).
      { subst z. destruct s; lia. }
      assert (Hb : (z / 2 ^ 23) mod 2 ^ 8 = e + 150).
      { rewrite Hz, Z.div_add by lia. rewrite Z.div_small by lia. rewrite Z.add_0_l.
        destruct s.
        - replace (256 + (e + 150)) with (e + 150 + 1 * 2 ^ 8) by lia.
          rewrite Z.mod_add by lia. apply Z.mod_small. lia.
        - rewrite Z.add_0_l. apply Z.mod_small. lia. }
      assert (Hf : z mod 2 ^ 23 = Z.pos m - 2 ^ 23).
      { rewrite Hz, Z.mod_add by lia. apply Z.mod_small. lia. }
      rewrite Hs, Hb, Hf.
      replace (e + 150 =? 255) with false by (symmetry; apply Z.eqb_neq; lia).
      replace (e + 150 =? 0) with false by (symmetry; apply Z.eqb_neq; lia).
      replace (Z.pos m - 2 ^ 23 + 2 ^ 23) with (Z.pos m) by lia.
      replace (e + 150 - 150) with e by lia. reflexivity.
Qed.

Lemma f32_bytes_round x :
  valid_binary F32.prec F32.emax x = true ->
  F32.of_bits (le_decode (f32_bytes x)) = x.
Proof.
  intros Hv. unfold f32_bytes. rewrite le_decode_encode.
  change (256 ^ Z.of_nat 4) with (2 ^ 32).
  rewrite Z.mod_small by (apply to_bits_range; exact Hv).
  apply of_bits_to_bits. exact Hv.
Qed.

Lemma floats_of_bytes_round (xs : list float) : forall rest,
  Forall (fun x => valid_binary F32.prec F32.emax x = true) xs ->
  floats_of_bytes (length xs) (floats_bytes xs ++ rest) = xs.
Proof.
  induction xs as [|x xs IH]; intros rest Hall; [reflexivity|].
  inversion Hall as [|? ? Hx Hxs]; subst.
  cbn [length floats_of_bytes floats_bytes flat_map].
  fold (floats_bytes xs).
  rewrite <- app_assoc.
  assert (Hlen : length (f32_bytes x) = 4%nat) by (unfold f32_bytes; apply length_le_encode).
  rewrite take_app_length' by exact Hlen.
  rewrite drop_app_length' by exact Hlen.
  rewrite f32_bytes_round by exact Hx. rewrite IH by exact Hxs. reflexivity.
Qed.

End FloatBits.

(** ** The state blob: what a restore brings back *)

Section StateContents.
Context `{StdLib} `{Ggml} `{!StdLibLaws}.

Ltac len_simpl :=
  repeat first
    [ rewrite length_drop | rewrite length_app | rewrite length_le_encode
    | rewrite length_floats_bytes | rewrite length_bytes_of_string
    | rewrite length_replicate | rewrite length_take ].

Lemma fill_data k src v :
  0 <= k -> Z.of_nat (length src) = k -> vector.size v = k -> k <= vector.capacity v ->
  vector.fill k src v = Ok {| vector.data := src; vector.capacity := vector.capacity v |}.
Proof.
  intros H0' H1' H2' H3'. unfold vector.fill, vector.size in *.
  replace ((0 <=? k) && (k <=? Z.of_nat (length src)) && (k <=? vector.capacity v))
    with true
    by (symmetry; rewrite !andb_true_iff; repeat split; apply Z.leb_le; lia).
  f_equal. f_equal.
  rewrite (take_ge src) by lia. rewrite (drop_ge (vector.data v)) by lia.
  rewrite app_nil_r. apply take_ge. lia.
Qed.

Lemma to_int_wrap z : to_int (z mod 2 ^ 32) = to_int z.
Proof.
  unfold to_int, wrap. rewrite Z.mod_mod by lia. reflexivity.
Qed.

Lemma restore_logits_data (ctx : llama_context.t) (lg : list float) slack b r :
  let logits_size := Z.of_nat (length lg) in
  logits_size <= vector.capacity (llama_context.logits ctx) ->
  vector.capacity (llama_context.logits ctx) * 4 < 2 ^ 64 ->
  Forall (fun x => valid_binary F32.prec F32.emax x = true) lg ->
  exists v,
    (if negb (logits_size =? 0) then
       let* v := vector.resize logits_size (llama_context.logits ctx) in
       let* raw := cursor.peek (size_t (logits_size * API.sizeof_float))
                     {| cursor.before := b;
                        cursor.ahead := (floats_bytes lg ++ slack) ++ r |} in
       let* v := vector.fill logits_size
                   (floats_of_bytes (Z.to_nat logits_size) raw) v in
       Ok (llama_context.set_logits v ctx)
     else Ok ctx) = Ok (llama_context.set_logits v ctx)
    /\ vector.capacity v = vector.capacity (llama_context.logits ctx)
    /\ vector.data v = (if logits_size =? 0 then vector.data (llama_context.logits ctx)
                        else lg).
Proof.
  intros logits_size Hsz Hfit Hvalid.
  destruct (logits_size =? 0) eqn:E0; cbn [negb].
  - exists (llama_context.logits ctx). split; [|split; reflexivity].
    destruct ctx; reflexivity.
  - apply Z.eqb_neq in E0.
    destruct (resize_ok logits_size (llama_context.logits ctx)) as (v & Hr & Hv);
      [subst logits_size; lia|].
    rewrite Hr. cbn [rbind].
    assert (Hfb : floats_of_bytes (length lg) (floats_bytes lg) = lg).
    { pose proof (floats_of_bytes_round lg [] Hvalid) as Hfb.
      rewrite app_nil_r in Hfb. exact Hfb. }
    assert (Hlen : Z.of_nat (length (floats_bytes lg)) = logits_size * 4).
    { rewrite length_floats_bytes. subst logits_size. unfold F32.float. lia. }
    rewrite <- app_assoc.
    rewrite (peek_app (size_t (logits_size * API.sizeof_float)) (floats_bytes lg));
      [|unfold size_t, wrap, API.sizeof_float; rewrite Z.mod_small; lia].
    cbn [rbind]. subst logits_size. rewrite Nat2Z.id, Hfb.
    rewrite fill_data; [| lia | reflexivity | apply resize_size in Hr; exact Hr | lia].
    cbn [rbind]. eexists. split; [reflexivity|]. split; [exact Hv | reflexivity].
Qed.


Lemma restore_embedding_data (ctx : llama_context.t) (emb : list float) b r :
  let embedding_size := Z.of_nat (length emb) in
  vector.capacity (llama_context.embedding ctx) = embedding_size ->
  vector.size (llama_context.embedding ctx) = embedding_size ->
  embedding_size * 4 < 2 ^ 64 ->
  Forall (fun x => valid_binary F32.prec F32.emax x = true) emb ->
  exists v,
    (if negb (embedding_size =? 0) then
       let* (raw, inp) :=
         cursor.read (size_t (embedding_size * API.sizeof_float))
           {| cursor.before := b; cursor.ahead := floats_bytes emb ++ r |} in
       let* v := vector.fill embedding_size
                   (floats_of_bytes (Z.to_nat embedding_size) raw)
                   (llama_context.embedding ctx) in
       Ok (llama_context.set_embedding v ctx, inp)
     else Ok (ctx, {| cursor.before := b; cursor.ahead := floats_bytes emb ++ r |}))
    = Ok (llama_context.set_embedding v ctx,
          {| cursor.before := b ++ floats_bytes emb; cursor.ahead := r |})
    /\ vector.data v = emb
    /\ vector.capacity v = vector.capacity (llama_context.embedding ctx).
Proof.
  intros embedding_size Hcap Hsize Hfit Hvalid.
  destruct (embedding_size =? 0) eqn:E0; cbn [negb].
  - apply Z.eqb_eq in E0. exists (llama_context.embedding ctx).
    subst embedding_size.
    assert (emb = []) as -> by (destruct emb; [reflexivity | cbn in E0; lia]).
    cbn [floats_bytes flat_map app]. rewrite app_nil_r.
    split; [destruct ctx; reflexivity|]. split; [|reflexivity].
    unfold vector.size in Hsize.
    destruct (vector.data (llama_context.embedding ctx)); [reflexivity | cbn in Hsize; lia].
  - apply Z.eqb_neq in E0.
    assert (Hfb : floats_of_bytes (length emb) (floats_bytes emb) = emb).
    { pose proof (floats_of_bytes_round emb [] Hvalid) as Hfb.
      rewrite app_nil_r in Hfb. exact Hfb. }
    assert (Hlen : Z.of_nat (length (floats_bytes emb)) = embedding_size * 4).
    { rewrite length_floats_bytes. subst embedding_size. unfold F32.float. lia. }
    rewrite (read_app (size_t (embedding_size * API.sizeof_float)) (floats_bytes emb));
      [|unfold size_t, wrap, API.sizeof_float; rewrite Z.mod_small; lia].
    cbn [rbind]. subst embedding_size. rewrite Nat2Z.id, Hfb.
    rewrite fill_data; [| lia | reflexivity | exact Hsize | lia].
    cbn [rbind]. eexists. split; [reflexivity|]. split; reflexivity.
Qed.

Lemma restore_kv_data (ctx : llama_context.t) kv b r :
  let kv_size := Z.of_nat (length kv) in
  API.llama_get_kv_cache_size ctx = kv_size ->
  (if negb (kv_size =? 0) then
     let* _ := LLAMA_ASSERT (API.llama_get_kv_cache_size ctx =? kv_size) in
     let kv_self := llama_context.kv_self ctx in
     let k_data :=
       API.data_pointer (llama_kv_cache.k kv_self) (llama_kv_cache.buf kv_self) in
     let v_data :=
       API.data_pointer (llama_kv_cache.v kv_self) (llama_kv_cache.buf kv_self) in
     let* (raw, inp) :=
       cursor.read kv_size {| cursor.before := b; cursor.ahead := kv ++ r |} in
     let raw := API.set_data_pointer (llama_kv_cache.k kv_self) k_data raw in
     let raw := API.set_data_pointer (llama_kv_cache.v kv_self) v_data raw in
     Ok (llama_context.set_kv_self
           {| llama_kv_cache.k := llama_kv_cache.k kv_self;
              llama_kv_cache.v := llama_kv_cache.v kv_self;
              llama_kv_cache.ctx := llama_kv_cache.ctx kv_self;
              llama_kv_cache.buf := raw;
              llama_kv_cache.n := llama_kv_cache.n kv_self |}
           ctx, inp)
   else Ok (ctx, {| cursor.before := b; cursor.ahead := kv ++ r |}))
  = Ok (llama_context.set_kv_self
          {| llama_kv_cache.k := llama_kv_cache.k (llama_context.kv_self ctx);
             llama_kv_cache.v := llama_kv_cache.v (llama_context.kv_self ctx);
             llama_kv_cache.ctx := llama_kv_cache.ctx (llama_context.kv_self ctx);
             llama_kv_cache.buf :=
               API.set_data_pointer (llama_kv_cache.v (llama_context.kv_self ctx))
                 (API.data_pointer (llama_kv_cache.v (llama_context.kv_self ctx))
                    (llama_kv_cache.buf (llama_context.kv_self ctx)))
                 (API.set_data_pointer (llama_kv_cache.k (llama_context.kv_self ctx))
                    (API.data_pointer (llama_kv_cache.k (llama_context.kv_self ctx))
                       (llama_kv_cache.buf (llama_context.kv_self ctx))) kv);
             llama_kv_cache.n := llama_kv_cache.n (llama_context.kv_self ctx) |}
          ctx,
        {| cursor.before := b ++ kv; cursor.ahead := r |}).
Proof.
  intros kv_size Hsz.
  destruct (kv_size =? 0) eqn:E0; cbn [negb].
  - apply Z.eqb_eq in E0. subst kv_size.
    assert (kv = []) as -> by (destruct kv; [reflexivity | cbn in E0; lia]).
    cbn [app]. rewrite app_nil_r.
    unfold API.llama_get_kv_cache_size, API.buf_size in Hsz.
    destruct ctx as [? ? ? ? ? ? ? [k v c bf n] ? ? ? ? ?]. cbn in *.
    destruct bf; [reflexivity | cbn in Hsz; lia].
  - rewrite Hsz, Z.eqb_refl. cbn [LLAMA_ASSERT rbind]. cbv zeta.
    rewrite read_app by reflexivity. reflexivity.
Qed.

Lemma copy_state_contents (ctx : llama_context.t) (dest : list byte) :
  vector.size (llama_context.logits ctx) <= vector.capacity (llama_context.logits ctx) ->
  API.state_bytes ctx < 2 ^ 64 ->
  API.state_bytes ctx <= Z.of_nat (length dest) ->
  exists pad slack tail,
    Z.of_nat (length pad)
    = 64 * 1024 - Z.of_nat (String.length (rng_print (llama_context.rng ctx)))
    /\ Z.of_nat (length slack)
       = (vector.capacity (llama_context.logits ctx)
          - vector.size (llama_context.logits ctx)) * 4
    /\ API.llama_copy_state_data ctx dest
       = Ok (API.state_bytes ctx,
             le_encode 8 (Z.of_nat (String.length (rng_print (llama_context.rng ctx))))
             ++ (bytes_of_string (rng_print (llama_context.rng ctx)) ++ pad)
             ++ le_encode 8 (vector.capacity (llama_context.logits ctx))
             ++ le_encode 8 (vector.size (llama_context.logits ctx))
             ++ (floats_bytes (vector.data (llama_context.logits ctx)) ++ slack)
             ++ le_encode 8 (vector.size (llama_context.embedding ctx))
             ++ floats_bytes (vector.data (llama_context.embedding ctx))
             ++ le_encode 8 (API.llama_get_kv_cache_size ctx)
             ++ le_encode 4 (API.llama_get_kv_cache_token_count ctx)
             ++ API.llama_get_kv_cache ctx
             ++ tail).
Proof.
  intros Hsize Hfit Hdest.
  pose proof (rng_print_fits (llama_context.rng ctx)) as Hrng.
  assert (0 <= vector.capacity (llama_context.logits ctx)) as Hcap
    by (unfold vector.size in Hsize; lia).
  unfold API.llama_copy_state_data.
  rewrite (state_size_exact ctx Hcap Hfit).
  unfold API.state_bytes, API.llama_get_kv_cache_size, API.buf_size,
    API.llama_get_kv_cache, API.llama_get_kv_cache_token_count,
    vector.size, API.s_rng, API.sizeof_float in *.
  rewrite <- (length_bytes_of_string (rng_print (llama_context.rng ctx))) in *.
  set (rs := bytes_of_string (rng_print (llama_context.rng ctx))) in *.
  unfold F32.float in *.
  set (lg := vector.data (llama_context.logits ctx)) in *.
  set (cap := vector.capacity (llama_context.logits ctx)) in *.
  set (emb := vector.data (llama_context.embedding ctx)) in *.
  set (kv := llama_kv_cache.buf (llama_context.kv_self ctx)) in *.
  set (ntok := llama_kv_cache.n (llama_context.kv_self ctx)) in *.
  clearbody rs lg cap emb kv ntok.
  assert (Hlg : length (floats_bytes lg) = (4 * length lg)%nat)
    by apply length_floats_bytes.
  assert (Hemb : length (floats_bytes emb) = (4 * length emb)%nat)
    by apply length_floats_bytes.
  unfold F32.float in *.
  set (lgb := floats_bytes lg) in *. set (embb := floats_bytes emb) in *.
  clearbody lgb embb.
  unfold cursor.start.
  rewrite poke_ok by (len_simpl; lia).
  cbn [rbind cursor.memory cursor.before cursor.ahead app].
  set (pad := drop (length rs) (replicate (Z.to_nat (64 * 1024)) x00)).
  assert (Z.of_nat (length pad) = 64 * 1024 - Z.of_nat (length rs)) as Hpad
    by (subst pad; len_simpl; lia).
  clearbody pad.
  rewrite write_ok by (len_simpl; lia). cbn [rbind]. len_simpl.
  rewrite write_ok by (len_simpl; lia). cbn [rbind]. len_simpl. rewrite ?drop_drop.
  rewrite write_ok by (len_simpl; lia). cbn [rbind]. len_simpl. rewrite ?drop_drop.
  rewrite write_ok by (len_simpl; lia). cbn [rbind]. len_simpl. rewrite ?drop_drop.
  unfold size_t, wrap. rewrite (Z.mod_small (cap * 4)) by lia.
  rewrite poke_if_advance by (len_simpl; lia).
  rewrite ?drop_drop.
  match goal with
  | |- context [take (Z.to_nat (cap * 4)) (lgb ++ ?l)] =>
      rewrite (take_app_ge lgb l) by lia;
      set (slack := take (Z.to_nat (cap * 4) - length lgb) l);
      assert (Z.of_nat (length slack) = (cap - Z.of_nat (length lg)) * 4) as Hslack
        by (subst slack; len_simpl; lia);
      clearbody slack
  end.
  rewrite write_ok by (len_simpl; lia). cbn [rbind]. len_simpl. rewrite ?drop_drop.
  rewrite write_if by (len_simpl; lia). cbn [rbind]. len_simpl. rewrite ?drop_drop.
  rewrite write_ok by (len_simpl; lia). cbn [rbind]. len_simpl. rewrite ?drop_drop.
  rewrite write_ok by (len_simpl; lia). cbn [rbind]. len_simpl. rewrite ?drop_drop.
  rewrite write_if by (len_simpl; lia). cbn [rbind]. len_simpl. rewrite ?drop_drop.
  unfold cursor.offset, cursor.memory. cbn [cursor.before cursor.ahead].
  len_simpl. change (length (@nil byte)) with 0%nat.
  match goal with
  | |- context [LLAMA_ASSERT (?a mod 2 ^ 64 =? ?b)] =>
      replace (a mod 2 ^ 64) with b by (rewrite Z.mod_small; lia)
  end.
  rewrite Z.eqb_refl. cbn [LLAMA_ASSERT rbind].
  eexists pad, slack, _. split; [exact Hpad|]. split; [exact Hslack|].
  rewrite app_nil_l, <- !app_assoc. reflexivity.
Qed.


Lemma state_restore (ctx ctx2 : llama_context.t) (dest : list byte) :
  vector.size (llama_context.logits ctx) <= vector.capacity (llama_context.logits ctx) ->
  vector.capacity (llama_context.embedding ctx) = vector.size (llama_context.embedding ctx) ->
  API.state_bytes ctx < 2 ^ 64 ->
  API.state_bytes ctx <= Z.of_nat (length dest) ->
  API.same_shape ctx2 ctx ->
  Forall (fun x => valid_binary F32.prec F32.emax x = true)
    (vector.data (llama_context.logits ctx)) ->
  Forall (fun x => valid_binary F32.prec F32.emax x = true)
    (vector.data (llama_context.embedding ctx)) ->
  - 2 ^ 31 <= API.llama_get_kv_cache_token_count ctx < 2 ^ 31 ->
  kv_pointers_ok (llama_context.kv_self ctx2) ->
  exists blob ctx2',
    API.llama_copy_state_data ctx dest = Ok (API.llama_get_state_size ctx, blob)
    /\ API.llama_set_state_data ctx2 blob = Ok (API.llama_get_state_size ctx, ctx2')
    /\ llama_context.rng ctx2' = llama_context.rng ctx
    /\ vector.data (llama_context.logits ctx2')
       = (if vector.size (llama_context.logits ctx) =? 0
          then vector.data (llama_context.logits ctx2)
          else vector.data (llama_context.logits ctx))
    /\ vector.data (llama_context.embedding ctx2')
       = vector.data (llama_context.embedding ctx)
    /\ kv_restored (llama_context.kv_self ctx2) (API.llama_get_kv_cache ctx)
         (API.llama_get_kv_cache ctx2')
    /\ (ctx2 = ctx -> API.llama_get_kv_cache ctx2' = API.llama_get_kv_cache ctx)
    /\ API.llama_get_kv_cache_token_count ctx2'
       = API.llama_get_kv_cache_token_count ctx
    /\ llama_context.vocab ctx2' = llama_context.vocab ctx2
    /\ llama_context.hparams ctx2' = llama_context.hparams ctx2
    /\ llama_context.n_sample ctx2' = llama_context.n_sample ctx2
    /\ llama_context.n_eval ctx2' = llama_context.n_eval ctx2
    /\ llama_context.n_p_eval ctx2' = llama_context.n_p_eval ctx2.
Proof.
  intros Hsize Hemb Hfit Hdest Hshape Hvl Hve Hn Hptr.
  assert (0 <= vector.capacity (llama_context.logits ctx)) as Hcap
    by (unfold vector.size in Hsize; lia).
  destruct (copy_state_contents ctx dest Hsize Hfit Hdest)
    as (pad & slack & tail & Hpad & Hslack & Hcopy).
  rewrite (state_size_exact ctx Hcap Hfit).
  match type of Hcopy with _ = Ok (_, ?bl) => set (blob := bl) in * end.
  cut (match API.llama_set_state_data ctx2 blob with
       | Ok (n, c) =>
           n = API.state_bytes ctx
           /\ llama_context.rng c = llama_context.rng ctx
           /\ vector.data (llama_context.logits c)
              = (if vector.size (llama_context.logits ctx) =? 0
                 then vector.data (llama_context.logits ctx2)
                 else vector.data (llama_context.logits ctx))
           /\ vector.data (llama_context.embedding c)
              = vector.data (llama_context.embedding ctx)
           /\ kv_restored (llama_context.kv_self ctx2) (API.llama_get_kv_cache ctx)
                (API.llama_get_kv_cache c)
           /\ (ctx2 = ctx -> API.llama_get_kv_cache c = API.llama_get_kv_cache ctx)
           /\ API.llama_get_kv_cache_token_count c
              = API.llama_get_kv_cache_token_count ctx
           /\ llama_context.vocab c = llama_context.vocab ctx2
           /\ llama_context.hparams c = llama_context.hparams ctx2
           /\ llama_context.n_sample c = llama_context.n_sample ctx2
           /\ llama_context.n_eval c = llama_context.n_eval ctx2
           /\ llama_context.n_p_eval c = llama_context.n_p_eval ctx2
       | Err _ => False
       end).
  { destruct (API.llama_set_state_data ctx2 blob) as [[n c]|e] eqn:Eset; [|intros []].
    intros (-> & Hrest). exists blob, c.
    split; [exact Hcopy|]. split; [exact Eset | exact Hrest]. }
  subst blob. clear Hcopy.
  pose proof (rng_print_fits (llama_context.rng ctx)) as Hrng.
  pose proof (rng_parse_print (llama_context.rng ctx)) as Hparse.
  pose proof (same_shape_size _ _ Hshape) as Hss.
  rewrite (state_size_exact ctx Hcap Hfit) in Hss.
  destruct Hshape as (Hs1 & Hs2 & Hs3 & Hs4).
  unfold API.state_bytes, API.llama_get_kv_cache_size, API.buf_size,
    API.llama_get_kv_cache, API.llama_get_kv_cache_token_count in *.
  unfold API.llama_set_state_data, API.sizeof_size_t, API.sizeof_int, API.s_rng,
    cursor.start.
  unfold vector.size in Hsize, Hemb, Hfit, Hdest, Hs3, Hslack |- *.
  rewrite read_app by (len_simpl; lia). cbn [rbind].
  rewrite read_app by (len_simpl; lia). cbn [rbind].
  rewrite le_decode_encode, Z.mod_small by lia.
  rewrite peek_app by (len_simpl; lia). cbn [rbind].
  rewrite string_of_bytes_of_string, Hparse. cbn [of_option rbind].
  rewrite read_app by (len_simpl; lia). cbn [rbind].
  rewrite read_app by (len_simpl; lia). cbn [rbind].
  rewrite !le_decode_encode. change (256 ^ Z.of_nat 8) with (2 ^ 64).
  rewrite (Z.mod_small (vector.capacity (llama_context.logits ctx))) by lia.
  rewrite (Z.mod_small (Z.of_nat (length (vector.data (llama_context.logits ctx)))))
    by lia.
  set (c0 := llama_context.set_rng (llama_context.rng ctx) ctx2).
  change (llama_context.logits c0) with (llama_context.logits ctx2).
  rewrite Hs1, Z.eqb_refl. cbn [LLAMA_ASSERT rbind].
  match goal with
  | |- context [cursor.peek _ {| cursor.before := ?b; cursor.ahead := _ ++ ?r |}] =>
      destruct (restore_logits_data c0 (vector.data (llama_context.logits ctx))
                  slack b r)
        as (v1 & Hr1 & Hv1c & Hv1d)
  end.
  { change (llama_context.logits c0) with (llama_context.logits ctx2). lia. }
  { change (llama_context.logits c0) with (llama_context.logits ctx2). lia. }
  { exact Hvl. }
  change (llama_context.logits c0) with (llama_context.logits ctx2) in Hr1, Hv1c, Hv1d.
  rewrite Hr1. cbn [rbind].
  set (c1 := llama_context.set_logits v1 c0).
  unfold size_t at 1. unfold wrap, API.sizeof_float.
  rewrite (Z.mod_small (vector.capacity (llama_context.logits ctx) * 4)) by lia.
  rewrite advance_app by (len_simpl; lia). cbn [rbind].
  rewrite read_app by (len_simpl; lia). cbn [rbind].
  rewrite le_decode_encode. change (256 ^ Z.of_nat 8) with (2 ^ 64).
  rewrite (Z.mod_small (Z.of_nat (length (vector.data (llama_context.embedding ctx)))))
    by lia.
  change (llama_context.embedding c1) with (llama_context.embedding ctx2).
  replace (vector.capacity (llama_context.embedding ctx2)
           =? Z.of_nat (length (vector.data (llama_context.embedding ctx))))
    with true by (symmetry; apply Z.eqb_eq; lia).
  cbn [LLAMA_ASSERT rbind].
  match goal with
  | |- context [cursor.read _ {| cursor.before := ?b;
                                 cursor.ahead := floats_bytes ?e ++ ?r |}] =>
      destruct (restore_embedding_data c1 e b r) as (v2 & Hr2 & Hv2d & Hv2c)
  end.
  { change (llama_context.embedding c1) with (llama_context.embedding ctx2). lia. }
  { change (llama_context.embedding c1) with (llama_context.embedding ctx2).
    unfold vector.size. lia. }
  { lia. }
  { exact Hve. }
  unfold API.sizeof_float in Hr2.
  change (llama_context.embedding c1) with (llama_context.embedding ctx2) in Hr2.
  rewrite Hr2. cbn [rbind].
  set (c2 := llama_context.set_embedding v2 c1).
  rewrite read_app by (len_simpl; lia). cbn [rbind].
  rewrite read_app by (len_simpl; lia). cbn [rbind].
  rewrite !le_decode_encode. change (256 ^ Z.of_nat 8) with (2 ^ 64).
  change (256 ^ Z.of_nat 4) with (2 ^ 32).
  rewrite (Z.mod_small
             (Z.of_nat (length (llama_kv_cache.buf (llama_context.kv_self ctx)))))
    by lia.
  rewrite to_int_wrap, to_int_small by lia.
  match goal with
  | |- context [cursor.read _ {| cursor.before := ?b;
                                 cursor.ahead := llama_kv_cache.buf ?k ++ ?r |}] =>
      pose proof (restore_kv_data c2 (llama_kv_cache.buf k) b r) as Hr3
  end.
  cbv zeta in Hr3.
  rewrite Hr3
    by (unfold API.llama_get_kv_cache_size, API.buf_size;
        change (llama_context.kv_self c2) with (llama_context.kv_self ctx2); lia).
  cbn [rbind].
  match goal with
  | |- context [LLAMA_ASSERT (size_t ?a =? API.llama_get_state_size ?c)] =>
      assert (API.llama_get_state_size c = API.llama_get_state_size ctx2) as Hfinal;
      [ unfold API.llama_get_state_size, API.llama_get_kv_cache_size, API.buf_size,
          vector.size; cbn -[API.set_data_pointer API.data_pointer];
        rewrite !length_set_data_pointer, Hv1c, Hv2d, Hs3, Hs4; reflexivity
      | rewrite Hfinal, Hss ]
  end.
  unfold cursor.offset, vector.size. cbn [cursor.before]. len_simpl.
  change (length (@nil byte)) with 0%nat.
  match goal with
  | |- context [LLAMA_ASSERT (size_t ?a =? ?b)] =>
      replace (size_t a) with b
        by (unfold size_t, wrap; rewrite Z.mod_small; lia)
  end.
  rewrite Z.eqb_refl. cbn [LLAMA_ASSERT rbind].
  split; [reflexivity|].
  cbn -[API.set_data_pointer API.data_pointer kv_restored]. rewrite Hv1d, Hv2d.
  split; [reflexivity|]. split; [reflexivity|]. split; [reflexivity|].
  split; [|split; [|repeat split; reflexivity]].
  - change (llama_context.kv_self c2) with (llama_context.kv_self ctx2).
    apply restore_data_pointers; [exact Hptr | lia].
  - intros ->. change (llama_context.kv_self c2) with (llama_context.kv_self ctx).
    destruct Hptr as (Hk0 & Hk1 & Hv0 & Hv1 & _).
    rewrite set_data_pointer_same by assumption.
    apply set_data_pointer_same; assumption.
Qed.

End StateContents.

(** X7.  Saving and restoring the session state is a round trip.  For
    a session whose floats are binary32 values, the blob written by
    [llama_copy_state_data], handed to [llama_set_state_data] in any
    session of the same shape, brings back the generator, the
    embedding, the token count of the cache, the bytes of the cache
    outside the data pointers of its two tensors, which keep the
    values they have in the target, and the logits whenever there are
    any; both calls return the state size.  Restored into the session
    it was saved from, the cache is back byte for byte.  A blob saved
    with no logits leaves the target's logits as they were.  The
    vocabulary, the hyperparameters and the counters of the target are
    not touched. *)
Theorem state_save_restore `{StdLib} `{Ggml} `{!StdLibLaws}
    (ctx ctx2 : llama_context.t) (dest : list byte) :
  vector.size (llama_context.logits ctx) <= vector.capacity (llama_context.logits ctx) ->
  vector.capacity (llama_context.embedding ctx) = vector.size (llama_context.embedding ctx) ->
  API.state_bytes ctx < 2 ^ 64 ->
  API.state_bytes ctx <= Z.of_nat (length dest) ->
  API.same_shape ctx2 ctx ->
  Forall (fun x => valid_binary F32.prec F32.emax x = true)
    (vector.data (llama_context.logits ctx)) ->
  Forall (fun x => valid_binary F32.prec F32.emax x = true)
    (vector.data (llama_context.embedding ctx)) ->
  - 2 ^ 31 <= API.llama_get_kv_cache_token_count ctx < 2 ^ 31 ->
  kv_pointers_ok (llama_context.kv_self ctx2) ->
  exists blob ctx2',
    API.llama_copy_state_data ctx dest = Ok (API.llama_get_state_size ctx, blob)
    /\ API.llama_set_state_data ctx2 blob = Ok (API.llama_get_state_size ctx, ctx2')
    /\ llama_context.rng ctx2' = llama_context.rng ctx
    /\ vector.data (llama_context.logits ctx2')
       = (if vector.size (llama_context.logits ctx) =? 0
          then vector.data (llama_context.logits ctx2)
          else vector.data (llama_context.logits ctx))
    /\ vector.data (llama_context.embedding ctx2')
       = vector.data (llama_context.embedding ctx)
    /\ kv_restored (llama_context.kv_self ctx2) (API.llama_get_kv_cache ctx)
         (API.llama_get_kv_cache ctx2')
    /\ (ctx2 = ctx -> API.llama_get_kv_cache ctx2' = API.llama_get_kv_cache ctx)
    /\ API.llama_get_kv_cache_token_count ctx2'
       = API.llama_get_kv_cache_token_count ctx
    /\ llama_context.vocab ctx2' = llama_context.vocab ctx2
    /\ llama_context.hparams ctx2' = llama_context.hparams ctx2
    /\ llama_context.n_sample ctx2' = llama_context.n_sample ctx2
    /\ llama_context.n_eval ctx2' = llama_context.n_eval ctx2
    /\ llama_context.n_p_eval ctx2' = llama_context.n_p_eval ctx2.
Proof.
  apply state_restore.
Qed.

Lemma state_save_restore_witness :
  let dest := replicate (Z.to_nat 65620) x00 in
  exists blob ctx2',
    API.llama_copy_state_data Sample.running dest = Ok (65620, blob)
    /\ API.llama_set_state_data Sample.fresh blob = Ok (65620, ctx2')
    /\ vector.data (llama_context.logits ctx2') = [F32.of_Z 1; F32.of_Z (-3)]
    /\ vector.data (llama_context.embedding ctx2') = [F32.of_Z 2; F32.of_Z 7]
    /\ kv_restored (llama_context.kv_self Sample.fresh)
         (API.llama_get_kv_cache Sample.running) (API.llama_get_kv_cache ctx2')
    /\ API.llama_get_kv_cache_token_count ctx2' = 5.
Proof.
  intros dest.
  assert (API.state_bytes Sample.running = 65620) as Hb by reflexivity.
  assert (API.llama_get_state_size Sample.running = 65620) as Hs by reflexivity.
  destruct (@state_save_restore Example.toy_std Example.toy_ggml toy_std_laws
              Sample.running Sample.fresh dest)
    as (blob & ctx2' & Hcopy & Hset & _ & Hl & He & Hk & _ & Hn & _).
  - vm_compute. discriminate.
  - reflexivity.
  - rewrite Hb. lia.
  - rewrite Hb. unfold dest. rewrite length_replicate. lia.
  - vm_compute. repeat split; reflexivity.
  - repeat constructor.
  - repeat constructor.
  - change (- 2 ^ 31 <= 5 < 2 ^ 31). lia.
  - vm_compute. repeat split; try discriminate. left. discriminate.
  - rewrite Hs in Hcopy, Hset. exists blob, ctx2'.
    repeat split; try assumption; apply Hk.
Defined.

(** ** Substrings *)

Section StringFacts.

Lemma substring_0_split (s : string) : forall n m,
  String.substring 0 (n + m) s
  = String.append (String.substring 0 n s) (String.substring n m s).
Proof.
  induction s as [|c s IH]; intros n m.
  - destruct n, m; reflexivity.
  - destruct n as [|n]; cbn [Nat.add].
    + destruct m; reflexivity.
    + cbn [String.substring String.append]. rewrite IH. reflexivity.
Qed.

Lemma substring_split (s : string) : forall a n m,
  String.substring a (n + m) s
  = String.append (String.substring a n s) (String.substring (a + n) m s).
Proof.
  induction s as [|c s IH]; intros a n m.
  - destruct a, n, m; reflexivity.
  - destruct a as [|a].
    + apply substring_0_split.
    + cbn [Nat.add String.substring]. apply IH.
Qed.

Lemma substring_full (s : string) : String.substring 0 (String.length s) s = s.
Proof.
  induction s as [|c s IH]; [reflexivity|]. cbn. rewrite IH. reflexivity.
Qed.

Lemma substring_length (s : string) : forall a n,
  (a + n <= String.length s)%nat -> String.length (String.substring a n s) = n.
Proof.
  induction s as [|c s IH]; intros a n Hn; cbn in Hn.
  - destruct a, n; try lia; reflexivity.
  - destruct a as [|a]; cbn.
    + destruct n as [|n]; [reflexivity|]. cbn. rewrite IH by lia. reflexivity.
    + apply IH. lia.
Qed.

Lemma length_list_ascii (s : string) :
  length (list_ascii_of_string s) = String.length s.
Proof.
  induction s as [|c s IH]; [reflexivity|]. cbn. rewrite IH. reflexivity.
Qed.

Lemma append_cons c (s t : string) :
  String.append (String c s) t = String c (String.append s t).
Proof. reflexivity. Qed.

Lemma length_append (s t : string) :
  String.length (String.append s t) = (String.length s + String.length t)%nat.
Proof.
  induction s as [|c s IH]; [reflexivity|].
  rewrite append_cons. cbn [String.length Nat.add]. f_equal. exact IH.
Qed.

Lemma append_nil_r (s : string) : String.append s EmptyString = s.
Proof.
  induction s as [|c s IH]; [reflexivity|]. rewrite append_cons, IH. reflexivity.
Qed.

Lemma append_assoc (s t u : string) :
  String.append (String.append s t) u = String.append s (String.append t u).
Proof.
  induction s as [|c s IH]; [reflexivity|]. rewrite !append_cons, IH. reflexivity.
Qed.

End StringFacts.

(** ** The tokenizer covers the text *)

Section TokenizerCover.

Local Abbreviation snext := llama_sp_symbol.next.
Local Abbreviation stext := llama_sp_symbol.text.
Local Abbreviation sn := llama_sp_symbol.n.

Variable text : string.
Variable vocab : llama_vocab.t.
Hypothesis vocab_wf : Tokenizer.vocab_ok vocab.

Lemma vec_update_text (S S' : list llama_sp_symbol.t) i f :
  (forall x, stext (f x) = stext x) ->
  vec_update S i f = Ok S' -> map stext S' = map stext S.
Proof.
  intros Hf. unfold vec_update.
  destruct (vec_at S i) as [x|e] eqn:Hx; [|discriminate].
  cbn [rbind]. intros [= <-].
  apply vec_at_Ok in Hx. destruct Hx as [_ Hx].
  change (map stext) with (fmap (M := list) stext).
  rewrite list_fmap_insert, Hf. apply list_insert_id.
  rewrite list_lookup_fmap, Hx. reflexivity.
Qed.

Lemma merge_symbols_text (S S' : list llama_sp_symbol.t) b :
  Tokenizer.merge_symbols S b = Ok S' -> map stext S' = map stext S.
Proof.
  unfold Tokenizer.merge_symbols. intros Hm. bind_inv Hm.
  apply vec_update_text in E0; [|reflexivity].
  apply vec_update_text in E1; [|reflexivity].
  apply vec_update_text in E3; [|reflexivity].
  destruct (snext a4 >=? 0).
  - apply vec_update_text in Hm; [|reflexivity]. congruence.
  - injection Hm as <-. congruence.
Qed.

Lemma merge_loop_text (fuel : nat) : forall (S S' : list llama_sp_symbol.t) q,
  Tokenizer.merge_loop vocab text fuel S q = Ok S' -> map stext S' = map stext S.
Proof.
  induction fuel as [|fuel IH]; intros S S' q Hl.
  - cbn in Hl. destruct (llama_sp_bigram.pop q) as [[b q']|]; [discriminate|].
    injection Hl as <-. reflexivity.
  - cbn [Tokenizer.merge_loop] in Hl.
    destruct (llama_sp_bigram.pop q) as [[b q']|]; [|injection Hl as <-; reflexivity].
    bind_inv Hl.
    match type of Hl with
    | (if ?c then _ else _) = _ => destruct c
    end.
    + apply IH in Hl. exact Hl.
    + destruct (Tokenizer.merge vocab text S q' b) as [[S1 q1]|e] eqn:Em;
        cbn [rbind] in Hl; [|discriminate].
      apply IH in Hl. rewrite Hl.
      unfold Tokenizer.merge in Em. bind_inv Em. injection Em as <- <-.
      eapply merge_symbols_text; eassumption.
Qed.

Lemma split_chars_first (fuel : nat) : forall offs index (S S' : list llama_sp_symbol.t),
  Tokenizer.split_chars text fuel offs index S = Ok S' ->
  exists rest, S' = S ++ rest
    /\ match rest with
       | [] => True
       | s :: _ => stext s = offs
       end.
Proof.
  induction fuel as [|fuel IH]; intros offs index S S' Hs; cbn [Tokenizer.split_chars] in Hs.
  - destruct (offs <? Tokenizer.str_size text); [discriminate|].
    injection Hs as <-. exists []. rewrite app_nil_r. split; [reflexivity | exact I].
  - destruct (offs <? Tokenizer.str_size text).
    + destruct (Tokenizer.str_at text offs) as [c|e]; [|discriminate].
      cbn [rbind] in Hs. apply IH in Hs. destruct Hs as (rest & -> & _).
      eexists. rewrite <- app_assoc. split; [reflexivity|]. reflexivity.
    + injection Hs as <-. exists []. rewrite app_nil_r. split; [reflexivity | exact I].
Qed.

(** The emit loop walks the chain from symbol [i] to its end; the
    stretches of text it passes make up the text from the start of
    symbol [i] on. *)
Lemma emit_cover (fuel : nat) (S : list llama_sp_symbol.t) : forall i s out,
  Tokenizer.chain_ok text S ->
  vec_at S i = Ok s -> 0 < sn s ->
  Z.of_nat (length S) - i <= Z.of_nat fuel ->
  exists segs,
    Tokenizer.emit vocab text fuel S i out
    = Ok (out ++ flat_map (Tokenizer.emit_symbol vocab) segs)
    /\ Detok.join segs
       = String.substring (Z.to_nat (stext s))
           (String.length text - Z.to_nat (stext s)) text
    /\ Forall (fun seg => (0 < String.length seg)%nat) segs.
Proof.
  induction fuel as [|fuel IH]; intros i s out Hc Hs Hsn Hfuel;
    pose proof (vec_at_range _ _ _ Hs) as Hir; [lia|].
  cbn [Tokenizer.emit].
  replace (i =? -1) with false by (symmetry; apply Z.eqb_neq; lia).
  rewrite Hs. cbn [rbind].
  destruct (Hc i s Hs) as (_ & Hnext & _ & Hlive).
  destruct (Hlive Hsn) as (Ht & Hsz & Hend & Hnx & _).
  unfold Tokenizer.substr.
  replace ((0 <=? stext s) && (0 <=? sn s)
           && (stext s + sn s <=? Tokenizer.str_size text))
    with true
    by (symmetry; rewrite !andb_true_iff; repeat split; apply Z.leb_le; lia).
  cbn [rbind].
  set (seg := String.substring (Z.to_nat (stext s)) (Z.to_nat (sn s)) text).
  assert (Hseg : String.length seg = Z.to_nat (sn s)).
  { apply substring_length. unfold Tokenizer.str_size in Hsz. lia. }
  destruct Hnext as [E | Hrange].
  - rewrite E. exists [seg].
    split; [destruct fuel; cbn; rewrite app_nil_r; reflexivity|].
    split; [|constructor; [lia | constructor]].
    cbn. rewrite append_nil_r. subst seg. f_equal.
    specialize (Hend E). unfold Tokenizer.str_size in Hend. lia.
  - destruct (vec_at_defined S (snext s) ltac:(lia)) as [t Ht'].
    destruct (Hnx t Ht') as (Htn & _ & Htt).
    destruct (IH (snext s) t (out ++ Tokenizer.emit_symbol vocab seg) Hc Ht' Htn ltac:(lia))
      as (segs & He & Hj & Hall).
    exists (seg :: segs).
    split; [rewrite He, <- app_assoc; reflexivity|].
    split; [|constructor; [lia | exact Hall]].
    cbn [Detok.join fold_right]. fold (Detok.join segs). rewrite Hj. subst seg.
    pose proof (vec_at_range _ _ _ Ht') as Htr.
    destruct (Hc _ t Ht') as (_ & _ & _ & Hlive').
    destruct (Hlive' Htn) as (_ & Hsz' & _).
    unfold Tokenizer.str_size in Hsz, Hsz'.
    replace (String.length text - Z.to_nat (stext s))%nat
      with (Z.to_nat (sn s) + (String.length text - Z.to_nat (stext t)))%nat by lia.
    rewrite substring_split. f_equal. f_equal. lia.
Qed.

(** [tokenize] on a text that is not empty: the ids are those of a
    sequence of non-empty pieces that make up the text. *)
Lemma tokenize_cover out :
  0 < Tokenizer.str_size text ->
  exists segs,
    Tokenizer.tokenize vocab text out
    = Ok (out ++ flat_map (Tokenizer.emit_symbol vocab) segs)
    /\ Detok.join segs = text
    /\ Forall (fun seg => (0 < String.length seg)%nat) segs.
Proof.
  intros Hne. unfold Tokenizer.tokenize.
  destruct (split_chars_ok text (String.length text) 0 [])
    as (S & HS & Hinit & Hgrow).
  { split; [lia|]. intros j s Hs. apply vec_at_range in Hs. cbn in Hs. lia. }
  { unfold Tokenizer.str_size. lia. }
  cbn [length] in HS. change (Z.of_nat 0) with 0 in HS.
  rewrite HS. cbn [rbind].
  specialize (Hgrow Hne). cbn [length] in Hgrow.
  destruct (init_chain text S Hinit) as (Hc & Hlive).
  destruct (seed_queue_ok text vocab vocab_wf S (length S - 1) 1 [] Hc Hlive
              ltac:(lia) ltac:(lia))
    as (q & Hq & Hqok & Hqlen); [constructor|].
  rewrite Hq. cbn [rbind].
  pose proof (live_count_le S) as Hlc.
  destruct (merge_loop_ok text vocab vocab_wf (length q + 3 * length S) S q Hc Hqok
              ltac:(lia))
    as (S' & Hloop & Hc' & Hlen' & Hzero).
  rewrite Hloop. cbn [rbind].
  destruct (vec_at_defined S 0 ltac:(lia)) as [s0 Hs0].
  destruct (Hlive _ s0 Hs0) as (Hs0n & _).
  destruct (Hzero s0 Hs0 Hs0n) as (s0' & Hs0' & Hs0'n).
  destruct (emit_cover (length S') S' 0 s0' out Hc' Hs0' Hs0'n ltac:(lia))
    as (segs & He & Hj & Hall).
  exists segs. split; [exact He|]. split; [|exact Hall].
  rewrite Hj.
  assert (Ht0 : stext s0' = 0).
  { apply merge_loop_text in Hloop.
    apply split_chars_first in HS. destruct HS as (rest & HS & Hfirst).
    cbn [app] in HS. subst rest.
    apply vec_at_Ok in Hs0, Hs0'. destruct Hs0 as [_ Hs0]. destruct Hs0' as [_ Hs0'].
    change (Z.to_nat 0) with 0%nat in Hs0, Hs0'.
    destruct S as [|x S0]; [discriminate|]. destruct S' as [|x' S0']; [discriminate|].
    cbn in Hs0, Hs0', Hloop. injection Hs0 as ->. injection Hs0' as ->.
    injection Hloop as Hx _. congruence. }
  rewrite Ht0. change (Z.to_nat 0) with 0%nat. rewrite Nat.sub_0_r.
  apply substring_full.
Qed.

End TokenizerCover.

Section TokenCounts.

Variable vocab : llama_vocab.t.

Lemma emit_symbol_length seg :
  (0 < String.length seg)%nat ->
  (1 <= length (Tokenizer.emit_symbol vocab seg) <= String.length seg)%nat.
Proof.
  intros Hseg. unfold Tokenizer.emit_symbol.
  destruct (llama_vocab.token_to_id vocab !! seg).
  - cbn. lia.
  - rewrite length_map, length_list_ascii. lia.
Qed.

Lemma emit_symbols_length segs :
  Forall (fun seg => (0 < String.length seg)%nat) segs ->
  (length segs <= length (flat_map (Tokenizer.emit_symbol vocab) segs)
   <= String.length (Detok.join segs))%nat.
Proof.
  induction 1 as [|seg segs Hseg _ IH]; [cbn; lia|].
  cbn [flat_map Detok.join fold_right length]. fold (Detok.join segs).
  rewrite length_app, length_append.
  pose proof (emit_symbol_length seg Hseg). lia.
Qed.

Hypothesis vocab_wf : Tokenizer.vocab_ok vocab.

(** The static tokenizer in terms of the pieces of the text. *)
Lemma llama_tokenize_cover (text : string) (bos : bool) :
  (0 < String.length text)%nat ->
  exists segs,
    Tokenizer.llama_tokenize vocab text bos
    = Ok ((if bos then [1] else []) ++ flat_map (Tokenizer.emit_symbol vocab) segs)
    /\ Detok.join segs = text
    /\ Forall (fun seg => (0 < String.length seg)%nat) segs.
Proof.
  intros Hne. unfold Tokenizer.llama_tokenize.
  replace (Tokenizer.str_size text =? 0) with false
    by (symmetry; apply Z.eqb_neq; unfold Tokenizer.str_size; lia).
  apply tokenize_cover; [exact vocab_wf|]. unfold Tokenizer.str_size. lia.
Qed.

Lemma llama_tokenize_length (text : string) (bos : bool) :
  exists ids,
    Tokenizer.llama_tokenize vocab text bos = Ok ids
    /\ (length ids <= String.length text + (if bos then 1 else 0))%nat
    /\ ((0 < String.length text)%nat -> ((if bos then 2 else 1) <= length ids)%nat).
Proof.
  destruct (String.length text) as [|n] eqn:En.
  - exists []. unfold Tokenizer.llama_tokenize, Tokenizer.str_size. rewrite En.
    split; [reflexivity|]. split; [cbn; lia | lia].
  - destruct (llama_tokenize_cover text bos) as (segs & Ht & Hj & Hall); [lia|].
    eexists. split; [exact Ht|].
    pose proof (emit_symbols_length segs Hall) as Hlen. rewrite Hj, En in Hlen.
    assert (1 <= length segs)%nat.
    { destruct segs; [cbn in Hj; subst text; discriminate | cbn; lia]. }
    rewrite length_app. destruct bos; cbn [length]; split; lia.
Qed.

End TokenCounts.

(** X8.  The tokenizer never produces more tokens than the text has
    bytes: with room for [strlen(text)] tokens, and one more when
    [add_bos] is set, [llama_tokenize] never reports an overflow.  It
    returns the token count [L], which is at least 1 for a text that
    is not empty (at least 2 with [add_bos]) and 0 for the empty
    text. *)
Theorem llama_tokenize_buffer_suffices `{StdLib} `{Ggml}
    (ctx : llama_context.t) (text : string) (tokens : list Z)
    (n_max_tokens : Z) (add_bos : bool) :
  let len := Z.of_nat (String.length (API.c_str text)) in
  Tokenizer.vocab_ok (llama_context.vocab ctx) ->
  len + (if add_bos then 1 else 0) <= n_max_tokens ->
  n_max_tokens <= Z.of_nat (length tokens) ->
  n_max_tokens <= INT_MAX ->
  exists L tokens',
    API.llama_tokenize ctx text tokens n_max_tokens add_bos = Ok (L, tokens')
    /\ 0 <= L <= len + (if add_bos then 1 else 0)
    /\ (len = 0 -> L = 0)
    /\ (0 < len -> (if add_bos then 2 else 1) <= L)
    /\ length tokens' = length tokens.
Proof.
  intros len Hv Hroom Harr Hint.
  destruct (llama_tokenize_length (llama_context.vocab ctx) Hv (API.c_str text) add_bos)
    as (ids & Hids & Hub & Hlb).
  unfold API.llama_tokenize. rewrite Hids. cbn [rbind].
  assert (HL : Z.of_nat (length ids) <= n_max_tokens) by (destruct add_bos; lia).
  unfold INT_MAX in Hint.
  rewrite to_int_small by lia.
  replace (n_max_tokens <? Z.of_nat (length ids)) with false
    by (symmetry; apply Z.ltb_ge; lia).
  rewrite copy_tokens_spec by lia. cbn [rbind].
  eexists _, _. split; [reflexivity|].
  split; [destruct add_bos; lia|].
  split.
  - intros H0'. subst len.
    assert (String.length (API.c_str text) = 0%nat) as Hz by lia.
    unfold Tokenizer.llama_tokenize, Tokenizer.str_size in Hids.
    rewrite Hz in Hids. cbn in Hids. injection Hids as <-. reflexivity.
  - split.
    + intros Hpos. assert (0 < String.length (API.c_str text))%nat as Hp by lia.
      specialize (Hlb Hp). destruct add_bos; lia.
    + rewrite !length_app, length_take, length_drop. cbn. lia.
Qed.

Lemma llama_tokenize_buffer_suffices_witness :
  exists L tokens',
    API.llama_tokenize (Example.session 0) "abcab" [0; 0; 0; 0; 0; 0] 6 true
    = Ok (L, tokens')
    /\ 0 <= L <= 6.
Proof.
  destruct (@llama_tokenize_buffer_suffices Example.toy_std Example.toy_ggml
              (Example.session 0) "abcab" [0; 0; 0; 0; 0; 0] 6 true)
    as (L & tokens' & Ht & HL & _).
  - exact vocab_abc_ok.
  - vm_compute. discriminate.
  - vm_compute. discriminate.
  - vm_compute. discriminate.
  - exists L, tokens'. split; [exact Ht | exact HL].
Defined.

(** ** Printing a tokenization *)

Section PrintTokens.
Context `{StdLib} `{Ggml}.

Lemma c_str_idem (s : string) : API.c_str (API.c_str s) = API.c_str s.
Proof.
  induction s as [|c s IH]; [reflexivity|]. cbn [API.c_str].
  destruct (Ascii.eqb c zero) eqn:E; [reflexivity|].
  cbn [API.c_str]. rewrite E, IH. reflexivity.
Qed.

Lemma c_str_append (a b : string) :
  API.c_str (String.append a b) = String.append a b ->
  API.c_str a = a /\ API.c_str b = b.
Proof.
  induction a as [|c a IH]; [intros Hb; split; [reflexivity | exact Hb]|].
  rewrite append_cons. cbn [API.c_str].
  destruct (Ascii.eqb c zero); [discriminate|].
  intros [= Hab]. destruct (IH Hab) as [Ha Hb]. rewrite Ha. split; [reflexivity | exact Hb].
Qed.

Lemma c_str_join (segs : list string) :
  API.c_str (Detok.join segs) = Detok.join segs ->
  Forall (fun seg => API.c_str seg = seg) segs.
Proof.
  induction segs as [|seg segs IH]; [constructor|].
  cbn [Detok.join fold_right]. fold (Detok.join segs). intros Hc.
  apply c_str_append in Hc. destruct Hc as [Hs Hr].
  constructor; [exact Hs | apply IH; exact Hr].
Qed.

Variable ctx : llama_context.t.

Lemma print_tokens_app (l1 l2 : list Z) :
  Detok.print_tokens ctx (l1 ++ l2)
  = let* a := Detok.print_tokens ctx l1 in
    let* b := Detok.print_tokens ctx l2 in
    Ok (String.append a b).
Proof.
  induction l1 as [|id l1 IH].
  - cbn. destruct (Detok.print_tokens ctx l2); reflexivity.
  - cbn [app Detok.print_tokens].
    destruct (API.llama_token_to_str ctx id) as [p|e]; [|reflexivity]. cbn [rbind].
    destruct (of_option OutOfBounds p) as [s|e]; [|reflexivity]. cbn [rbind].
    rewrite IH.
    destruct (Detok.print_tokens ctx l1) as [a|e]; [|reflexivity]. cbn [rbind].
    destruct (Detok.print_tokens ctx l2) as [b|e]; [|reflexivity]. cbn [rbind].
    rewrite append_assoc. reflexivity.
Qed.

Hypothesis vocab_size :
  Z.of_nat (length (llama_vocab.id_to_token (llama_context.vocab ctx))) <= INT_MAX.

Lemma token_to_str_stored id ts :
  0 <= id ->
  llama_vocab.id_to_token (llama_context.vocab ctx) !! Z.to_nat id = Some ts ->
  API.llama_token_to_str ctx id = Ok (Some (llama_vocab.tok ts)).
Proof.
  intros Hid Hts. unfold API.llama_token_to_str, API.llama_n_vocab.
  unfold INT_MAX in vocab_size.
  rewrite to_int_small by lia.
  pose proof (lookup_lt_Some _ _ _ Hts) as Hlt.
  replace (id >=? _) with false by (symmetry; rewrite Z.geb_leb; apply Z.leb_gt; lia).
  unfold vec_at. replace (0 <=? id) with true by (symmetry; apply Z.leb_le; lia).
  rewrite Hts. reflexivity.
Qed.

Hypothesis consistent : Detok.vocab_consistent (llama_context.vocab ctx).

Lemma print_bytes (s : string) :
  API.c_str s = s ->
  Detok.print_tokens ctx (map (fun c => char_val c + 3) (list_ascii_of_string s)) = Ok s.
Proof.
  induction s as [|c s IH]; [reflexivity|].
  cbn [API.c_str]. destruct (Ascii.eqb c zero) eqn:E; [discriminate|].
  intros [= Hs]. cbn [list_ascii_of_string map Detok.print_tokens].
  destruct consistent as [_ Hbyte]. destruct (Hbyte c) as (ts & Hts & Htok).
  rewrite (token_to_str_stored _ ts); [| unfold char_val; lia | exact Hts].
  cbn [rbind of_option]. rewrite (IH Hs). cbn [rbind].
  rewrite Htok. cbn [API.c_str]. rewrite E. reflexivity.
Qed.

Lemma print_emit_symbol (seg : string) :
  API.c_str seg = seg ->
  Detok.print_tokens ctx (Tokenizer.emit_symbol (llama_context.vocab ctx) seg) = Ok seg.
Proof.
  intros Hseg. unfold Tokenizer.emit_symbol.
  destruct (llama_vocab.token_to_id (llama_context.vocab ctx) !! seg) as [id|] eqn:E.
  - destruct consistent as [Hkey _]. destruct (Hkey _ _ E) as (Hid & ts & Hts & Htok).
    cbn [Detok.print_tokens]. rewrite (token_to_str_stored _ ts Hid Hts).
    cbn [rbind of_option]. rewrite Htok, Hseg, append_nil_r. reflexivity.
  - apply print_bytes. exact Hseg.
Qed.

Lemma print_emit_symbols (segs : list string) :
  Forall (fun seg => API.c_str seg = seg) segs ->
  Detok.print_tokens ctx (flat_map (Tokenizer.emit_symbol (llama_context.vocab ctx)) segs)
  = Ok (Detok.join segs).
Proof.
  induction 1 as [|seg segs Hseg _ IH]; [reflexivity|].
  cbn [flat_map]. rewrite print_tokens_app, print_emit_symbol by exact Hseg.
  cbn [rbind]. rewrite IH. reflexivity.
Qed.

End PrintTokens.

(** X9.  Tokenizing a text and printing the tokens gives the text
    back.  For a vocabulary whose two tables agree and that holds the
    byte tokens at [byte + 3], the ids that the tokenizer returns for
    a C string (no [add_bos]), printed one after the other with
    [llama_token_to_str], spell exactly that string. *)
Theorem tokenize_then_print `{StdLib} `{Ggml}
    (ctx : llama_context.t) (text : string) :
  Tokenizer.vocab_ok (llama_context.vocab ctx) ->
  Detok.vocab_consistent (llama_context.vocab ctx) ->
  Z.of_nat (length (llama_vocab.id_to_token (llama_context.vocab ctx))) <= INT_MAX ->
  exists ids,
    Tokenizer.llama_tokenize (llama_context.vocab ctx) (API.c_str text) false = Ok ids
    /\ Detok.print_tokens ctx ids = Ok (API.c_str text).
Proof.
  intros Hv Hc Hsize.
  destruct (String.length (API.c_str text)) as [|n] eqn:En.
  - exists []. unfold Tokenizer.llama_tokenize, Tokenizer.str_size. rewrite En.
    split; [reflexivity|].
    destruct (API.c_str text); [reflexivity | discriminate].
  - destruct (llama_tokenize_cover (llama_context.vocab ctx) Hv (API.c_str text) false)
      as (segs & Ht & Hj & Hall); [lia|].
    eexists. split; [exact Ht|]. cbn [app].
    rewrite print_emit_symbols; [rewrite Hj; reflexivity | exact Hsize | exact Hc |].
    apply c_str_join. rewrite Hj. apply c_str_idem.
Qed.

Lemma bytes_ab_ok : Tokenizer.vocab_ok SampleVocab.bytes_ab.
Proof.
  split; [|cbn; lia].
  intros s id Hs. cbn [SampleVocab.bytes_ab llama_vocab.token_to_id] in Hs.
  apply lookup_singleton_Some in Hs. destruct Hs as [_ <-]. lia.
Qed.

Lemma bytes_ab_consistent : Detok.vocab_consistent SampleVocab.bytes_ab.
Proof.
  split.
  - intros s id Hs. cbn [SampleVocab.bytes_ab llama_vocab.token_to_id] in Hs.
    apply lookup_singleton_Some in Hs. destruct Hs as [<- <-].
    split; [lia|]. eexists. split; reflexivity.
  - intros c. destruct c as [b0 b1 b2 b3 b4 b5 b6 b7].
    destruct b0, b1, b2, b3, b4, b5, b6, b7; eexists; split; reflexivity.
Qed.

Lemma tokenize_then_print_witness :
  Tokenizer.llama_tokenize SampleVocab.bytes_ab "abzab" false = Ok [259; 125; 259]
  /\ Detok.print_tokens SampleVocab.session [259; 125; 259] = Ok "abzab"%string.
Proof.
  destruct (@tokenize_then_print Example.toy_std Example.toy_ggml
              SampleVocab.session "abzab")
    as (ids & Ht & Hp).
  - exact bytes_ab_ok.
  - exact bytes_ab_consistent.
  - vm_compute. discriminate.
  - assert (Hc : Tokenizer.llama_tokenize SampleVocab.bytes_ab "abzab" false
                 = Ok [259; 125; 259]) by (vm_compute; reflexivity).
    change (llama_context.vocab SampleVocab.session) with SampleVocab.bytes_ab in Ht.
    change (API.c_str "abzab") with "abzab"%string in Ht, Hp.
    rewrite Hc in Ht. injection Ht as <-. split; [exact Hc | exact Hp].
Defined.

(** ** Checked arithmetic and tensor sizes *)

Ltac abind_inv H :=
  repeat match type of H with
  | abind ?r _ = Fine _ =>
      let E := fresh "E" in
      destruct r eqn:E; cbn [abind] in H; [|discriminate H]
  | (let (_, _) := ?p in _) = Fine _ => destruct p
  end.

Section CheckedArith.

Lemma checked_mul_spec bits a b :
  0 < bits -> 0 <= a < 2 ^ bits -> 0 <= b < 2 ^ bits ->
  checked_mul bits a b
  = if a * b <? 2 ^ bits then Fine (a * b) else Throw Overflow.
Proof.
  intros Hbits Ha Hb. unfold checked_mul, wrap.
  assert (HM : 0 < 2 ^ bits) by (apply Z.pow_pos_nonneg; lia).
  destruct (Z.eqb_spec a 0) as [-> | Hne]; cbn [negb andb].
  - rewrite Z.mul_0_l, Z.mod_0_l by lia.
    replace (0 <? 2 ^ bits) with true by (symmetry; apply Z.ltb_lt; lia). reflexivity.
  - destruct (Z.ltb_spec (a * b) (2 ^ bits)) as [Hfit | Hover].
    + rewrite Z.mod_small by nia.
      rewrite (Z.mul_comm a b), Z.div_mul by lia.
      rewrite Z.eqb_refl. reflexivity.
    + pose proof (Z.mod_pos_bound (a * b) (2 ^ bits) HM) as Hr.
      assert (Hlt : (a * b) mod 2 ^ bits < a * b) by lia.
      destruct (Z.eqb_spec ((a * b) mod 2 ^ bits / a) b) as [Heq | Hneq];
        [|reflexivity].
      exfalso.
      assert (Hpos : 0 < a) by lia.
      pose proof (Z.mul_div_le ((a * b) mod 2 ^ bits) a Hpos) as Hle.
      rewrite Heq in Hle. lia.
Qed.

Context `{GgmlTypes}.

Lemma nelements_pos ne : Forall (fun d => 0 < d) ne -> 0 < nelements ne.
Proof.
  induction 1 as [|d ne Hd _ IH]; unfold nelements in *; cbn [fold_right]; [lia | nia].
Qed.

Lemma calc_tensor_size_loop_sound ne : forall size s,
  0 <= size < 2 ^ 64 ->
  Forall (fun d => 0 <= d < 2 ^ 32) ne ->
  calc_tensor_size_loop size ne = Fine s ->
  s = size * nelements ne /\ 0 <= s < 2 ^ 64.
Proof.
  induction ne as [|d ne IH]; intros size s Hsize Hne Hs.
  - cbn in Hs. injection Hs as <-. change (nelements []) with 1. lia.
  - inversion Hne as [|? ? Hd Hrest]; subst.
    cbn [calc_tensor_size_loop] in Hs.
    rewrite checked_mul_spec in Hs by lia.
    destruct (Z.ltb_spec (size * d) (2 ^ 64)) as [Hfit|]; [|discriminate].
    cbn [abind] in Hs. apply IH in Hs; [|nia | exact Hrest].
    destruct Hs as [-> Hr]. split; [|exact Hr].
    change (nelements (d :: ne)) with (d * nelements ne). ring.
Qed.

Lemma calc_tensor_size_loop_exact ne : forall size,
  0 < size < 2 ^ 64 ->
  Forall (fun d => 0 < d < 2 ^ 32) ne ->
  calc_tensor_size_loop size ne
  = if size * nelements ne <? 2 ^ 64 then Fine (size * nelements ne)
    else Throw Overflow.
Proof.
  induction ne as [|d ne IH]; intros size Hsize Hne.
  - cbn [calc_tensor_size_loop]. change (nelements []) with 1. rewrite Z.mul_1_r.
    replace (size <? 2 ^ 64) with true by (symmetry; apply Z.ltb_lt; lia).
    reflexivity.
  - inversion Hne as [|? ? Hd Hrest]; subst.
    cbn [calc_tensor_size_loop]. change (nelements (d :: ne)) with (d * nelements ne).
    assert (Hpos : 0 < nelements ne).
    { apply nelements_pos. eapply Forall_impl; [exact Hrest|]. cbn. intros; lia. }
    rewrite checked_mul_spec by lia.
    destruct (Z.ltb_spec (size * d) (2 ^ 64)) as [Hfit | Hover]; cbn [abind].
    + rewrite IH by (try exact Hrest; nia).
      replace (size * d * nelements ne) with (size * (d * nelements ne)) by ring.
      reflexivity.
    + replace (size * (d * nelements ne) <? 2 ^ 64) with false
        by (symmetry; apply Z.ltb_ge; nia).
      reflexivity.
Qed.

(** The size computation on a well-formed type table. *)
Lemma calc_tensor_size_spec ne type :
  0 < ggml_type_size type < 2 ^ 64 ->
  0 < ggml_blck_size type ->
  Forall (fun d => 0 <= d < 2 ^ 32) ne ->
  (forall s, llama_calc_tensor_size ne type = Fine s ->
     s = ggml_type_size type * nelements ne / ggml_blck_size type
     /\ ggml_type_size type * nelements ne < 2 ^ 64)
  /\ (Forall (fun d => 0 < d) ne ->
      llama_calc_tensor_size ne type
      = if ggml_type_size type * nelements ne <? 2 ^ 64
        then Fine (ggml_type_size type * nelements ne / ggml_blck_size type)
        else Throw Overflow).
Proof.
  intros Hts Hbs Hne. unfold llama_calc_tensor_size.
  replace (ggml_blck_size type =? 0) with false by (symmetry; apply Z.eqb_neq; lia).
  split.
  - intros s Hs. abind_inv Hs. injection Hs as <-.
    apply calc_tensor_size_loop_sound in E; [|lia | exact Hne].
    destruct E as [-> Hr]. split; [reflexivity | lia].
  - intros Hpos.
    rewrite calc_tensor_size_loop_exact; [|lia|].
    + destruct (ggml_type_size type * nelements ne <? 2 ^ 64); reflexivity.
    + rewrite Forall_forall in Hne, Hpos |- *. intros d Hd.
      specialize (Hne d Hd). specialize (Hpos d Hd). lia.
Qed.

End CheckedArith.

(** X10.  [checked_mul] never hands back a wrapped product: on operands
    of the unsigned type it returns the exact product when that fits
    the type and throws the overflow message otherwise ([uint32_t] for
    shard counts, [size_t] for byte sizes). *)
Theorem checked_mul_exact (a b : Z) :
  (0 <= a < 2 ^ 32 -> 0 <= b < 2 ^ 32 ->
   checked_mul 32 a b = if a * b <? 2 ^ 32 then Fine (a * b) else Throw Overflow)
  /\ (0 <= a < 2 ^ 64 -> 0 <= b < 2 ^ 64 ->
      checked_mul 64 a b = if a * b <? 2 ^ 64 then Fine (a * b) else Throw Overflow).
Proof.
  split; intros Ha Hb; apply checked_mul_spec; lia.
Qed.

Lemma checked_mul_exact_witness :
  checked_mul 32 65536 65535 = Fine 4294901760
  /\ checked_mul 32 65536 65536 = Throw Overflow
  /\ checked_mul 64 4294967296 4294967296 = Throw Overflow.
Proof.
  pose proof (checked_mul_exact 65536 65535) as [H1 _].
  pose proof (checked_mul_exact 65536 65536) as [H2 _].
  pose proof (checked_mul_exact 4294967296 4294967296) as [_ H3].
  split; [apply H1; lia|]. split; [apply H2; lia | apply H3; lia].
Defined.

(** X11.  The byte size of a tensor is computed without wrap-around:
    when [llama_calc_tensor_size] returns, the result is the type's
    block size in bytes times the number of elements, divided by the
    elements per block, and that product fits [size_t]; for a shape
    without a zero dimension it throws the overflow message exactly
    when the product does not fit. *)
Theorem tensor_size_exact `{GgmlTypes} (ne : list Z) (type : ggml_type) :
  0 < ggml_type_size type < 2 ^ 64 ->
  0 < ggml_blck_size type ->
  Forall (fun d => 0 <= d < 2 ^ 32) ne ->
  (forall s, llama_calc_tensor_size ne type = Fine s ->
     s = ggml_type_size type * nelements ne / ggml_blck_size type
     /\ ggml_type_size type * nelements ne < 2 ^ 64)
  /\ (Forall (fun d => 0 < d) ne ->
      llama_calc_tensor_size ne type
      = if ggml_type_size type * nelements ne <? 2 ^ 64
        then Fine (ggml_type_size type * nelements ne / ggml_blck_size type)
        else Throw Overflow).
Proof.
  apply calc_tensor_size_spec.
Qed.

Lemma tensor_size_exact_witness :
  @llama_calc_tensor_size ggml_types [4096; 32000] GGML_TYPE_Q4_0 = Fine 81920000
  /\ @llama_calc_tensor_size ggml_types [4294967295; 4294967295] GGML_TYPE_F32
     = Throw Overflow.
Proof.
  pose proof (@tensor_size_exact ggml_types [4096; 32000] GGML_TYPE_Q4_0) as [_ H1].
  { cbn. lia. } { cbn. lia. } { repeat constructor; lia. }
  pose proof (@tensor_size_exact ggml_types [4294967295; 4294967295] GGML_TYPE_F32)
    as [_ H2].
  { cbn. lia. } { cbn. lia. } { repeat constructor; lia. }
  split.
  - rewrite H1 by (repeat constructor; lia). reflexivity.
  - rewrite H2 by (repeat constructor; lia). reflexivity.
Defined.

(** ** Reconciling the shards of a tensor *)

Section ShardFacts.

#[local] Arguments checked_mul : simpl never.

Lemma ggml_type_eqb_eq a b : LoadTensor.ggml_type_eqb a b = true <-> a = b.
Proof.
  destruct a, b; cbn; split; congruence.
Qed.

Lemma ne_eqb_eq a : forall b, LoadTensor.ne_eqb a b = true <-> a = b.
Proof.
  induction a as [|x a IH]; intros [|y b]; cbn; split; try congruence.
  - intros Hb. apply andb_true_iff in Hb. destruct Hb as [Hx Hb].
    apply Z.eqb_eq in Hx. apply IH in Hb. congruence.
  - intros [= -> ->]. rewrite Z.eqb_refl. cbn. apply IH. reflexivity.
Qed.

Lemma vec_checked_at_Fine {A : Type} (v : list A) i x :
  vec_checked_at v i = Fine x -> vec_at v i = Ok x.
Proof.
  unfold vec_checked_at. destruct (vec_at v i); [intros [= ->]; reflexivity | discriminate].
Qed.

Lemma lift_Fine {A : Type} (r : result A) x : lift r = Fine x -> r = Ok x.
Proof.
  destruct r; cbn; [intros [= ->]; reflexivity | discriminate].
Qed.

Context `{GgmlTypes}.

Lemma calc_all_spec (x x' : LoadTensor.t) :
  Forall (fun sh => Forall (fun d => 0 <= d < 2 ^ 32) (llama_load_tensor_shard.ne sh))
    (LoadTensor.shards x) ->
  LoadTensor.calc_all x = Fine x' ->
  let n := Z.of_nat (length (LoadTensor.shards x)) in
  LoadTensor.shards x' = LoadTensor.shards x
  /\ LoadTensor.name x' = LoadTensor.name x
  /\ LoadTensor.ggml_tensor x' = LoadTensor.ggml_tensor x
  /\ llama_calc_tensor_size (LoadTensor.ne x') (LoadTensor.type x')
     = Fine (LoadTensor.size x')
  /\ exists first,
       LoadTensor.shards x !! 0%nat = Some first
       /\ Forall (fun sh =>
                    llama_load_tensor_shard.type sh = LoadTensor.type x'
                    /\ llama_load_tensor_shard.ne sh = llama_load_tensor_shard.ne first)
            (LoadTensor.shards x)
       /\ match LoadTensor.split_type x' with
          | SPLIT_NONE =>
              LoadTensor.ne x' = llama_load_tensor_shard.ne first
              /\ (length (llama_load_tensor_shard.ne first) = 1%nat \/ n = 1)
          | SPLIT_BY_COLUMNS =>
              1 < n
              /\ exists a b rest,
                   llama_load_tensor_shard.ne first = a :: b :: rest
                   /\ LoadTensor.ne x' = [a * n; b]
                   /\ a * n < 2 ^ 32
          | SPLIT_BY_ROWS =>
              1 < n
              /\ exists a b rest,
                   llama_load_tensor_shard.ne first = a :: b :: rest
                   /\ LoadTensor.ne x' = [a; b * n]
                   /\ b * n < 2 ^ 32
          end.
Proof.
  intros Hdims Hall n. unfold LoadTensor.calc_all in Hall. abind_inv Hall.
  (* calc_type *)
  unfold LoadTensor.calc_type in E. abind_inv E.
  apply vec_checked_at_Fine in E2. rename a2 into first.
  destruct (forallb _ (LoadTensor.shards x)) eqn:Htypes; [|discriminate].
  injection E as <-.
  (* calc_split_type *)
  unfold LoadTensor.calc_split_type in E0.
  cbn [LoadTensor.shards LoadTensor.set_type LoadTensor.name] in E0.
  abind_inv E0. apply vec_checked_at_Fine in E. rewrite E2 in E. injection E as <-.
  (* calc_ne *)
  unfold LoadTensor.calc_ne in E1. abind_inv E1.
  assert (Hsh0 : LoadTensor.shards a0 = LoadTensor.shards x
                 /\ LoadTensor.name a0 = LoadTensor.name x
                 /\ LoadTensor.type a0 = llama_load_tensor_shard.type first
                 /\ LoadTensor.ggml_tensor a0 = LoadTensor.ggml_tensor x).
  { destruct (_ || _) in E0; [|destruct (_ || _) in E0]; injection E0 as <-;
      repeat split; reflexivity. }
  destruct Hsh0 as (Hs0 & Hn0 & Ht0 & Hg0).
  rewrite Hs0 in E, E1. apply vec_checked_at_Fine in E. rewrite E2 in E. injection E as <-.
  destruct (forallb _ (LoadTensor.shards x)) eqn:Hshapes in E1; cbn [negb] in E1;
    [|discriminate].
  abind_inv E1. apply lift_Fine in E.
  unfold LLAMA_ASSERT in E.
  destruct (Z.of_nat (length (LoadTensor.shards x)) <=? UINT32_MAX) eqn:Hcount;
    [|discriminate].
  apply Z.leb_le in Hcount. unfold UINT32_MAX in Hcount. clear E.
  unfold wrap in E1. rewrite Z.mod_small in E1 by lia. fold n in E1, Hcount.
  (* calc_size *)
  unfold LoadTensor.calc_size in Hall. abind_inv Hall. injection Hall as <-.
  cbn [LoadTensor.shards LoadTensor.name LoadTensor.ggml_tensor LoadTensor.set_size
         LoadTensor.ne LoadTensor.type LoadTensor.size LoadTensor.split_type].
  assert (Hfirst : LoadTensor.shards x !! 0%nat = Some first).
  { apply vec_at_Ok in E2. destruct E2 as [_ E2]. exact E2. }
  assert (Hfd : Forall (fun d => 0 <= d < 2 ^ 32) (llama_load_tensor_shard.ne first)).
  { rewrite Forall_forall in Hdims. apply Hdims.
    eapply list_elem_of_lookup_2; exact Hfirst. }
  assert (Hagree : Forall (fun sh =>
            llama_load_tensor_shard.type sh = llama_load_tensor_shard.type first
            /\ llama_load_tensor_shard.ne sh = llama_load_tensor_shard.ne first)
            (LoadTensor.shards x)).
  { rewrite forallb_forall in Htypes, Hshapes.
    apply Forall_forall. intros sh Hsh. apply list_elem_of_In in Hsh.
    split; [apply ggml_type_eqb_eq, Htypes | apply ne_eqb_eq, Hshapes]; exact Hsh. }
  assert (Hsplit : LoadTensor.split_type a0 = SPLIT_NONE
                   /\ (length (llama_load_tensor_shard.ne first) = 1%nat \/ n = 1)
                   \/ LoadTensor.split_type a0 <> SPLIT_NONE /\ 1 < n).
  { destruct (_ || _) eqn:Hnone in E0.
    - left. injection E0 as <-. split; [reflexivity|].
      apply orb_true_iff in Hnone. destruct Hnone as [Hn1 | Hn1]; apply Z.eqb_eq in Hn1.
      + left. lia.
      + right. exact Hn1.
    - right. apply orb_false_iff in Hnone. destruct Hnone as [_ Hn1].
      apply Z.eqb_neq in Hn1.
      assert (0 < n) by (subst n; destruct (LoadTensor.shards x); [discriminate | cbn; lia]).
      split; [|lia].
      destruct (_ || _) in E0; injection E0 as <-; discriminate. }
  rename E into Hsize.
  destruct (LoadTensor.split_type a0) eqn:Hst.
  - injection E1 as <-. cbn in *. rewrite ?Hs0, ?Hn0, ?Hg0, ?Ht0 in *.
    repeat split; try assumption.
    exists first. split; [exact Hfirst|]. split; [exact Hagree|].
    rewrite Hst. destruct Hsplit as [[_ Hn1] | [Hc _]]; [|congruence].
    split; [reflexivity | exact Hn1].
  - destruct Hsplit as [[Hc _] | [_ Hn1]]; [discriminate|].
    destruct (llama_load_tensor_shard.ne first) as [|d0 [|d1 rest]] eqn:Hne.
    { discriminate E1. }
    { change (vec_at [d0] 0) with (Ok d0) in E1. cbn [lift abind] in E1.
      destruct (checked_mul 32 d0 n) in E1; discriminate E1. }
    change (vec_at (d0 :: d1 :: rest) 0) with (Ok d0) in E1.
    change (vec_at (d0 :: d1 :: rest) 1) with (Ok d1) in E1.
    cbn [lift abind] in E1.
    inversion Hfd as [|? ? Ha Hfd']; subst.
    rewrite checked_mul_spec in E1 by lia.
    destruct (Z.ltb_spec (d0 * n) (2 ^ 32)) as [Hfit|]; [|discriminate].
    cbn [abind] in E1. injection E1 as <-.
    cbn in *. rewrite ?Hs0, ?Hn0, ?Hg0, ?Ht0 in *.
    repeat split; try assumption.
    exists first. split; [exact Hfirst|]. split; [rewrite Hne; exact Hagree|].
    rewrite Hst. split; [exact Hn1|]. exists d0, d1, rest. rewrite Hne.
    repeat split. exact Hfit.
  - destruct Hsplit as [[Hc _] | [_ Hn1]]; [discriminate|].
    destruct (llama_load_tensor_shard.ne first) as [|d0 [|d1 rest]] eqn:Hne.
    { discriminate E1. }
    { discriminate E1. }
    change (vec_at (d0 :: d1 :: rest) 0) with (Ok d0) in E1.
    change (vec_at (d0 :: d1 :: rest) 1) with (Ok d1) in E1.
    cbn [lift abind] in E1.
    inversion Hfd as [|? ? Ha Hfd']; subst. inversion Hfd' as [|? ? Hb Hfd'']; subst.
    rewrite checked_mul_spec in E1 by lia.
    destruct (Z.ltb_spec (d1 * n) (2 ^ 32)) as [Hfit|]; [|discriminate].
    cbn [abind] in E1. injection E1 as <-.
    cbn in *. rewrite ?Hs0, ?Hn0, ?Hg0, ?Ht0 in *.
    repeat split; try assumption.
    exists first. split; [exact Hfirst|]. split; [rewrite Hne; exact Hagree|].
    rewrite Hst. split; [exact Hn1|]. exists d0, d1, rest. rewrite Hne.
    repeat split. exact Hfit.
Qed.

End ShardFacts.

(** X12.  What [calc_all] makes of the shards of a tensor.  It fails
    unless all shards have the type and the shape of the first one.
    On success the tensor has that type; a one-dimensional or
    single-file tensor keeps the shard's shape; otherwise the tensor
    is two-dimensional, with the first dimension ([SPLIT_BY_COLUMNS])
    or the second ([SPLIT_BY_ROWS]) multiplied by the number of
    shards, without wrap-around; and the size is the one
    [llama_calc_tensor_size] gives for the reconciled shape. *)
Theorem shards_reconciled `{GgmlTypes} (x x' : LoadTensor.t) :
  Forall (fun sh => Forall (fun d => 0 <= d < 2 ^ 32) (llama_load_tensor_shard.ne sh))
    (LoadTensor.shards x) ->
  LoadTensor.calc_all x = Fine x' ->
  let n := Z.of_nat (length (LoadTensor.shards x)) in
  LoadTensor.shards x' = LoadTensor.shards x
  /\ LoadTensor.name x' = LoadTensor.name x
  /\ LoadTensor.ggml_tensor x' = LoadTensor.ggml_tensor x
  /\ llama_calc_tensor_size (LoadTensor.ne x') (LoadTensor.type x')
     = Fine (LoadTensor.size x')
  /\ exists first,
       LoadTensor.shards x !! 0%nat = Some first
       /\ Forall (fun sh =>
                    llama_load_tensor_shard.type sh = LoadTensor.type x'
                    /\ llama_load_tensor_shard.ne sh = llama_load_tensor_shard.ne first)
            (LoadTensor.shards x)
       /\ match LoadTensor.split_type x' with
          | SPLIT_NONE =>
              LoadTensor.ne x' = llama_load_tensor_shard.ne first
              /\ (length (llama_load_tensor_shard.ne first) = 1%nat \/ n = 1)
          | SPLIT_BY_COLUMNS =>
              1 < n
              /\ exists a b rest,
                   llama_load_tensor_shard.ne first = a :: b :: rest
                   /\ LoadTensor.ne x' = [a * n; b]
                   /\ a * n < 2 ^ 32
          | SPLIT_BY_ROWS =>
              1 < n
              /\ exists a b rest,
                   llama_load_tensor_shard.ne first = a :: b :: rest
                   /\ LoadTensor.ne x' = [a; b * n]
                   /\ b * n < 2 ^ 32
          end.
Proof.
  apply calc_all_spec.
Qed.

Lemma shards_reconciled_witness :
  exists x',
    @LoadTensor.calc_all ggml_types
      (SampleShards.split_tensor "layers.0.attention.wo.weight") = Fine x'
    /\ LoadTensor.split_type x' = SPLIT_BY_COLUMNS
    /\ LoadTensor.ne x' = [128; 32]
    /\ LoadTensor.size x' = 8192
    /\ LoadTensor.type x' = GGML_TYPE_F16.
Proof.
  destruct (@LoadTensor.calc_all ggml_types
              (SampleShards.split_tensor "layers.0.attention.wo.weight"))
    as [x'|e] eqn:E; [|vm_compute in E; discriminate].
  assert (Hd : Forall
            (fun sh => Forall (fun d => 0 <= d < 2 ^ 32) (llama_load_tensor_shard.ne sh))
            (LoadTensor.shards (SampleShards.split_tensor "layers.0.attention.wo.weight"))).
  { cbn. rewrite !Forall_cons, !Forall_nil. cbn. rewrite !Forall_cons, !Forall_nil. lia. }
  pose proof (@shards_reconciled ggml_types _ x' Hd E)
    as (_ & _ & _ & _ & first & _ & _ & _).
  exists x'. split; [reflexivity|].
  vm_compute in E. injection E as <-. repeat split; reflexivity.
Defined.

(** ** Reading the vocabulary of a model file *)

Section ReadVocab.

Local Abbreviation tok_at v j := (llama_vocab.tok <$> (llama_vocab.id_to_token v !! j)).

(** The state of the two tables after [i] entries have been read:
    every key of [token_to_id] maps to the last of the first [i]
    entries that holds it, and every one of these entries is a key. *)
Lemma read_vocab_loop_spec (k : nat) : forall i ver (v v' : llama_vocab.t) f f',
  Z.of_nat i + Z.of_nat k = Z.of_nat (length (llama_vocab.id_to_token v)) ->
  Z.of_nat (length (llama_vocab.id_to_token v)) <= 2 ^ 31 ->
  (forall s id, llama_vocab.token_to_id v !! s = Some id ->
     0 <= id < Z.of_nat i
     /\ tok_at v (Z.to_nat id) = Some s
     /\ forall j, (Z.to_nat id < j < i)%nat -> tok_at v j <> Some s) ->
  (forall j s, (j < i)%nat -> tok_at v j = Some s ->
     exists id, llama_vocab.token_to_id v !! s = Some id) ->
  (ver = Loader.LLAMA_FILE_VERSION_GGML ->
   forall j ts, (j < i)%nat -> llama_vocab.id_to_token v !! j = Some ts ->
     llama_vocab.score ts = F32.zero) ->
  llama_file_loader.read_vocab_loop k (Z.of_nat i) ver v f = Ok (v', f') ->
  let n := (i + k)%nat in
  length (llama_vocab.id_to_token v') = n
  /\ (forall s id, llama_vocab.token_to_id v' !! s = Some id ->
        0 <= id < Z.of_nat n
        /\ tok_at v' (Z.to_nat id) = Some s
        /\ forall j, (Z.to_nat id < j < n)%nat -> tok_at v' j <> Some s)
  /\ (forall j s, (j < n)%nat -> tok_at v' j = Some s ->
        exists id, llama_vocab.token_to_id v' !! s = Some id)
  /\ (ver = Loader.LLAMA_FILE_VERSION_GGML ->
      forall j ts, (j < n)%nat -> llama_vocab.id_to_token v' !! j = Some ts ->
        llama_vocab.score ts = F32.zero).
Proof.
  induction k as [|k IH]; intros i ver v v' f f' Hlen Hmax Hkeys Htoks Hscores Hrun n.
  - cbn in Hrun. injection Hrun as <- <-. subst n. rewrite Nat.add_0_r.
    split; [lia|]. split; [exact Hkeys|]. split; [exact Htoks | exact Hscores].
  - cbn [llama_file_loader.read_vocab_loop] in Hrun. bind_inv Hrun.
    rename s into word. rename f0 into score.
    unfold vec_update in E2.
    destruct (vec_at (llama_vocab.id_to_token v) (Z.of_nat i)) as [old|e] eqn:Hold;
      [|discriminate].
    cbn [rbind] in E2. injection E2 as <-. rewrite Nat2Z.id in Hrun.
    apply vec_at_nat in Hold.
    assert (Hscore : ver = Loader.LLAMA_FILE_VERSION_GGML -> score = F32.zero).
    { intros ->. cbn in E1. injection E1 as <- _. reflexivity. }
    clear E1.
    replace (Z.of_nat i + 1) with (Z.of_nat (S i)) in Hrun by lia.
    apply IH in Hrun.
    + subst n. replace (i + S k)%nat with (S i + k)%nat by lia. exact Hrun.
    + cbn [llama_vocab.id_to_token]. rewrite length_insert. lia.
    + cbn [llama_vocab.id_to_token]. rewrite length_insert. exact Hmax.
    + cbn [llama_vocab.token_to_id llama_vocab.id_to_token].
      intros s id Hs.
      destruct (decide (word = s)) as [<- | Hne].
      * rewrite lookup_insert_eq in Hs. injection Hs as <-.
        rewrite to_int_small by lia. rewrite Nat2Z.id.
        split; [lia|]. split.
        -- rewrite list_lookup_insert_eq by (apply lookup_lt_Some in Hold; exact Hold).
           reflexivity.
        -- intros j Hj. lia.
      * rewrite lookup_insert_ne in Hs by exact Hne.
        destruct (Hkeys s id Hs) as (Hid & Htok & Hlast).
        split; [lia|]. split.
        -- rewrite list_lookup_insert_ne by lia. exact Htok.
        -- intros j Hj. destruct (decide (j = i)) as [-> | Hji].
           ++ rewrite list_lookup_insert_eq by (apply lookup_lt_Some in Hold; exact Hold).
              cbn. congruence.
           ++ rewrite list_lookup_insert_ne by lia. apply Hlast. lia.
    + cbn [llama_vocab.token_to_id llama_vocab.id_to_token].
      intros j s Hj Hs.
      destruct (decide (word = s)) as [<- | Hne].
      * eexists. apply lookup_insert_eq.
      * rewrite lookup_insert_ne by exact Hne.
        destruct (decide (j = i)) as [-> | Hji].
        -- rewrite list_lookup_insert_eq in Hs
             by (apply lookup_lt_Some in Hold; exact Hold).
           cbn in Hs. congruence.
        -- rewrite list_lookup_insert_ne in Hs by lia. apply (Htoks j s); [lia | exact Hs].
    + cbn [llama_vocab.id_to_token]. intros Hver j ts Hj Hts.
      destruct (decide (j = i)) as [-> | Hji].
      * rewrite list_lookup_insert_eq in Hts
          by (apply lookup_lt_Some in Hold; exact Hold).
        injection Hts as <-. cbn. apply Hscore. exact Hver.
      * rewrite list_lookup_insert_ne in Hts by lia.
        apply (Hscores Hver j ts); [lia | exact Hts].
Qed.

End ReadVocab.

(** X13.  What [read_vocab] leaves in the two tables of the vocabulary,
    for a file that announces at most [2^31] tokens: [id_to_token]
    has [n_vocab] entries; every key of [token_to_id] maps to an id
    below [n_vocab] under which [id_to_token] holds that very token,
    and to the last such id when the file repeats a token; every
    token of [id_to_token] is a key; and a file in the legacy format,
    which carries no scores, gives every token the score 0.  So the
    tables satisfy what the tokenizer needs of them. *)
Theorem read_vocab_tables (hparams : llama_hparams.t)
    (ver : Loader.llama_file_version) (f f' : llama_file.t) (v' : llama_vocab.t) :
  0 <= llama_hparams.n_vocab hparams <= 2 ^ 31 ->
  llama_file_loader.read_vocab hparams ver
    {| llama_vocab.token_to_id := ∅; llama_vocab.id_to_token := [] |} f = Ok (v', f') ->
  let n := llama_hparams.n_vocab hparams in
  Z.of_nat (length (llama_vocab.id_to_token v')) = n
  /\ Tokenizer.vocab_ok v'
  /\ (forall s id, llama_vocab.token_to_id v' !! s = Some id ->
        0 <= id < n
        /\ (exists ts, llama_vocab.id_to_token v' !! Z.to_nat id = Some ts
                       /\ llama_vocab.tok ts = s)
        /\ forall j ts, (Z.to_nat id < j)%nat ->
             llama_vocab.id_to_token v' !! j = Some ts -> llama_vocab.tok ts <> s)
  /\ (forall j ts, llama_vocab.id_to_token v' !! j = Some ts ->
        exists id, llama_vocab.token_to_id v' !! llama_vocab.tok ts = Some id
                   /\ Z.of_nat j <= id)
  /\ (ver = Loader.LLAMA_FILE_VERSION_GGML ->
      Forall (fun ts => llama_vocab.score ts = F32.zero) (llama_vocab.id_to_token v')).
Proof.
  intros Hn Hrun n. unfold llama_file_loader.read_vocab in Hrun.
  cbn [llama_vocab.id_to_token llama_vocab.token_to_id length] in Hrun.
  rewrite take_nil, app_nil_l, Nat.sub_0_r in Hrun.
  change 0 with (Z.of_nat 0) in Hrun.
  apply read_vocab_loop_spec in Hrun.
  - cbn [Nat.add] in Hrun. destruct Hrun as (Hlen & Hkeys & Htoks & Hscores).
    assert (Hl : Z.of_nat (length (llama_vocab.id_to_token v')) = n) by (subst n; lia).
    split; [exact Hl|].
    split.
    { split; [|lia]. intros s id Hs. destruct (Hkeys s id Hs) as (Hid & _). lia. }
    split.
    { intros s id Hs. destruct (Hkeys s id Hs) as (Hid & Htok & Hlast).
      split; [subst n; lia|]. split.
      - destruct (llama_vocab.id_to_token v' !! Z.to_nat id) as [ts|]; [|discriminate].
        exists ts. split; [reflexivity|]. cbn in Htok. congruence.
      - intros j ts Hj Hts Heq. apply (Hlast j).
        + apply lookup_lt_Some in Hts. lia.
        + rewrite Hts. cbn. congruence. }
    split.
    { intros j ts Hts. pose proof (lookup_lt_Some _ _ _ Hts) as Hj.
      destruct (Htoks j (llama_vocab.tok ts)) as [id Hid]; [lia | rewrite Hts; reflexivity |].
      exists id. split; [exact Hid|].
      destruct (Hkeys _ _ Hid) as (Hr & _ & Hlast).
      destruct (Z_le_gt_dec (Z.of_nat j) id) as [Hle | Hgt]; [exact Hle|].
      exfalso. apply (Hlast j); [lia | rewrite Hts; reflexivity]. }
    intros Hver. apply Forall_forall. intros ts Hts.
    apply list_elem_of_lookup_1 in Hts. destruct Hts as [j Hj].
    apply (Hscores Hver j ts); [apply lookup_lt_Some in Hj; lia | exact Hj].
  - cbn [llama_vocab.id_to_token]. rewrite length_replicate. lia.
  - cbn [llama_vocab.id_to_token]. rewrite length_replicate. lia.
  - cbn [llama_vocab.token_to_id]. intros s id Hs. rewrite lookup_empty in Hs. discriminate.
  - intros j s Hj. lia.
  - intros _ j ts Hj. lia.
Qed.

Lemma read_vocab_tables_witness :
  let hparams :=
    {| llama_hparams.n_vocab := 3; llama_hparams.n_ctx := 512;
       llama_hparams.n_embd := 64; llama_hparams.n_mult := 32;
       llama_hparams.n_head := 2; llama_hparams.n_layer := 1;
       llama_hparams.n_rot := 32; llama_hparams.ftype := 1 |} in
  exists v' f',
    llama_file_loader.read_vocab hparams Loader.LLAMA_FILE_VERSION_GGML
      {| llama_vocab.token_to_id := ∅; llama_vocab.id_to_token := [] |}
      (llama_file.open SampleFile.legacy_vocab_bytes) = Ok (v', f')
    /\ llama_vocab.id_to_token v' = [Example.ts "a" 0; Example.ts "ab" 0; Example.ts "a" 0]
    /\ llama_vocab.token_to_id v' !! "a"%string = Some 2
    /\ Tokenizer.vocab_ok v'.
Proof.
  intros hparams.
  destruct (llama_file_loader.read_vocab hparams Loader.LLAMA_FILE_VERSION_GGML
              {| llama_vocab.token_to_id := ∅; llama_vocab.id_to_token := [] |}
              (llama_file.open SampleFile.legacy_vocab_bytes))
    as [[v' f']|e] eqn:E; [|vm_compute in E; discriminate].
  assert (Hn : 0 <= llama_hparams.n_vocab hparams <= 2 ^ 31) by (cbn; lia).
  pose proof (read_vocab_tables hparams _ _ _ _ Hn E) as (_ & Hok & _).
  exists v', f'. split; [reflexivity|].
  split; [vm_compute in E; injection E as <- _; reflexivity|].
  split; [vm_compute in E; injection E as <- _; vm_compute; reflexivity|].
  exact Hok.
Defined.

(** ** Files: writing, then reading *)

Section FileFacts.

Lemma open_at_split content : llama_file.open content = Layout.at_split [] content.
Proof. reflexivity. Qed.

Lemma write_raw_at_end behind bs :
  llama_file.write_raw bs (Layout.at_split behind [])
  = Layout.at_split (behind ++ bs) [].
Proof.
  unfold Layout.at_split, llama_file.write_raw. cbn [llama_file.bytes llama_file.pos].
  rewrite !app_nil_r.
  destruct bs as [|b bs].
  - rewrite app_nil_r. reflexivity.
  - rewrite Nat2Z.id, Nat.sub_diag. cbn [replicate]. rewrite app_nil_r.
    rewrite take_ge by lia. rewrite drop_ge by lia. rewrite app_nil_r.
    f_equal. rewrite length_app. lia.
Qed.

Lemma write_u32_at_end behind v :
  llama_file.write_u32 v (Layout.at_split behind [])
  = Layout.at_split (behind ++ le_encode 4 v) [].
Proof. apply write_raw_at_end. Qed.

Lemma at_split_shift behind bs ahead :
  llama_file.seek_cur (Z.of_nat (length bs)) (Layout.at_split behind (bs ++ ahead))
  = Layout.at_split (behind ++ bs) ahead.
Proof.
  unfold Layout.at_split, llama_file.seek_cur. cbn [llama_file.bytes llama_file.pos].
  rewrite <- app_assoc. f_equal. rewrite length_app. lia.
Qed.

Lemma read_raw_at_split behind bs ahead n :
  n = Z.of_nat (length bs) ->
  llama_file.read_raw n (Layout.at_split behind (bs ++ ahead))
  = Ok (bs, Layout.at_split (behind ++ bs) ahead).
Proof.
  intros ->. unfold llama_file.read_raw.
  destruct (Z.eqb_spec (Z.of_nat (length bs)) 0) as [E0 | NE].
  - destruct bs; [|cbn in E0; lia]. cbn [app]. rewrite app_nil_r. reflexivity.
  - rewrite at_split_shift.
    unfold Layout.at_split, llama_file.size, llama_file.ahead.
    cbn [llama_file.bytes llama_file.pos].
    rewrite !Nat2Z.id, drop_app_length, take_app_length.
    replace ((0 <=? Z.of_nat (length behind)) && (0 <=? Z.of_nat (length bs))
             && (Z.of_nat (length behind) + Z.of_nat (length bs)
                 <=? Z.of_nat (length (behind ++ bs ++ ahead))))
      with true
      by (symmetry; rewrite !andb_true_iff, !length_app;
          repeat split; apply Z.leb_le; lia).
    reflexivity.
Qed.

Lemma read_u32_at_split behind v ahead :
  0 <= v < 2 ^ 32 ->
  llama_file.read_u32 (Layout.at_split behind (le_encode 4 v ++ ahead))
  = Ok (v, Layout.at_split (behind ++ le_encode 4 v) ahead).
Proof.
  intros Hv. unfold llama_file.read_u32.
  rewrite read_raw_at_split by (rewrite length_le_encode; reflexivity).
  cbn [rbind]. rewrite le_decode_encode. change (256 ^ Z.of_nat 4) with (2 ^ 32).
  rewrite Z.mod_small by lia. reflexivity.
Qed.

Lemma read_string_at_split behind s ahead n :
  n = Z.of_nat (String.length s) ->
  llama_file.read_string n (Layout.at_split behind (bytes_of_string s ++ ahead))
  = Ok (s, Layout.at_split (behind ++ bytes_of_string s) ahead).
Proof.
  intros ->. unfold llama_file.read_string.
  rewrite read_raw_at_split by (rewrite length_bytes_of_string; reflexivity).
  cbn [rbind]. rewrite string_of_bytes_of_string. reflexivity.
Qed.

End FileFacts.

(** ** The header: saver against loader *)

Section HeaderFacts.

Lemma write_magic_at_end behind :
  llama_file_saver.write_magic (Layout.at_split behind [])
  = Layout.at_split (behind ++ Layout.magic_bytes) [].
Proof.
  unfold llama_file_saver.write_magic. rewrite !write_u32_at_end, <- app_assoc.
  reflexivity.
Qed.

Lemma write_hparams_at_end hparams ftype behind :
  llama_file_saver.write_hparams hparams ftype (Layout.at_split behind [])
  = Layout.at_split (behind ++ Layout.hparams_bytes hparams ftype) [].
Proof.
  unfold llama_file_saver.write_hparams, Layout.hparams_bytes.
  rewrite !write_u32_at_end, <- !app_assoc. reflexivity.
Qed.

Lemma write_vocab_loop_at_end (vocab : llama_vocab.t) (k : nat) : forall (i : nat) behind,
  (i + k <= length (llama_vocab.id_to_token vocab))%nat ->
  llama_file_saver.write_vocab_loop k (Z.of_nat i) vocab (Layout.at_split behind [])
  = Fine (Layout.at_split
            (behind ++ Layout.vocab_bytes
                         (take k (drop i (llama_vocab.id_to_token vocab)))) []).
Proof.
  induction k as [|k IH]; intros i behind Hik.
  - cbn. rewrite app_nil_r. reflexivity.
  - cbn [llama_file_saver.write_vocab_loop].
    destruct (llama_vocab.id_to_token vocab !! i) as [ts|] eqn:Hts;
      [|apply lookup_ge_None in Hts; lia].
    unfold vec_checked_at. rewrite (proj2 (vec_at_nat _ _ _) Hts). cbn [abind].
    rewrite write_u32_at_end, !write_raw_at_end.
    replace (Z.of_nat i + 1) with (Z.of_nat (S i)) by lia.
    rewrite IH by lia.
    rewrite (drop_S _ _ _ Hts). cbn [take Layout.vocab_bytes flat_map].
    unfold Layout.entry_bytes. rewrite <- !app_assoc. reflexivity.
Qed.

Lemma write_vocab_loop_short (vocab : llama_vocab.t) (k : nat) : forall (i : nat) f,
  (i <= length (llama_vocab.id_to_token vocab))%nat ->
  (length (llama_vocab.id_to_token vocab) < i + k)%nat ->
  llama_file_saver.write_vocab_loop k (Z.of_nat i) vocab f = Throw OutOfRange.
Proof.
  induction k as [|k IH]; intros i f Hi Hik; [lia|].
  cbn [llama_file_saver.write_vocab_loop].
  destruct (llama_vocab.id_to_token vocab !! i) as [ts|] eqn:Hts.
  - unfold vec_checked_at. rewrite (proj2 (vec_at_nat _ _ _) Hts). cbn [abind].
    replace (Z.of_nat i + 1) with (Z.of_nat (S i)) by lia.
    apply lookup_lt_Some in Hts. apply IH; lia.
  - unfold vec_checked_at, vec_at.
    replace (0 <=? Z.of_nat i) with true by (symmetry; apply Z.leb_le; lia).
    rewrite Nat2Z.id, Hts. reflexivity.
Qed.

Lemma read_magic_ggjt post :
  llama_file_loader.read_magic (llama_file.open (Layout.magic_bytes ++ post))
  = Ok (Loader.LLAMA_FILE_VERSION_GGJT_V1, Layout.at_split Layout.magic_bytes post).
Proof.
  unfold llama_file_loader.read_magic, llama_file.ahead, llama_file.open.
  cbn [llama_file.pos llama_file.bytes]. change (Z.to_nat 0) with 0%nat. rewrite drop_0.
  change (Loader.read_magic (Layout.magic_bytes ++ post))
    with (Ok (A := Loader.llama_file_version * list byte)
            (Loader.LLAMA_FILE_VERSION_GGJT_V1, post)).
  cbn [rbind]. unfold llama_file.seek_set, llama_file.size, Layout.at_split.
  cbn [llama_file.bytes]. f_equal. f_equal. f_equal.
  rewrite length_app. lia.
Qed.

Lemma read_hparams_at_split dflt hparams ftype behind post :
  Layout.hparams_u32 hparams -> 0 <= ftype < 2 ^ 32 ->
  llama_file_loader.read_hparams dflt
    (Layout.at_split behind (Layout.hparams_bytes hparams ftype ++ post))
  = Ok ({| llama_hparams.n_vocab := llama_hparams.n_vocab hparams;
           llama_hparams.n_ctx := llama_hparams.n_ctx dflt;
           llama_hparams.n_embd := llama_hparams.n_embd hparams;
           llama_hparams.n_mult := llama_hparams.n_mult hparams;
           llama_hparams.n_head := llama_hparams.n_head hparams;
           llama_hparams.n_layer := llama_hparams.n_layer hparams;
           llama_hparams.n_rot := llama_hparams.n_rot hparams;
           llama_hparams.ftype := ftype |},
        Layout.at_split (behind ++ Layout.hparams_bytes hparams ftype) post).
Proof.
  intros (H1 & H2 & H3 & H4 & H5 & H6) H7.
  unfold llama_file_loader.read_hparams, Layout.hparams_bytes.
  rewrite <- !app_assoc.
  do 7 (rewrite read_u32_at_split by assumption; cbn [rbind]).
  rewrite <- !app_assoc. reflexivity.
Qed.

Lemma read_vocab_loop_at_split_ids ver entries :
  forall (i : nat) (v : llama_vocab.t) behind post,
  llama_file_loader.version_rank ver >= 1 ->
  (i + length entries <= length (llama_vocab.id_to_token v))%nat ->
  Forall Layout.entry_storable entries ->
  llama_file_loader.read_vocab_loop (length entries) (Z.of_nat i) ver v
    (Layout.at_split behind (Layout.vocab_bytes entries ++ post))
  = Ok ({| llama_vocab.token_to_id :=
             Layout.vocab_ids (Z.of_nat i) entries (llama_vocab.token_to_id v);
           llama_vocab.id_to_token :=
             take i (llama_vocab.id_to_token v) ++ entries
             ++ drop (i + length entries) (llama_vocab.id_to_token v) |},
        Layout.at_split (behind ++ Layout.vocab_bytes entries) post).
Proof.
  induction entries as [|ts entries IH]; intros i v behind post Hver Hlen Hall.
  - cbn. rewrite app_nil_r, Nat.add_0_r, take_drop.
    destruct v; reflexivity.
  - inversion Hall as [|? ? [Htok Hscore] Hrest]; subst.
    cbn [length] in Hlen.
    cbn [length llama_file_loader.read_vocab_loop Layout.vocab_bytes flat_map].
    fold (Layout.vocab_bytes entries). unfold Layout.entry_bytes.
    rewrite <- !app_assoc.
    rewrite read_u32_at_split by lia. cbn [rbind].
    rewrite read_string_at_split by reflexivity. cbn [rbind].
    replace (llama_file_loader.version_rank ver
             >=? llama_file_loader.version_rank Loader.LLAMA_FILE_VERSION_GGMF_V1)
      with true by (symmetry; rewrite Z.geb_leb; apply Z.leb_le; cbn; lia).
    rewrite read_raw_at_split by (unfold f32_bytes; rewrite length_le_encode; reflexivity).
    cbn [rbind]. rewrite f32_bytes_round by exact Hscore.
    destruct (llama_vocab.id_to_token v !! i) as [old|] eqn:Hold;
      [|apply lookup_ge_None in Hold; lia].
    rewrite (vec_update_Ok _ _ _ old) by (apply vec_at_nat; exact Hold).
    cbn [rbind]. rewrite Nat2Z.id.
    replace (Z.of_nat i + 1) with (Z.of_nat (S i)) by lia.
    rewrite (IH (S i)
                {| llama_vocab.token_to_id :=
                     <[llama_vocab.tok ts := to_int (Z.of_nat i)]>
                       (llama_vocab.token_to_id v);
                   llama_vocab.id_to_token :=
                     <[i := {| llama_vocab.tok := llama_vocab.tok ts;
                               llama_vocab.score := llama_vocab.score ts |}]>
                       (llama_vocab.id_to_token v) |}
                ((((behind
                    ++ le_encode 4 (Z.of_nat (String.length (llama_vocab.tok ts))))
                   ++ bytes_of_string (llama_vocab.tok ts))
                  ++ f32_bytes (llama_vocab.score ts))) post Hver);
      [|cbn [llama_vocab.id_to_token]; rewrite length_insert; lia|exact Hrest].
    cbn [llama_vocab.id_to_token llama_vocab.token_to_id Layout.vocab_ids].
    replace (Z.of_nat (S i)) with (Z.of_nat i + 1) by lia.
    f_equal. f_equal.
    + f_equal.
      rewrite take_insert_lt by lia.
      rewrite (take_S_r _ _ old Hold), insert_app_r_alt by (rewrite length_take; lia).
      rewrite length_take, Nat.min_l by lia. rewrite Nat.sub_diag. cbn [insert list_insert].
      rewrite <- app_assoc. cbn [app].
      rewrite drop_insert_lt by lia.
      replace (S i + length entries)%nat with (i + S (length entries))%nat by lia.
      destruct ts; reflexivity.
    + rewrite <- !app_assoc. reflexivity.
Qed.

Lemma read_vocab_loop_at_split ver entries : forall (i : nat) (v : llama_vocab.t) behind post,
  llama_file_loader.version_rank ver >= 1 ->
  (i + length entries <= length (llama_vocab.id_to_token v))%nat ->
  Forall Layout.entry_storable entries ->
  exists m,
    llama_file_loader.read_vocab_loop (length entries) (Z.of_nat i) ver v
      (Layout.at_split behind (Layout.vocab_bytes entries ++ post))
    = Ok ({| llama_vocab.token_to_id := m;
             llama_vocab.id_to_token :=
               take i (llama_vocab.id_to_token v) ++ entries
               ++ drop (i + length entries) (llama_vocab.id_to_token v) |},
          Layout.at_split (behind ++ Layout.vocab_bytes entries) post).
Proof.
  intros i v behind post Hver Hlen Hall. eexists.
  apply read_vocab_loop_at_split_ids; assumption.
Qed.

End HeaderFacts.

Section HeaderRoundTrip.
Context `{GgmlTypes}.

Lemma saver_create_spec (ld : llama_file_loader.t) (new_ftype : Z) :
  let hp := llama_file_loader.hparams ld in
  let entries := llama_vocab.id_to_token (llama_file_loader.vocab ld) in
  let n := Z.to_nat (llama_hparams.n_vocab hp) in
  (n <= length entries)%nat ->
  llama_file_saver.create ld new_ftype
  = Fine (Layout.at_split
            (Layout.magic_bytes ++ Layout.hparams_bytes hp new_ftype
             ++ Layout.vocab_bytes (take n entries)) []).
Proof.
  intros hp entries n Hn.
  unfold llama_file_saver.create, llama_file_saver.write_vocab.
  rewrite open_at_split, write_magic_at_end, write_hparams_at_end.
  change 0 with (Z.of_nat 0).
  rewrite write_vocab_loop_at_end by (fold hp entries n; lia).
  rewrite drop_0, <- !app_assoc. reflexivity.
Qed.

Lemma loader_create_header (hp : llama_hparams.t) (ftype : Z)
    (entries : list llama_vocab.token_score) tensors_map :
  Layout.hparams_u32 hp -> 0 <= ftype < 2 ^ 32 ->
  length entries = Z.to_nat (llama_hparams.n_vocab hp) ->
  Forall Layout.entry_storable entries ->
  let content :=
    Layout.magic_bytes ++ Layout.hparams_bytes hp ftype ++ Layout.vocab_bytes entries in
  exists m,
    llama_file_loader.create content 0 tensors_map
    = Fine ({| llama_file_loader.file := Layout.at_split content [];
               llama_file_loader.file_version := Loader.LLAMA_FILE_VERSION_GGJT_V1;
               llama_file_loader.hparams :=
                 {| llama_hparams.n_vocab := llama_hparams.n_vocab hp;
                    llama_hparams.n_ctx := 512;
                    llama_hparams.n_embd := llama_hparams.n_embd hp;
                    llama_hparams.n_mult := llama_hparams.n_mult hp;
                    llama_hparams.n_head := llama_hparams.n_head hp;
                    llama_hparams.n_layer := llama_hparams.n_layer hp;
                    llama_hparams.n_rot := llama_hparams.n_rot hp;
                    llama_hparams.ftype := ftype |};
               llama_file_loader.vocab :=
                 {| llama_vocab.token_to_id := m;
                    llama_vocab.id_to_token := entries |} |},
            tensors_map).
Proof.
  intros Hhp Hft Hlen Hall content.
  unfold llama_file_loader.create. subst content.
  rewrite read_magic_ggjt. cbn [lift abind].
  rewrite read_hparams_at_split by assumption. cbn [lift abind].
  rewrite <- (app_nil_r (Layout.vocab_bytes entries)).
  unfold llama_file_loader.read_vocab.
  cbn [llama_hparams.n_vocab llama_vocab.id_to_token llama_vocab.token_to_id].
  rewrite <- Hlen. change 0 with (Z.of_nat 0).
  destruct (read_vocab_loop_at_split Loader.LLAMA_FILE_VERSION_GGJT_V1 entries 0
              {| llama_vocab.token_to_id := ∅;
                 llama_vocab.id_to_token :=
                   take (length entries) [] ++
                   replicate (length entries - length (A := llama_vocab.token_score) [])
                     {| llama_vocab.tok := EmptyString; llama_vocab.score := F32.zero |} |}
              (Layout.magic_bytes ++ Layout.hparams_bytes hp ftype) [])
    as (m & Hm).
  { cbn. lia. }
  { cbn [llama_vocab.id_to_token length]. rewrite take_nil, app_nil_l, length_replicate. lia. }
  { exact Hall. }
  exists m. rewrite Hm. cbn [lift abind llama_vocab.id_to_token].
  rewrite take_0, app_nil_l, take_nil, app_nil_l.
  rewrite drop_ge by (rewrite length_replicate; cbn; lia).
  rewrite !app_nil_r, <- !app_assoc.
  destruct (length (Layout.magic_bytes ++ Layout.hparams_bytes hp ftype
                    ++ Layout.vocab_bytes entries)) eqn:Hl;
    cbn [llama_file_loader.read_tensor_metadata];
    unfold llama_file.tell, llama_file.size, Layout.at_split;
    cbn [llama_file.pos llama_file.bytes]; rewrite app_nil_r, Z.ltb_irrefl;
    reflexivity.
Qed.

End HeaderRoundTrip.

(** X14.  The header that [llama_file_saver] writes is the header that
    [llama_file_loader] reads: for hyperparameters within [uint32_t],
    a file type within [uint32_t] and a vocabulary whose first
    [n_vocab] entries a file can hold, the saver produces a file that
    the loader accepts as GGJT v1, with the hyperparameters of the
    source ([ftype] replaced by the new file type, [n_ctx] the default
    512), with the first [n_vocab] vocabulary entries, tokens and
    scores, with no tensor and with the whole file read.  When the
    vocabulary has fewer than [n_vocab] entries the saver fails with
    the range error of [at]. *)
Theorem saved_header_read_back `{GgmlTypes} (ld : llama_file_loader.t) (new_ftype : Z)
    (tensors_map : llama_load_tensors_map.t) :
  let hp := llama_file_loader.hparams ld in
  let entries := llama_vocab.id_to_token (llama_file_loader.vocab ld) in
  let n := Z.to_nat (llama_hparams.n_vocab hp) in
  Layout.hparams_u32 hp -> 0 <= new_ftype < 2 ^ 32 ->
  Forall Layout.entry_storable (take n entries) ->
  ((n <= length entries)%nat ->
   exists f m,
     llama_file_saver.create ld new_ftype = Fine f
     /\ llama_file.tell f = llama_file.size f
     /\ llama_file_loader.create (llama_file.bytes f) 0 tensors_map
        = Fine ({| llama_file_loader.file := f;
                   llama_file_loader.file_version := Loader.LLAMA_FILE_VERSION_GGJT_V1;
                   llama_file_loader.hparams :=
                     {| llama_hparams.n_vocab := llama_hparams.n_vocab hp;
                        llama_hparams.n_ctx := 512;
                        llama_hparams.n_embd := llama_hparams.n_embd hp;
                        llama_hparams.n_mult := llama_hparams.n_mult hp;
                        llama_hparams.n_head := llama_hparams.n_head hp;
                        llama_hparams.n_layer := llama_hparams.n_layer hp;
                        llama_hparams.n_rot := llama_hparams.n_rot hp;
                        llama_hparams.ftype := new_ftype |};
                   llama_file_loader.vocab :=
                     {| llama_vocab.token_to_id := m;
                        llama_vocab.id_to_token := take n entries |} |},
                tensors_map))
  /\ ((length entries < n)%nat ->
      llama_file_saver.create ld new_ftype = Throw OutOfRange).
Proof.
  intros hp entries n Hhp Hft Hall. split.
  - intros Hn.
    destruct (loader_create_header hp new_ftype (take n entries) tensors_map Hhp Hft)
      as (m & Hm).
    { rewrite length_take. fold n. lia. }
    { exact Hall. }
    eexists. exists m. split; [apply saver_create_spec; exact Hn|].
    split.
    + unfold llama_file.tell, llama_file.size, Layout.at_split.
      cbn [llama_file.pos llama_file.bytes]. rewrite app_nil_r. reflexivity.
    + unfold Layout.at_split at 1. cbn [llama_file.bytes]. rewrite app_nil_r.
      exact Hm.
  - intros Hn. unfold llama_file_saver.create, llama_file_saver.write_vocab.
    change 0 with (Z.of_nat 0). apply write_vocab_loop_short; fold hp entries n; lia.
Qed.

Lemma saved_header_read_back_witness :
  exists f m,
    llama_file_saver.create SampleFile.loaded 2 = Fine f
    /\ llama_file.tell f = llama_file.size f
    /\ llama_file_loader.create (H := ggml_types) (llama_file.bytes f) 0
         llama_load_tensors_map.empty
       = Fine ({| llama_file_loader.file := f;
                  llama_file_loader.file_version := Loader.LLAMA_FILE_VERSION_GGJT_V1;
                  llama_file_loader.hparams :=
                    {| llama_hparams.n_vocab := 3; llama_hparams.n_ctx := 512;
                       llama_hparams.n_embd := 64; llama_hparams.n_mult := 32;
                       llama_hparams.n_head := 2; llama_hparams.n_layer := 1;
                       llama_hparams.n_rot := 32; llama_hparams.ftype := 2 |};
                  llama_file_loader.vocab :=
                    {| llama_vocab.token_to_id := m;
                       llama_vocab.id_to_token :=
                         [Example.ts "a" 0; Example.ts "b" 0; Example.ts "ab" 1] |} |},
               llama_load_tensors_map.empty).
Proof.
  apply (saved_header_read_back (H := ggml_types) SampleFile.loaded 2
           llama_load_tensors_map.empty).
  - vm_compute. repeat split; congruence.
  - lia.
  - repeat constructor; vm_compute; congruence.
  - vm_compute. lia.
Defined.

(** ** Tensor records: saver against loader *)

Section TensorRecords.

Lemma padding_range tell : 0 <= Layout.padding tell < 32.
Proof.
  unfold Layout.padding. change 31 with (Z.ones 5).
  rewrite Z.land_ones by lia. apply Z.mod_pos_bound. lia.
Qed.

Lemma padding_aligns tell : (tell + Layout.padding tell) mod 32 = 0.
Proof.
  unfold Layout.padding, size_t, wrap. change 31 with (Z.ones 5).
  rewrite Z.land_ones by lia. change (2 ^ 5) with 32.
  rewrite Z.mod_mod_divide by (exists (2 ^ 59); reflexivity).
  rewrite Z.add_mod_idemp_r by lia.
  replace (tell + - tell) with 0 by lia. reflexivity.
Qed.

Lemma length_u32s_bytes ne :
  length (llama_file_saver.u32s_bytes ne) = (4 * length ne)%nat.
Proof.
  unfold llama_file_saver.u32s_bytes.
  induction ne as [|d ne IH]; [reflexivity|].
  cbn [flat_map]. rewrite length_app, length_le_encode, IH. cbn [length]. lia.
Qed.

Lemma u32s_of_bytes_round ne rest :
  Forall (fun d => 0 <= d < 2 ^ 32) ne ->
  llama_file_loader.u32s_of_bytes (length ne) (llama_file_saver.u32s_bytes ne ++ rest) = ne.
Proof.
  unfold llama_file_saver.u32s_bytes.
  induction 1 as [|d ne Hd Hne IH]; [reflexivity|].
  cbn [flat_map length llama_file_loader.u32s_of_bytes].
  rewrite <- app_assoc.
  rewrite (take_app_length' (le_encode 4 d)) by (rewrite length_le_encode; reflexivity).
  rewrite (drop_app_length' (le_encode 4 d)) by (rewrite length_le_encode; reflexivity).
  rewrite IH, le_decode_encode. change (256 ^ Z.of_nat 4) with (2 ^ 32).
  rewrite Z.mod_small by lia. reflexivity.
Qed.

Lemma u32s_of_bytes_exact ne :
  Forall (fun d => 0 <= d < 2 ^ 32) ne ->
  llama_file_loader.u32s_of_bytes (length ne) (llama_file_saver.u32s_bytes ne) = ne.
Proof.
  intros Hne. rewrite <- (u32s_of_bytes_round ne [] Hne) at 3.
  rewrite app_nil_r. reflexivity.
Qed.

Context `{GgmlTypes}.

(** The file after [write_tensor]. *)
Lemma write_tensor_at_end behind (tensor : LoadTensor.t) new_type new_data new_size :
  llama_calc_tensor_size (LoadTensor.ne tensor) new_type = Fine new_size ->
  0 <= new_size <= Z.of_nat (length new_data) ->
  let record :=
    Layout.record_bytes (LoadTensor.ne tensor) (LoadTensor.name tensor) new_type in
  let p := Z.of_nat (length (behind ++ record)) in
  llama_file_saver.write_tensor (Layout.at_split behind []) tensor new_type
    new_data new_size
  = Fine {| llama_file.bytes :=
              (behind ++ record)
              ++ (if new_size =? 0 then []
                  else replicate (Z.to_nat (Layout.padding p)) x00
                       ++ take (Z.to_nat new_size) new_data);
            llama_file.pos := p + Layout.padding p + new_size |}.
Proof.
  intros Hcalc Hrange record p. unfold llama_file_saver.write_tensor.
  rewrite !write_u32_at_end, !write_raw_at_end.
  rewrite <- !app_assoc.
  change (le_encode 4 (Z.of_nat (length (LoadTensor.ne tensor)))
          ++ le_encode 4 (Z.of_nat (String.length (LoadTensor.name tensor)))
          ++ le_encode 4 (ggml_type_code new_type)
          ++ llama_file_saver.u32s_bytes (LoadTensor.ne tensor)
          ++ bytes_of_string (LoadTensor.name tensor))
    with record.
  rewrite Hcalc. cbn [abind]. rewrite Z.eqb_refl. cbn [LLAMA_ASSERT lift abind].
  unfold cursor.peek, cursor.start. cbn [cursor.ahead].
  replace ((0 <=? new_size) && (new_size <=? Z.of_nat (length new_data))) with true
    by (symmetry; apply andb_true_iff; split; apply Z.leb_le; lia).
  cbn [lift abind]. f_equal.
  pose proof (padding_range p) as Hpad.
  unfold llama_file.tell, llama_file.seek_cur, Layout.at_split.
  cbn [llama_file.pos llama_file.bytes]. rewrite app_nil_r. fold p.
  change (Z.land (size_t (- p)) 31) with (Layout.padding p).
  destruct (Z.eqb_spec new_size 0) as [->|Hne].
  - cbn [Z.to_nat take llama_file.write_raw]. rewrite take_0. cbn [llama_file.write_raw].
    rewrite app_nil_r, Z.add_0_r. reflexivity.
  - assert (Hlen : length (take (Z.to_nat new_size) new_data) = Z.to_nat new_size)
      by (rewrite length_take; lia).
    destruct (take (Z.to_nat new_size) new_data) as [|b payload] eqn:Hp;
      [cbn in Hlen; lia|].
    unfold llama_file.write_raw. cbn [llama_file.pos llama_file.bytes].
    f_equal; [|lia].
    assert (Hp' : Z.to_nat (p + Layout.padding p)
                  = (length (behind ++ record) + Z.to_nat (Layout.padding p))%nat)
      by (subst p; lia).
    rewrite Hp'.
    replace (length (behind ++ record) + Z.to_nat (Layout.padding p)
             - length (behind ++ record))%nat
      with (Z.to_nat (Layout.padding p)) by lia.
    rewrite take_ge by (rewrite length_app, length_replicate; lia).
    rewrite drop_ge by (rewrite length_app, length_replicate; lia).
    rewrite app_nil_r, <- !app_assoc. reflexivity.
Qed.

(** [write_tensor] returns only for data of the size that the shape
    and the type require. *)
Lemma write_tensor_checks f (tensor : LoadTensor.t) new_type new_data new_size f1 :
  llama_file_saver.write_tensor f tensor new_type new_data new_size = Fine f1 ->
  llama_calc_tensor_size (LoadTensor.ne tensor) new_type = Fine new_size
  /\ 0 <= new_size <= Z.of_nat (length new_data).
Proof.
  unfold llama_file_saver.write_tensor. intros Hw.
  destruct (llama_calc_tensor_size (LoadTensor.ne tensor) new_type) as [expected|];
    cbn [abind] in Hw; [|discriminate Hw].
  destruct (Z.eqb_spec new_size expected) as [->|]; cbn [LLAMA_ASSERT lift abind] in Hw;
    [|discriminate Hw].
  unfold cursor.peek, cursor.start in Hw. cbn [cursor.ahead] in Hw.
  destruct ((0 <=? expected) && (expected <=? Z.of_nat (length new_data))) eqn:Hrange;
    cbn [lift abind] in Hw; [|discriminate Hw].
  apply andb_true_iff in Hrange. destruct Hrange as [H0 H1].
  apply Z.leb_le in H0, H1. split; [reflexivity | lia].
Qed.

(** [read_tensor_record] on a record as the saver lays it out, for a
    tensor whose name the map does not hold yet. *)
Lemma read_tensor_record_at_split behind ne name type tail file_idx
    (tensors_map : llama_load_tensors_map.t) size :
  (1 <= length ne <= 2)%nat ->
  Forall (fun d => 0 <= d < 2 ^ 32) ne ->
  Z.of_nat (String.length name) < 2 ^ 32 ->
  llama_calc_tensor_size ne type = Fine size ->
  llama_load_tensors_map.name_to_idx tensors_map !! name = None ->
  Z.of_nat (length (llama_load_tensors_map.tensors tensors_map)) < 2 ^ 64 ->
  let record := Layout.record_bytes ne name type in
  let p := Z.of_nat (length (behind ++ record)) in
  llama_file_loader.read_tensor_record Loader.LLAMA_FILE_VERSION_GGJT_V1 file_idx
    (Layout.at_split behind (record ++ tail)) tensors_map
  = Fine ({| llama_file.bytes := (behind ++ record) ++ tail;
             llama_file.pos := p + Layout.padding p + size |},
          {| llama_load_tensors_map.tensors :=
               llama_load_tensors_map.tensors tensors_map
               ++ [LoadTensor.set_shards
                     [{| llama_load_tensor_shard.ne := ne;
                         llama_load_tensor_shard.size := size;
                         llama_load_tensor_shard.type := type;
                         llama_load_tensor_shard.file_idx := file_idx;
                         llama_load_tensor_shard.file_off := p + Layout.padding p |}]
                     (LoadTensor.create name)];
             llama_load_tensors_map.name_to_idx :=
               <[name := Z.of_nat (length (llama_load_tensors_map.tensors tensors_map))]>
                 (llama_load_tensors_map.name_to_idx tensors_map) |}).
Proof.
  intros Hdims Hne Hname Hcalc Hnone Hcount record p.
  unfold llama_file_loader.read_tensor_record. subst record. unfold Layout.record_bytes.
  rewrite <- !app_assoc.
  rewrite read_u32_at_split by lia. cbn [lift abind].
  rewrite read_u32_at_split by lia. cbn [lift abind].
  rewrite read_u32_at_split by (destruct type; cbn; lia). cbn [lift abind].
  rewrite read_raw_at_split
    by (rewrite length_u32s_bytes; unfold size_t, wrap; rewrite Z.mod_small; lia).
  cbn [lift abind].
  rewrite read_string_at_split by reflexivity. cbn [lift abind].
  replace ((Z.of_nat (length ne) <? 1) || (Z.of_nat (length ne) >? 2)) with false
    by (symmetry; apply orb_false_iff; split; [apply Z.ltb_ge | rewrite Z.gtb_ltb; apply Z.ltb_ge]; lia).
  replace (ggml_type_of_code (ggml_type_code type)) with (Some type)
    by (destruct type; reflexivity).
  change (llama_file_loader.version_rank Loader.LLAMA_FILE_VERSION_GGJT_V1
          >=? llama_file_loader.version_rank Loader.LLAMA_FILE_VERSION_GGJT_V1) with true.
  cbv iota.
  rewrite Nat2Z.id.
  rewrite (u32s_of_bytes_exact ne Hne).
  unfold llama_load_tensor_shard.calc_size.
  cbn [llama_load_tensor_shard.ne llama_load_tensor_shard.type].
  rewrite Hcalc. cbn [abind]. rewrite Hnone.
  cbn [llama_load_tensors_map.tensors llama_load_tensors_map.name_to_idx].
  rewrite length_app. cbn [length].
  replace (size_t (Z.of_nat (length (llama_load_tensors_map.tensors tensors_map) + 1) - 1))
    with (Z.of_nat (length (llama_load_tensors_map.tensors tensors_map)))
    by (unfold size_t, wrap; rewrite Z.mod_small; lia).
  unfold vec_checked_at. rewrite vec_at_app_last. cbn [abind].
  rewrite Nat2Z.id.
  rewrite insert_app_r_alt by lia. rewrite Nat.sub_diag. cbn [insert list_insert].
  unfold llama_file.tell, llama_file.seek_cur, Layout.at_split.
  cbn [llama_file.pos llama_file.bytes llama_load_tensor_shard.set_size
       llama_load_tensor_shard.size llama_load_tensor_shard.ne
       llama_load_tensor_shard.type llama_load_tensor_shard.file_idx
       llama_load_tensor_shard.file_off LoadTensor.shards LoadTensor.create app].
  subst p. unfold Layout.record_bytes. rewrite <- !app_assoc. reflexivity.
Qed.

End TensorRecords.

(** X15.  A tensor that [llama_file_saver::write_tensor] appends to a
    file is found by the loader.  For a tensor of one or two
    dimensions with data of the size that shape and type require,
    [write_tensor] returns; it keeps what the file held; the data lie
    at an offset that is a multiple of 32, at most 31 bytes behind the
    record; and [read_tensor_metadata]'s loop body, run on the new
    file from where the record starts, leaves the file exactly where
    the saver left it and adds to the map a tensor of that name with
    one shard of that shape, type, offset and size.  Conversely
    [write_tensor] returns only for data of the required size. *)
Theorem written_tensor_read_back `{GgmlTypes} (behind : list byte)
    (tensor : LoadTensor.t) (new_type : ggml_type) (new_data : list byte)
    (new_size file_idx : Z) (tensors_map : llama_load_tensors_map.t) :
  let ne := LoadTensor.ne tensor in
  let name := LoadTensor.name tensor in
  let tensors := llama_load_tensors_map.tensors tensors_map in
  let record_end :=
    Z.of_nat (length behind + length (Layout.record_bytes ne name new_type)) in
  (1 <= length ne <= 2)%nat ->
  Forall (fun d => 0 <= d < 2 ^ 32) ne ->
  Z.of_nat (String.length name) < 2 ^ 32 ->
  llama_load_tensors_map.name_to_idx tensors_map !! name = None ->
  Z.of_nat (length tensors) < 2 ^ 64 ->
  (llama_calc_tensor_size ne new_type = Fine new_size
   /\ 0 <= new_size <= Z.of_nat (length new_data) ->
   exists f1 off,
     llama_file_saver.write_tensor (Layout.at_split behind []) tensor new_type
       new_data new_size = Fine f1
     /\ off mod 32 = 0 /\ record_end <= off < record_end + 32
     /\ llama_file.tell f1 = off + new_size
     /\ take (length behind) (llama_file.bytes f1) = behind
     /\ take (Z.to_nat new_size) (drop (Z.to_nat off) (llama_file.bytes f1))
        = take (Z.to_nat new_size) new_data
     /\ llama_file_loader.read_tensor_record Loader.LLAMA_FILE_VERSION_GGJT_V1 file_idx
          (llama_file.seek_set (Z.of_nat (length behind)) f1) tensors_map
        = Fine (f1,
                {| llama_load_tensors_map.tensors :=
                     tensors
                     ++ [LoadTensor.set_shards
                           [{| llama_load_tensor_shard.ne := ne;
                               llama_load_tensor_shard.size := new_size;
                               llama_load_tensor_shard.type := new_type;
                               llama_load_tensor_shard.file_idx := file_idx;
                               llama_load_tensor_shard.file_off := off |}]
                           (LoadTensor.create name)];
                   llama_load_tensors_map.name_to_idx :=
                     <[name := Z.of_nat (length tensors)]>
                       (llama_load_tensors_map.name_to_idx tensors_map) |}))
  /\ (forall f f1,
        llama_file_saver.write_tensor f tensor new_type new_data new_size = Fine f1 ->
        llama_calc_tensor_size ne new_type = Fine new_size
        /\ 0 <= new_size <= Z.of_nat (length new_data)).
Proof.
  intros ne name tensors record_end Hdims Hne Hname Hnone Hcount.
  split; [|intros f f1; apply write_tensor_checks].
  intros [Hcalc Hrange].
  set (record := Layout.record_bytes ne name new_type).
  set (p := Z.of_nat (length (behind ++ record))).
  assert (Hp : p = record_end) by (subst p record_end; rewrite length_app; reflexivity).
  pose proof (padding_range p) as Hpad.
  eexists. exists (p + Layout.padding p).
  split; [apply write_tensor_at_end; assumption|].
  fold ne name record p.
  split; [apply padding_aligns|].
  split; [lia|].
  split; [reflexivity|].
  cbn [llama_file.bytes].
  split; [rewrite <- app_assoc; apply take_app_length|].
  split.
  - destruct (Z.eqb_spec new_size 0) as [->|Hnz]; [reflexivity|].
    replace (Z.to_nat (p + Layout.padding p))
      with (length ((behind ++ record) ++ replicate (Z.to_nat (Layout.padding p)) x00))
      by (rewrite length_app, length_replicate; subst p; lia).
    rewrite app_assoc, drop_app_length, take_take, Nat.min_id. reflexivity.
  - unfold llama_file.seek_set. cbn [llama_file.bytes].
    rewrite <- app_assoc.
    change {| llama_file.bytes :=
                behind ++ record
                ++ (if new_size =? 0 then []
                    else replicate (Z.to_nat (Layout.padding p)) x00
                         ++ take (Z.to_nat new_size) new_data);
              llama_file.pos := Z.of_nat (length behind) |}
      with (Layout.at_split behind
              (record
               ++ (if new_size =? 0 then []
                   else replicate (Z.to_nat (Layout.padding p)) x00
                        ++ take (Z.to_nat new_size) new_data))).
    subst record.
    rewrite (read_tensor_record_at_split behind ne name new_type _ file_idx tensors_map
               new_size Hdims Hne Hname Hcalc Hnone Hcount).
    rewrite <- app_assoc. reflexivity.
Qed.

Lemma written_tensor_read_back_witness :
  exists f1 off,
    llama_file_saver.write_tensor (H := ggml_types)
      (Layout.at_split Layout.magic_bytes [])
      (LoadTensor.set_ne [3] (LoadTensor.create "norm.weight")) GGML_TYPE_F32
      (floats_bytes [F32.one; F32.one; F32.one]) 12 = Fine f1
    /\ off mod 32 = 0 /\ 8 + 27 <= off < 8 + 27 + 32
    /\ llama_file.tell f1 = off + 12
    /\ take 8 (llama_file.bytes f1) = Layout.magic_bytes
    /\ take 12 (drop (Z.to_nat off) (llama_file.bytes f1))
       = take 12 (floats_bytes [F32.one; F32.one; F32.one])
    /\ llama_file_loader.read_tensor_record (H := ggml_types)
         Loader.LLAMA_FILE_VERSION_GGJT_V1 0
         (llama_file.seek_set 8 f1) llama_load_tensors_map.empty
       = Fine (f1,
               {| llama_load_tensors_map.tensors :=
                    [LoadTensor.set_shards
                       [{| llama_load_tensor_shard.ne := [3];
                           llama_load_tensor_shard.size := 12;
                           llama_load_tensor_shard.type := GGML_TYPE_F32;
                           llama_load_tensor_shard.file_idx := 0;
                           llama_load_tensor_shard.file_off := off |}]
                       (LoadTensor.create "norm.weight")];
                  llama_load_tensors_map.name_to_idx := <["norm.weight"%string := 0]> ∅ |}).
Proof.
  apply (written_tensor_read_back (H := ggml_types) Layout.magic_bytes
           (LoadTensor.set_ne [3] (LoadTensor.create "norm.weight")) GGML_TYPE_F32
           (floats_bytes [F32.one; F32.one; F32.one]) 12 0
           llama_load_tensors_map.empty).
  - cbn. lia.
  - repeat constructor; lia.
  - cbn. lia.
  - reflexivity.
  - cbn. lia.
  - split; [reflexivity | cbn; lia].
Defined.

(** ** The tensors that the loader finds *)

Section LoaderFacts.
Context `{GgmlTypes}.

Lemma le_decode_range bs : 0 <= le_decode bs < 256 ^ Z.of_nat (length bs).
Proof.
  unfold le_decode. induction bs as [|b bs IH]; [cbn; lia|].
  cbn [fold_right length]. rewrite Nat2Z.inj_succ, Z.pow_succ_r by lia.
  pose proof (byte_val_range b). lia.
Qed.

Lemma read_raw_length n f bs f' :
  llama_file.read_raw n f = Ok (bs, f') ->
  length bs = Z.to_nat n /\ llama_file.bytes f' = llama_file.bytes f.
Proof.
  unfold llama_file.read_raw.
  destruct (Z.eqb_spec n 0) as [->|Hn]; [intros [= <- <-]; split; reflexivity|].
  destruct ((0 <=? llama_file.pos f) && (0 <=? n)
            && (llama_file.pos f + n <=? llama_file.size f)) eqn:Hc; [|discriminate].
  rewrite !andb_true_iff in Hc. destruct Hc as [[Hp Hn0] Hs].
  apply Z.leb_le in Hp, Hn0, Hs. intros [= <- <-]. split; [|reflexivity].
  unfold llama_file.ahead, llama_file.size in *.
  rewrite length_take, length_drop. lia.
Qed.

Lemma read_u32_range f v f' :
  llama_file.read_u32 f = Ok (v, f') ->
  0 <= v < 2 ^ 32 /\ llama_file.bytes f' = llama_file.bytes f.
Proof.
  unfold llama_file.read_u32. intros Hr.
  destruct (llama_file.read_raw 4 f) as [[bs f1]|] eqn:Hraw; cbn [rbind] in Hr;
    [|discriminate Hr].
  injection Hr as <- <-.
  destruct (read_raw_length _ _ _ _ Hraw) as [Hl Hb]. split; [|exact Hb].
  pose proof (le_decode_range bs) as Hd. rewrite Hl in Hd.
  change (256 ^ Z.of_nat (Z.to_nat 4)) with (2 ^ 32) in Hd. exact Hd.
Qed.

Lemma length_string_of_bytes bs : String.length (string_of_bytes bs) = length bs.
Proof.
  unfold string_of_bytes. induction bs as [|b bs IH]; [reflexivity|].
  cbn [map string_of_list_ascii String.length length]. rewrite IH. reflexivity.
Qed.

Lemma read_string_length len f s f' :
  llama_file.read_string len f = Ok (s, f') ->
  String.length s = Z.to_nat len /\ llama_file.bytes f' = llama_file.bytes f.
Proof.
  unfold llama_file.read_string. intros Hr.
  destruct (llama_file.read_raw len f) as [[bs f1]|] eqn:Hraw; cbn [rbind] in Hr;
    [|discriminate Hr].
  injection Hr as <- <-.
  destruct (read_raw_length _ _ _ _ Hraw) as [Hl Hb]. split; [|exact Hb].
  rewrite length_string_of_bytes. exact Hl.
Qed.

Lemma length_u32s_of_bytes n : forall bs,
  length (llama_file_loader.u32s_of_bytes n bs) = n.
Proof.
  induction n as [|n IH]; intros bs; [reflexivity|].
  cbn [llama_file_loader.u32s_of_bytes length]. rewrite IH. reflexivity.
Qed.

Lemma u32s_of_bytes_range n : forall bs,
  Forall (fun d => 0 <= d < 2 ^ 32) (llama_file_loader.u32s_of_bytes n bs).
Proof.
  induction n as [|n IH]; intros bs; [constructor|].
  cbn [llama_file_loader.u32s_of_bytes]. constructor; [|apply IH].
  pose proof (le_decode_range (take 4 bs)) as Hd.
  assert (Hl : (length (take 4 bs) <= 4)%nat) by (rewrite length_take; lia).
  split; [lia|].
  eapply Z.lt_le_trans; [apply Hd|].
  change (2 ^ 32) with (256 ^ 4). apply Z.pow_le_mono_r; lia.
Qed.

(** One round of [read_tensor_metadata] adds one shard, to a tensor
    of the map or to a new one at its end. *)
Lemma read_tensor_record_adds ver file_idx f tm f' tm' :
  llama_file_loader.read_tensor_record ver file_idx f tm = Fine (f', tm') ->
  exists name shard base i lt,
    llama_load_tensor_shard.file_idx shard = file_idx
    /\ (ver = Loader.LLAMA_FILE_VERSION_GGJT_V1 ->
        llama_load_tensor_shard.file_off shard mod 32 = 0)
    /\ (llama_calc_tensor_size (llama_load_tensor_shard.ne shard)
          (llama_load_tensor_shard.type shard)
        = Fine (llama_load_tensor_shard.size shard)
        /\ (1 <= length (llama_load_tensor_shard.ne shard) <= 2)%nat
        /\ Forall (fun d => 0 <= d < 2 ^ 32) (llama_load_tensor_shard.ne shard)
        /\ Z.of_nat (String.length name) < 2 ^ 32)
    /\ ((base = llama_load_tensors_map.tensors tm
         /\ llama_load_tensors_map.name_to_idx tm'
            = llama_load_tensors_map.name_to_idx tm)
        \/ (base = llama_load_tensors_map.tensors tm ++ [LoadTensor.create name]
            /\ llama_load_tensors_map.name_to_idx tm !! name = None
            /\ llama_load_tensors_map.name_to_idx tm'
               = <[name := size_t (Z.of_nat
                                     (length (llama_load_tensors_map.tensors tm)))]>
                   (llama_load_tensors_map.name_to_idx tm)))
    /\ base !! i = Some lt
    /\ llama_load_tensors_map.tensors tm'
       = <[i := LoadTensor.set_shards (LoadTensor.shards lt ++ [shard]) lt]> base.
Proof.
  unfold llama_file_loader.read_tensor_record. intros Hr.
  abind_inv Hr.
  destruct ((z <? 1) || (z >? 2)) eqn:Hdims; [discriminate Hr|].
  apply orb_false_iff in Hdims. destruct Hdims as [Hd1 Hd2].
  apply Z.ltb_ge in Hd1. rewrite Z.gtb_ltb in Hd2. apply Z.ltb_ge in Hd2.
  assert (Hshape : (1 <= length (llama_file_loader.u32s_of_bytes (Z.to_nat z) l) <= 2)%nat
                   /\ Forall (fun d => 0 <= d < 2 ^ 32)
                        (llama_file_loader.u32s_of_bytes (Z.to_nat z) l)).
  { rewrite length_u32s_of_bytes. split; [lia|]. apply u32s_of_bytes_range. }
  assert (Hshort : Z.of_nat (String.length s) < 2 ^ 32).
  { apply lift_Fine in E0, E3.
    destruct (read_u32_range _ _ _ E0) as [Hz0 _].
    destruct (read_string_length _ _ _ _ E3) as [Hs _].
    rewrite Hs. lia. }
  destruct Hshape as [Hlen Hu32].
  destruct (ggml_type_of_code z1) as [type|]; [|discriminate Hr].
  unfold llama_load_tensor_shard.calc_size in Hr.
  cbn [llama_load_tensor_shard.ne llama_load_tensor_shard.type] in Hr.
  destruct (llama_calc_tensor_size (llama_file_loader.u32s_of_bytes (Z.to_nat z) l) type)
    as [size|] eqn:Hcalc; cbn [abind] in Hr; [|discriminate Hr].
  match type of Hr with
  | context [llama_load_tensor_shard.set_size size ?sh] =>
      set (shard := llama_load_tensor_shard.set_size size sh) in *
  end.
  assert (Hoff : ver = Loader.LLAMA_FILE_VERSION_GGJT_V1 ->
                 llama_load_tensor_shard.file_off shard mod 32 = 0).
  { intros ->. subst shard.
    cbn [llama_load_tensor_shard.set_size llama_load_tensor_shard.file_off].
    change (llama_file_loader.version_rank Loader.LLAMA_FILE_VERSION_GGJT_V1
            >=? llama_file_loader.version_rank Loader.LLAMA_FILE_VERSION_GGJT_V1)
      with true.
    cbv iota. unfold llama_file.tell, llama_file.seek_cur. cbn [llama_file.pos].
    apply padding_aligns. }
  destruct (llama_load_tensors_map.name_to_idx tm !! s) as [idx|] eqn:Hname.
  - destruct (vec_checked_at (llama_load_tensors_map.tensors tm) idx) as [lt|] eqn:Hat;
      cbn [abind] in Hr; [|discriminate Hr].
    apply vec_checked_at_Fine in Hat.
    unfold vec_at in Hat. destruct (0 <=? idx); [|discriminate Hat].
    destruct (llama_load_tensors_map.tensors tm !! Z.to_nat idx) as [lt'|] eqn:Hl;
      cbn in Hat; [|discriminate Hat].
    injection Hat as ->. injection Hr as <- <-.
    exists s, shard, (llama_load_tensors_map.tensors tm), (Z.to_nat idx), lt.
    repeat split; auto; first [exact Hu32 | apply Hlen].
  - cbn [llama_load_tensors_map.tensors llama_load_tensors_map.name_to_idx] in Hr.
    rewrite length_app in Hr. cbn [length] in Hr.
    replace (Z.of_nat (length (llama_load_tensors_map.tensors tm) + 1) - 1)
      with (Z.of_nat (length (llama_load_tensors_map.tensors tm))) in Hr by lia.
    match type of Hr with
    | context [vec_checked_at ?v ?i] =>
        destruct (vec_checked_at v i) as [lt|] eqn:Hat; cbn [abind] in Hr;
        [|discriminate Hr]; set (idx := i) in *
    end.
    apply vec_checked_at_Fine in Hat.
    unfold vec_at in Hat. destruct (0 <=? idx); [|discriminate Hat].
    match type of Hat with
    | context [?v !! ?i] => destruct (v !! i) as [lt'|] eqn:Hl
    end; cbn in Hat; [|discriminate Hat].
    injection Hat as ->. injection Hr as <- <-.
    exists s, shard, (llama_load_tensors_map.tensors tm ++ [LoadTensor.create s]),
      (Z.to_nat idx), lt.
    repeat split; auto; first [exact Hu32 | apply Hlen].
Qed.

Lemma every_shard_add (P : llama_load_tensor_shard.t -> Prop) name shard base i lt
    (tm tm' : llama_load_tensors_map.t) :
  every_shard P tm -> P shard ->
  ((base = llama_load_tensors_map.tensors tm
    /\ llama_load_tensors_map.name_to_idx tm'
       = llama_load_tensors_map.name_to_idx tm)
   \/ (base = llama_load_tensors_map.tensors tm ++ [LoadTensor.create name]
       /\ llama_load_tensors_map.name_to_idx tm !! name = None
       /\ llama_load_tensors_map.name_to_idx tm'
          = <[name := size_t (Z.of_nat
                                (length (llama_load_tensors_map.tensors tm)))]>
              (llama_load_tensors_map.name_to_idx tm))) ->
  base !! i = Some lt ->
  llama_load_tensors_map.tensors tm'
  = <[i := LoadTensor.set_shards (LoadTensor.shards lt ++ [shard]) lt]> base ->
  every_shard P tm'.
Proof.
  unfold every_shard. intros Hall Hs Hbase Hlt ->.
  assert (Hb : Forall (fun lt => Forall P (LoadTensor.shards lt)) base).
  { destruct Hbase as [[-> _] | [-> _]]; [exact Hall|].
    apply Forall_app. split; [exact Hall|]. repeat constructor. }
  apply Forall_insert; [exact Hb|].
  cbn [LoadTensor.set_shards LoadTensor.shards].
  apply Forall_app. split; [|repeat constructor; exact Hs].
  exact (proj1 (Forall_lookup _ _) Hb i lt Hlt).
Qed.

(** What holds of the shards of one file holds of the map when the
    file has been read. *)
Lemma read_tensor_metadata_every (P : llama_load_tensor_shard.t -> Prop) ver file_idx :
  (forall shard,
     llama_load_tensor_shard.file_idx shard = file_idx ->
     (ver = Loader.LLAMA_FILE_VERSION_GGJT_V1 ->
      llama_load_tensor_shard.file_off shard mod 32 = 0) ->
     llama_calc_tensor_size (llama_load_tensor_shard.ne shard)
       (llama_load_tensor_shard.type shard)
     = Fine (llama_load_tensor_shard.size shard) ->
     (1 <= length (llama_load_tensor_shard.ne shard) <= 2)%nat ->
     Forall (fun d => 0 <= d < 2 ^ 32) (llama_load_tensor_shard.ne shard) ->
     P shard) ->
  forall fuel f tm f' tm',
    llama_file_loader.read_tensor_metadata fuel ver file_idx f tm = Fine (f', tm') ->
    every_shard P tm -> every_shard P tm'.
Proof.
  intros HP. induction fuel as [|fuel IH]; intros f tm f' tm' Hr Hall;
    cbn [llama_file_loader.read_tensor_metadata] in Hr;
    destruct (llama_file.tell f <? llama_file.size f).
  - discriminate Hr.
  - injection Hr as <- <-. exact Hall.
  - destruct (llama_file_loader.read_tensor_record ver file_idx f tm) as [[f1 tm1]|]
      eqn:Hrec; cbn [abind] in Hr; [|discriminate Hr].
    apply (IH _ _ _ _ Hr).
    destruct (read_tensor_record_adds _ _ _ _ _ _ Hrec)
      as (name & shard & base & i & lt & Hidx & Hoff & (Hsize & Hlen & Hu32 & _)
          & Hbase & Hlt & Htm).
    eapply every_shard_add; eauto.
  - injection Hr as <- <-. exact Hall.
Qed.

Lemma loader_create_every (P : llama_load_tensor_shard.t -> Prop) content file_idx
    tm ld tm' :
  llama_file_loader.create content file_idx tm = Fine (ld, tm') ->
  (forall shard,
     llama_load_tensor_shard.file_idx shard = file_idx ->
     (llama_file_loader.file_version ld = Loader.LLAMA_FILE_VERSION_GGJT_V1 ->
      llama_load_tensor_shard.file_off shard mod 32 = 0) ->
     llama_calc_tensor_size (llama_load_tensor_shard.ne shard)
       (llama_load_tensor_shard.type shard)
     = Fine (llama_load_tensor_shard.size shard) ->
     (1 <= length (llama_load_tensor_shard.ne shard) <= 2)%nat ->
     Forall (fun d => 0 <= d < 2 ^ 32) (llama_load_tensor_shard.ne shard) ->
     P shard) ->
  every_shard P tm -> every_shard P tm'.
Proof.
  unfold llama_file_loader.create. intros Hc HP Hall. abind_inv Hc.
  injection Hc as <- <-. cbn [llama_file_loader.file_version] in HP.
  eapply read_tensor_metadata_every; eauto.
Qed.

Lemma load_parts_extends files fname_base first k :
  forall i loaders tm loaders' tm',
    llama_model_loader.load_parts files fname_base first k i loaders tm
    = Fine (loaders', tm') ->
    exists added, loaders' = loaders ++ added.
Proof.
  induction k as [|k IH]; intros i loaders tm loaders' tm' Hl;
    cbn [llama_model_loader.load_parts] in Hl.
  - injection Hl as <- <-. exists []. rewrite app_nil_r. reflexivity.
  - abind_inv Hl.
    destruct (llama_model_loader.hparams_neq _ _); [discriminate Hl|].
    destruct (IH _ _ _ _ _ Hl) as (added & ->).
    eexists. rewrite <- app_assoc. reflexivity.
Qed.

Lemma load_parts_aligned files fname_base first k :
  forall i loaders tm loaders' tm',
    llama_model_loader.load_parts files fname_base first k i loaders tm
    = Fine (loaders', tm') ->
    Forall (fun ld => llama_file_loader.file_version ld
                      = Loader.LLAMA_FILE_VERSION_GGJT_V1) loaders' ->
    every_shard (fun s => llama_load_tensor_shard.file_off s mod 32 = 0) tm ->
    every_shard (fun s => llama_load_tensor_shard.file_off s mod 32 = 0) tm'.
Proof.
  induction k as [|k IH]; intros i loaders tm loaders' tm' Hl Hv Hall;
    cbn [llama_model_loader.load_parts] in Hl.
  - injection Hl as <- <-. exact Hall.
  - abind_inv Hl.
    destruct (llama_model_loader.hparams_neq _ _); [discriminate Hl|].
    destruct (load_parts_extends _ _ _ _ _ _ _ _ _ Hl) as (added & ->).
    apply (IH _ _ _ _ _ Hl Hv).
    eapply loader_create_every; [exact E0 | | exact Hall].
    intros shard _ Hoff _ _ _. apply Hoff.
    apply Forall_app in Hv. destruct Hv as [Hv _].
    apply Forall_app in Hv. destruct Hv as [_ Hv].
    inversion Hv; assumption.
Qed.

Lemma calc_all_keeps (x x' : LoadTensor.t) :
  LoadTensor.calc_all x = Fine x' -> LoadTensor.shards x' = LoadTensor.shards x.
Proof.
  unfold LoadTensor.calc_all. intros Hc. abind_inv Hc.
  unfold LoadTensor.calc_type in E. abind_inv E.
  destruct (forallb _ _); [|discriminate E]. injection E as <-.
  unfold LoadTensor.calc_split_type in E0. abind_inv E0.
  assert (Hs0 : LoadTensor.shards a0 = LoadTensor.shards x).
  { repeat match type of E0 with
           | (if ?c then _ else _) = Fine _ => destruct c
           end; injection E0 as <-; reflexivity. }
  unfold LoadTensor.calc_ne in E1. abind_inv E1.
  assert (Hs1 : LoadTensor.shards a1 = LoadTensor.shards a0).
  { match type of E1 with
    | (if ?c then _ else _) = Fine _ => destruct c; [discriminate E1|]
    end.
    abind_inv E1.
    destruct (LoadTensor.split_type a0); abind_inv E1; injection E1 as <-; reflexivity. }
  unfold LoadTensor.calc_size in Hc. abind_inv Hc. injection Hc as <-.
  cbn [LoadTensor.set_size LoadTensor.shards]. congruence.
Qed.

Lemma calc_all_tensors_every (P : llama_load_tensor_shard.t -> Prop) tensors :
  forall tensors',
    llama_model_loader.calc_all_tensors tensors = Fine tensors' ->
    Forall (fun lt => Forall P (LoadTensor.shards lt)) tensors ->
    Forall (fun lt => Forall P (LoadTensor.shards lt)) tensors'.
Proof.
  induction tensors as [|lt rest IH]; intros tensors' Hc Hall;
    cbn [llama_model_loader.calc_all_tensors] in Hc.
  - injection Hc as <-. constructor.
  - abind_inv Hc. injection Hc as <-.
    inversion Hall as [|? ? Hlt Hrest]; subst.
    constructor; [|apply IH; auto].
    rewrite (calc_all_keeps _ _ E). exact Hlt.
Qed.

Lemma alignment_allows (tm : llama_load_tensors_map.t) :
  llama_model_loader.alignment_prevents_mmap tm = false
  <-> every_shard (fun s => llama_load_tensor_shard.file_off s mod 4 = 0) tm.
Proof.
  unfold llama_model_loader.alignment_prevents_mmap, every_shard.
  rewrite <- not_true_iff_false, existsb_exists, Forall_forall.
  split.
  - intros Hn lt Hlt. apply Forall_forall. intros s Hs.
    destruct (Z.eq_dec (llama_load_tensor_shard.file_off s mod 4) 0) as [|Hne]; [assumption|].
    exfalso. apply Hn. exists lt. split; [apply list_elem_of_In; exact Hlt|].
    apply existsb_exists. exists s. split; [apply list_elem_of_In; exact Hs|].
    change 3 with (Z.ones 2). rewrite Z.land_ones by lia.
    apply negb_true_iff, Z.eqb_neq. exact Hne.
  - intros Hall (lt & Hlt & Hex). apply existsb_exists in Hex.
    destruct Hex as (s & Hs & Hbad).
    apply list_elem_of_In in Hlt. apply list_elem_of_In in Hs.
    specialize (Hall lt Hlt). rewrite Forall_forall in Hall. specialize (Hall s Hs).
    change 3 with (Z.ones 2) in Hbad. rewrite Z.land_ones in Hbad by lia.
    apply negb_true_iff, Z.eqb_neq in Hbad. apply Hbad. exact Hall.
Qed.

Lemma every_shard_weaken (P Q : llama_load_tensor_shard.t -> Prop) tm :
  (forall s, P s -> Q s) -> every_shard P tm -> every_shard Q tm.
Proof.
  unfold every_shard. intros HPQ Hall.
  eapply Forall_impl; [exact Hall|]. intros lt Hlt. cbn in Hlt.
  eapply Forall_impl; [exact Hlt|]. exact HPQ.
Qed.

End LoaderFacts.

(** X16.  Files in the GGJT format never lose the memory mapping to
    alignment.  When [llama_model_loader] has read a model, it uses
    the mapping only if the caller asked for it and the platform
    supports it, and then the data of every tensor start at a
    multiple of 4 in their file.  When all files of the model are GGJT
    files, the data of every tensor start at a multiple of 32, and the
    mapping is used exactly when it was asked for and is supported. *)
Theorem ggjt_files_allow_mmap `{GgmlTypes} (mmap_supported : bool)
    (files : string -> option (list byte)) (fname_base : string)
    (use_mmap vocab_only : bool) (ml : llama_model_loader.t) :
  llama_model_loader.create mmap_supported files fname_base use_mmap vocab_only
  = Fine ml ->
  (llama_model_loader.use_mmap ml = true ->
   mmap_supported = true /\ use_mmap = true
   /\ every_shard (fun s => llama_load_tensor_shard.file_off s mod 4 = 0)
        (llama_model_loader.tensors_map ml))
  /\ (Forall (fun ld => llama_file_loader.file_version ld
                        = Loader.LLAMA_FILE_VERSION_GGJT_V1)
        (llama_model_loader.file_loaders ml) ->
      llama_model_loader.use_mmap ml = mmap_supported && use_mmap
      /\ every_shard (fun s => llama_load_tensor_shard.file_off s mod 32 = 0)
           (llama_model_loader.tensors_map ml)).
Proof.
  unfold llama_model_loader.create. intros Hc. abind_inv Hc.
  rename a into content, t into first, t0 into tm0, a0 into n_parts,
    l into loaders, t1 into tm1, a1 into tensors.
  injection Hc as <-.
  cbn [llama_model_loader.use_mmap llama_model_loader.tensors_map
       llama_model_loader.file_loaders].
  split.
  - intros Hm.
    destruct mmap_supported; cbn [negb] in Hm; [|discriminate Hm].
    destruct use_mmap; cbn [andb] in Hm;
      [|destruct (llama_model_loader.alignment_prevents_mmap tm1); discriminate Hm].
    destruct (llama_model_loader.alignment_prevents_mmap tm1) eqn:Hal; [discriminate Hm|].
    repeat split.
    apply alignment_allows in Hal. unfold every_shard in *.
    cbn [llama_load_tensors_map.tensors].
    eapply calc_all_tensors_every; eauto.
  - intros Hv.
    assert (Hall : every_shard
                     (fun s => llama_load_tensor_shard.file_off s mod 32 = 0) tm1).
    { eapply load_parts_aligned; [exact E2 | exact Hv |].
      destruct (load_parts_extends _ _ _ _ _ _ _ _ _ E2) as (added & ->).
      eapply loader_create_every; [exact E0 | | constructor].
      intros shard _ Hoff _ _ _. apply Hoff.
      apply Forall_app in Hv. destruct Hv as [Hv _]. inversion Hv; assumption. }
    split.
    + assert (Hal : llama_model_loader.alignment_prevents_mmap tm1 = false).
      { apply alignment_allows. eapply every_shard_weaken; [|exact Hall].
        intros s Hs. cbn beta in Hs |- *.
        rewrite <- (Z.mod_mod_divide _ 32 4) by (exists 8; reflexivity).
        rewrite Hs. reflexivity. }
      rewrite Hal. destruct mmap_supported, use_mmap; reflexivity.
    + unfold every_shard in *. cbn [llama_load_tensors_map.tensors].
      eapply calc_all_tensors_every; eauto.
Qed.

Lemma ggjt_files_allow_mmap_witness :
  llama_model_loader.use_mmap (SampleModel.loaded false) = true && true
  /\ every_shard (fun s => llama_load_tensor_shard.file_off s mod 32 = 0)
       (llama_model_loader.tensors_map (SampleModel.loaded false)).
Proof.
  refine (proj2 (ggjt_files_allow_mmap (H := ggml_types) true SampleModel.files
                   "model.bin" true true (SampleModel.loaded false) _) _).
  - vm_compute. reflexivity.
  - repeat constructor.
Defined.

(** ** The names of the tensors and the tensors asked for *)

Section TensorNames.
Context `{GgmlTypes}.

Local Abbreviation tensors := llama_load_tensors_map.tensors.
Local Abbreviation name_to_idx := llama_load_tensors_map.name_to_idx.

(** No tensor of the map has been created in the tensor library. *)
Local Abbreviation untouched tm :=
  (Forall (fun lt => LoadTensor.ggml_tensor lt = false) (tensors tm)).

Lemma read_tensor_record_length ver file_idx f tm f' tm' :
  llama_file_loader.read_tensor_record ver file_idx f tm = Fine (f', tm') ->
  (length (tensors tm) <= length (tensors tm'))%nat.
Proof.
  intros Hr.
  destruct (read_tensor_record_adds _ _ _ _ _ _ Hr)
    as (name & shard & base & i & lt & _ & _ & _ & Hbase & _ & ->).
  rewrite length_insert.
  destruct Hbase as [[-> _] | [-> _]]; [|rewrite length_app]; lia.
Qed.

Lemma read_tensor_record_names ver file_idx f tm f' tm' :
  llama_file_loader.read_tensor_record ver file_idx f tm = Fine (f', tm') ->
  Z.of_nat (length (tensors tm')) < 2 ^ 64 ->
  names_indexed tm /\ untouched tm -> names_indexed tm' /\ untouched tm'.
Proof.
  intros Hr Hlen [Hwf Hun].
  destruct (read_tensor_record_adds _ _ _ _ _ _ Hr)
    as (name & shard & base & i & lt & _ & _ & _ & Hbase & Hlt & Htm).
  assert (Hnames : LoadTensor.name <$> tensors tm' = LoadTensor.name <$> base).
  { rewrite Htm, list_fmap_insert. cbn [LoadTensor.set_shards LoadTensor.name].
    apply list_insert_id. rewrite list_lookup_fmap, Hlt. reflexivity. }
  assert (Hbu : Forall (fun lt => LoadTensor.ggml_tensor lt = false) base).
  { destruct Hbase as [[-> _] | [-> _]]; [exact Hun|].
    apply Forall_app. split; [exact Hun | repeat constructor]. }
  split.
  - unfold names_indexed. rewrite Hnames. intros n idx Hn.
    destruct Hbase as [[-> Hmap] | [-> [_ Hmap]]]; rewrite Hmap in Hn.
    + apply Hwf. exact Hn.
    + assert (Hsmall : size_t (Z.of_nat (length (tensors tm)))
                       = Z.of_nat (length (tensors tm))).
      { unfold size_t, wrap. apply Z.mod_small.
        rewrite Htm, length_insert, length_app in Hlen. cbn [length] in Hlen. lia. }
      rewrite Hsmall in Hn. rewrite fmap_app. cbn [fmap list_fmap LoadTensor.create LoadTensor.name].
      destruct (decide (n = name)) as [->|Hne].
      * rewrite lookup_insert_eq in Hn. injection Hn as <-.
        split; [lia|]. rewrite Nat2Z.id.
        rewrite lookup_app_r by (rewrite length_fmap; lia).
        rewrite length_fmap, Nat.sub_diag. reflexivity.
      * rewrite lookup_insert_ne in Hn by congruence.
        destruct (Hwf n idx Hn) as [H0 Hl]. split; [exact H0|].
        rewrite lookup_app_l; [exact Hl|].
        apply lookup_lt_Some in Hl. exact Hl.
  - rewrite Htm. apply Forall_insert; [exact Hbu|].
    cbn [LoadTensor.set_shards LoadTensor.ggml_tensor].
    exact (proj1 (Forall_lookup _ _) Hbu i lt Hlt).
Qed.

Lemma read_tensor_metadata_length ver file_idx :
  forall fuel f tm f' tm',
    llama_file_loader.read_tensor_metadata fuel ver file_idx f tm = Fine (f', tm') ->
    (length (tensors tm) <= length (tensors tm'))%nat.
Proof.
  induction fuel as [|fuel IH]; intros f tm f' tm' Hr;
    cbn [llama_file_loader.read_tensor_metadata] in Hr;
    destruct (llama_file.tell f <? llama_file.size f).
  - discriminate Hr.
  - injection Hr as <- <-. lia.
  - destruct (llama_file_loader.read_tensor_record ver file_idx f tm) as [[f1 tm1]|]
      eqn:Hrec; cbn [abind] in Hr; [|discriminate Hr].
    apply read_tensor_record_length in Hrec. apply IH in Hr. lia.
  - injection Hr as <- <-. lia.
Qed.

Lemma read_tensor_metadata_names ver file_idx :
  forall fuel f tm f' tm',
    llama_file_loader.read_tensor_metadata fuel ver file_idx f tm = Fine (f', tm') ->
    Z.of_nat (length (tensors tm')) < 2 ^ 64 ->
    names_indexed tm /\ untouched tm -> names_indexed tm' /\ untouched tm'.
Proof.
  induction fuel as [|fuel IH]; intros f tm f' tm' Hr Hlen Hinv;
    cbn [llama_file_loader.read_tensor_metadata] in Hr;
    destruct (llama_file.tell f <? llama_file.size f).
  - discriminate Hr.
  - injection Hr as <- <-. exact Hinv.
  - destruct (llama_file_loader.read_tensor_record ver file_idx f tm) as [[f1 tm1]|]
      eqn:Hrec; cbn [abind] in Hr; [|discriminate Hr].
    apply (IH _ _ _ _ Hr Hlen).
    apply (read_tensor_record_names _ _ _ _ _ _ Hrec); [|exact Hinv].
    apply read_tensor_metadata_length in Hr. lia.
  - injection Hr as <- <-. exact Hinv.
Qed.

Lemma loader_create_length content file_idx tm ld tm' :
  llama_file_loader.create content file_idx tm = Fine (ld, tm') ->
  (length (tensors tm) <= length (tensors tm'))%nat.
Proof.
  unfold llama_file_loader.create. intros Hc. abind_inv Hc. injection Hc as <- <-.
  eapply read_tensor_metadata_length; eauto.
Qed.

Lemma loader_create_names content file_idx tm ld tm' :
  llama_file_loader.create content file_idx tm = Fine (ld, tm') ->
  Z.of_nat (length (tensors tm')) < 2 ^ 64 ->
  names_indexed tm /\ untouched tm -> names_indexed tm' /\ untouched tm'.
Proof.
  unfold llama_file_loader.create. intros Hc. abind_inv Hc. injection Hc as <- <-.
  eapply read_tensor_metadata_names; eauto.
Qed.

Lemma load_parts_length files fname_base first k :
  forall i loaders tm loaders' tm',
    llama_model_loader.load_parts files fname_base first k i loaders tm
    = Fine (loaders', tm') ->
    (length (tensors tm) <= length (tensors tm'))%nat.
Proof.
  induction k as [|k IH]; intros i loaders tm loaders' tm' Hl;
    cbn [llama_model_loader.load_parts] in Hl.
  - injection Hl as <- <-. lia.
  - abind_inv Hl.
    destruct (llama_model_loader.hparams_neq _ _); [discriminate Hl|].
    apply loader_create_length in E0. apply IH in Hl. lia.
Qed.

Lemma load_parts_names files fname_base first k :
  forall i loaders tm loaders' tm',
    llama_model_loader.load_parts files fname_base first k i loaders tm
    = Fine (loaders', tm') ->
    Z.of_nat (length (tensors tm')) < 2 ^ 64 ->
    names_indexed tm /\ untouched tm -> names_indexed tm' /\ untouched tm'.
Proof.
  induction k as [|k IH]; intros i loaders tm loaders' tm' Hl Hlen Hinv;
    cbn [llama_model_loader.load_parts] in Hl.
  - injection Hl as <- <-. exact Hinv.
  - abind_inv Hl.
    destruct (llama_model_loader.hparams_neq _ _); [discriminate Hl|].
    apply (IH _ _ _ _ _ Hl Hlen).
    apply (loader_create_names _ _ _ _ _ E0); [|exact Hinv].
    apply load_parts_length in Hl. lia.
Qed.

Lemma calc_all_keeps_name (x x' : LoadTensor.t) :
  LoadTensor.calc_all x = Fine x' ->
  LoadTensor.name x' = LoadTensor.name x
  /\ LoadTensor.ggml_tensor x' = LoadTensor.ggml_tensor x.
Proof.
  unfold LoadTensor.calc_all. intros Hc. abind_inv Hc.
  unfold LoadTensor.calc_type in E. abind_inv E.
  destruct (forallb _ _); [|discriminate E]. injection E as <-.
  unfold LoadTensor.calc_split_type in E0. abind_inv E0.
  assert (Hs0 : LoadTensor.name a0 = LoadTensor.name x
                /\ LoadTensor.ggml_tensor a0 = LoadTensor.ggml_tensor x).
  { repeat match type of E0 with
           | (if ?c then _ else _) = Fine _ => destruct c
           end; injection E0 as <-; split; reflexivity. }
  unfold LoadTensor.calc_ne in E1. abind_inv E1.
  assert (Hs1 : LoadTensor.name a1 = LoadTensor.name a0
                /\ LoadTensor.ggml_tensor a1 = LoadTensor.ggml_tensor a0).
  { match type of E1 with
    | (if ?c then _ else _) = Fine _ => destruct c; [discriminate E1|]
    end.
    abind_inv E1.
    destruct (LoadTensor.split_type a0); abind_inv E1; injection E1 as <-;
      split; reflexivity. }
  unfold LoadTensor.calc_size in Hc. abind_inv Hc. injection Hc as <-.
  cbn [LoadTensor.set_size LoadTensor.name LoadTensor.ggml_tensor].
  destruct Hs0, Hs1. split; congruence.
Qed.

Lemma calc_all_tensors_names l :
  forall l',
    llama_model_loader.calc_all_tensors l = Fine l' ->
    LoadTensor.name <$> l' = LoadTensor.name <$> l
    /\ (Forall (fun lt => LoadTensor.ggml_tensor lt = false) l ->
        Forall (fun lt => LoadTensor.ggml_tensor lt = false) l').
Proof.
  induction l as [|lt rest IH]; intros l' Hc;
    cbn [llama_model_loader.calc_all_tensors] in Hc.
  - injection Hc as <-. split; [reflexivity | intros _; constructor].
  - abind_inv Hc. injection Hc as <-.
    destruct (calc_all_keeps_name _ _ E) as [Hn Hg].
    destruct (IH _ eq_refl) as [Hns Hgs].
    split.
    + cbn [fmap list_fmap]. f_equal; [exact Hn | exact Hns].
    + intros Hall. inversion Hall; subst. constructor; [congruence | auto].
Qed.

(** The loader as its constructor leaves it: no tensor created, every
    tensor found under its name. *)
Lemma model_loader_create_fresh mmap_supported files fname_base use_mmap vocab_only ml :
  llama_model_loader.create mmap_supported files fname_base use_mmap vocab_only
  = Fine ml ->
  Z.of_nat (length (tensors (llama_model_loader.tensors_map ml))) < 2 ^ 64 ->
  llama_model_loader.num_ggml_tensors_created ml = 0
  /\ names_indexed (llama_model_loader.tensors_map ml)
  /\ untouched (llama_model_loader.tensors_map ml).
Proof.
  unfold llama_model_loader.create. intros Hc. abind_inv Hc.
  rename a into content, t into first, t0 into tm0, a0 into n_parts,
    l into loaders, t1 into tm1, a1 into final.
  injection Hc as <-.
  cbn [llama_model_loader.tensors_map llama_model_loader.num_ggml_tensors_created
       llama_load_tensors_map.tensors].
  intros Hlen. split; [reflexivity|].
  destruct (calc_all_tensors_names _ _ E3) as [Hnames Hun].
  assert (Hl : length final = length (tensors tm1)).
  { rewrite <- (length_fmap LoadTensor.name final), Hnames, length_fmap. reflexivity. }
  assert (Hinv : names_indexed tm1 /\ untouched tm1).
  { apply (load_parts_names _ _ _ _ _ _ _ _ _ E2); [lia|].
    apply (loader_create_names _ _ _ _ _ E0).
    - apply load_parts_length in E2. lia.
    - split; [intros n idx Hn; cbn in Hn; rewrite lookup_empty in Hn; discriminate Hn
             | constructor]. }
  destruct Hinv as [Hwf Hu]. split; [|apply Hun; exact Hu].
  unfold names_indexed in *.
  cbn [llama_load_tensors_map.tensors llama_load_tensors_map.name_to_idx].
  rewrite Hnames. exact Hwf.
Qed.

Lemma model_loader_create_num mmap_supported files fname_base use_mmap vocab_only ml :
  llama_model_loader.create mmap_supported files fname_base use_mmap vocab_only
  = Fine ml ->
  llama_model_loader.num_ggml_tensors_created ml = 0
  /\ llama_model_loader.mapping ml = None.
Proof.
  unfold llama_model_loader.create. intros Hc. abind_inv Hc. injection Hc as <-.
  split; reflexivity.
Qed.

End TensorNames.

Section TensorRequests.

Local Abbreviation tensors_of ml :=
  (llama_load_tensors_map.tensors (llama_model_loader.tensors_map ml)).
Local Abbreviation index_of ml :=
  (llama_load_tensors_map.name_to_idx (llama_model_loader.tensors_map ml)).

(** A successful [get_tensor] finds a tensor of the requested shape
    that has not been created yet, and marks it. *)
Lemma get_tensor_marks ml name ne request ml' :
  llama_model_loader.get_tensor ml name ne = Fine (request, ml') ->
  exists idx lt,
    index_of ml !! name = Some (Z.of_nat idx)
    /\ tensors_of ml !! idx = Some lt
    /\ LoadTensor.ne lt = ne
    /\ LoadTensor.ggml_tensor lt = false
    /\ request = {| request_type := LoadTensor.type lt; request_ne := ne |}
    /\ tensors_of ml' = <[idx := LoadTensor.set_ggml_tensor true lt]> (tensors_of ml)
    /\ index_of ml' = index_of ml
    /\ llama_model_loader.num_ggml_tensors_created ml'
       = size_t (llama_model_loader.num_ggml_tensors_created ml + 1)
    /\ llama_model_loader.file_loaders ml' = llama_model_loader.file_loaders ml
    /\ llama_model_loader.use_mmap ml' = llama_model_loader.use_mmap ml
    /\ llama_model_loader.mapping ml' = llama_model_loader.mapping ml.
Proof.
  unfold llama_model_loader.get_tensor. intros Hg.
  destruct (index_of ml !! name) as [idx|] eqn:Hidx; [|discriminate Hg].
  destruct (vec_checked_at (tensors_of ml) idx) as [lt|] eqn:Hat; cbn [abind] in Hg;
    [|discriminate Hg].
  apply vec_checked_at_Fine in Hat. unfold vec_at in Hat.
  destruct (Z.leb_spec 0 idx) as [H0|]; [|discriminate Hat].
  destruct (tensors_of ml !! Z.to_nat idx) as [lt'|] eqn:Hl; cbn in Hat; [|discriminate Hat].
  injection Hat as ->.
  destruct (LoadTensor.ne_eqb (LoadTensor.ne lt) ne) eqn:Hne; cbn [negb] in Hg;
    [|discriminate Hg].
  apply ne_eqb_eq in Hne.
  unfold llama_model_loader.get_tensor_for in Hg.
  exists (Z.to_nat idx), lt. rewrite Z2Nat.id by exact H0.
  match type of Hg with
  | abind ?r _ = _ => destruct r as [q|] eqn:Hq; cbn [abind] in Hg; [|discriminate Hg]
  end.
  assert (Hqe : q = {| request_type := LoadTensor.type lt;
                       request_ne := LoadTensor.ne lt |}).
  { clear Hg. revert Hq.
    destruct (Z.eqb_spec (Z.of_nat (length (LoadTensor.ne lt))) 2) as [E2|E2].
    - destruct (LoadTensor.ne lt) as [|d0 [|d1 [|d2 rest]]]; cbn [length] in E2; try lia.
      cbn. intros [= <-]. reflexivity.
    - destruct (Z.eqb_spec (Z.of_nat (length (LoadTensor.ne lt))) 1) as [E1|E1];
        cbn [LLAMA_ASSERT lift abind]; [|discriminate].
      destruct (LoadTensor.ne lt) as [|d0 [|d1 rest]]; cbn [length] in E1; try lia.
      cbn. intros [= <-]. reflexivity. }
  subst q.
  destruct (LoadTensor.ggml_tensor lt) eqn:Hc; cbn [negb LLAMA_ASSERT lift abind] in Hg;
    [discriminate Hg|].
  injection Hg as <- <-.
  cbn [llama_model_loader.tensors_map llama_load_tensors_map.tensors
       llama_load_tensors_map.name_to_idx llama_model_loader.num_ggml_tensors_created].
  subst ne. repeat split; auto.
Qed.

(** The tensors that a run of successful [get_tensor] calls has
    created: one for every call, no one twice. *)
Lemma get_tensors_marks requests :
  forall ml results ml',
    llama_model_loader.get_tensors ml requests = Fine (results, ml') ->
    exists idxs : list nat,
      Forall2 (fun req idx =>
                 index_of ml !! req.1 = Some (Z.of_nat idx)
                 /\ exists lt, tensors_of ml !! idx = Some lt
                               /\ LoadTensor.ggml_tensor lt = false
                               /\ LoadTensor.ne lt = req.2) requests idxs
      /\ NoDup idxs
      /\ Forall2 (fun req res => request_ne res = req.2) requests results
      /\ (0 <= llama_model_loader.num_ggml_tensors_created ml < 2 ^ 64 ->
          llama_model_loader.num_ggml_tensors_created ml'
          = size_t (llama_model_loader.num_ggml_tensors_created ml
                    + Z.of_nat (length requests)))
      /\ length (tensors_of ml') = length (tensors_of ml)
      /\ index_of ml' = index_of ml
      /\ (forall j,
            tensors_of ml' !! j
            = (fun lt => if bool_decide (j ∈ idxs)
                         then LoadTensor.set_ggml_tensor true lt else lt)
              <$> tensors_of ml !! j)
      /\ llama_model_loader.file_loaders ml' = llama_model_loader.file_loaders ml
      /\ llama_model_loader.use_mmap ml' = llama_model_loader.use_mmap ml
      /\ llama_model_loader.mapping ml' = llama_model_loader.mapping ml.
Proof.
  induction requests as [|[name ne] rest IH]; intros ml results ml' Hg;
    cbn [llama_model_loader.get_tensors] in Hg.
  - injection Hg as <- <-. exists []. cbn [length].
    rewrite Z.add_0_r.
    split; [constructor|]. split; [constructor|]. split; [constructor|].
    split; [intros Hr; unfold size_t, wrap; symmetry; apply Z.mod_small; exact Hr|].
    split; [reflexivity|]. split; [reflexivity|].
    split; [|repeat split].
    intros j. rewrite bool_decide_eq_false_2 by apply not_elem_of_nil.
    destruct (tensors_of ml !! j); reflexivity.
  - destruct (llama_model_loader.get_tensor ml name ne) as [[request ml1]|] eqn:Hone;
      cbn [abind] in Hg; [|discriminate Hg].
    destruct (llama_model_loader.get_tensors ml1 rest) as [[results1 ml2]|] eqn:Hrest;
      cbn [abind] in Hg; [|discriminate Hg].
    injection Hg as <- <-.
    destruct (get_tensor_marks _ _ _ _ _ Hone)
      as (idx & lt & Hidx & Hlt & Hne & Hfresh & Hreq & Htensors & Hindex & Hnum
          & Hfl & Hum & Hmp).
    destruct (IH _ _ _ Hrest)
      as (idxs & Hall & Hnd & Hres & Hnum' & Hlen & Hindex' & Hset & Hfl' & Hum' & Hmp').
    exists (idx :: idxs).
    assert (Hback : Forall2
              (fun req idx' =>
                 idx' <> idx
                 /\ index_of ml !! req.1 = Some (Z.of_nat idx')
                 /\ exists lt', tensors_of ml !! idx' = Some lt'
                                /\ LoadTensor.ggml_tensor lt' = false
                                /\ LoadTensor.ne lt' = req.2) rest idxs).
    { eapply Forall2_impl; [exact Hall|].
      intros req idx' (Hi & lt' & Hl' & Hf' & Hn'). cbn beta in *.
      rewrite Htensors in Hl'.
      destruct (decide (idx' = idx)) as [->|Hneq].
      - rewrite list_lookup_insert_eq in Hl' by (apply lookup_lt_Some in Hlt; exact Hlt).
        injection Hl' as <-. discriminate Hf'.
      - rewrite list_lookup_insert_ne in Hl' by congruence.
        rewrite Hindex in Hi. split; [exact Hneq|]. split; [exact Hi|].
        exists lt'. auto. }
    split.
    { constructor.
      - cbn [fst snd]. split; [exact Hidx|]. exists lt. auto.
      - eapply Forall2_impl; [exact Hback|]. cbn beta. intros req idx' (_ & Hi & Hl). auto. }
    assert (Hnd' : NoDup (idx :: idxs)).
    { constructor; [|exact Hnd].
      intros Hin. apply list_elem_of_In in Hin.
      pose proof Hback as Hback'.
      apply (Forall2_Forall_r _ (fun idx' => idx' <> idx)) in Hback'.
      - rewrite Forall_forall in Hback'. apply (Hback' idx); [|reflexivity].
        apply list_elem_of_In. exact Hin.
      - apply Forall_forall. intros req _ idx' Hx. apply Hx. }
    split; [exact Hnd'|].
    split.
    { constructor; [rewrite Hreq; reflexivity | exact Hres]. }
    split.
    { intros Hr. rewrite Hnum', Hnum.
      - unfold size_t, wrap. cbn [length].
        rewrite Zplus_mod_idemp_l. f_equal. lia.
      - rewrite Hnum. unfold size_t, wrap. apply Z.mod_pos_bound. lia. }
    split.
    { rewrite Hlen, Htensors, length_insert. reflexivity. }
    split; [congruence|].
    split; [|repeat split; congruence].
    intros j. rewrite Hset, Htensors.
    destruct (decide (j = idx)) as [->|Hneq].
    + rewrite list_lookup_insert_eq by (apply lookup_lt_Some in Hlt; exact Hlt).
      rewrite Hlt. cbn [fmap option_fmap option_map].
      rewrite (bool_decide_eq_true_2 (idx ∈ idx :: idxs))
        by (apply elem_of_cons; left; reflexivity).
      inversion Hnd'; subst.
      rewrite (bool_decide_eq_false_2 (idx ∈ idxs)) by assumption. reflexivity.
    + rewrite list_lookup_insert_ne by congruence.
      destruct (tensors_of ml !! j) as [ltj|]; [|reflexivity].
      cbn [fmap option_fmap option_map]. f_equal.
      destruct (bool_decide (j ∈ idxs)) eqn:Hd.
      * apply bool_decide_eq_true_1 in Hd.
        rewrite (bool_decide_eq_true_2 (j ∈ idx :: idxs))
          by (apply elem_of_cons; right; exact Hd).
        reflexivity.
      * apply bool_decide_eq_false_1 in Hd.
        rewrite (bool_decide_eq_false_2 (j ∈ idx :: idxs)); [reflexivity|].
        intros Hin. apply elem_of_cons in Hin. destruct Hin; [congruence | contradiction].
Qed.

Lemma omap_lookup_seq {A : Type} (T : list A) : forall n k,
  (k + n <= length T)%nat ->
  omap (fun i => T !! i) (seq k n) = take n (drop k T).
Proof.
  induction n as [|n IH]; intros k Hk; [reflexivity|].
  cbn [seq omap list_omap].
  destruct (T !! k) as [x|] eqn:Hx; [|apply lookup_ge_None in Hx; lia].
  rewrite (drop_S _ _ _ Hx). cbn [take]. f_equal. apply IH. lia.
Qed.

(** Values found at pairwise different places of a list that are as
    many as the list is long are the list, up to order. *)
Lemma lookups_permutation {A : Type} (T xs : list A) (idxs : list nat) :
  Forall2 (fun x i => T !! i = Some x) xs idxs ->
  NoDup idxs ->
  (length xs <= length T)%nat
  /\ (length xs = length T -> xs ≡ₚ T /\ idxs ≡ₚ seq 0 (length T)).
Proof.
  intros Hall Hnd.
  assert (Hsub : idxs ⊆+ seq 0 (length T)).
  { apply NoDup_submseteq; [exact Hnd|].
    intros i Hi. apply elem_of_seq.
    apply (Forall2_Forall_r _ (fun i => (i < length T)%nat)) in Hall.
    - rewrite Forall_forall in Hall. specialize (Hall i Hi). lia.
    - apply Forall_forall. intros x _ j Hj. apply lookup_lt_Some in Hj. exact Hj. }
  pose proof (Forall2_length _ _ _ Hall) as Hlen.
  pose proof (submseteq_length _ _ Hsub) as Hle. rewrite length_seq in Hle.
  split; [lia|]. intros Heq.
  assert (Hperm : idxs ≡ₚ seq 0 (length T)).
  { apply submseteq_length_Permutation; [exact Hsub|]. rewrite length_seq. lia. }
  assert (Hxs : omap (fun i => T !! i) idxs = xs).
  { clear -Hall. induction Hall as [|x i xs idxs Hx _ IH]; [reflexivity|].
    cbn [omap list_omap]. rewrite Hx, IH. reflexivity. }
  split; [|exact Hperm].
  rewrite <- Hxs, Hperm, omap_lookup_seq by lia.
  rewrite drop_0, firstn_all. reflexivity.
Qed.

Lemma keys_distinct {A B : Type} (f : A -> option B) (xs : list A) (ys : list B) :
  Forall2 (fun x y => f x = Some y) xs ys -> NoDup ys -> NoDup xs.
Proof.
  induction 1 as [|x y xs ys Hxy Hall IH]; intros Hnd; [constructor|].
  inversion Hnd as [|? ? Hnotin Hnd']; subst.
  constructor; [|apply IH; exact Hnd'].
  intros Hin. apply Hnotin.
  apply list_elem_of_lookup_1 in Hin.
  destruct Hin as [j Hj].
  destruct (Forall2_lookup_l _ _ _ _ _ Hall Hj) as (y' & Hy' & Hf).
  rewrite Hxy in Hf. injection Hf as <-.
  eapply list_elem_of_lookup_2. exact Hy'.
Qed.

(** The calls that have succeeded on a loader that has not created a
    tensor yet, against the tensors of the map. *)
Lemma get_tensors_cover ml requests results ml' :
  llama_model_loader.num_ggml_tensors_created ml = 0 ->
  names_indexed (llama_model_loader.tensors_map ml) ->
  Z.of_nat (length (tensors_of ml)) < 2 ^ 64 ->
  llama_model_loader.get_tensors ml requests = Fine (results, ml') ->
  NoDup (fst <$> requests)
  /\ (length requests <= length (tensors_of ml))%nat
  /\ Forall2 (fun req res => request_ne res = req.2) requests results
  /\ (llama_model_loader.done_getting_tensors ml' = Fine tt
      <-> length requests = length (tensors_of ml))
  /\ (llama_model_loader.done_getting_tensors ml' = Fine tt ->
      requests ≡ₚ (fun lt => (LoadTensor.name lt, LoadTensor.ne lt)) <$> tensors_of ml
      /\ tensors_of ml' = LoadTensor.set_ggml_tensor true <$> tensors_of ml).
Proof.
  intros Hnum Hwf Hlen Hget.
  destruct (get_tensors_marks _ _ _ _ Hget)
    as (idxs & Hall & Hnd & Hres & Hnum' & Hlen' & _ & Hset & _).
  assert (Hpairs : Forall2
            (fun req i =>
               ((fun lt => (LoadTensor.name lt, LoadTensor.ne lt)) <$> tensors_of ml) !! i
               = Some req) requests idxs).
  { eapply Forall2_impl; [exact Hall|].
    intros [name ne] i (Hi & lt & Hl & _ & Hne). cbn [fst snd] in *.
    destruct (Hwf _ _ Hi) as [_ Hname]. rewrite Nat2Z.id in Hname.
    rewrite list_lookup_fmap, Hl in Hname. injection Hname as Hname.
    rewrite list_lookup_fmap, Hl. cbn. congruence. }
  destruct (lookups_permutation _ _ _ Hpairs Hnd) as [Hle Hperm].
  rewrite length_fmap in Hle, Hperm.
  assert (Hdone : llama_model_loader.done_getting_tensors ml' = Fine tt
                  <-> length requests = length (tensors_of ml)).
  { unfold llama_model_loader.done_getting_tensors. rewrite Hlen'.
    rewrite Hnum' by (rewrite Hnum; lia).
    rewrite Hnum, Z.add_0_l. unfold size_t, wrap. rewrite Z.mod_small by lia.
    destruct (Z.eqb_spec (Z.of_nat (length requests))
                (Z.of_nat (length (tensors_of ml))));
      cbn [negb]; split; intros Hx; try reflexivity; try discriminate Hx; lia. }
  split.
  { apply (keys_distinct (fun name => index_of ml !! name) _ (Z.of_nat <$> idxs)).
    - apply Forall2_fmap. eapply Forall2_impl; [exact Hall|].
      intros req i [Hi _]. exact Hi.
    - apply NoDup_fmap; [|exact Hnd]. intros a b Hab. lia. }
  split; [exact Hle|]. split; [exact Hres|]. split; [exact Hdone|].
  intros Hd. destruct (Hperm (proj1 Hdone Hd)) as [Hp Hidxs].
  split; [exact Hp|].
  apply list_eq. intros j. rewrite Hset, list_lookup_fmap.
  destruct (tensors_of ml !! j) as [lt|] eqn:Hj; [|reflexivity].
  cbn [fmap option_fmap option_map].
  rewrite bool_decide_eq_true_2; [reflexivity|].
  rewrite Hidxs. apply elem_of_seq. apply lookup_lt_Some in Hj. lia.
Qed.

(** When [done_getting_tensors] accepts the calls made on a new
    loader, the tensors of the map can be counted in a [size_t]. *)
Lemma done_getting_bound ml requests results ml' :
  llama_model_loader.num_ggml_tensors_created ml = 0 ->
  llama_model_loader.get_tensors ml requests = Fine (results, ml') ->
  llama_model_loader.done_getting_tensors ml' = Fine tt ->
  Z.of_nat (length (tensors_of ml)) < 2 ^ 64.
Proof.
  intros Hnum Hget Hdone.
  destruct (get_tensors_marks _ _ _ _ Hget)
    as (idxs & _ & _ & _ & Hnum' & Hlen' & _).
  unfold llama_model_loader.done_getting_tensors in Hdone.
  rewrite Hlen', Hnum' in Hdone by (rewrite Hnum; lia).
  match type of Hdone with
  | (if negb (?a =? ?b) then _ else _) = _ =>
      destruct (Z.eqb_spec a b) as [Heq|]; [|discriminate Hdone]
  end.
  rewrite <- Heq. unfold size_t, wrap. apply Z.mod_pos_bound. lia.
Qed.

End TensorRequests.

(** X17.  The tensors that [llama_model_load_internal] may ask a loader
    for are the tensors of the files, each once.  When a run of
    [get_tensor] calls on a new loader has succeeded, the names asked
    for are pairwise different and they are not more than the files
    hold; [done_getting_tensors] then succeeds exactly when they are
    as many, and in that case the names and shapes asked for are the
    names and shapes of the tensors of the files, up to order. *)
Theorem requested_tensors_are_the_files `{GgmlTypes} (mmap_supported : bool)
    (files : string -> option (list byte)) (fname_base : string)
    (use_mmap vocab_only : bool) (ml : llama_model_loader.t)
    (requests : list (string * list Z)) (results : list tensor_request)
    (ml' : llama_model_loader.t) :
  let tensors :=
    llama_load_tensors_map.tensors (llama_model_loader.tensors_map ml) in
  llama_model_loader.create mmap_supported files fname_base use_mmap vocab_only
  = Fine ml ->
  Z.of_nat (length tensors) < 2 ^ 64 ->
  llama_model_loader.get_tensors ml requests = Fine (results, ml') ->
  NoDup (fst <$> requests)
  /\ (length requests <= length tensors)%nat
  /\ Forall2 (fun req res => request_ne res = req.2) requests results
  /\ (llama_model_loader.done_getting_tensors ml' = Fine tt
      <-> length requests = length tensors)
  /\ (llama_model_loader.done_getting_tensors ml' = Fine tt ->
      requests ≡ₚ (fun lt => (LoadTensor.name lt, LoadTensor.ne lt)) <$> tensors).
Proof.
  intros tensors Hcreate Hlen Hget.
  destruct (model_loader_create_fresh _ _ _ _ _ _ Hcreate Hlen) as (Hnum & Hwf & _).
  destruct (get_tensors_cover _ _ _ _ Hnum Hwf Hlen Hget)
    as (Hnd & Hle & Hres & Hdone & Hperm).
  split; [exact Hnd|]. split; [exact Hle|]. split; [exact Hres|].
  split; [exact Hdone|]. intros Hd. apply Hperm. exact Hd.
Qed.

Lemma requested_tensors_are_the_files_witness :
  llama_model_loader.done_getting_tensors (SampleModel.loaded true) = Fine tt
  /\ [("norm.weight"%string, [3])]
       ≡ₚ (fun lt => (LoadTensor.name lt, LoadTensor.ne lt))
          <$> llama_load_tensors_map.tensors
                (llama_model_loader.tensors_map (SampleModel.loaded false)).
Proof.
  destruct (requested_tensors_are_the_files (H := ggml_types) true SampleModel.files
              "model.bin" true true (SampleModel.loaded false)
              [("norm.weight"%string, [3])]
              [{| request_type := GGML_TYPE_F32; request_ne := [3] |}]
              (SampleModel.loaded true))
    as (_ & _ & _ & Hdone & Hperm).
  - vm_compute. reflexivity.
  - cbn. lia.
  - vm_compute. reflexivity.
  - assert (Hd : llama_model_loader.done_getting_tensors (SampleModel.loaded true)
                 = Fine tt) by (apply Hdone; reflexivity).
    split; [exact Hd | exact (Hperm Hd)].
Defined.

(** ** Loading the data of a tensor *)

Section LoadData.

(** [memcpy(data + offset, bs, len(bs))] behind what has been written
    so far. *)
Lemma poke_next (acc bs data : list byte) offset :
  offset = Z.of_nat (length acc) ->
  (length acc + length bs <= length data)%nat ->
  (let+ c := lift (cursor.advance offset
                     (cursor.start (acc ++ drop (length acc) data))) in
   let+ c := lift (cursor.poke bs c) in
   Fine (cursor.memory c))
  = Fine ((acc ++ bs) ++ drop (length (acc ++ bs)) data).
Proof.
  intros -> Hlen. unfold cursor.start.
  rewrite advance_app by reflexivity. cbn [lift abind app].
  rewrite poke_ok by (rewrite length_drop; lia). cbn [lift abind].
  unfold cursor.memory. cbn [cursor.before cursor.ahead].
  rewrite drop_drop, length_app, <- app_assoc. reflexivity.
Qed.

Lemma read_into_next file_loaders file_idx file_off (payload acc data : list byte)
    size offset :
  bytes_at (file_contents file_loaders) file_idx file_off payload ->
  size = Z.of_nat (length payload) ->
  offset = Z.of_nat (length acc) ->
  (length acc + length payload <= length data)%nat ->
  exists file_loaders',
    llama_model_loader.read_into file_loaders file_idx file_off size
      (acc ++ drop (length acc) data) offset
    = Fine ((acc ++ payload) ++ drop (length (acc ++ payload)) data, file_loaders')
    /\ file_contents file_loaders' = file_contents file_loaders.
Proof.
  intros (Hidx & Hoff & bytes & Hbytes & Hpay) -> -> Hlen.
  unfold file_contents in Hbytes. rewrite list_lookup_fmap in Hbytes.
  destruct (file_loaders !! Z.to_nat file_idx) as [loader|] eqn:Hld;
    [|discriminate Hbytes].
  injection Hbytes as Hbytes.
  unfold llama_model_loader.read_into, vec_checked_at, vec_at.
  replace (0 <=? file_idx) with true by (symmetry; apply Z.leb_le; exact Hidx).
  rewrite Hld. cbn [of_option abind].
  assert (Hread : exists file,
             llama_file.read_raw (Z.of_nat (length payload))
               (llama_file.seek_set file_off (llama_file_loader.file loader))
             = Ok (payload, file)
             /\ llama_file.bytes file = bytes).
  { unfold llama_file.read_raw.
    destruct (Z.eqb_spec (Z.of_nat (length payload)) 0) as [E0|E0].
    - destruct payload; [|cbn in E0; lia].
      eexists. split; [reflexivity|]. exact Hbytes.
    - eexists. unfold llama_file.ahead, llama_file.size, llama_file.seek_set,
        llama_file.seek_cur. cbn [llama_file.pos llama_file.bytes].
      rewrite Hbytes, Nat2Z.id, Hpay.
      assert (Hl : (length payload <= length (drop (Z.to_nat file_off) bytes))%nat).
      { rewrite <- Hpay at 1. rewrite length_take. lia. }
      rewrite length_drop in Hl.
      replace ((0 <=? file_off) && (0 <=? Z.of_nat (length payload))
               && (file_off + Z.of_nat (length payload) <=? Z.of_nat (length bytes)))
        with true
        by (symmetry; rewrite !andb_true_iff; repeat split; apply Z.leb_le; lia).
      split; reflexivity. }
  destruct Hread as (file & -> & Hfile). cbn [lift abind].
  pose proof (poke_next acc payload data (Z.of_nat (length acc)) eq_refl Hlen) as Hp.
  destruct (lift (cursor.advance (Z.of_nat (length acc))
                    (cursor.start (acc ++ drop (length acc) data)))) as [c|];
    cbn [abind] in Hp |- *; [|discriminate Hp].
  destruct (lift (cursor.poke payload c)) as [c'|]; cbn [abind] in Hp |- *;
    [|discriminate Hp].
  injection Hp as ->.
  eexists. split; [reflexivity|].
  unfold file_contents. rewrite list_fmap_insert. cbn [llama_file_loader.file].
  apply list_insert_id. rewrite list_lookup_fmap, Hld. cbn. congruence.
Qed.

Lemma load_rows_concat contents shards payloads :
  Forall2 (shard_holds contents) shards payloads ->
  forall file_loaders (acc data : list byte) offset,
    file_contents file_loaders = contents ->
    offset = Z.of_nat (length acc) ->
    (length acc + length (concat payloads) <= length data)%nat ->
    Z.of_nat (length data) < 2 ^ 64 ->
    exists file_loaders',
      llama_model_loader.load_rows shards file_loaders
        (acc ++ drop (length acc) data) offset
      = Fine ((acc ++ concat payloads) ++ drop (length (acc ++ concat payloads)) data,
              file_loaders', Z.of_nat (length (acc ++ concat payloads)))
      /\ file_contents file_loaders' = contents.
Proof.
  induction 1 as [|shard payload shards payloads [Hat Hsize] Hall IH];
    intros file_loaders acc data offset Hc -> Hlen Hdata;
    cbn [llama_model_loader.load_rows concat].
  - rewrite app_nil_r. exists file_loaders. split; [reflexivity | exact Hc].
  - cbn [concat] in Hlen. rewrite length_app in Hlen.
    rewrite <- Hc in Hat.
    destruct (read_into_next file_loaders _ _ payload acc data
                (llama_load_tensor_shard.size shard) (Z.of_nat (length acc))
                Hat Hsize eq_refl) as (fl1 & -> & Hc1); [lia|].
    cbn [abind].
    destruct (IH fl1 (acc ++ payload) data
                (size_t (Z.of_nat (length acc) + llama_load_tensor_shard.size shard)))
      as (fl2 & Hrows & Hc2).
    + rewrite Hc1. exact Hc.
    + rewrite Hsize, length_app. unfold size_t, wrap. rewrite Z.mod_small; lia.
    + rewrite length_app. lia.
    + exact Hdata.
    + exists fl2. rewrite Hrows, <- !app_assoc. split; [reflexivity | exact Hc2].
Qed.

Lemma load_tmp_bufs_payloads contents shards payloads :
  Forall2 (shard_holds contents) shards payloads ->
  forall file_loaders,
    file_contents file_loaders = contents ->
    exists file_loaders',
      llama_model_loader.load_tmp_bufs shards file_loaders = Fine (payloads, file_loaders')
      /\ file_contents file_loaders' = contents.
Proof.
  induction 1 as [|shard payload shards payloads [Hat Hsize] Hall IH];
    intros file_loaders Hc; cbn [llama_model_loader.load_tmp_bufs].
  - exists file_loaders. split; [reflexivity | exact Hc].
  - rewrite <- Hc in Hat.
    destruct (read_into_next file_loaders _ _ payload []
                (replicate (Z.to_nat (llama_load_tensor_shard.size shard)) x00)
                (llama_load_tensor_shard.size shard) 0 Hat Hsize eq_refl)
      as (fl1 & Hread & Hc1).
    { rewrite length_replicate. cbn [length]. lia. }
    cbn [app length] in Hread. rewrite drop_0 in Hread. rewrite Hread. cbn [abind].
    destruct (IH fl1) as (fl2 & -> & Hc2); [rewrite Hc1; exact Hc|].
    cbn [abind]. exists fl2.
    rewrite drop_ge by (rewrite length_replicate; lia).
    rewrite app_nil_r. split; [reflexivity | exact Hc2].
Qed.

Lemma memcpy_at_next (acc data src : list byte) (from n : nat) out_offset src_offset :
  out_offset = Z.of_nat (length acc) ->
  src_offset = Z.of_nat from ->
  (from + n <= length src)%nat ->
  (length acc + n <= length data)%nat ->
  llama_model_loader.memcpy_at (acc ++ drop (length acc) data) out_offset src
    src_offset (Z.of_nat n)
  = Fine ((acc ++ take n (drop from src))
          ++ drop (length (acc ++ take n (drop from src))) data).
Proof.
  intros -> -> Hsrc Hlen. unfold llama_model_loader.memcpy_at, cursor.start.
  rewrite <- (take_drop from src) at 1.
  rewrite advance_app by (rewrite length_take; lia). cbn [lift abind app].
  rewrite <- (take_drop n (drop from src)) at 1.
  rewrite peek_app by (rewrite length_take, length_drop; lia). cbn [lift abind].
  apply (poke_next acc (take n (drop from src)) data _ eq_refl).
  rewrite length_take, length_drop. lia.
Qed.

Lemma copy_row_next (row per : nat) (bufs : list (list byte)) :
  Forall (fun buf => (row * per + per <= length buf)%nat
                     /\ Z.of_nat (length buf) < 2 ^ 64) bufs ->
  forall (acc data : list byte) out_offset,
    out_offset = Z.of_nat (length acc) ->
    let copied := flat_map (fun buf => take per (drop (row * per) buf)) bufs in
    (length acc + length copied <= length data)%nat ->
    Z.of_nat (length data) < 2 ^ 64 ->
    llama_model_loader.copy_row bufs (Z.of_nat row) (Z.of_nat per)
      (acc ++ drop (length acc) data) out_offset
    = Fine ((acc ++ copied) ++ drop (length (acc ++ copied)) data,
            Z.of_nat (length (acc ++ copied))).
Proof.
  induction 1 as [|buf bufs [Hbuf Hsmall] Hall IH]; intros acc data out_offset -> copied
    Hlen Hdata; subst copied; cbn [llama_model_loader.copy_row flat_map].
  - rewrite app_nil_r. reflexivity.
  - cbn [flat_map] in Hlen. rewrite length_app, length_take, length_drop in Hlen.
    rewrite (memcpy_at_next acc data buf (row * per) per).
    + cbn [abind]. rewrite IH.
      * rewrite <- !app_assoc. reflexivity.
      * rewrite length_app, length_take, length_drop.
        unfold size_t, wrap. rewrite Z.mod_small; lia.
      * rewrite length_app, length_take, length_drop. lia.
      * exact Hdata.
    + reflexivity.
    + unfold size_t, wrap. rewrite Z.mod_small; lia.
    + exact Hbuf.
    + lia.
Qed.

Lemma copy_rows_next (per : nat) (bufs : list (list byte)) (k : nat) :
  forall (row : nat) (acc data : list byte) out_offset,
    Forall (fun buf => ((row + k) * per <= length buf)%nat
                       /\ Z.of_nat (length buf) < 2 ^ 64) bufs ->
    out_offset = Z.of_nat (length acc) ->
    let copied :=
      flat_map (fun r => flat_map (fun buf => take per (drop (r * per) buf)) bufs)
        (seq row k) in
    (length acc + length copied <= length data)%nat ->
    Z.of_nat (length data) < 2 ^ 64 ->
    llama_model_loader.copy_rows k (Z.of_nat row) bufs (Z.of_nat per)
      (acc ++ drop (length acc) data) out_offset
    = Fine ((acc ++ copied) ++ drop (length (acc ++ copied)) data,
            Z.of_nat (length (acc ++ copied))).
Proof.
  induction k as [|k IH]; intros row acc data out_offset Hbufs -> copied Hlen Hdata;
    subst copied; cbn [llama_model_loader.copy_rows seq flat_map].
  - rewrite app_nil_r. reflexivity.
  - cbn [seq flat_map] in Hlen. rewrite length_app in Hlen.
    rewrite copy_row_next; [| | reflexivity | lia | exact Hdata].
    + cbn [abind]. replace (Z.of_nat row + 1) with (Z.of_nat (S row)) by lia.
      rewrite IH.
      * rewrite <- !app_assoc. reflexivity.
      * eapply Forall_impl; [exact Hbufs|]. cbn beta. intros buf [Hb Hs].
        split; [|exact Hs]. replace (S row + k)%nat with (row + S k)%nat by lia. exact Hb.
      * reflexivity.
      * rewrite length_app. lia.
      * exact Hdata.
    + eapply Forall_impl; [exact Hbufs|]. cbn beta. intros buf [Hb Hs].
      split; [|exact Hs]. nia.
Qed.

Lemma length_row (row per : nat) (bufs : list (list byte)) :
  Forall (fun buf => (row * per + per <= length buf)%nat) bufs ->
  length (flat_map (fun buf => take per (drop (row * per) buf)) bufs)
  = (length bufs * per)%nat.
Proof.
  induction 1 as [|buf bufs Hbuf Hall IH]; [reflexivity|].
  cbn [flat_map length]. rewrite length_app, length_take, length_drop, IH. lia.
Qed.

Lemma length_rows (per : nat) (bufs : list (list byte)) (k : nat) : forall row,
  Forall (fun buf => ((row + k) * per <= length buf)%nat) bufs ->
  length (flat_map (fun r => flat_map (fun buf => take per (drop (r * per) buf)) bufs)
            (seq row k))
  = (k * (length bufs * per))%nat.
Proof.
  induction k as [|k IH]; intros row Hall; [reflexivity|].
  cbn [seq flat_map]. rewrite length_app, length_row, IH.
  - lia.
  - eapply Forall_impl; [exact Hall|]. cbn beta. intros buf Hb.
    replace (S row + k)%nat with (row + S k)%nat by lia. exact Hb.
  - eapply Forall_impl; [exact Hall|]. cbn beta. intros buf Hb. nia.
Qed.

End LoadData.

(** X18.  What [load_data_for] leaves in the buffer of a tensor.  Let
    every shard of the tensor have its data in its file and let the
    buffer have the size of the tensor.  With the mapping in use the
    tensor must have a single shard (the assertion fails otherwise)
    and its data are the mapped file from the offset of the shard.
    Without the mapping: an unsplit tensor gets the data of its first
    shard; a tensor split by rows gets the data of its shards one
    after the other; a tensor split by columns gets, row by row, the
    rows of all shards one after the other.  The contents of the
    files are not changed. *)
Theorem load_data_for_gathers (ml : llama_model_loader.t) (lt : LoadTensor.t)
    (data : list byte) (payloads : list (list byte)) :
  let contents := file_contents (llama_model_loader.file_loaders ml) in
  let loaded (expected : list byte) :=
    exists file_loaders',
      llama_model_loader.load_data_for ml lt data
      = Fine (InBuffer expected, llama_model_loader.set_file_loaders file_loaders' ml)
      /\ file_contents file_loaders' = contents in
  Forall2 (shard_holds contents) (LoadTensor.shards lt) payloads ->
  Z.of_nat (length data) = LoadTensor.size lt ->
  LoadTensor.size lt < 2 ^ 64 ->
  (llama_model_loader.use_mmap ml = true ->
   llama_model_loader.load_data_for ml lt data
   = match LoadTensor.shards lt with
     | [shard] => Fine (InMapping (llama_load_tensor_shard.file_off shard), ml)
     | _ => Throw (Fault AssertFailed)
     end)
  /\ (llama_model_loader.use_mmap ml = false ->
      match LoadTensor.split_type lt with
      | SPLIT_NONE =>
          forall payload rest,
            payloads = payload :: rest -> length payload = length data ->
            loaded payload
      | SPLIT_BY_ROWS =>
          length (concat payloads) = length data -> loaded (concat payloads)
      | SPLIT_BY_COLUMNS =>
          forall num_rows per : nat,
            LoadTensor.ne lt !! 1%nat = Some (Z.of_nat num_rows) ->
            (0 < num_rows)%nat -> payloads <> [] ->
            Forall (fun payload => length payload = (num_rows * per)%nat) payloads ->
            (length payloads * (num_rows * per))%nat = length data ->
            loaded (interleave_rows num_rows per payloads)
      end).
Proof.
  intros contents loaded Hall Hdata Hsize. split.
  - intros Hm. unfold llama_model_loader.load_data_for. rewrite Hm.
    destruct (LoadTensor.shards lt) as [|shard [|shard' rest]]; try reflexivity.
    cbn [length].
    destruct (Z.eqb_spec (Z.of_nat (S (S (length rest)))) 1) as [E|E]; [lia|].
    reflexivity.
  - intros Hm. subst loaded. cbv beta.
    unfold llama_model_loader.load_data_for. rewrite Hm.
    destruct (LoadTensor.split_type lt).
    + (* SPLIT_NONE *)
      intros payload rest -> Hlen.
      inversion Hall as [|shard ? shards ? [Hat Hs] Hrest Hsh]; subst.
      change (vec_checked_at (shard :: shards) 0) with (Fine shard). cbn [abind].
      destruct (read_into_next (llama_model_loader.file_loaders ml) _ _ payload [] data
                  (LoadTensor.size lt) 0 Hat) as (fl1 & Hread & Hc1);
        [lia | reflexivity | cbn [length]; lia |].
      cbn [app length] in Hread. rewrite drop_0 in Hread. rewrite Hread. cbn [abind].
      exists fl1. rewrite drop_ge by lia. rewrite app_nil_r.
      split; [reflexivity | exact Hc1].
    + (* SPLIT_BY_COLUMNS *)
      intros num_rows per Hrows Hpos Hne Hlens Htotal.
      destruct (load_tmp_bufs_payloads contents _ _ Hall
                  (llama_model_loader.file_loaders ml) eq_refl) as (fl1 & -> & Hc1).
      cbn [abind].
      assert (Hv : vec_checked_at (LoadTensor.ne lt) 1 = Fine (Z.of_nat num_rows)).
      { unfold vec_checked_at. change 1 with (Z.of_nat 1).
        rewrite (proj2 (vec_at_nat _ 1%nat _) Hrows). reflexivity. }
      rewrite Hv. cbn [abind].
      destruct Hall as [|shard payload shards payloads [Hat Hs] Hrest]; [congruence|].
      change (vec_checked_at (shard :: shards) 0) with (Fine shard). cbn [abind].
      replace (Z.of_nat num_rows =? 0) with false by (symmetry; apply Z.eqb_neq; lia).
      inversion Hlens as [|? ? Hp0 Hps]; subst.
      rewrite Hs, Hp0, Nat2Z.inj_mul, Z.mul_comm, Z.div_mul by lia.
      rewrite Nat2Z.id.
      assert (Hbufs : Forall (fun buf => ((0 + num_rows) * per <= length buf)%nat
                                         /\ Z.of_nat (length buf) < 2 ^ 64)
                        (payload :: payloads)).
      { eapply Forall_impl; [exact Hlens|]. cbn beta. intros buf Hb.
        cbn [length] in Htotal. split; [lia | nia]. }
      assert (Hcopied : length (interleave_rows num_rows per (payload :: payloads))
                        = length data).
      { unfold interleave_rows. rewrite length_rows.
        - rewrite <- Htotal. lia.
        - eapply Forall_impl; [exact Hbufs|]. cbn beta. intros buf [Hb _]. exact Hb. }
      pose proof (copy_rows_next per (payload :: payloads) num_rows 0 [] data 0
                    Hbufs eq_refl) as Hcopy.
      cbn zeta in Hcopy. fold (interleave_rows num_rows per (payload :: payloads)) in Hcopy.
      cbn [app length] in Hcopy. rewrite drop_0 in Hcopy.
      change (Z.of_nat 0) with 0 in Hcopy.
      rewrite Hcopy by lia. cbn [abind].
      rewrite Hcopied, Hdata, Z.eqb_refl. cbn [LLAMA_ASSERT lift abind].
      exists fl1. rewrite drop_ge by lia. rewrite app_nil_r.
      split; [reflexivity | exact Hc1].
    + (* SPLIT_BY_ROWS *)
      intros Hlen.
      destruct (load_rows_concat contents _ _ Hall (llama_model_loader.file_loaders ml)
                  [] data 0 eq_refl eq_refl) as (fl1 & Hrows & Hc1);
        [cbn [length]; lia | lia |].
      cbn [app length] in Hrows. rewrite drop_0 in Hrows. rewrite Hrows. cbn [abind].
      rewrite Hlen, Hdata, Z.eqb_refl. cbn [LLAMA_ASSERT lift abind].
      exists fl1. rewrite drop_ge by lia. rewrite app_nil_r.
      split; [reflexivity | exact Hc1].
Qed.

Lemma load_data_for_gathers_witness :
  exists file_loaders',
    llama_model_loader.load_data_for SampleModel.two_parts SampleModel.by_columns
      (replicate 8 x00)
    = Fine (InBuffer [x01; x02; x05; x06; x03; x04; x07; x08],
            llama_model_loader.set_file_loaders file_loaders' SampleModel.two_parts)
    /\ file_contents file_loaders'
       = [[x01; x02; x03; x04]; [x05; x06; x07; x08]].
Proof.
  destruct (load_data_for_gathers SampleModel.two_parts SampleModel.by_columns
              (replicate 8 x00) [[x01; x02; x03; x04]; [x05; x06; x07; x08]])
    as [_ Hload].
  - repeat constructor; cbn; try lia; eexists; split; reflexivity.
  - reflexivity.
  - cbn. lia.
  - refine (Hload eq_refl 2%nat 2%nat _ _ _ _ _).
    + reflexivity.
    + lia.
    + discriminate.
    + repeat constructor.
    + reflexivity.
Defined.

(** ** The files of a model *)

Section ModelFiles.
Context `{GgmlTypes}.

Lemma map_extends_refl tm : map_extends tm tm.
Proof.
  split; [auto|]. intros j lt Hj. exists lt, []. rewrite app_nil_r. auto.
Qed.

Lemma map_extends_trans tm1 tm2 tm3 :
  map_extends tm1 tm2 -> map_extends tm2 tm3 -> map_extends tm1 tm3.
Proof.
  intros [Hn12 Ht12] [Hn23 Ht23]. split; [auto|].
  intros j lt Hj.
  destruct (Ht12 _ _ Hj) as (lt2 & more2 & Hj2 & Hs2).
  destruct (Ht23 _ _ Hj2) as (lt3 & more3 & Hj3 & Hs3).
  exists lt3, (more2 ++ more3). split; [exact Hj3|].
  rewrite Hs3, Hs2, app_assoc. reflexivity.
Qed.

Lemma read_tensor_record_extends ver file_idx f tm f' tm' :
  llama_file_loader.read_tensor_record ver file_idx f tm = Fine (f', tm') ->
  map_extends tm tm'.
Proof.
  intros Hr.
  destruct (read_tensor_record_adds _ _ _ _ _ _ Hr)
    as (name & shard & base & i & lt & _ & _ & _ & Hbase & Hlt & Htm).
  assert (Hkeep : forall j lt0,
             llama_load_tensors_map.tensors tm !! j = Some lt0 -> base !! j = Some lt0).
  { intros j lt0 Hj. destruct Hbase as [[-> _] | [-> _]]; [exact Hj|].
    apply lookup_app_l_Some. exact Hj. }
  split.
  - intros n idx Hn. destruct Hbase as [[_ ->] | [_ [Hnone ->]]]; [exact Hn|].
    rewrite lookup_insert_ne; [exact Hn|]. intros ->. congruence.
  - intros j lt0 Hj. apply Hkeep in Hj. rewrite Htm.
    destruct (decide (j = i)) as [->|Hne].
    + rewrite Hlt in Hj. injection Hj as <-.
      eexists _, [shard].
      rewrite list_lookup_insert_eq by (apply lookup_lt_Some in Hlt; exact Hlt).
      split; reflexivity.
    + exists lt0, []. rewrite list_lookup_insert_ne by congruence.
      rewrite app_nil_r. auto.
Qed.

Lemma read_tensor_metadata_extends ver file_idx :
  forall fuel f tm f' tm',
    llama_file_loader.read_tensor_metadata fuel ver file_idx f tm = Fine (f', tm') ->
    map_extends tm tm'.
Proof.
  induction fuel as [|fuel IH]; intros f tm f' tm' Hr;
    cbn [llama_file_loader.read_tensor_metadata] in Hr;
    destruct (llama_file.tell f <? llama_file.size f).
  - discriminate Hr.
  - injection Hr as <- <-. apply map_extends_refl.
  - destruct (llama_file_loader.read_tensor_record ver file_idx f tm) as [[f1 tm1]|]
      eqn:Hrec; cbn [abind] in Hr; [|discriminate Hr].
    eapply map_extends_trans; [eapply read_tensor_record_extends; exact Hrec|].
    eapply IH; exact Hr.
  - injection Hr as <- <-. apply map_extends_refl.
Qed.

Lemma loader_create_extends content file_idx tm ld tm' :
  llama_file_loader.create content file_idx tm = Fine (ld, tm') ->
  map_extends tm tm'.
Proof.
  unfold llama_file_loader.create. intros Hc. abind_inv Hc. injection Hc as <- <-.
  eapply read_tensor_metadata_extends; eauto.
Qed.

Lemma hparams_neq_false a b :
  llama_model_loader.hparams_neq a b = false -> a = b.
Proof.
  unfold llama_model_loader.hparams_neq. intros Hn.
  apply negb_false_iff in Hn. rewrite !andb_true_iff in Hn.
  destruct Hn as [[[[[[[H1 H2] H3] H4] H5] H6] H7] H8].
  apply Z.eqb_eq in H1, H2, H3, H4, H5, H6, H7, H8.
  destruct a, b; cbn in *; congruence.
Qed.

(** The further parts: one loader for every part, all with the
    hyperparameters of the first file. *)
Lemma load_parts_spec files fname_base first k :
  forall i loaders tm loaders' tm',
    llama_model_loader.load_parts files fname_base first k i loaders tm
    = Fine (loaders', tm') ->
    map_extends tm tm'
    /\ exists added,
         loaders' = loaders ++ added /\ length added = k
         /\ Forall (fun ld => llama_file_loader.hparams ld
                              = llama_file_loader.hparams first) added.
Proof.
  induction k as [|k IH]; intros i loaders tm loaders' tm' Hl;
    cbn [llama_model_loader.load_parts] in Hl.
  - injection Hl as <- <-. split; [apply map_extends_refl|].
    exists []. rewrite app_nil_r. repeat split. constructor.
  - abind_inv Hl.
    destruct (llama_model_loader.hparams_neq _ _) eqn:Hneq; [discriminate Hl|].
    apply hparams_neq_false in Hneq.
    destruct (IH _ _ _ _ _ Hl) as (Hext & added & -> & Hlen & Hall).
    split.
    + eapply map_extends_trans; [eapply loader_create_extends; exact E0 | exact Hext].
    + eexists (_ :: added). rewrite <- app_assoc. cbn [app length].
      split; [reflexivity|]. split; [lia|]. constructor; assumption.
Qed.

Lemma calc_all_tensors_shards l :
  forall l',
    llama_model_loader.calc_all_tensors l = Fine l' ->
    Forall2 (fun lt lt' => LoadTensor.shards lt' = LoadTensor.shards lt) l l'.
Proof.
  induction l as [|lt rest IH]; intros l' Hc;
    cbn [llama_model_loader.calc_all_tensors] in Hc.
  - injection Hc as <-. constructor.
  - abind_inv Hc. injection Hc as <-.
    constructor; [apply calc_all_keeps; exact E | apply IH; reflexivity].
Qed.

Lemma model_files_parts mmap_supported files fname_base use_mmap vocab_only ml :
  llama_model_loader.create mmap_supported files fname_base use_mmap vocab_only
  = Fine ml ->
  exists first rest, llama_model_loader.file_loaders ml = first :: rest.
Proof.
  unfold llama_model_loader.create. intros Hc. abind_inv Hc. injection Hc as <-.
  cbn [llama_model_loader.file_loaders].
  match goal with
  | E : llama_model_loader.load_parts _ _ _ _ _ _ _ = Fine _ |- _ =>
      destruct (load_parts_spec _ _ _ _ _ _ _ _ _ E) as (_ & added & -> & _)
  end.
  eexists _, added. reflexivity.
Qed.

End ModelFiles.

(** X19.  The files of a model.  When [llama_model_loader] has read a
    model, all its files have the hyperparameters of the first one.
    With [vocab_only] only the first file is read.  Otherwise the
    first file is followed by [n_embd / ne0 - 1] further files (by
    none when the quotient is 0 or 1), where [n_embd] is that of the
    header and [ne0] the first dimension that the first file gives for
    [tok_embeddings.weight], a tensor that the map holds with its shard
    of the first file in front, and that dimension is not 0.  No
    tensor has been counted as created yet and nothing is mapped. *)
Theorem model_files_consistent `{GgmlTypes} (mmap_supported : bool)
    (files : string -> option (list byte)) (fname_base : string)
    (use_mmap vocab_only : bool) (ml : llama_model_loader.t) :
  llama_model_loader.create mmap_supported files fname_base use_mmap vocab_only
  = Fine ml ->
  exists first rest,
    llama_model_loader.file_loaders ml = first :: rest
    /\ Forall (fun ld => llama_file_loader.hparams ld = llama_file_loader.hparams first)
         rest
    /\ llama_model_loader.num_ggml_tensors_created ml = 0
    /\ llama_model_loader.mapping ml = None
    /\ (if vocab_only then rest = []
        else
          exists idx lt shard ne0,
            llama_load_tensors_map.name_to_idx (llama_model_loader.tensors_map ml)
              !! "tok_embeddings.weight"%string = Some idx
            /\ 0 <= idx
            /\ llama_load_tensors_map.tensors (llama_model_loader.tensors_map ml)
                 !! Z.to_nat idx = Some lt
            /\ LoadTensor.shards lt !! 0%nat = Some shard
            /\ llama_load_tensor_shard.ne shard !! 0%nat = Some ne0
            /\ ne0 <> 0
            /\ length rest
               = Z.to_nat (llama_hparams.n_embd (llama_file_loader.hparams first) / ne0
                           - 1)).
Proof.
  unfold llama_model_loader.create. intros Hc. abind_inv Hc.
  rename a into content, t into first, t0 into tm0, a0 into n_parts,
    l into loaders, t1 into tm1, a1 into final.
  injection Hc as <-.
  cbn [llama_model_loader.file_loaders llama_model_loader.tensors_map
       llama_model_loader.num_ggml_tensors_created llama_model_loader.mapping
       llama_load_tensors_map.tensors llama_load_tensors_map.name_to_idx].
  destruct (load_parts_spec _ _ _ _ _ _ _ _ _ E2) as (Hext & added & -> & Hlen & Hall).
  exists first, added. cbn [app].
  split; [reflexivity|]. split; [exact Hall|]. split; [reflexivity|].
  split; [reflexivity|].
  destruct vocab_only.
  - injection E1 as <-. cbn in Hlen. destruct added; [reflexivity | discriminate Hlen].
  - unfold llama_model_loader.guess_n_parts in E1.
    destruct (llama_load_tensors_map.name_to_idx tm0 !! "tok_embeddings.weight"%string)
      as [idx|] eqn:Hidx; [|discriminate E1].
    abind_inv E1.
    destruct (Z.eqb_spec a2 0) as [|Hne0]; [discriminate E1|].
    injection E1 as <-.
    apply vec_checked_at_Fine in E4, E5, E6, E7.
    change 0 with (Z.of_nat 0) in E6, E7.
    apply vec_at_nat in E6, E7.
    unfold vec_at in E4. destruct (Z.leb_spec 0 idx) as [Hidx0|]; [|discriminate E4].
    destruct (llama_load_tensors_map.tensors tm0 !! Z.to_nat idx) as [lt0|] eqn:Hlt0;
      cbn in E4; [|discriminate E4].
    injection E4 as ->.
    cbn in E5. injection E5 as <-.
    destruct Hext as [Hnames Htensors].
    destruct (Htensors _ _ Hlt0) as (lt1 & more & Hlt1 & Hshards).
    destruct (Forall2_lookup_l _ _ _ _ _ (calc_all_tensors_shards _ _ E3) Hlt1)
      as (lt2 & Hlt2 & Hs2).
    exists idx, lt2, a1, a2.
    split; [apply Hnames; exact Hidx|]. split; [exact Hidx0|].
    split; [exact Hlt2|].
    split; [rewrite Hs2, Hshards; apply lookup_app_l_Some; exact E6|].
    split; [exact E7|]. split; [exact Hne0|]. exact Hlen.
Qed.

Lemma model_files_consistent_witness :
  exists first,
    llama_model_loader.file_loaders (SampleModel.loaded false) = [first]
    /\ llama_model_loader.num_ggml_tensors_created (SampleModel.loaded false) = 0.
Proof.
  destruct (model_files_consistent (H := ggml_types) true SampleModel.files "model.bin"
              true true (SampleModel.loaded false))
    as (first & rest & Hl & _ & Hn & _ & Hrest).
  - vm_compute. reflexivity.
  - exists first. rewrite Hl, Hrest. split; [reflexivity | exact Hn].
Defined.

(** ** Loading a model *)

Section LoadingFacts.
Context `{GgmlTypes} `{GgmlContext}.

Lemma model_type_known n_layer :
  llama_model_type_name (model_type_of n_layer MODEL_UNKNOWN) <> Err AssertFailed
  <-> n_layer = 32 \/ n_layer = 40 \/ n_layer = 60 \/ n_layer = 80.
Proof.
  unfold model_type_of.
  destruct (Z.eqb_spec n_layer 32); [cbn; split; [auto | discriminate]|].
  destruct (Z.eqb_spec n_layer 40); [cbn; split; [auto | discriminate]|].
  destruct (Z.eqb_spec n_layer 60); [cbn; split; [auto | discriminate]|].
  destruct (Z.eqb_spec n_layer 80); [cbn; split; [auto | discriminate]|].
  cbn. split; [congruence | lia].
Qed.

Lemma load_data_for_kind ml lt data d ml' :
  llama_model_loader.load_data_for ml lt data = Fine (d, ml') ->
  llama_model_loader.use_mmap ml' = llama_model_loader.use_mmap ml
  /\ llama_model_loader.mapping ml' = llama_model_loader.mapping ml
  /\ match d with
     | InMapping _ => llama_model_loader.use_mmap ml = true
     | InBuffer _ => llama_model_loader.use_mmap ml = false
     end.
Proof.
  unfold llama_model_loader.load_data_for. intros Hl.
  destruct (llama_model_loader.use_mmap ml) eqn:Hm.
  - abind_inv Hl. injection Hl as <- <-. auto.
  - destruct (LoadTensor.split_type lt); abind_inv Hl.
    + injection Hl as <- <-. auto.
    + destruct (_ =? 0); [discriminate Hl|]. abind_inv Hl. injection Hl as <- <-. auto.
    + injection Hl as <- <-. auto.
Qed.

Lemma load_all_loop_kind tensors :
  forall ml progress done_size data_size log ml' datas log',
    load_all_loop ml tensors progress done_size data_size log = Fine (ml', datas, log') ->
    length datas = length tensors
    /\ llama_model_loader.use_mmap ml' = llama_model_loader.use_mmap ml
    /\ llama_model_loader.mapping ml' = llama_model_loader.mapping ml
    /\ Forall (fun d => match d with
                        | InMapping _ => llama_model_loader.use_mmap ml = true
                        | InBuffer _ => llama_model_loader.use_mmap ml = false
                        end) datas.
Proof.
  induction tensors as [|lt rest IH];
    intros ml progress done_size data_size log ml' datas log' Hl;
    cbn [load_all_loop] in Hl.
  - injection Hl as <- <- <-. repeat split; constructor.
  - abind_inv Hl. injection Hl as <- <- <-.
    match goal with
    | E : llama_model_loader.load_data_for _ _ _ = Fine _ |- _ =>
        destruct (load_data_for_kind _ _ _ _ _ E) as (Hm & Hp & Hk)
    end.
    match goal with
    | E : load_all_loop _ _ _ _ _ _ = Fine _ |- _ =>
        destruct (IH _ _ _ _ _ _ _ _ E) as (Hlen & Hm' & Hp' & Hall)
    end.
    cbn [length]. split; [lia|]. split; [congruence|]. split; [congruence|].
    constructor; [exact Hk|].
    eapply Forall_impl; [exact Hall|]. intros d. rewrite Hm. auto.
Qed.

Lemma length_model_tensors hparams n_ff :
  length (model_tensors hparams n_ff)
  = (3 + 9 * Z.to_nat (llama_hparams.n_layer hparams))%nat.
Proof.
  unfold model_tensors. rewrite length_app. cbn [length]. f_equal.
  assert (Hl : forall l : list Z,
             length (flat_map (layer_tensors (llama_hparams.n_embd hparams) n_ff) l)
             = (9 * length l)%nat).
  { clear. induction l as [|i l IH]; [reflexivity|].
    cbn [flat_map]. rewrite length_app, IH. cbn [layer_tensors length]. lia. }
  rewrite Hl, length_fmap, length_seq. reflexivity.
Qed.

End LoadingFacts.

(** X20.  Only the four layer counts of the LLaMA models can be loaded.
    Let the files of a model have been read by the loader.  When the
    header gives [n_mult = 0] the computation of the feed-forward
    width divides by zero.  Otherwise, when [n_layer] is none of 32,
    40, 60 and 80 the model of a new context keeps the type
    [MODEL_UNKNOWN], for which [llama_model_type_name] fails its
    assertion: the call ends there, also with [vocab_only].  When the
    call returns, the model has the type of its layer count, the
    vocabulary and the hyperparameters of the first file, and the
    context length that the caller gave. *)
Theorem model_layers_decide_type `{GgmlTypes} `{GgmlContext} (mmap_supported : bool)
    (files : string -> option (list byte)) (fname : string) (n_ctx : Z)
    (use_mmap use_mlock vocab_only progress_callback : bool)
    (ml : llama_model_loader.t) :
  llama_model_loader.create mmap_supported files fname use_mmap vocab_only = Fine ml ->
  exists first,
    llama_model_loader.file_loaders ml !! 0%nat = Some first
    /\ let hparams := llama_file_loader.hparams first in
       let n_layer := llama_hparams.n_layer hparams in
       let loaded :=
         llama_model_load_internal mmap_supported files fname MODEL_UNKNOWN n_ctx
           use_mmap use_mlock vocab_only progress_callback in
       (llama_hparams.n_mult hparams = 0 -> loaded = Throw (Fault DivisionByZero))
       /\ (llama_hparams.n_mult hparams <> 0 ->
           ~ (n_layer = 32 \/ n_layer = 40 \/ n_layer = 60 \/ n_layer = 80) ->
           loaded = Throw (Fault AssertFailed))
       /\ (forall vocab model log,
             loaded = Fine (vocab, model, log) ->
             llama_hparams.n_mult hparams <> 0
             /\ (n_layer = 32 /\ llama_model.type model = MODEL_7B
                 \/ n_layer = 40 /\ llama_model.type model = MODEL_13B
                 \/ n_layer = 60 /\ llama_model.type model = MODEL_30B
                 \/ n_layer = 80 /\ llama_model.type model = MODEL_65B)
             /\ vocab = llama_file_loader.vocab first
             /\ llama_model.hparams model
                = {| llama_hparams.n_vocab := llama_hparams.n_vocab hparams;
                     llama_hparams.n_ctx := wrap 32 n_ctx;
                     llama_hparams.n_embd := llama_hparams.n_embd hparams;
                     llama_hparams.n_mult := llama_hparams.n_mult hparams;
                     llama_hparams.n_head := llama_hparams.n_head hparams;
                     llama_hparams.n_layer := n_layer;
                     llama_hparams.n_rot := llama_hparams.n_rot hparams;
                     llama_hparams.ftype := llama_hparams.ftype hparams |}
             /\ (vocab_only = true ->
                 llama_model.tensors_by_name model = []
                 /\ llama_model.mapping model = None /\ log = [])).
Proof.
  intros Hcreate.
  destruct (model_files_parts _ _ _ _ _ _ Hcreate) as (first & rest & Hl).
  exists first. split; [rewrite Hl; reflexivity|].
  intros hparams n_layer loaded. subst loaded.
  unfold llama_model_load_internal. rewrite Hcreate. cbn [abind].
  rewrite Hl. change (vec_checked_at (first :: rest) 0) with (Fine first).
  cbn [abind]. fold hparams. unfold n_ff_of. fold n_layer.
  split; [|split].
  - intros ->. reflexivity.
  - intros Hm Hnot.
    destruct (Z.eqb_spec (llama_hparams.n_mult hparams) 0) as [|_]; [contradiction|].
    cbn [abind].
    destruct (llama_model_type_name (model_type_of n_layer MODEL_UNKNOWN)) as [name|e]
      eqn:Hname.
    + exfalso. apply Hnot. apply model_type_known. rewrite Hname. discriminate.
    + assert (e = AssertFailed) as ->.
      { revert Hname. unfold llama_model_type_name.
        destruct (model_type_of n_layer MODEL_UNKNOWN); congruence. }
      reflexivity.
  - intros vocab model log Hload.
    destruct (Z.eqb_spec (llama_hparams.n_mult hparams) 0) as [|Hm]; [discriminate Hload|].
    cbn [abind] in Hload. split; [exact Hm|].
    destruct (llama_model_type_name (model_type_of n_layer MODEL_UNKNOWN)) as [name|e]
      eqn:Hname; cbn [lift abind] in Hload; [|discriminate Hload].
    assert (Htype : n_layer = 32 /\ model_type_of n_layer MODEL_UNKNOWN = MODEL_7B
                    \/ n_layer = 40 /\ model_type_of n_layer MODEL_UNKNOWN = MODEL_13B
                    \/ n_layer = 60 /\ model_type_of n_layer MODEL_UNKNOWN = MODEL_30B
                    \/ n_layer = 80 /\ model_type_of n_layer MODEL_UNKNOWN = MODEL_65B).
    { assert (Hk : n_layer = 32 \/ n_layer = 40 \/ n_layer = 60 \/ n_layer = 80)
        by (apply model_type_known; rewrite Hname; discriminate).
      destruct Hk as [-> | [-> | [-> | ->]]]; cbn; auto 10. }
    destruct vocab_only.
    + injection Hload as <- <- <-. cbn [llama_model.type llama_model.hparams
        llama_model.tensors_by_name llama_model.mapping].
      repeat split; auto.
    + destruct (calc_sizes ml) as [ctx_size mmapped_size].
      destruct (ggml_init ctx_size (llama_model_loader.use_mmap ml));
        cbn [negb] in Hload; [|discriminate Hload].
      abind_inv Hload. injection Hload as <- <- <-.
      cbn [llama_model.type llama_model.hparams].
      repeat split; auto; discriminate.
Qed.

Lemma model_layers_decide_type_witness :
  llama_model_load_internal (H := ggml_types) (H0 := SampleLoading.ggml_context)
    true SampleModel.files "model.bin" MODEL_UNKNOWN 512 true false true false
  = Throw (Fault AssertFailed).
Proof.
  destruct (model_layers_decide_type (H := ggml_types)
              (H0 := SampleLoading.ggml_context) true SampleModel.files "model.bin"
              512 true false true false (SampleModel.loaded false))
    as (first & Hfirst & _ & Hbad & _).
  - vm_compute. reflexivity.
  - injection Hfirst as <-. apply Hbad; cbn; lia.
Defined.

(** X21.  A loaded model has exactly the tensors of the architecture.
    When [llama_model_load_internal] returns without [vocab_only],
    the tensors of the files are, up to order, the tensors that the
    function asks for: [tok_embeddings.weight], [norm.weight],
    [output.weight] and nine tensors for every layer, under pairwise
    different names and with the shapes that the hyperparameters give;
    every one has been created in the tensor library.  Their data are
    all in buffers when the mapping is not used, and all in the
    mapping otherwise. *)
Theorem loaded_model_tensors `{GgmlTypes} `{GgmlContext} (mmap_supported : bool)
    (files : string -> option (list byte)) (fname : string) (type : e_model)
    (n_ctx : Z) (use_mmap use_mlock progress_callback : bool)
    (vocab : llama_vocab.t) (model : llama_model.t) (log : list float) :
  llama_model_load_internal mmap_supported files fname type n_ctx use_mmap use_mlock
    false progress_callback = Fine (vocab, model, log) ->
  let hparams := llama_model.hparams model in
  let tensors := llama_model.tensors_by_name model in
  exists n_ff,
    n_ff_of hparams = Fine n_ff
    /\ (fun entry : string * option tensor_request * tensor_data =>
          (entry.1.1, request_ne <$> entry.1.2)) <$> tensors
       ≡ₚ (fun req : string * list Z => (req.1, Some req.2))
          <$> model_tensors hparams n_ff
    /\ NoDup ((fun entry : string * option tensor_request * tensor_data => entry.1.1)
              <$> tensors)
    /\ length tensors = (3 + 9 * Z.to_nat (llama_hparams.n_layer hparams))%nat
    /\ (llama_model.mapping model = None
        /\ Forall (fun entry => exists bytes, entry.2 = InBuffer bytes) tensors
        \/ (exists bytes, llama_model.mapping model = Some bytes)
           /\ Forall (fun entry => exists offset, entry.2 = InMapping offset) tensors).
Proof.
  intros Hload hparams tensors. unfold llama_model_load_internal in Hload.
  destruct (llama_model_loader.create mmap_supported files fname use_mmap false)
    as [ml|] eqn:Hcreate; cbn [abind] in Hload; [|discriminate Hload].
  destruct (model_files_parts _ _ _ _ _ _ Hcreate) as (first & rest & Hl).
  rewrite Hl in Hload. change (vec_checked_at (first :: rest) 0) with (Fine first) in Hload.
  cbn [abind] in Hload.
  destruct (n_ff_of (llama_file_loader.hparams first)) as [n_ff|] eqn:Hff;
    cbn [abind] in Hload; [|discriminate Hload].
  destruct (llama_model_type_name _) as [name|]; cbn [lift abind] in Hload;
    [|discriminate Hload].
  destruct (calc_sizes ml) as [ctx_size mmapped_size].
  destruct (ggml_init ctx_size (llama_model_loader.use_mmap ml)); cbn [negb] in Hload;
    [|discriminate Hload].
  match type of Hload with
  | context [llama_model_loader.get_tensors ml ?reqs] =>
      set (requests := reqs) in *;
      destruct (llama_model_loader.get_tensors ml requests) as [[results ml1]|] eqn:Hget;
      cbn [abind] in Hload; [|discriminate Hload]
  end.
  destruct (llama_model_loader.done_getting_tensors ml1) as [[]|] eqn:Hdone;
    cbn [abind] in Hload; [|discriminate Hload].
  destruct (load_all_data ml1 progress_callback use_mlock) as [[[ml2 datas] log2]|]
    eqn:Hdata; cbn [abind] in Hload; [|discriminate Hload].
  injection Hload as <- <- <-.
  subst hparams tensors.
  cbn [llama_model.hparams llama_model.tensors_by_name llama_model.mapping].
  exists n_ff. split; [exact Hff|].
  destruct (model_loader_create_num _ _ _ _ _ _ Hcreate) as [Hnum Hmap].
  pose proof (done_getting_bound _ _ _ _ Hnum Hget Hdone) as Hbound.
  destruct (model_loader_create_fresh _ _ _ _ _ _ Hcreate Hbound) as (_ & Hwf & _).
  destruct (get_tensors_cover _ _ _ _ Hnum Hwf Hbound Hget)
    as (Hnd & _ & _ & Hcount & Hcover).
  destruct (Hcover Hdone) as [Hperm Hmarked].
  pose proof (proj1 Hcount Hdone) as Hlen.
  destruct (get_tensors_marks _ _ _ _ Hget)
    as (_ & _ & _ & _ & _ & _ & _ & _ & _ & Hum1 & Hmp1).
  (* the data *)
  unfold load_all_data in Hdata.
  match type of Hdata with
  | abind ?first_step _ = _ =>
      destruct first_step as [[ml1' progress']|] eqn:Hstep; cbn [abind] in Hdata;
      [|discriminate Hdata]
  end.
  destruct (load_all_loop ml1' _ progress' 0 _ []) as [[[ml3 datas3] log3]|] eqn:Hloop;
    cbn [abind] in Hdata; [|discriminate Hdata].
  injection Hdata as <- <- <-.
  destruct (load_all_loop_kind _ _ _ _ _ _ _ _ _ Hloop) as (Hdl & Hm3 & Hp3 & Hkinds).
  set (described :=
         (fun lt : LoadTensor.t =>
            (LoadTensor.name lt,
             if LoadTensor.ggml_tensor lt
             then Some {| request_type := LoadTensor.type lt;
                          request_ne := LoadTensor.ne lt |}
             else None))
         <$> llama_load_tensors_map.tensors (llama_model_loader.tensors_map ml1)) in *.
  assert (Hzip : (zip described datas3).*1 = described).
  { apply fst_zip. subst described. rewrite length_fmap, Hdl. lia. }
  assert (Hdesc : (fun p : string * option tensor_request => (p.1, request_ne <$> p.2))
                  <$> described
                  = (fun req : string * list Z => (req.1, Some req.2))
                    <$> ((fun lt => (LoadTensor.name lt, LoadTensor.ne lt))
                         <$> llama_load_tensors_map.tensors
                               (llama_model_loader.tensors_map ml))).
  { subst described. rewrite Hmarked, <- !list_fmap_compose.
    apply list_fmap_ext. intros i lt _. reflexivity. }
  split.
  { assert (Hfst : (fun entry : string * option tensor_request * tensor_data =>
                      (entry.1.1, request_ne <$> entry.1.2)) <$> zip described datas3
                   = (fun p : string * option tensor_request =>
                        (p.1, request_ne <$> p.2)) <$> (zip described datas3).*1)
      by (rewrite <- list_fmap_compose; reflexivity).
    rewrite Hfst, Hzip, Hdesc. subst requests. rewrite <- Hperm. reflexivity. }
  split.
  { assert (Hfst : (fun entry : string * option tensor_request * tensor_data =>
                      entry.1.1) <$> zip described datas3
                   = fst <$> (zip described datas3).*1)
      by (rewrite <- list_fmap_compose; reflexivity).
    rewrite Hfst, Hzip.
    assert (Hnames : fst <$> described
                     = fst <$> ((fun lt => (LoadTensor.name lt, LoadTensor.ne lt))
                                <$> llama_load_tensors_map.tensors
                                      (llama_model_loader.tensors_map ml))).
    { subst described. rewrite Hmarked, <- !list_fmap_compose.
      apply list_fmap_ext. intros i lt _. reflexivity. }
    rewrite Hnames, <- Hperm. exact Hnd. }
  split.
  { rewrite length_zip_with, Hdl. subst described. rewrite length_fmap, Nat.min_id.
    rewrite Hmarked, length_fmap, <- Hlen. subst requests.
    apply length_model_tensors. }
  assert (Hsnd : forall P : tensor_data -> Prop,
             Forall P datas3 ->
             Forall (fun entry : string * option tensor_request * tensor_data =>
                       P entry.2) (zip described datas3)).
  { intros P HP. apply Forall_forall. intros [e d] Hin.
    apply elem_of_zip_r in Hin. rewrite Forall_forall in HP. apply HP. exact Hin. }
  destruct (llama_model_loader.use_mmap ml1) eqn:Huse.
  - right. abind_inv Hstep. injection Hstep as <- <-.
    cbn [llama_model_loader.mapping llama_model_loader.use_mmap] in *.
    split; [rewrite Hp3; eauto|].
    apply (Hsnd (fun d => exists offset, d = InMapping offset)).
    eapply Forall_impl; [exact Hkinds|]. intros [bytes|offset] Hk; [discriminate Hk|eauto].
  - left. injection Hstep as <- <-.
    split; [rewrite Hp3, Hmp1; exact Hmap|].
    apply (Hsnd (fun d => exists bytes, d = InBuffer bytes)).
    eapply Forall_impl; [exact Hkinds|]. rewrite Huse.
    intros [bytes|offset] Hk; [eauto | discriminate Hk].
Qed.

Lemma loaded_model_tensors_witness :
  exists vocab model log,
    llama_model_load_internal (H := ggml_types) (H0 := SampleLoading.ggml_context)
      true SampleLoading.files "tiny.bin" MODEL_UNKNOWN 512 false false false true
    = Fine (vocab, model, log)
    /\ length (llama_model.tensors_by_name model)
       = (3 + 9 * Z.to_nat (llama_hparams.n_layer (llama_model.hparams model)))%nat.
Proof.
  assert (E : exists loaded,
             llama_model_load_internal (H := ggml_types)
               (H0 := SampleLoading.ggml_context) true SampleLoading.files "tiny.bin"
               MODEL_UNKNOWN 512 false false false true = Fine loaded).
  { vm_compute. eexists. reflexivity. }
  destruct E as ([[vocab model] log] & E).
  exists vocab, model, log. split; [exact E|].
  destruct (loaded_model_tensors (H := ggml_types) (H0 := SampleLoading.ggml_context)
              true SampleLoading.files "tiny.bin" MODEL_UNKNOWN 512 false false true
              vocab model log E) as (n_ff & _ & _ & _ & Hlen & _).
  exact Hlen.
Defined.

(** X22.  The feed-forward width.  For [n_mult = 0] its computation
    divides by zero.  Otherwise, when [8 * n_embd + n_mult] fits
    [uint32_t], the width is the least multiple of [n_mult] that is
    not below [8 * n_embd / 3]: 11008 for the 7B model. *)
Theorem n_ff_rounds_up (hparams : llama_hparams.t) :
  let n_embd := llama_hparams.n_embd hparams in
  let n_mult := llama_hparams.n_mult hparams in
  (n_mult = 0 -> n_ff_of hparams = Throw (Fault DivisionByZero))
  /\ (0 <= n_embd -> 0 < n_mult -> 8 * n_embd + n_mult <= 2 ^ 32 ->
      exists n_ff,
        n_ff_of hparams = Fine n_ff
        /\ n_ff mod n_mult = 0
        /\ 8 * n_embd / 3 <= n_ff < 8 * n_embd / 3 + n_mult).
Proof.
  intros n_embd n_mult. unfold n_ff_of. fold n_embd n_mult. split.
  - intros ->. reflexivity.
  - intros He Hm Hfit.
    destruct (Z.eqb_spec n_mult 0) as [|_]; [lia|].
    assert (Hx : 0 <= 8 * n_embd / 3 <= 8 * n_embd)
      by (split; [apply Z.div_pos; lia | apply Z.div_le_upper_bound; lia]).
    unfold wrap.
    rewrite (Z.mod_small (4 * n_embd)) by lia.
    replace (2 * (4 * n_embd)) with (8 * n_embd) by lia.
    rewrite (Z.mod_small (8 * n_embd)) by lia.
    rewrite (Z.mod_small (8 * n_embd / 3 + n_mult - 1)) by lia.
    set (y := 8 * n_embd / 3 + n_mult - 1) in *.
    pose proof (Z.div_mod y n_mult ltac:(lia)) as Hdiv.
    pose proof (Z.mod_pos_bound y n_mult Hm) as Hrem.
    assert (Hq : 0 <= y / n_mult) by (apply Z.div_pos; lia).
    rewrite (Z.mod_small (y / n_mult * n_mult)) by nia.
    eexists. split; [reflexivity|]. split; [apply Z.mod_mul; lia|].
    subst y. nia.
Qed.

Lemma n_ff_rounds_up_witness :
  exists n_ff,
    n_ff_of llama_file_loader.default_hparams = Fine n_ff
    /\ n_ff mod 256 = 0 /\ 10922 <= n_ff < 10922 + 256.
Proof.
  apply (proj2 (n_ff_rounds_up llama_file_loader.default_hparams)); cbn; lia.
Defined.

(** ** What a loader has read from a file can be written again *)

Section ReadFacts.

Lemma of_bits_valid z : valid_binary F32.prec F32.emax (F32.of_bits z) = true.
Proof.
  unfold F32.of_bits.
  assert (Hb : 0 <= (z / 2 ^ 23) mod 2 ^ 8 < 2 ^ 8) by (apply Z.mod_pos_bound; lia).
  assert (Hf : 0 <= z mod 2 ^ 23 < 2 ^ 23) by (apply Z.mod_pos_bound; lia).
  set (bexp := (z / 2 ^ 23) mod 2 ^ 8) in *. set (frac := z mod 2 ^ 23) in *.
  destruct (Z.eqb_spec bexp 255) as [_|H255].
  { destruct (frac =? 0); reflexivity. }
  destruct (Z.eqb_spec bexp 0) as [_|H0].
  - destruct frac as [|m|m] eqn:Hfrac; [reflexivity| |reflexivity].
    cbn [valid_binary]. unfold bounded, canonical_mantissa, fexp, emin, F32.prec, F32.emax.
    pose proof (digits2_pos_bounds m) as Hd.
    set (d := Z.pos (digits2_pos m)) in *.
    assert (d <= 23).
    { destruct (Z.le_gt_cases d 23) as [Hle|Hgt]; [exact Hle|].
      assert (2 ^ 23 <= 2 ^ (d - 1)) by (apply Z.pow_le_mono_r; lia). lia. }
    apply andb_true_iff. split; [apply Z.eqb_eq | apply Z.leb_le]; lia.
  - destruct (frac + 2 ^ 23) as [|m|m] eqn:Hm; [reflexivity| |reflexivity].
    cbn [valid_binary]. unfold bounded, canonical_mantissa, fexp, emin, F32.prec, F32.emax.
    pose proof (digits2_pos_bounds m) as Hd.
    set (d := Z.pos (digits2_pos m)) in *.
    assert (Hm1 : 2 ^ 23 <= Z.pos m < 2 ^ 24) by lia.
    assert (d = 24).
    { assert (0 < d) by (subst d; lia).
      destruct (Z.lt_trichotomy d 24) as [Hlt|[Heq|Hgt]]; [|exact Heq|].
      - assert (2 ^ d <= 2 ^ 23) by (apply Z.pow_le_mono_r; lia). lia.
      - assert (2 ^ 24 <= 2 ^ (d - 1)) by (apply Z.pow_le_mono_r; lia). lia. }
    apply andb_true_iff. split; [apply Z.eqb_eq | apply Z.leb_le]; lia.
Qed.

Lemma read_hparams_u32 dflt f hp f' :
  llama_file_loader.read_hparams dflt f = Ok (hp, f') ->
  Layout.hparams_u32 hp /\ llama_hparams.n_ctx hp = llama_hparams.n_ctx dflt.
Proof.
  unfold llama_file_loader.read_hparams. intros Hr. bind_inv Hr.
  injection Hr as <- <-.
  repeat match goal with
         | E : llama_file.read_u32 _ = Ok _ |- _ =>
             apply read_u32_range in E; destruct E as [E _]
         end.
  unfold Layout.hparams_u32. cbn. repeat split; lia.
Qed.

(** The entries that [read_vocab] stores are the ones it has read. *)
Lemma read_vocab_loop_entries (k : nat) : forall (i : nat) ver (v v' : llama_vocab.t) f f',
  (i + k <= length (llama_vocab.id_to_token v))%nat ->
  llama_file_loader.read_vocab_loop k (Z.of_nat i) ver v f = Ok (v', f') ->
  exists entries,
    length entries = k
    /\ Forall Layout.entry_storable entries
    /\ llama_vocab.id_to_token v'
       = take i (llama_vocab.id_to_token v) ++ entries
         ++ drop (i + k) (llama_vocab.id_to_token v)
    /\ llama_vocab.token_to_id v'
       = Layout.vocab_ids (Z.of_nat i) entries (llama_vocab.token_to_id v).
Proof.
  induction k as [|k IH]; intros i ver v v' f f' Hlen Hr;
    cbn [llama_file_loader.read_vocab_loop] in Hr.
  - injection Hr as <- <-. exists []. cbn [length app Layout.vocab_ids].
    rewrite Nat.add_0_r, take_drop. repeat split. constructor.
  - destruct (llama_file.read_u32 f) as [[len f1]|] eqn:Hlenr; cbn [rbind] in Hr;
      [|discriminate Hr].
    destruct (llama_file.read_string len f1) as [[word f2]|] eqn:Hword; cbn [rbind] in Hr;
      [|discriminate Hr].
    match type of Hr with
    | rbind ?r _ = _ => destruct r as [[score f3]|] eqn:Hscore; cbn [rbind] in Hr;
                        [|discriminate Hr]
    end.
    destruct (vec_update (llama_vocab.id_to_token v) (Z.of_nat i) _) as [ids|] eqn:Hupd;
      cbn [rbind] in Hr; [|discriminate Hr].
    unfold vec_update in Hupd.
    destruct (vec_at (llama_vocab.id_to_token v) (Z.of_nat i)) as [old|] eqn:Hold;
      cbn [rbind] in Hupd; [|discriminate Hupd].
    injection Hupd as <-. rewrite Nat2Z.id in Hr.
    apply vec_at_nat in Hold.
    replace (Z.of_nat i + 1) with (Z.of_nat (S i)) in Hr by lia.
    apply IH in Hr; [|cbn [llama_vocab.id_to_token]; rewrite length_insert; lia].
    destruct Hr as (entries & Hn & Hall & Hids & Hmap).
    cbn [llama_vocab.id_to_token llama_vocab.token_to_id] in Hids, Hmap.
    exists ({| llama_vocab.tok := word; llama_vocab.score := score |} :: entries).
    split; [cbn [length]; lia|]. split; [|split].
    + constructor; [|exact Hall]. split; cbn [llama_vocab.tok llama_vocab.score].
      * apply read_u32_range in Hlenr. apply read_string_length in Hword.
        destruct Hlenr as [Hl _], Hword as [Hw _]. rewrite Hw. lia.
      * destruct (llama_file_loader.version_rank ver
                  >=? llama_file_loader.version_rank Loader.LLAMA_FILE_VERSION_GGMF_V1).
        -- destruct (llama_file.read_raw 4 f2) as [[bs f4]|]; cbn [rbind] in Hscore;
             [|discriminate Hscore].
           injection Hscore as <- _. apply of_bits_valid.
        -- injection Hscore as <- _. reflexivity.
    + rewrite Hids.
      rewrite take_insert_lt by lia.
      rewrite (take_S_r _ _ old Hold), insert_app_r_alt by (rewrite length_take; lia).
      rewrite length_take, Nat.min_l by lia. rewrite Nat.sub_diag. cbn [insert list_insert].
      rewrite <- app_assoc. cbn [app].
      rewrite drop_insert_lt by lia.
      replace (S i + k)%nat with (i + S k)%nat by lia. reflexivity.
    + rewrite Hmap. cbn [Layout.vocab_ids llama_vocab.tok].
      replace (Z.of_nat (S i)) with (Z.of_nat i + 1) by lia. reflexivity.
Qed.

Context `{GgmlTypes}.

(** The header that a loader has read: numbers of 32 bits, as many
    entries as [n_vocab] says, every entry storable. *)
Lemma loader_create_storable content file_idx tm ld tm' :
  llama_file_loader.create content file_idx tm = Fine (ld, tm') ->
  let entries := llama_vocab.id_to_token (llama_file_loader.vocab ld) in
  Layout.hparams_u32 (llama_file_loader.hparams ld)
  /\ llama_hparams.n_ctx (llama_file_loader.hparams ld) = 512
  /\ length entries = Z.to_nat (llama_hparams.n_vocab (llama_file_loader.hparams ld))
  /\ Forall Layout.entry_storable entries
  /\ llama_vocab.token_to_id (llama_file_loader.vocab ld)
     = Layout.vocab_ids 0 entries ∅.
Proof.
  unfold llama_file_loader.create. intros Hc. abind_inv Hc. injection Hc as <- <-.
  cbn [llama_file_loader.hparams llama_file_loader.vocab].
  apply lift_Fine in E0, E1.
  destruct (read_hparams_u32 _ _ _ _ E0) as [Hu32 Hctx].
  unfold llama_file_loader.read_vocab in E1.
  change 0 with (Z.of_nat 0) in E1.
  apply read_vocab_loop_entries in E1;
    [|cbn [llama_vocab.id_to_token]; rewrite take_nil, app_nil_l, length_replicate;
      cbn [length]; lia].
  destruct E1 as (entries & Hn & Hall & Hids & Hmap).
  cbn [llama_vocab.id_to_token llama_vocab.token_to_id] in Hids, Hmap.
  rewrite take_0, app_nil_l, take_nil, app_nil_l in Hids.
  rewrite drop_ge in Hids by (rewrite length_replicate; cbn [length]; lia).
  rewrite app_nil_r in Hids.
  cbv zeta. rewrite Hids, Hmap. repeat split; try apply Hu32; auto.
Qed.

End ReadFacts.

Section InputTensors.
Context `{GgmlTypes}.

Local Abbreviation tensors := llama_load_tensors_map.tensors.
Local Abbreviation name_to_idx := llama_load_tensors_map.name_to_idx.

Lemma read_tensor_record_listed ver file_idx f tm f' tm' :
  llama_file_loader.read_tensor_record ver file_idx f tm = Fine (f', tm') ->
  Z.of_nat (length (tensors tm')) < 2 ^ 64 ->
  names_listed tm -> names_listed tm'.
Proof.
  intros Hr Hlen Hwf.
  destruct (read_tensor_record_adds _ _ _ _ _ _ Hr)
    as (name & shard & base & i & lt & _ & _ & (_ & _ & _ & Hshort) & Hbase & Hlt & Htm).
  assert (Hnames : LoadTensor.name <$> tensors tm' = LoadTensor.name <$> base).
  { rewrite Htm, list_fmap_insert. cbn [LoadTensor.set_shards LoadTensor.name].
    apply list_insert_id. rewrite list_lookup_fmap, Hlt. reflexivity. }
  unfold names_listed. rewrite Hnames. intros j n Hj.
  destruct Hbase as [[-> Hmap] | [-> [Hnone Hmap]]]; rewrite Hmap.
  - apply Hwf. exact Hj.
  - assert (Hsmall : size_t (Z.of_nat (length (tensors tm)))
                     = Z.of_nat (length (tensors tm))).
    { unfold size_t, wrap. apply Z.mod_small.
      rewrite Htm, length_insert, length_app in Hlen. cbn [length] in Hlen. lia. }
    rewrite Hsmall. rewrite fmap_app in Hj.
    cbn [fmap list_fmap LoadTensor.create LoadTensor.name] in Hj.
    destruct (decide (j < length (tensors tm))%nat) as [Hlt'|Hge].
    + rewrite lookup_app_l in Hj by (rewrite length_fmap; exact Hlt').
      destruct (Hwf j n Hj) as [Hidx Hs]. split; [|exact Hs].
      rewrite lookup_insert_ne; [exact Hidx|].
      intros ->. rewrite Hnone in Hidx. discriminate Hidx.
    + rewrite lookup_app_r in Hj by (rewrite length_fmap; lia).
      rewrite length_fmap in Hj.
      destruct (j - length (tensors tm))%nat as [|d] eqn:Hd; [|discriminate Hj].
      injection Hj as <-. rewrite lookup_insert_eq.
      split; [f_equal; lia | exact Hshort].
Qed.

Lemma read_tensor_metadata_listed ver file_idx :
  forall fuel f tm f' tm',
    llama_file_loader.read_tensor_metadata fuel ver file_idx f tm = Fine (f', tm') ->
    Z.of_nat (length (tensors tm')) < 2 ^ 64 ->
    names_listed tm -> names_listed tm'.
Proof.
  induction fuel as [|fuel IH]; intros f tm f' tm' Hr Hlen Hinv;
    cbn [llama_file_loader.read_tensor_metadata] in Hr;
    destruct (llama_file.tell f <? llama_file.size f).
  - discriminate Hr.
  - injection Hr as <- <-. exact Hinv.
  - destruct (llama_file_loader.read_tensor_record ver file_idx f tm) as [[f1 tm1]|]
      eqn:Hrec; cbn [abind] in Hr; [|discriminate Hr].
    apply (IH _ _ _ _ Hr Hlen).
    apply (read_tensor_record_listed _ _ _ _ _ _ Hrec); [|exact Hinv].
    apply read_tensor_metadata_length in Hr. lia.
  - injection Hr as <- <-. exact Hinv.
Qed.

Lemma loader_create_listed content file_idx tm ld tm' :
  llama_file_loader.create content file_idx tm = Fine (ld, tm') ->
  Z.of_nat (length (tensors tm')) < 2 ^ 64 ->
  names_listed tm -> names_listed tm'.
Proof.
  unfold llama_file_loader.create. intros Hc. abind_inv Hc. injection Hc as <- <-.
  eapply read_tensor_metadata_listed; eauto.
Qed.

Lemma load_parts_listed files fname_base first k :
  forall i loaders tm loaders' tm',
    llama_model_loader.load_parts files fname_base first k i loaders tm
    = Fine (loaders', tm') ->
    Z.of_nat (length (tensors tm')) < 2 ^ 64 ->
    names_listed tm -> names_listed tm'.
Proof.
  induction k as [|k IH]; intros i loaders tm loaders' tm' Hl Hlen Hinv;
    cbn [llama_model_loader.load_parts] in Hl.
  - injection Hl as <- <-. exact Hinv.
  - abind_inv Hl.
    destruct (llama_model_loader.hparams_neq _ _); [discriminate Hl|].
    apply (IH _ _ _ _ _ Hl Hlen).
    apply (loader_create_listed _ _ _ _ _ E0); [|exact Hinv].
    apply load_parts_length in Hl. lia.
Qed.

Lemma load_parts_every (P : llama_load_tensor_shard.t -> Prop) files fname_base first k :
  (forall shard,
     (1 <= length (llama_load_tensor_shard.ne shard) <= 2)%nat ->
     Forall (fun d => 0 <= d < 2 ^ 32) (llama_load_tensor_shard.ne shard) ->
     P shard) ->
  forall i loaders tm loaders' tm',
    llama_model_loader.load_parts files fname_base first k i loaders tm
    = Fine (loaders', tm') ->
    every_shard P tm -> every_shard P tm'.
Proof.
  intros HP.
  induction k as [|k IH]; intros i loaders tm loaders' tm' Hl Hall;
    cbn [llama_model_loader.load_parts] in Hl.
  - injection Hl as <- <-. exact Hall.
  - abind_inv Hl.
    destruct (llama_model_loader.hparams_neq _ _); [discriminate Hl|].
    apply (IH _ _ _ _ _ Hl).
    apply (loader_create_every P _ _ _ _ _ E0); [|exact Hall].
    intros shard _ _ _ Hlen Hu32. apply HP; assumption.
Qed.

(** The shape that [calc_all] gives a tensor whose shards have shapes
    of one or two dimensions of 32 bits is such a shape. *)
Lemma calc_all_shape (x x' : LoadTensor.t) :
  Forall (fun sh => shape_storable (llama_load_tensor_shard.ne sh)) (LoadTensor.shards x) ->
  LoadTensor.calc_all x = Fine x' ->
  shape_storable (LoadTensor.ne x').
Proof.
  intros Hall Hc.
  assert (Hu : Forall (fun sh => Forall (fun d => 0 <= d < 2 ^ 32)
                                   (llama_load_tensor_shard.ne sh)) (LoadTensor.shards x)).
  { eapply Forall_impl; [exact Hall|]. intros sh [_ Hu]. exact Hu. }
  destruct (calc_all_spec _ _ Hu Hc)
    as (_ & _ & _ & _ & first & Hfirst & _ & Hsplit).
  assert (Hf : shape_storable (llama_load_tensor_shard.ne first)).
  { exact (proj1 (Forall_lookup _ _) Hall _ _ Hfirst). }
  destruct Hf as [Hlen Hd].
  destruct (LoadTensor.split_type x').
  - destruct Hsplit as [-> _]. split; assumption.
  - destruct Hsplit as (Hn & a & b & rest & Hne & -> & Hlt).
    rewrite Hne in Hd. inversion Hd as [|? ? Ha Hd']; subst.
    inversion Hd' as [|? ? Hb _]; subst.
    split; [cbn; lia|]. repeat constructor; nia.
  - destruct Hsplit as (Hn & a & b & rest & Hne & -> & Hlt).
    rewrite Hne in Hd. inversion Hd as [|? ? Ha Hd']; subst.
    inversion Hd' as [|? ? Hb _]; subst.
    split; [cbn; lia|]. repeat constructor; nia.
Qed.

Lemma calc_all_tensors_shape l :
  forall l',
    llama_model_loader.calc_all_tensors l = Fine l' ->
    Forall (fun lt => Forall (fun sh => shape_storable (llama_load_tensor_shard.ne sh))
                        (LoadTensor.shards lt)) l ->
    Forall (fun lt => shape_storable (LoadTensor.ne lt)) l'.
Proof.
  induction l as [|lt rest IH]; intros l' Hc Hall;
    cbn [llama_model_loader.calc_all_tensors] in Hc.
  - injection Hc as <-. constructor.
  - abind_inv Hc. injection Hc as <-.
    inversion Hall; subst. constructor.
    + eapply calc_all_shape; eauto.
    + apply IH; [reflexivity | assumption].
Qed.

(** The tensors of a model loader have distinct names shorter than
    [2^32] bytes and shapes of one or two dimensions of 32 bits; the
    first file has a header that can be stored. *)
Lemma model_loader_create_storable mmap_supported files fname_base use_mmap vocab_only ml :
  llama_model_loader.create mmap_supported files fname_base use_mmap vocab_only
  = Fine ml ->
  Z.of_nat (length (tensors (llama_model_loader.tensors_map ml))) < 2 ^ 64 ->
  names_listed (llama_model_loader.tensors_map ml)
  /\ Forall (fun lt => shape_storable (LoadTensor.ne lt))
       (tensors (llama_model_loader.tensors_map ml))
  /\ exists first rest content tm0,
       llama_model_loader.file_loaders ml = first :: rest
       /\ llama_file_loader.create content 0 llama_load_tensors_map.empty
          = Fine (first, tm0).
Proof.
  unfold llama_model_loader.create. intros Hc. abind_inv Hc.
  rename a into content, t into first, t0 into tm0, a0 into n_parts,
    l into loaders, t1 into tm1, a1 into final.
  injection Hc as <-.
  cbn [llama_model_loader.tensors_map llama_model_loader.file_loaders
       llama_load_tensors_map.tensors].
  intros Hlen.
  destruct (calc_all_tensors_names _ _ E3) as [Hnames _].
  assert (Hl : length final = length (tensors tm1)).
  { rewrite <- (length_fmap LoadTensor.name final), Hnames, length_fmap. reflexivity. }
  split; [|split].
  - assert (Hinv : names_listed tm1).
    { apply (load_parts_listed _ _ _ _ _ _ _ _ _ E2); [lia|].
      apply (loader_create_listed _ _ _ _ _ E0).
      - apply load_parts_length in E2. lia.
      - intros j n Hj. cbn in Hj. discriminate Hj. }
    unfold names_listed in *.
    cbn [llama_load_tensors_map.tensors llama_load_tensors_map.name_to_idx].
    rewrite Hnames. exact Hinv.
  - apply (calc_all_tensors_shape _ _ E3).
    change (every_shard (fun sh => shape_storable (llama_load_tensor_shard.ne sh)) tm1).
    eapply load_parts_every; [|exact E2|].
    { intros shard Hlen' Hu. split; assumption. }
    apply (loader_create_every _ _ _ _ _ _ E0).
    + intros shard _ _ _ Hlen' Hu. split; assumption.
    + constructor.
  - destruct (load_parts_extends _ _ _ _ _ _ _ _ _ E2) as [added ->].
    exists first, added, content, tm0. split; [reflexivity | exact E0].
Qed.

Lemma names_listed_NoDup tm :
  names_listed tm -> NoDup (LoadTensor.name <$> tensors tm).
Proof.
  intros Hwf. apply NoDup_alt. intros i j n Hi Hj.
  destruct (Hwf i n Hi) as [Ei _]. destruct (Hwf j n Hj) as [Ej _].
  rewrite Ei in Ej. injection Ej as Ej. lia.
Qed.

End InputTensors.

Section QuantizedFile.
Context `{Ggml} `{GgmlTypes}.

Local Abbreviation tensors_of := llama_load_tensors_map.tensors.
Local Abbreviation index_of := llama_load_tensors_map.name_to_idx.

(** A file whose position is [g] bytes behind its end. *)
Local Abbreviation at_gap c g :=
  {| llama_file.bytes := c; llama_file.pos := Z.of_nat (length c + g) |}.

Lemma write_u32_at_gap c (g : nat) v :
  llama_file.write_u32 v (at_gap c g)
  = Layout.at_split ((c ++ replicate g x00) ++ le_encode 4 v) [].
Proof.
  unfold llama_file.write_u32, llama_file.write_raw.
  pose proof (length_le_encode 4 v) as Hl.
  destruct (le_encode 4 v) as [|b bs]; [discriminate Hl|].
  cbn [llama_file.bytes llama_file.pos]. rewrite Nat2Z.id.
  replace (length c + g - length c)%nat with g by lia.
  rewrite take_ge by (rewrite length_app, length_replicate; lia).
  rewrite drop_ge by (rewrite length_app, length_replicate; lia).
  unfold Layout.at_split. rewrite !app_nil_r. f_equal.
  rewrite !length_app, length_replicate. lia.
Qed.

Lemma write_tensor_at_gap c (g : nat) (tensor : LoadTensor.t) new_type new_data new_size :
  llama_file_saver.write_tensor (at_gap c g) tensor new_type new_data new_size
  = llama_file_saver.write_tensor (Layout.at_split (c ++ replicate g x00) []) tensor
      new_type new_data new_size.
Proof.
  unfold llama_file_saver.write_tensor.
  rewrite write_u32_at_gap, (write_u32_at_end (c ++ replicate g x00)). reflexivity.
Qed.

(** One round of the loop writes the tensor with the type that the
    conversion has chosen. *)
Lemma quantize_step_writes qt ml file (tensor : LoadTensor.t) ml' file' :
  Z.of_nat (String.length (LoadTensor.name tensor)) < 2 ^ 32 ->
  quantize_step qt ml file tensor = Fine (ml', file') ->
  exists new_data new_size,
    llama_file_saver.write_tensor file tensor
      (if converted tensor then qt else LoadTensor.type tensor) new_data new_size
    = Fine file'.
Proof.
  intros Hshort.
  assert (Hflag : forall d,
            Quantizer.quantize_flag (as_load_tensor tensor d) = converted tensor).
  { intros d. unfold Quantizer.quantize_flag, converted, as_load_tensor.
    cbn [llama_load_tensor.name llama_load_tensor.ne].
    rewrite quantize_name_test by (unfold Quantizer.str_size, npos; lia).
    reflexivity. }
  unfold quantize_step. intros Hq. abind_inv Hq. injection Hq as <- <-.
  match goal with
  | E : lift (Quantizer.quantize_tensor qt (as_load_tensor tensor ?d)) = Fine ?o |- _ =>
      apply lift_Fine in E; unfold Quantizer.quantize_tensor in E;
      rewrite (Hflag d) in E;
      exists (Quantizer.new_data o), (Quantizer.new_size o);
      destruct (converted tensor); cbn [negb] in E;
      [bind_inv E|]; injection E as <-; cbn [Quantizer.new_type] in *; assumption
  end.
Qed.

Lemma length_record_bytes ne name type :
  (12 <= length (Layout.record_bytes ne name type))%nat.
Proof.
  unfold Layout.record_bytes. rewrite !length_app, !length_le_encode. lia.
Qed.

(** The loop of the quantization and the loop of a loader over the
    bytes it has written: the loader finds the tensors of the input,
    one after the other. *)
Lemma quantize_loop_reads_back qt : forall (tensors : list LoadTensor.t) ml c (g : nat) ml' file',
  quantize_loop qt ml (at_gap c g) tensors = Fine (ml', file') ->
  Forall (fun lt => shape_storable (LoadTensor.ne lt)
                    /\ Z.of_nat (String.length (LoadTensor.name lt)) < 2 ^ 32) tensors ->
  NoDup (LoadTensor.name <$> tensors) ->
  exists c' (g' : nat) more,
    file' = at_gap c' g'
    /\ c' = c ++ more
    /\ (length tensors <= length more)%nat
    /\ forall tail (tm : llama_load_tensors_map.t),
         Forall (fun lt => index_of tm !! LoadTensor.name lt = None) tensors ->
         Z.of_nat (length (tensors_of tm) + length tensors) < 2 ^ 64 ->
         exists news tm',
           Forall2 (quantized_as qt) tensors news
           /\ tensors_of tm' = tensors_of tm ++ news
           /\ forall fuel,
                llama_file_loader.read_tensor_metadata (length tensors + fuel)
                  Loader.LLAMA_FILE_VERSION_GGJT_V1 0
                  {| llama_file.bytes := c' ++ tail;
                     llama_file.pos := Z.of_nat (length c + g) |} tm
                = llama_file_loader.read_tensor_metadata fuel
                    Loader.LLAMA_FILE_VERSION_GGJT_V1 0
                    {| llama_file.bytes := c' ++ tail;
                       llama_file.pos := Z.of_nat (length c' + g') |} tm'.
Proof.
  induction tensors as [|tensor rest IH]; intros ml c g ml' file' Hq Hok Hnd;
    cbn [quantize_loop] in Hq.
  - injection Hq as <- <-. exists c, g, []. rewrite app_nil_r.
    repeat split; [cbn; lia|].
    intros tail tm _ _. exists [], tm. rewrite app_nil_r.
    split; [constructor|]. split; reflexivity.
  - destruct (quantize_step qt ml (at_gap c g) tensor) as [[ml1 file1]|] eqn:Hstep;
      cbn [abind] in Hq; [|discriminate Hq].
    inversion Hok as [|? ? [[Hlen Hu32] Hshort] Hok']; subst.
    cbn [fmap list_fmap] in Hnd. apply NoDup_cons in Hnd. destruct Hnd as [Hnotin Hnd].
    destruct (quantize_step_writes _ _ _ _ _ _ Hshort Hstep)
      as (new_data & new_size & Hw).
    set (new_type := if converted tensor then qt else LoadTensor.type tensor) in *.
    rewrite write_tensor_at_gap in Hw.
    destruct (write_tensor_checks _ _ _ _ _ _ Hw) as [Hcalc Hrange].
    rewrite (write_tensor_at_end _ _ _ _ _ Hcalc Hrange) in Hw.
    set (behind := c ++ replicate g x00) in *.
    set (record := Layout.record_bytes (LoadTensor.ne tensor) (LoadTensor.name tensor)
                     new_type) in *.
    set (p := Z.of_nat (length (behind ++ record))) in *.
    set (X := if new_size =? 0 then []
              else replicate (Z.to_nat (Layout.padding p)) x00
                   ++ take (Z.to_nat new_size) new_data) in *.
    pose proof (padding_range p) as Hpad.
    pose proof (padding_aligns p) as Halign.
    pose proof (length_record_bytes (LoadTensor.ne tensor) (LoadTensor.name tensor)
                  new_type) as Hrec.
    fold record in Hrec.
    set (g1 := if new_size =? 0 then Z.to_nat (Layout.padding p) else 0%nat).
    assert (Hpos : p + Layout.padding p + new_size
                   = Z.of_nat (length ((behind ++ record) ++ X) + g1)).
    { subst X g1. destruct (Z.eqb_spec new_size 0) as [->|Hne].
      - rewrite app_nil_r. subst p. lia.
      - rewrite (length_app (behind ++ record)), (length_app (replicate _ _)),
          length_replicate, length_take.
        subst p. lia. }
    injection Hw as <-. rewrite Hpos in Hq.
    destruct (IH _ _ _ _ _ Hq Hok' Hnd) as (c' & g' & more & -> & Hc' & Hmore & Hread).
    exists c', g', (replicate g x00 ++ record ++ X ++ more).
    split; [reflexivity|]. split.
    { rewrite Hc'. subst behind. rewrite <- !app_assoc. reflexivity. }
    split.
    { rewrite !length_app. cbn [length]. lia. }
    intros tail tm Hfresh Hbound.
    apply Forall_cons in Hfresh. destruct Hfresh as [Hfresh1 Hfresh'].
    cbn [length] in Hbound.
    set (shard := {| llama_load_tensor_shard.ne := LoadTensor.ne tensor;
                     llama_load_tensor_shard.size := new_size;
                     llama_load_tensor_shard.type := new_type;
                     llama_load_tensor_shard.file_idx := 0;
                     llama_load_tensor_shard.file_off := p + Layout.padding p |}).
    set (new1 := LoadTensor.set_shards [shard] (LoadTensor.create (LoadTensor.name tensor))).
    set (tm1 := {| llama_load_tensors_map.tensors := tensors_of tm ++ [new1];
                   llama_load_tensors_map.name_to_idx :=
                     <[LoadTensor.name tensor := Z.of_nat (length (tensors_of tm))]>
                       (index_of tm) |}).
    destruct (Hread tail tm1) as (news & tm' & Hnews & Htm' & Hfuel).
    { cbn [llama_load_tensors_map.name_to_idx tm1].
      apply Forall_forall. intros lt Hin.
      rewrite lookup_insert_ne.
      - exact (proj1 (Forall_forall _ _) Hfresh' lt Hin).
      - intros Heq. apply Hnotin. rewrite Heq.
        apply list_elem_of_fmap_2. exact Hin. }
    { cbn [llama_load_tensors_map.tensors tm1]. rewrite length_app. cbn [length]. lia. }
    exists (new1 :: news), tm'.
    split.
    { constructor; [|exact Hnews].
      unfold quantized_as. split; [reflexivity|].
      exists shard. repeat split. exact Halign. }
    split.
    { rewrite Htm'. cbn [llama_load_tensors_map.tensors tm1].
      rewrite <- app_assoc. reflexivity. }
    intros fuel. rewrite <- Hfuel.
    cbn [length Nat.add llama_file_loader.read_tensor_metadata].
    assert (Hbytes : c' ++ tail = (behind ++ record) ++ X ++ more ++ tail).
    { rewrite Hc', <- !app_assoc. reflexivity. }
    assert (Hstart : {| llama_file.bytes := c' ++ tail;
                        llama_file.pos := Z.of_nat (length c + g) |}
                     = Layout.at_split behind (record ++ X ++ more ++ tail)).
    { unfold Layout.at_split. rewrite Hbytes. f_equal; [rewrite <- !app_assoc; reflexivity|].
      subst behind. rewrite length_app, length_replicate. reflexivity. }
    rewrite Hstart.
    replace (llama_file.tell (Layout.at_split behind (record ++ X ++ more ++ tail))
             <? llama_file.size (Layout.at_split behind (record ++ X ++ more ++ tail)))
      with true.
    2:{ symmetry. apply Z.ltb_lt.
        unfold llama_file.tell, llama_file.size, Layout.at_split.
        cbn [llama_file.pos llama_file.bytes]. rewrite !length_app. lia. }
    subst record.
    rewrite (read_tensor_record_at_split behind (LoadTensor.ne tensor)
               (LoadTensor.name tensor) new_type (X ++ more ++ tail) 0 tm new_size
               Hlen Hu32 Hshort Hcalc Hfresh1 ltac:(lia)).
    cbn [abind]. fold p. fold shard. fold new1. fold tm1.
    f_equal. f_equal; [|exact Hpos]. symmetry. exact Hbytes.
Qed.

(** A loader on a file that starts with a header as the saver writes
    it goes on with the tensors behind the header. *)
Lemma loader_create_header_then (hp : llama_hparams.t) (ftype : Z)
    (entries : list llama_vocab.token_score) (post : list byte) tensors_map :
  Layout.hparams_u32 hp -> 0 <= ftype < 2 ^ 32 ->
  length entries = Z.to_nat (llama_hparams.n_vocab hp) ->
  Forall Layout.entry_storable entries ->
  let header :=
    Layout.magic_bytes ++ Layout.hparams_bytes hp ftype ++ Layout.vocab_bytes entries in
  llama_file_loader.create (header ++ post) 0 tensors_map
  = let+ (f, tensors_map) :=
      llama_file_loader.read_tensor_metadata (length (header ++ post))
        Loader.LLAMA_FILE_VERSION_GGJT_V1 0 (Layout.at_split header post) tensors_map in
    Fine ({| llama_file_loader.file := f;
             llama_file_loader.file_version := Loader.LLAMA_FILE_VERSION_GGJT_V1;
             llama_file_loader.hparams :=
               {| llama_hparams.n_vocab := llama_hparams.n_vocab hp;
                  llama_hparams.n_ctx := 512;
                  llama_hparams.n_embd := llama_hparams.n_embd hp;
                  llama_hparams.n_mult := llama_hparams.n_mult hp;
                  llama_hparams.n_head := llama_hparams.n_head hp;
                  llama_hparams.n_layer := llama_hparams.n_layer hp;
                  llama_hparams.n_rot := llama_hparams.n_rot hp;
                  llama_hparams.ftype := ftype |};
             llama_file_loader.vocab :=
               {| llama_vocab.token_to_id := Layout.vocab_ids 0 entries ∅;
                  llama_vocab.id_to_token := entries |} |},
          tensors_map).
Proof.
  intros Hhp Hft Hlen Hall header.
  unfold llama_file_loader.create.
  set (fuel := length (header ++ post)). subst header.
  rewrite <- !app_assoc.
  rewrite read_magic_ggjt. cbn [lift abind].
  rewrite read_hparams_at_split by assumption. cbn [lift abind].
  unfold llama_file_loader.read_vocab.
  cbn [llama_hparams.n_vocab llama_vocab.id_to_token llama_vocab.token_to_id].
  rewrite <- Hlen. change 0 with (Z.of_nat 0).
  rewrite (read_vocab_loop_at_split_ids Loader.LLAMA_FILE_VERSION_GGJT_V1 entries 0
             {| llama_vocab.token_to_id := ∅;
                llama_vocab.id_to_token :=
                  take (length entries) [] ++
                  replicate (length entries - length (A := llama_vocab.token_score) [])
                    {| llama_vocab.tok := EmptyString; llama_vocab.score := F32.zero |} |}
             (Layout.magic_bytes ++ Layout.hparams_bytes hp ftype) post);
    [|cbn; lia
     |cbn [llama_vocab.id_to_token length]; rewrite take_nil, app_nil_l, length_replicate; lia
     |exact Hall].
  cbn [lift abind llama_vocab.id_to_token llama_vocab.token_to_id].
  rewrite take_0, app_nil_l, take_nil, app_nil_l.
  rewrite drop_ge by (rewrite length_replicate; cbn; lia).
  rewrite !app_nil_r, <- !app_assoc. reflexivity.
Qed.

End QuantizedFile.

(** X23.  A file that [llama_model_quantize_internal] has written is a
    model file of the newest format: a loader reads from it the
    hyperparameters of the first input file with the new file type, the
    vocabulary of that file, and the tensors of the input in their
    order, each under its name with one shard of its shape, of the
    quantized type when it has two dimensions and a name that ends with
    ["weight"] or is five bytes long, and of its own type otherwise.
    The input holds fewer than [2^64] tensors. *)
Theorem quantized_file_reads_back `{Ggml} `{GgmlTypes} (mmap_supported : bool)
    (files : string -> option (list byte)) (fname_inp : string) (ftype : Z)
    (ml : llama_model_loader.t) (out : list byte) :
  llama_model_loader.create mmap_supported files fname_inp false false = Fine ml ->
  Z.of_nat (length (llama_load_tensors_map.tensors (llama_model_loader.tensors_map ml)))
  < 2 ^ 64 ->
  llama_model_quantize_internal mmap_supported files fname_inp ftype = Fine out ->
  exists quantized_type first rest loader tensors_map,
    ((ftype = LLAMA_FTYPE_MOSTLY_Q4_0 /\ quantized_type = GGML_TYPE_Q4_0)
     \/ (ftype = LLAMA_FTYPE_MOSTLY_Q4_1 /\ quantized_type = GGML_TYPE_Q4_1))
    /\ llama_model_loader.file_loaders ml = first :: rest
    /\ llama_file_loader.create out 0 llama_load_tensors_map.empty
       = Fine (loader, tensors_map)
    /\ llama_file_loader.file_version loader = Loader.LLAMA_FILE_VERSION_GGJT_V1
    /\ llama_file_loader.hparams loader
       = with_ftype ftype (llama_file_loader.hparams first)
    /\ llama_file_loader.vocab loader = llama_file_loader.vocab first
    /\ Forall2 (quantized_as quantized_type)
         (llama_load_tensors_map.tensors (llama_model_loader.tensors_map ml))
         (llama_load_tensors_map.tensors tensors_map).
Proof.
  intros Hml Hbound Hq.
  unfold llama_model_quantize_internal in Hq.
  match type of Hq with
  | abind ?r _ = _ => destruct r as [qt|] eqn:Hqt; cbn [abind] in Hq; [|discriminate Hq]
  end.
  rewrite Hml in Hq. cbn [abind] in Hq.
  destruct (vec_checked_at (llama_model_loader.file_loaders ml) 0) as [first0|] eqn:Hfirst;
    cbn [abind] in Hq; [|discriminate Hq].
  destruct (llama_file_saver.create first0 ftype) as [file0|] eqn:Hsave;
    cbn [abind] in Hq; [|discriminate Hq].
  match type of Hq with
  | abind ?r _ = _ => destruct r as [[ml' file']|] eqn:Hloop; cbn [abind] in Hq;
                      [|discriminate Hq]
  end.
  injection Hq as <-.
  assert (Hft : (ftype = LLAMA_FTYPE_MOSTLY_Q4_0 /\ qt = GGML_TYPE_Q4_0)
                \/ (ftype = LLAMA_FTYPE_MOSTLY_Q4_1 /\ qt = GGML_TYPE_Q4_1)).
  { destruct (Z.eqb_spec ftype LLAMA_FTYPE_MOSTLY_Q4_0) as [->|_].
    - injection Hqt as <-. left. split; reflexivity.
    - destruct (Z.eqb_spec ftype LLAMA_FTYPE_MOSTLY_Q4_1) as [->|_]; [|discriminate Hqt].
      injection Hqt as <-. right. split; reflexivity. }
  assert (Hrange : 0 <= ftype < 2 ^ 32).
  { unfold LLAMA_FTYPE_MOSTLY_Q4_0, LLAMA_FTYPE_MOSTLY_Q4_1 in Hft.
    destruct Hft as [[-> _]|[-> _]]; lia. }
  destruct (model_loader_create_storable _ _ _ _ _ _ Hml Hbound)
    as (Hlisted & Hshapes & first & rest & content & tm0 & Hloaders & Hcreate).
  rewrite Hloaders in Hfirst.
  change (vec_checked_at (first :: rest) 0) with (Fine first) in Hfirst.
  injection Hfirst as <-.
  destruct (loader_create_storable _ _ _ _ _ Hcreate)
    as (Hu32 & Hctx & Hlen & Hstorable & Hids).
  set (hp := llama_file_loader.hparams first) in *.
  set (entries := llama_vocab.id_to_token (llama_file_loader.vocab first)) in *.
  rewrite saver_create_spec in Hsave by (fold hp entries; lia).
  fold hp entries in Hsave. rewrite <- Hlen, firstn_all in Hsave.
  set (header := Layout.magic_bytes ++ Layout.hparams_bytes hp ftype
                 ++ Layout.vocab_bytes entries) in *.
  assert (Hf0 : file0 = Layout.at_split header []) by congruence.
  subst file0. clear Hsave.
  assert (Hfile0 : Layout.at_split header []
                   = {| llama_file.bytes := header;
                        llama_file.pos := Z.of_nat (length header + 0) |}).
  { unfold Layout.at_split. rewrite app_nil_r, Nat.add_0_r. reflexivity. }
  rewrite Hfile0 in Hloop.
  set (T := llama_load_tensors_map.tensors (llama_model_loader.tensors_map ml)) in *.
  assert (Hok : Forall (fun lt => shape_storable (LoadTensor.ne lt)
                                  /\ Z.of_nat (String.length (LoadTensor.name lt)) < 2 ^ 32)
                  T).
  { apply Forall_lookup. intros j lt Hj. split.
    - exact (proj1 (Forall_lookup _ _) Hshapes j lt Hj).
    - apply (Hlisted j (LoadTensor.name lt)). fold T.
      rewrite list_lookup_fmap, Hj. reflexivity. }
  destruct (quantize_loop_reads_back qt T _ _ _ _ _ Hloop Hok
              (names_listed_NoDup _ Hlisted))
    as (c' & g' & more & -> & Hc' & Hmore & Hread).
  cbn [llama_file.bytes].
  destruct (Hread [] llama_load_tensors_map.empty) as (news & tm' & Hnews & Htm' & Hfuel).
  { apply Forall_forall. intros lt _. apply lookup_empty. }
  { cbn [llama_load_tensors_map.tensors llama_load_tensors_map.empty length]. lia. }
  cbn [llama_load_tensors_map.tensors llama_load_tensors_map.empty app] in Htm'.
  rewrite app_nil_r, Nat.add_0_r in Hfuel.
  exists qt, first, rest.
  eexists. exists tm'.
  split; [exact Hft|]. split; [exact Hloaders|].
  split.
  { rewrite Hc'.
    pose proof (loader_create_header_then hp ftype entries more
                  llama_load_tensors_map.empty Hu32 Hrange Hlen Hstorable) as Hhead.
    cbv zeta in Hhead. fold header in Hhead. rewrite Hhead. rewrite <- Hc'.
    assert (Hstart : Layout.at_split header more
                     = {| llama_file.bytes := c';
                          llama_file.pos := Z.of_nat (length header) |}).
    { unfold Layout.at_split. rewrite Hc'. reflexivity. }
    rewrite Hstart.
    replace (length c') with (length T + (length c' - length T))%nat
      by (rewrite Hc', length_app; lia).
    rewrite Hfuel.
    assert (Hend : forall fuel,
              llama_file_loader.read_tensor_metadata fuel
                Loader.LLAMA_FILE_VERSION_GGJT_V1 0
                {| llama_file.bytes := c';
                   llama_file.pos := Z.of_nat (length c' + g') |} tm'
              = Fine ({| llama_file.bytes := c';
                         llama_file.pos := Z.of_nat (length c' + g') |}, tm')).
    { intros fuel.
      assert (Hdone : (llama_file.tell {| llama_file.bytes := c';
                                          llama_file.pos := Z.of_nat (length c' + g') |}
                       <? llama_file.size {| llama_file.bytes := c';
                                             llama_file.pos := Z.of_nat (length c' + g') |})
                      = false).
      { apply Z.ltb_ge. unfold llama_file.tell, llama_file.size.
        cbn [llama_file.pos llama_file.bytes]. lia. }
      destruct fuel; cbn [llama_file_loader.read_tensor_metadata]; rewrite Hdone;
        reflexivity. }
    rewrite Hend. cbn [abind]. reflexivity. }
  cbn [llama_file_loader.file_version llama_file_loader.hparams llama_file_loader.vocab].
  split; [reflexivity|]. split.
  { unfold with_ftype. fold hp. rewrite Hctx. reflexivity. }
  split.
  { fold entries in Hids. subst entries.
    destruct (llama_file_loader.vocab first) as [m ids].
    cbn [llama_vocab.token_to_id llama_vocab.id_to_token] in *. rewrite Hids. reflexivity. }
  rewrite Htm'. exact Hnews.
Qed.

Lemma quantized_file_reads_back_witness :
  exists quantized_type first rest loader tensors_map,
    ((LLAMA_FTYPE_MOSTLY_Q4_0 = LLAMA_FTYPE_MOSTLY_Q4_0
      /\ quantized_type = GGML_TYPE_Q4_0)
     \/ (LLAMA_FTYPE_MOSTLY_Q4_0 = LLAMA_FTYPE_MOSTLY_Q4_1
         /\ quantized_type = GGML_TYPE_Q4_1))
    /\ llama_model_loader.file_loaders SampleQuantize.loaded = first :: rest
    /\ llama_file_loader.create (H := ggml_types) SampleQuantize.q4_0_file 0
         llama_load_tensors_map.empty
       = Fine (loader, tensors_map)
    /\ llama_file_loader.file_version loader = Loader.LLAMA_FILE_VERSION_GGJT_V1
    /\ llama_file_loader.hparams loader
       = with_ftype LLAMA_FTYPE_MOSTLY_Q4_0 (llama_file_loader.hparams first)
    /\ llama_file_loader.vocab loader = llama_file_loader.vocab first
    /\ Forall2 (quantized_as quantized_type)
         (llama_load_tensors_map.tensors
            (llama_model_loader.tensors_map SampleQuantize.loaded))
         (llama_load_tensors_map.tensors tensors_map).
Proof.
  apply (quantized_file_reads_back (H := Example.toy_ggml) (H0 := ggml_types) false
           SampleQuantize.files "f32.bin" LLAMA_FTYPE_MOSTLY_Q4_0
           SampleQuantize.loaded SampleQuantize.q4_0_file).
  - vm_compute. reflexivity.
  - vm_compute. reflexivity.
  - vm_compute. reflexivity.
Defined.
